(** * Butano: resource handles and HBlank effects

    A shallow embedding of the hardware resource and per-scanline effect
    layer of the Butano engine, and the properties its specification states
    about it.

    Part I holds the embedding, one module per source unit.  Part II holds the
    properties.  C++ [int] values are [Z]; a table reached through a
    [const void*] or [uint16_t*] is the list of its 16-bit cells; a function
    that can stop in [BN_ASSERT] / [BTN_ASSERT] / [BN_ERROR] returns a
    [result]. *)

From Stdlib Require Import ZArith List Bool String Lia.
From stdpp Require Import base option list gmap.
From Equations Require Import Equations.
Import ListNotations.
Local Open Scope Z_scope.

(* ===================================================================== *)
(** * Part I. The embedding                                               *)
(* ===================================================================== *)

(** ** Fatal assertions

    [BN_ASSERT(condition, message, values...)] stops the program when the
    condition is false.  A call that can reach one returns [Fatal] with the
    message and the integer values printed after it. *)

Inductive result (A : Type) : Type :=
| Ok (a : A)
| Fatal (message : string) (values : list Z).

Arguments Ok {A} a.
Arguments Fatal {A} message values.

Definition bind {A B : Type} (r : result A) (k : A -> result B) : result B :=
  match r with
  | Ok a => k a
  | Fatal m vs => Fatal m vs
  end.

Declare Scope result_scope.
Delimit Scope result_scope with result.
Notation "x <- r ;; k" := (bind r (fun x => k))
  (at level 100, r at next level, right associativity) : result_scope.

(** [BN_ASSERT(condition, message, values...)] as a statement. *)
Definition bn_assert (condition : bool) (message : string) (values : list Z)
  : result unit :=
  if condition then Ok tt else Fatal message values.

Definition is_ok {A : Type} (r : result A) : bool :=
  match r with Ok _ => true | Fatal _ _ => false end.

(** ** [bn::iany]: the opaque per-slot cache

    [bn::iany] is outside the sources at hand.  The handlers store either
    nothing, a [pair<int, int>] or a [last_value_type] in the slot's [iany];
    [value<T>()] asserts that the stored type is [T]. *)

Inductive bpp_mode := BPP_4 | BPP_8.

Definition bpp_mode_eqb (a b : bpp_mode) : bool :=
  match a, b with
  | BPP_4, BPP_4 | BPP_8, BPP_8 => true
  | _, _ => false
  end.

(** [regular_bg_attributes_hblank_effect_handler::last_value_type]. *)
Record last_value_type := {
  _map_dimensions : Z * Z;
  _tiles_cbb : Z;
  _bpp : bpp_mode
}.

Definition int_pair_eqb (a b : Z * Z) : bool :=
  (fst a =? fst b) && (snd a =? snd b).

(** The defaulted [operator==] of [last_value_type]: member by member. *)
Definition last_value_eqb (a b : last_value_type) : bool :=
  int_pair_eqb (_map_dimensions a) (_map_dimensions b)
  && (_tiles_cbb a =? _tiles_cbb b)
  && bpp_mode_eqb (_bpp a) (_bpp b).

Inductive iany :=
| any_empty
| any_int_pair (p : Z * Z)
| any_last_value (v : last_value_type).

Definition any_value_int_pair (a : iany) : result (Z * Z) :=
  match a with
  | any_int_pair p => Ok p
  | _ => Fatal "Invalid any type" []
  end.

Definition any_value_last_value (a : iany) : result last_value_type :=
  match a with
  | any_last_value v => Ok v
  | _ => Fatal "Invalid any type" []
  end.

(** ** The collaborators the handlers read

    [display_manager], [bgs_manager] and the [hw] register tables are outside
    the sources at hand; the handlers only query them, so their answers are
    the fields of an [engine]. *)

Record regular_bg_map_ptr := {
  map_dimensions : Z * Z;
  map_tiles_cbb : Z;
  map_bpp : bpp_mode
}.

Record engine := {
  (* display_manager::rect_window_hw_horizontal_boundaries(id) *)
  rect_window_hw_horizontal_boundaries : Z -> Z * Z;
  (* display_manager::fill_rect_window_hblank_effect_horizontal_boundaries *)
  fill_rect_window_hblank_effect_horizontal_boundaries :
    Z * Z -> list Z -> list Z -> list Z;
  (* bgs_manager::hw_id(handle) *)
  bgs_hw_id : Z -> option Z;
  (* bgs_manager::map(handle) *)
  bgs_map : Z -> regular_bg_map_ptr;
  (* bgs_manager::fill_hblank_effect_regular_attributes *)
  fill_hblank_effect_regular_attributes : Z -> list Z -> list Z -> list Z;
  (* hw::display::window_horizontal_boundaries_register(id) *)
  window_horizontal_boundaries_register : Z -> Z;
  (* hw::bgs::attributes_register(hw_id) *)
  bgs_attributes_register : Z -> Z;
  (* hw::palettes::sprite_color_register(index) *)
  sprite_color_register : Z -> Z
}.

(** Modelled from the spec: [display::height()], the display line count,
    "160 for this class of hardware". *)
Definition display_height : nat := 160.

(** Modelled from the spec: [memory::copy(source, elements, destination)]
    is outside the sources at hand; it is the copy by which a handler fills
    the output line table from the input one: the first [elements] cells of
    the destination become those of the source. *)
Definition memory_copy {A : Type} (source : list A) (elements : nat)
    (destination : list A) : list A :=
  firstn elements source ++ skipn elements destination.

(** ** The effect handler interface ([hblank_effect_handler])

    One record of operations per handler kind, the vtable of the virtual
    class.  [target_updated] returns the answer and the new cache.  The
    [show] and [cleanup] hooks of the later handlers ([show] does nothing,
    [cleanup] asks the owning manager for a reload) take no part in the
    recomputation and are not embedded. *)

Record hblank_effect_handler := {
  setup_target : engine -> Z -> iany -> iany;
  target_visible : engine -> Z -> bool;
  target_updated : engine -> Z -> iany -> result (bool * iany);
  output_register : engine -> Z -> result Z;
  write_output_values : engine -> Z -> iany -> list Z -> list Z -> result (list Z)
}.

(** *** [color_hblank_effect_handler] (btn_sprite_palette_hblank_effects.cpp) *)
Module color_hblank_effect_handler.

Definition setup_target (e : engine) (target_id : Z) (target_last_value : iany)
  : iany := target_last_value.

Definition target_visible (e : engine) (target_id : Z) : bool := true.

Definition target_updated (e : engine) (target_id : Z) (target_last_value : iany)
  : result (bool * iany) := Ok (false, target_last_value).

Definition output_register (e : engine) (target_id : Z) : result Z :=
  Ok (sprite_color_register e target_id).

Definition write_output_values (e : engine) (target_id : Z)
    (target_last_value : iany) (input_values output_values : list Z)
  : result (list Z) :=
  Ok (memory_copy input_values display_height output_values).

Definition handler : hblank_effect_handler :=
  Build_hblank_effect_handler setup_target target_visible target_updated
    output_register write_output_values.

End color_hblank_effect_handler.

(** *** [rect_window_horizontal_boundaries_hbe_handler] *)
Module rect_window_horizontal_boundaries_hbe_handler.

Definition target_visible (e : engine) (target_id : Z) : bool := true.

Definition setup_target (e : engine) (target_id : Z) (target_last_value : iany)
  : iany := any_int_pair (0, 0).

Definition target_updated (e : engine) (target_id : Z) (target_last_value : iany)
  : result (bool * iany) :=
  (last_value <- any_value_int_pair target_last_value ;;
   let new_value := rect_window_hw_horizontal_boundaries e target_id in
   let updated := negb (int_pair_eqb last_value new_value) in
   Ok (updated, any_int_pair new_value))%result.

Definition output_register (e : engine) (target_id : Z) : result Z :=
  Ok (window_horizontal_boundaries_register e target_id).

Definition write_output_values (e : engine) (target_id : Z)
    (target_last_value : iany) (input_values output_values : list Z)
  : result (list Z) :=
  (last_value <- any_value_int_pair target_last_value ;;
   Ok (fill_rect_window_hblank_effect_horizontal_boundaries e last_value
         input_values output_values))%result.

Definition handler : hblank_effect_handler :=
  Build_hblank_effect_handler setup_target target_visible target_updated
    output_register write_output_values.

End rect_window_horizontal_boundaries_hbe_handler.

(** *** [regular_bg_attributes_hblank_effect_handler] *)
Module regular_bg_attributes_hblank_effect_handler.

(** [last_value_type(int target_id)], through [bgs_manager::map(handle)]. *)
Definition make_last_value (e : engine) (target_id : Z) : last_value_type :=
  let target_map_ptr := bgs_map e target_id in
  {| _map_dimensions := map_dimensions target_map_ptr;
     _tiles_cbb := map_tiles_cbb target_map_ptr;
     _bpp := map_bpp target_map_ptr |}.

Definition setup_target (e : engine) (target_id : Z) (target_last_value : iany)
  : iany := any_last_value (make_last_value e target_id).

Definition target_visible (e : engine) (target_id : Z) : bool :=
  match bgs_hw_id e target_id with
  | Some _ => true
  | None => false
  end.

Definition target_updated (e : engine) (target_id : Z) (target_last_value : iany)
  : result (bool * iany) :=
  (last_value <- any_value_last_value target_last_value ;;
   let new_value := make_last_value e target_id in
   let updated := negb (last_value_eqb last_value new_value) in
   Ok (updated, any_last_value new_value))%result.

(** [*bgs_manager::hw_id(handle)]: dereferencing an empty optional asserts. *)
Definition output_register (e : engine) (target_id : Z) : result Z :=
  match bgs_hw_id e target_id with
  | Some id => Ok (bgs_attributes_register e id)
  | None => Fatal "Optional is empty" []
  end.

Definition write_output_values (e : engine) (target_id : Z)
    (target_last_value : iany) (input_values output_values : list Z)
  : result (list Z) :=
  Ok (fill_hblank_effect_regular_attributes e target_id input_values
        output_values).

Definition handler : hblank_effect_handler :=
  Build_hblank_effect_handler setup_target target_visible target_updated
    output_register write_output_values.

End regular_bg_attributes_hblank_effect_handler.

(** ** The HBlank effect scheduler ([hblank_effects_manager]) *)

(** Modelled from the spec: [hblank_effects_manager] is not among the sources
    at hand.  Section 3 gives the slot (target id, handler, visible flag,
    cached last value, caller-owned input table, reload flag, double-buffered
    line table), section 4.4 the per-frame pass and the capacity bound, and
    section 7 what happens when the capacity is exhausted: an explicit
    failure result on the optional entry point (a negative id, which the
    caller in the sources tests with [id >= 0]) and a fatal assertion on the
    entry point without a failure path.  [write_calls] is the call counter of
    section 8. *)
Module hblank_effects_manager.

Record item_type := {
  target_id : Z;
  handler : hblank_effect_handler;
  visible : bool;
  target_last_value : iany;
  values_ref : list Z;
  values_count : Z;
  update : bool;
  output_values : list Z;
  inactive_values : list Z;
  write_calls : nat
}.

(** Modelled from the spec: a fixed number of slots; [None] is a free one.
    The id of an effect is the index of its slot. *)
Definition manager := list (option item_type).

Definition init (max_items : nat) : manager := replicate max_items None.

Fixpoint free_index (items : manager) : option nat :=
  match items with
  | [] => None
  | None :: _ => Some 0%nat
  | Some _ :: rest => S <$> free_index rest
  end.

Definition full (items : manager) : bool :=
  match free_index items with
  | Some _ => false
  | None => true
  end.

(** Modelled from the spec: a slot enters in state CREATED; [setup_target]
    runs once, the slot is shown and its table is due for a first
    computation. *)
Definition new_item (e : engine) (values : list Z) (count : Z) (target : Z)
    (h : hblank_effect_handler) : item_type :=
  {| target_id := target;
     handler := h;
     visible := true;
     target_last_value := setup_target h e target any_empty;
     values_ref := values;
     values_count := count;
     update := true;
     output_values := replicate display_height 0;
     inactive_values := replicate display_height 0;
     write_calls := 0 |}.

(** Modelled from the spec: the entry point with a failure path; at full
    capacity the failure result is a negative id and nothing changes. *)
Definition optional_create (e : engine) (values : list Z) (count : Z)
    (target : Z) (h : hblank_effect_handler) (items : manager)
  : Z * manager :=
  match free_index items with
  | Some i => (Z.of_nat i, <[i := Some (new_item e values count target h)]> items)
  | None => (-1, items)
  end.

(** Modelled from the spec: the entry point without a failure path; at full
    capacity it stops in a fatal assertion. *)
Definition create (e : engine) (values : list Z) (count : Z)
    (target : Z) (h : hblank_effect_handler) (items : manager)
  : result (Z * manager) :=
  match free_index items with
  | Some i =>
      Ok (Z.of_nat i, <[i := Some (new_item e values count target h)]> items)
  | None => Fatal "No more HBlank effects available" []
  end.

Definition item_at (id : Z) (items : manager) : option item_type :=
  if id <? 0 then None else mjoin (items !! Z.to_nat id).

Definition set_item (id : Z) (it : item_type) (items : manager) : manager :=
  <[Z.to_nat id := Some it]> items.

Definition with_update (flag : bool) (it : item_type) : item_type :=
  {| target_id := target_id it; handler := handler it; visible := visible it;
     target_last_value := target_last_value it; values_ref := values_ref it;
     values_count := values_count it; update := flag;
     output_values := output_values it;
     inactive_values := inactive_values it; write_calls := write_calls it |}.

Definition with_values (values : list Z) (count : Z) (it : item_type)
  : item_type :=
  {| target_id := target_id it; handler := handler it; visible := visible it;
     target_last_value := target_last_value it; values_ref := values;
     values_count := count; update := update it;
     output_values := output_values it;
     inactive_values := inactive_values it; write_calls := write_calls it |}.

Definition with_visible (flag : bool) (it : item_type) : item_type :=
  {| target_id := target_id it; handler := handler it; visible := flag;
     target_last_value := target_last_value it; values_ref := values_ref it;
     values_count := values_count it; update := update it;
     output_values := output_values it;
     inactive_values := inactive_values it; write_calls := write_calls it |}.

Definition with_last_value (last : iany) (it : item_type) : item_type :=
  {| target_id := target_id it; handler := handler it; visible := visible it;
     target_last_value := last; values_ref := values_ref it;
     values_count := values_count it; update := update it;
     output_values := output_values it;
     inactive_values := inactive_values it; write_calls := write_calls it |}.

(** Modelled from the spec: the freshly written buffer becomes the one the
    hardware reads; the one it was reading becomes the inactive one; the
    counter records the call. *)
Definition with_written (written : list Z) (it : item_type) : item_type :=
  {| target_id := target_id it; handler := handler it; visible := visible it;
     target_last_value := target_last_value it; values_ref := values_ref it;
     values_count := values_count it; update := false;
     output_values := written;
     inactive_values := output_values it;
     write_calls := S (write_calls it) |}.

(** Modelled from the spec: the caller-owned table, as the slot's pointer
    reaches it. *)
Definition get_values_ref (id : Z) (items : manager) : result (list Z) :=
  match item_at id items with
  | Some it => Ok (values_ref it)
  | None => Fatal "Invalid HBlank effect id" [id]
  end.

(** Modelled from the spec: pointing the slot to another table is a change
    of its input. *)
Definition set_values_ref (id : Z) (values : list Z) (count : Z)
    (items : manager) : result manager :=
  match item_at id items with
  | Some it => Ok (set_item id (with_update true (with_values values count it)) items)
  | None => Fatal "Invalid HBlank effect id" [id]
  end.

(** Modelled from the spec: the caller writes its own table in place; the
    scheduler is not told. *)
Definition caller_writes_values (id : Z) (values : list Z) (items : manager)
  : manager :=
  match item_at id items with
  | Some it => set_item id (with_values values (values_count it) it) items
  | None => items
  end.

(** Modelled from the spec: the reload notification. *)
Definition reload_values_ref (id : Z) (items : manager) : result manager :=
  match item_at id items with
  | Some it => Ok (set_item id (with_update true it) items)
  | None => Fatal "Invalid HBlank effect id" [id]
  end.

Definition set_visible (id : Z) (flag : bool) (items : manager)
  : result manager :=
  match item_at id items with
  | Some it => Ok (set_item id (with_visible flag it) items)
  | None => Fatal "Invalid HBlank effect id" [id]
  end.

(** Modelled from the spec: one slot, one frame (section 4.4).  A hidden
    slot or one whose target is not visible is skipped; otherwise
    [target_updated] is evaluated, and [write_output_values] runs into the
    inactive buffer when it or the reload flag says so. *)
Definition update_item (e : engine) (it : item_type) : result item_type :=
  if negb (visible it) then Ok it
  else if negb (target_visible (handler it) e (target_id it)) then Ok it
  else
    (r <- target_updated (handler it) e (target_id it) (target_last_value it) ;;
     let it' := with_last_value (snd r) it in
     if fst r || update it then
       (written <- write_output_values (handler it) e (target_id it) (snd r)
                     (values_ref it) (inactive_values it) ;;
        Ok (with_written written it'))
     else Ok it')%result.

(** Modelled from the spec: the once-per-frame pass over all the slots. *)
Fixpoint update_items (e : engine) (items : manager) : result manager :=
  match items with
  | [] => Ok []
  | None :: rest =>
      (rest' <- update_items e rest ;; Ok (None :: rest'))%result
  | Some it :: rest =>
      (it' <- update_item e it ;;
       rest' <- update_items e rest ;;
       Ok (Some it' :: rest'))%result
  end.

End hblank_effects_manager.

(** ** [sprite_palette_color_hblank_effect_ptr]
    (btn_sprite_palette_hblank_effects.cpp)

    [sprite_palette_ptr] is outside the sources at hand; [create] and
    [optional_create] use its [id()] and [colors_count()] only. *)

Class sprite_palette_view (P : Type) := {
  palette_id : P -> Z;
  palette_colors_count : P -> Z
}.

(** [span<const color>]: a pointer and a size. *)
Record span := {
  span_data : list Z;
  span_size : Z
}.

Module sprite_palette_color_hblank_effect_ptr.

Record t (P : Type) := {
  id : Z;
  _color_index : Z;
  _palette : P
}.

Arguments id {P} _.
Arguments _color_index {P} _.
Arguments _palette {P} _.

Section with_palette.
Context {P : Type} `{sprite_palette_view P}.

Definition create (e : engine) (palette : P) (color_index : Z)
    (colors_ref : span) (items : hblank_effects_manager.manager)
  : result (t P * hblank_effects_manager.manager) :=
  (_ <- bn_assert ((color_index >=? 0) && (color_index <? palette_colors_count palette))
         "Invalid color index: " [color_index; palette_colors_count palette] ;;
   let final_color_index := (palette_id palette * 16) + color_index in
   r <- hblank_effects_manager.create e (span_data colors_ref)
          (span_size colors_ref) final_color_index
          color_hblank_effect_handler.handler items ;;
   Ok ({| id := fst r; _color_index := color_index; _palette := palette |},
       snd r))%result.

Definition optional_create (e : engine) (palette : P) (color_index : Z)
    (colors_ref : span) (items : hblank_effects_manager.manager)
  : result (option (t P) * hblank_effects_manager.manager) :=
  (_ <- bn_assert ((color_index >=? 0) && (color_index <? palette_colors_count palette))
         "Invalid color index: " [color_index; palette_colors_count palette] ;;
   let final_color_index := (palette_id palette * 16) + color_index in
   let r := hblank_effects_manager.optional_create e (span_data colors_ref)
              (span_size colors_ref) final_color_index
              color_hblank_effect_handler.handler items in
   let id := fst r in
   let result : option (t P) := None in
   let result :=
     if id >=? 0
     then Some {| id := id; _color_index := color_index; _palette := palette |}
     else result in
   Ok (result, snd r))%result.

Definition colors_ref (p : t P) (items : hblank_effects_manager.manager)
  : result span :=
  (values_ptr <- hblank_effects_manager.get_values_ref (id p) items ;;
   Ok {| span_data := values_ptr; span_size := Z.of_nat display_height |})%result.

Definition set_colors_ref (p : t P) (colors_ref : span)
    (items : hblank_effects_manager.manager)
  : result hblank_effects_manager.manager :=
  hblank_effects_manager.set_values_ref (id p) (span_data colors_ref)
    (span_size colors_ref) items.

Definition reload_colors_ref (p : t P)
    (items : hblank_effects_manager.manager)
  : result hblank_effects_manager.manager :=
  hblank_effects_manager.reload_values_ref (id p) items.

End with_palette.

End sprite_palette_color_hblank_effect_ptr.

(** ** The memory pool *)

(** Modelled from the spec: the allocator of the hardware memory banks is not
    among the sources at hand.  Section 3 gives the block (start offset,
    length, in-use flag; the bank is the pool's), section 4.1 the operations:
    first-fit [allocate] that splits and never compacts, [release] that merges
    free neighbours, and [compact] that moves the in-use blocks to the front
    in address order and reports each move (old offset, new offset, length).
    Offsets and lengths are in bytes; the bank's bytes are [cells]. *)
Module memory_pool.

Local Open Scope nat_scope.

Record block := {
  start_offset : nat;
  length : nat;
  in_use : bool
}.

Record pool := {
  bank_id : nat;
  bank_size : nat;
  blocks : list block;
  cells : nat -> Z
}.

Definition init (bank size : nat) : pool :=
  {| bank_id := bank;
     bank_size := size;
     blocks := [ {| start_offset := 0; length := size; in_use := false |} ];
     cells := fun _ => 0%Z |}.

Definition with_blocks (bs : list block) (p : pool) : pool :=
  {| bank_id := bank_id p; bank_size := bank_size p; blocks := bs;
     cells := cells p |}.

Definition with_cells (m : nat -> Z) (p : pool) : pool :=
  {| bank_id := bank_id p; bank_size := bank_size p; blocks := blocks p;
     cells := m |}.

(** Modelled from the spec: the bytes of a range. *)
Definition read (offset len : nat) (m : nat -> Z) : list Z :=
  map m (seq offset len).

(** Modelled from the spec: copying [data] to the bank at [offset]. *)
Definition write (offset : nat) (data : list Z) (m : nat -> Z) : nat -> Z :=
  fun a =>
    if (offset <=? a) && (a <? offset + List.length data)
    then nth (a - offset) data 0%Z
    else m a.

(** Modelled from the spec: [allocate], first fit.  The first free block
    that is long enough is split, its front part becomes the allocation;
    there is no compaction here. *)
Fixpoint allocate_blocks (len : nat) (bs : list block)
  : option (nat * list block) :=
  match bs with
  | [] => None
  | b :: rest =>
      if negb (in_use b) && (len <=? length b) then
        let front := {| start_offset := start_offset b; length := len;
                        in_use := true |} in
        let back := {| start_offset := start_offset b + len;
                       length := length b - len; in_use := false |} in
        Some (start_offset b,
              if len <? length b then front :: back :: rest else front :: rest)
      else
        match allocate_blocks len rest with
        | Some (offset, rest') => Some (offset, b :: rest')
        | None => None
        end
  end.

Definition allocate (len : nat) (p : pool) : option (nat * pool) :=
  match allocate_blocks len (blocks p) with
  | Some (offset, bs) => Some (offset, with_blocks bs p)
  | None => None
  end.

(** Modelled from the spec: [release] marks the block free and merges
    adjacent free blocks into one. *)
Fixpoint merge_free (bs : list block) : list block :=
  match bs with
  | [] => []
  | b :: rest =>
      match merge_free rest with
      | b' :: rest' =>
          if negb (in_use b) && negb (in_use b')
          then {| start_offset := start_offset b;
                  length := length b + length b'; in_use := false |} :: rest'
          else b :: b' :: rest'
      | [] => [b]
      end
  end.

Definition mark_free (offset len : nat) (b : block) : block :=
  if (start_offset b =? offset) && (length b =? len) && in_use b
  then {| start_offset := offset; length := len; in_use := false |}
  else b.

Definition release (offset len : nat) (p : pool) : pool :=
  with_blocks (merge_free (map (mark_free offset len) (blocks p))) p.

(** Modelled from the spec: [compact].  One move of the compaction is (old
    offset, new offset, length); the in-use blocks go to the front in address
    order, their bytes with them, and the free bytes become one trailing
    block. *)
Definition relocation : Type := nat * nat * nat.

Fixpoint relocations (destination : nat) (bs : list block) : list relocation :=
  match bs with
  | [] => []
  | b :: rest =>
      if in_use b
      then (start_offset b, destination, length b)
             :: relocations (destination + length b) rest
      else relocations destination rest
  end.

Definition move (m : nat -> Z) (r : relocation) : nat -> Z :=
  let '(old, new, len) := r in write new (read old len m) m.

Definition used_bytes (bs : list block) : nat :=
  list_sum (map length (filter (fun b => Is_true (in_use b)) bs)).

Definition free_bytes (bs : list block) : nat :=
  list_sum (map length (filter (fun b => Is_true (negb (in_use b))) bs)).

Definition compact (p : pool) : pool * list relocation :=
  let moves := relocations 0 (blocks p) in
  let used := map (fun r : relocation =>
                     let '(_, new, len) := r in
                     {| start_offset := new; length := len; in_use := true |})
                  moves in
  let top := used_bytes (blocks p) in
  let trailing :=
    if top <? bank_size p
    then [ {| start_offset := top; length := bank_size p - top;
              in_use := false |} ]
    else [] in
  (with_cells (fold_left move moves (cells p)) (with_blocks (used ++ trailing) p),
   moves).

End memory_pool.

(** ** The resource handle registry *)

(** Modelled from the spec: [sprite_palette_ptr], [affine_bg_tiles_ptr] and
    the managers behind them are not among the sources at hand.  Section 3
    gives the handle (bank, start offset, length, bits-per-pixel mode,
    reference count), section 4.2 the operations: [find] searches for a live
    handle whose backing bytes equal the requested content and returns a new
    reference to it; [create] does that first and, on a miss, allocates a
    block sized to the content, copies the content into it and registers the
    handle with one reference, compacting only when the allocation failed
    because of fragmentation and stopping in a fatal error when the pool
    cannot satisfy the request; [create_optional] returns an empty result
    there instead and leaves the prior state as it was. *)
Module registry.

Local Open Scope nat_scope.

Record handle := {
  bank_id : nat;
  start_offset : nat;
  length : nat;
  bpp : bpp_mode;
  reference_count : nat
}.

Record t := {
  pool : memory_pool.pool;
  handles : list handle
}.

Definition init (bank size : nat) : t :=
  {| pool := memory_pool.init bank size; handles := [] |}.

(** Modelled from the spec: the content descriptor, what a caller asks for:
    the bytes and the bits-per-pixel mode. *)
Record content_descriptor := {
  content : list Z;
  content_bpp : bpp_mode
}.

Definition backing_bytes (m : nat -> Z) (h : handle) : list Z :=
  memory_pool.read (start_offset h) (length h) m.

Definition bytes_eqb (a b : list Z) : bool :=
  bool_decide (a = b).

Definition add_reference (h : handle) : handle :=
  {| bank_id := bank_id h; start_offset := start_offset h;
     length := length h; bpp := bpp h;
     reference_count := S (reference_count h) |}.

(** Modelled from the spec: [find], the search for the first live handle
    whose backing bytes are the requested ones; a hit returns a new
    reference, the count raised by one. *)
Fixpoint find_handle (m : nat -> Z) (bytes : list Z) (hs : list handle)
  : option (handle * list handle) :=
  match hs with
  | [] => None
  | h :: rest =>
      if bytes_eqb (backing_bytes m h) bytes
      then Some (add_reference h, add_reference h :: rest)
      else
        match find_handle m bytes rest with
        | Some (found, rest') => Some (found, h :: rest')
        | None => None
        end
  end.

Definition find (d : content_descriptor) (r : t) : option (handle * t) :=
  match find_handle (memory_pool.cells (pool r)) (content d) (handles r) with
  | Some (h, hs) => Some (h, {| pool := pool r; handles := hs |})
  | None => None
  end.

(** Modelled from the spec: the relocation callback; a handle that starts
    at the old offset of a moved block now starts at its new offset. *)
Definition relocate_handle (r : memory_pool.relocation) (h : handle) : handle :=
  let '(old, new, _) := r in
  if (start_offset h =? old) && negb (old =? new)
  then {| bank_id := bank_id h; start_offset := new; length := length h;
          bpp := bpp h; reference_count := reference_count h |}
  else h.

Definition compact (r : t) : t :=
  let '(p, moves) := memory_pool.compact (pool r) in
  {| pool := p;
     handles := fold_left (fun hs mv => map (relocate_handle mv) hs) moves
                  (handles r) |}.

(** Modelled from the spec: the allocation policy of [create]: straight
    from the pool when a free block is long enough; after a compaction when
    the free bytes suffice but no single block does; not at all otherwise. *)
Definition allocate (len : nat) (r : t) : option (nat * t) :=
  match memory_pool.allocate len (pool r) with
  | Some (offset, p) => Some (offset, {| pool := p; handles := handles r |})
  | None =>
      if len <=? memory_pool.free_bytes (memory_pool.blocks (pool r)) then
        let r' := compact r in
        match memory_pool.allocate len (pool r') with
        | Some (offset, p) =>
            Some (offset, {| pool := p; handles := handles r' |})
        | None => None
        end
      else None
  end.

(** Modelled from the spec: a fresh handle; the content is copied to the
    block and the handle is registered with one reference. *)
Definition register (d : content_descriptor) (offset : nat) (r : t)
  : handle * t :=
  let h := {| bank_id := memory_pool.bank_id (pool r);
              start_offset := offset;
              length := List.length (content d);
              bpp := content_bpp d;
              reference_count := 1 |} in
  (h,
   {| pool := memory_pool.with_cells
                (memory_pool.write offset (content d)
                   (memory_pool.cells (pool r)))
                (pool r);
      handles := h :: handles r |}).

(** Modelled from the spec: [create_optional] and its variant that skips
    the search; an empty result instead of the fatal error, and the prior
    state as it was. *)
Definition create_new_optional (d : content_descriptor) (r : t)
  : option handle * t :=
  match allocate (List.length (content d)) r with
  | Some (offset, r') =>
      let '(h, r'') := register d offset r' in (Some h, r'')
  | None => (None, r)
  end.

Definition create_optional (d : content_descriptor) (r : t)
  : option handle * t :=
  match find d r with
  | Some (h, r') => (Some h, r')
  | None => create_new_optional d r
  end.

(** Modelled from the spec: [create]; the search first, on a miss an
    allocation, and a fatal error when the pool cannot satisfy it. *)
Definition create (d : content_descriptor) (r : t) : result (handle * t) :=
  match find d r with
  | Some (h, r') => Ok (h, r')
  | None =>
      match allocate (List.length (content d)) r with
      | Some (offset, r') => Ok (register d offset r')
      | None =>
          Fatal "No more memory available in the bank"
            [Z.of_nat (List.length (content d))]
      end
  end.

Definition remove_reference (h : handle) : handle :=
  {| bank_id := bank_id h; start_offset := start_offset h;
     length := length h; bpp := bpp h;
     reference_count := pred (reference_count h) |}.

(** Modelled from the spec: [release]; one reference less, and the last one
    returns the block to the pool and removes the handle. *)
Fixpoint release_handle (offset : nat) (hs : list handle)
  : option (bool * nat * list handle) :=
  match hs with
  | [] => None
  | h :: rest =>
      if start_offset h =? offset then
        if reference_count h <=? 1
        then Some (true, length h, rest)
        else Some (false, length h, remove_reference h :: rest)
      else
        match release_handle offset rest with
        | Some (freed, len, rest') => Some (freed, len, h :: rest')
        | None => None
        end
  end.

Definition release (h : handle) (r : t) : t :=
  match release_handle (start_offset h) (handles r) with
  | Some (true, len, hs) =>
      {| pool := memory_pool.release (start_offset h) len (pool r);
         handles := hs |}
  | Some (false, _, hs) => {| pool := pool r; handles := hs |}
  | None => r
  end.

End registry.

(** Modelled from the spec: the blocks of a bank are a partition that covers
    the full bank; here, they account for every byte of it. *)
Definition covers_bank (p : memory_pool.pool) : Prop :=
  list_sum (map memory_pool.length (memory_pool.blocks p))
  = memory_pool.bank_size p.

(** ** Resource items

    [sprite_palette_item] (its header is among the sources) and
    [affine_bg_tiles_item] (its implementation is) hand themselves to the
    registry: [create_palette] is documented as "search for a
    sprite_palette_ptr which contains the colors referenced by this item; if
    it is not found, it creates one", [create_tiles] is
    [affine_bg_tiles_ptr::create] applied to the item. *)

(** Modelled from the spec: a color is a 16-bit value (a palette of 16
    colors is 32 bytes long); in a bank it takes two bytes, low byte first. *)
Definition color_bytes (c : Z) : list Z := [c mod 256; (c / 256) mod 256].

Definition colors_bytes (colors : list Z) : list Z :=
  flat_map color_bytes colors.

Fixpoint bytes_colors (bytes : list Z) : list Z :=
  match bytes with
  | low :: high :: rest => (low + 256 * high) :: bytes_colors rest
  | _ => []
  end.

Module sprite_palette_item.

Record t := {
  _colors : list Z;
  _bpp_mode : bpp_mode
}.

(** The constructor and its assertion on the number of colors. *)
Definition make (colors : list Z) (mode : bpp_mode) : result t :=
  let size := Z.of_nat (List.length colors) in
  (_ <- bn_assert
         ((bpp_mode_eqb mode BPP_4 && (size =? 16))
          || (bpp_mode_eqb mode BPP_8 && (size >=? 16) && (size <=? 256)
              && (size mod 16 =? 0)))
         "Invalid colors count: " [size] ;;
   Ok {| _colors := colors; _bpp_mode := mode |})%result.

Definition colors (item : t) : list Z := _colors item.

Definition descriptor (item : t) : registry.content_descriptor :=
  {| registry.content := colors_bytes (_colors item);
     registry.content_bpp := _bpp_mode item |}.

Definition find_palette (item : t) (r : registry.t)
  : option (registry.handle * registry.t) :=
  registry.find (descriptor item) r.

Definition create_palette (item : t) (r : registry.t)
  : result (registry.handle * registry.t) :=
  registry.create (descriptor item) r.

Definition create_palette_optional (item : t) (r : registry.t)
  : option registry.handle * registry.t :=
  registry.create_optional (descriptor item) r.

Definition create_new_palette_optional (item : t) (r : registry.t)
  : option registry.handle * registry.t :=
  registry.create_new_optional (descriptor item) r.

(** Modelled from the spec: the colors a palette handle holds in the bank. *)
Definition palette_colors (h : registry.handle) (r : registry.t) : list Z :=
  bytes_colors
    (registry.backing_bytes (memory_pool.cells (registry.pool r)) h).

End sprite_palette_item.

Module affine_bg_tiles_item.

Inductive compression_type := NONE | LZ77 | RUN_LENGTH.

(** A tile is the list of its bytes. *)
Record t := {
  _tiles_ref : list (list Z);
  _compression : compression_type
}.

(** Affine backgrounds are 8 bits per pixel. *)
Definition descriptor (item : t) : registry.content_descriptor :=
  {| registry.content := concat (_tiles_ref item);
     registry.content_bpp := BPP_8 |}.

Definition find_tiles (item : t) (r : registry.t)
  : option (registry.handle * registry.t) :=
  registry.find (descriptor item) r.

Definition create_tiles (item : t) (r : registry.t)
  : result (registry.handle * registry.t) :=
  registry.create (descriptor item) r.

Definition create_tiles_optional (item : t) (r : registry.t)
  : option registry.handle * registry.t :=
  registry.create_optional (descriptor item) r.

Definition create_new_tiles_optional (item : t) (r : registry.t)
  : option registry.handle * registry.t :=
  registry.create_new_optional (descriptor item) r.

End affine_bg_tiles_item.

(** ** Well-formed registries, and sequences of calls *)

(** Modelled from the spec: the blocks of a bank are ordered by offset and
    each starts where the one before it ends (section 3). *)
Fixpoint blocks_from (start : nat) (bs : list memory_pool.block) : Prop :=
  match bs with
  | [] => True
  | b :: rest =>
      memory_pool.start_offset b = start
      /\ blocks_from (start + memory_pool.length b)%nat rest
  end.

(** The block in use a compaction leaves where it moved one to. *)
Definition placed_block (move : memory_pool.relocation)
  : memory_pool.block :=
  let '(_, new, len) := move in
  {| memory_pool.start_offset := new; memory_pool.length := len;
     memory_pool.in_use := true |}.

(** The block a handle stands for. *)
Definition block_of (h : registry.handle) : memory_pool.block :=
  {| memory_pool.start_offset := registry.start_offset h;
     memory_pool.length := registry.length h;
     memory_pool.in_use := true |}.

(** Modelled from the spec: the state of a registry between two calls.  The
    blocks are an ordered partition from offset 0 on, a block in use is not
    empty, the range of every live handle is a block in use (sections 3 and
    8), and no two live handles hold the same bytes: the registry maps a
    content to its one live handle (sections 3 and 4.2). *)
Definition well_formed (r : registry.t) : Prop :=
  blocks_from 0 (memory_pool.blocks (registry.pool r))
  /\ Forall (fun b => memory_pool.in_use b = true ->
                      (0 < memory_pool.length b)%nat)
       (memory_pool.blocks (registry.pool r))
  /\ Forall (fun h => In (block_of h) (memory_pool.blocks (registry.pool r)))
       (registry.handles r)
  /\ NoDup (map (registry.backing_bytes
                   (memory_pool.cells (registry.pool r)))
              (registry.handles r)).

(** Modelled from the spec: what a client does with the registry between two
    calls, and what it sees of it. *)
Module calls.

(** The operations of section 4.2. *)
Inductive operation :=
| find (d : registry.content_descriptor)
| create (d : registry.content_descriptor)
| create_optional (d : registry.content_descriptor)
| release (h : registry.handle).

(** The registry after an operation; a [create] that fails stops the
    program. *)
Definition step (o : operation) (r : registry.t) : result registry.t :=
  match o with
  | find d =>
      match registry.find d r with
      | Some (_, r') => Ok r'
      | None => Ok r
      end
  | create d =>
      match registry.create d r with
      | Ok (_, r') => Ok r'
      | Fatal message values => Fatal message values
      end
  | create_optional d => Ok (snd (registry.create_optional d r))
  | release h => Ok (registry.release h r)
  end.

(** The operation asks for no empty content. *)
Definition sized (o : operation) : Prop :=
  match o with
  | create d | create_optional d => registry.content d <> []
  | find _ | release _ => True
  end.

(** The moves the relocation callback reports during an allocation: those
    of the compaction, when the allocation needed one and then
    succeeded. *)
Definition allocate_moves (len : nat) (r : registry.t)
  : list memory_pool.relocation :=
  match memory_pool.allocate len (registry.pool r) with
  | Some _ => []
  | None =>
      if (len <=? memory_pool.free_bytes
                    (memory_pool.blocks (registry.pool r)))%nat
      then
        match memory_pool.allocate len
                (registry.pool (registry.compact r)) with
        | Some _ => snd (memory_pool.compact (registry.pool r))
        | None => []
        end
      else []
  end.

(** The moves reported during an operation. *)
Definition moves (o : operation) (r : registry.t)
  : list memory_pool.relocation :=
  match o with
  | create d | create_optional d =>
      match registry.find d r with
      | Some _ => []
      | None => allocate_moves (List.length (registry.content d)) r
      end
  | find _ | release _ => []
  end.

(** A handle in the hands of a client after the callback was invoked for
    each of the moves. *)
Definition relocate (moves : list memory_pool.relocation)
    (h : registry.handle) : registry.handle :=
  fold_left (fun h move => registry.relocate_handle move h) moves h.

(** Two handles denote the same memory range. *)
Definition same_range (h1 h2 : registry.handle) : bool :=
  (registry.bank_id h1 =? registry.bank_id h2)%nat
  && (registry.start_offset h1 =? registry.start_offset h2)%nat
  && (registry.length h1 =? registry.length h2)%nat.

(** The registry holds a live handle of that range. *)
Definition live (h : registry.handle) (r : registry.t) : bool :=
  existsb (same_range h) (registry.handles r).

(** The registry after a sequence of operations, and the handle [h] as its
    owner then has it; nothing when an operation stops the program, or when
    the handle does not stay live, its last reference released. *)
Fixpoint follow (ops : list operation) (r : registry.t)
    (h : registry.handle) : option (registry.t * registry.handle) :=
  match ops with
  | [] => Some (r, h)
  | o :: rest =>
      match step o r with
      | Ok r' =>
          let h' := relocate (moves o r) h in
          if live h' r' then follow rest r' h' else None
      | Fatal _ _ => None
      end
  end.

End calls.

(** An item that hands its content to the registry: a palette item, or the
    tiles of an affine background. *)
Inductive resource_item :=
| palette_item (item : sprite_palette_item.t)
| tiles_item (item : affine_bg_tiles_item.t).

Definition item_descriptor (item : resource_item)
  : registry.content_descriptor :=
  match item with
  | palette_item item => sprite_palette_item.descriptor item
  | tiles_item item => affine_bg_tiles_item.descriptor item
  end.

(** [create_palette] or [create_tiles], as the item has it. *)
Definition item_create (item : resource_item) (r : registry.t)
  : result (registry.handle * registry.t) :=
  match item with
  | palette_item item => sprite_palette_item.create_palette item r
  | tiles_item item => affine_bg_tiles_item.create_tiles item r
  end.

(** ** [bn::fixed] and the palette hardware layer

    Neither is among the sources at hand.  The code compares a [fixed] with
    integers, adds integers to it, and converts it to five fractional bits
    ([fixed_t<5>(x).data()]); the [hw::palettes] routines read [count] colors
    from a source and write a destination.  Both are interfaces here; the
    routines return the destination as they leave it. *)

Class bn_fixed (F : Type) := {
  fixed_ge : F -> Z -> bool;
  fixed_le : F -> Z -> bool;
  fixed_add : F -> Z -> F;
  fixed_sub : F -> Z -> F;
  fixed_t_5_data : F -> Z
}.

Class hw_palettes := {
  hw_colors : Z;
  hw_brightness : list Z -> Z -> Z -> list Z -> list Z;
  hw_contrast : list Z -> Z -> Z -> list Z -> list Z;
  hw_intensity : list Z -> Z -> Z -> list Z -> list Z;
  hw_grayscale : list Z -> Z -> Z -> list Z -> list Z;
  hw_hue_shift : list Z -> Z -> Z -> list Z -> list Z;
  hw_fade : list Z -> Z -> Z -> Z -> list Z -> list Z
}.

(** ** [bn::color_effect] (bn_color_effect.cpp), the in-place overloads

    Each takes the span of colors and returns how the call ends together
    with the colors the span holds then: nothing is written before an
    assertion stops the program. *)
Module color_effect.

Section with_hw.
Context {F : Type} `{bn_fixed F} `{hw_palettes}.

Definition brightness (brightness : F) (colors_ref : list Z)
  : result unit * list Z :=
  let colors_count := Z.of_nat (List.length colors_ref) in
  if negb (colors_count >? 0)
  then (Fatal "Invalid colors count: " [colors_count], colors_ref)
  else if negb (fixed_ge brightness 0 && fixed_le brightness 1)
  then (Fatal "Invalid brightness: " [], colors_ref)
  else
    let value := fixed_t_5_data brightness in
    if negb (value =? 0)
    then (Ok tt, hw_brightness colors_ref value colors_count colors_ref)
    else (Ok tt, colors_ref).

Definition contrast (contrast : F) (colors_ref : list Z)
  : result unit * list Z :=
  let colors_count := Z.of_nat (List.length colors_ref) in
  if negb (colors_count >? 0)
  then (Fatal "Invalid colors count: " [colors_count], colors_ref)
  else if negb (fixed_ge contrast 0 && fixed_le contrast 1)
  then (Fatal "Invalid contrast: " [], colors_ref)
  else
    let value := fixed_t_5_data contrast in
    if negb (value =? 0)
    then (Ok tt, hw_contrast colors_ref value colors_count colors_ref)
    else (Ok tt, colors_ref).

Definition intensity (intensity : F) (colors_ref : list Z)
  : result unit * list Z :=
  let colors_count := Z.of_nat (List.length colors_ref) in
  if negb (colors_count >? 0)
  then (Fatal "Invalid colors count: " [colors_count], colors_ref)
  else if negb (fixed_ge intensity 0 && fixed_le intensity 1)
  then (Fatal "Invalid intensity: " [], colors_ref)
  else
    let value := fixed_t_5_data intensity in
    if negb (value =? 0)
    then (Ok tt, hw_intensity colors_ref value colors_count colors_ref)
    else (Ok tt, colors_ref).

Definition grayscale (grayscale_intensity : F) (colors_ref : list Z)
  : result unit * list Z :=
  let colors_count := Z.of_nat (List.length colors_ref) in
  if negb ((colors_count >? 0) && (colors_count <=? hw_colors))
  then (Fatal "Invalid colors count: " [colors_count], colors_ref)
  else if negb (fixed_ge grayscale_intensity 0 && fixed_le grayscale_intensity 1)
  then (Fatal "Invalid grayscale intensity: " [], colors_ref)
  else
    let value := fixed_t_5_data grayscale_intensity in
    if negb (value =? 0)
    then (Ok tt, hw_grayscale colors_ref value colors_count colors_ref)
    else (Ok tt, colors_ref).

Definition hue_shift (hue_shift_intensity : F) (colors_ref : list Z)
  : result unit * list Z :=
  let colors_count := Z.of_nat (List.length colors_ref) in
  if negb ((colors_count >? 0) && (colors_count <=? hw_colors))
  then (Fatal "Invalid colors count: " [colors_count], colors_ref)
  else if negb (fixed_ge hue_shift_intensity 0 && fixed_le hue_shift_intensity 1)
  then (Fatal "Invalid hue shift intensity: " [], colors_ref)
  else
    let value := fixed_t_5_data hue_shift_intensity in
    if negb (value =? 0)
    then (Ok tt, hw_hue_shift colors_ref value colors_count colors_ref)
    else (Ok tt, colors_ref).

Definition fade (fade_color : Z) (fade_intensity : F) (colors_ref : list Z)
  : result unit * list Z :=
  let colors_count := Z.of_nat (List.length colors_ref) in
  if negb (colors_count >? 0)
  then (Fatal "Invalid colors count: " [colors_count], colors_ref)
  else if negb (fixed_ge fade_intensity 0 && fixed_le fade_intensity 1)
  then (Fatal "Invalid fade intensity: " [], colors_ref)
  else
    let value := fixed_t_5_data fade_intensity in
    if negb (value =? 0)
    then (Ok tt, hw_fade colors_ref fade_color value colors_count colors_ref)
    else (Ok tt, colors_ref).

End with_hw.

End color_effect.

(** ** [bn::sprite_text_generator] (bn_sprite_text_generator.cpp)

    The handles ([sprite_tiles_ptr], [sprite_palette_ptr], [sprite_ptr]) wrap
    an integer; the managers behind them, video memory and the UTF-8 decoder
    are outside the sources at hand and form the [sprite_system] interface,
    acting on a [world].  A [tile*] is [None] for [nullptr], else the index of
    a tile in video memory.  The characters of a text are the values of its
    [char]s.  Reference counting in the destructors of temporaries is left to
    the managers and is not written out. *)
Module sprite_text_generator.

Inductive sprite_shape := SQUARE | WIDE | TALL.
Inductive sprite_size := SMALL | NORMAL | BIG | HUGE.
Inductive alignment_type := LEFT | CENTER | RIGHT.

Definition sprite_tiles_ptr := Z.
Definition sprite_palette_ptr := Z.
Definition sprite_ptr := Z.

Record fixed_point (F : Type) := {
  x : F;
  y : F
}.

Arguments x {F} _.
Arguments y {F} _.

Definition set_x {F : Type} (value : F) (p : fixed_point F) : fixed_point F :=
  {| x := value; y := y p |}.

Record sprite_tiles_item := {
  tiles_ref : list Z;
  graphics_count : Z
}.

(** [sprite_item]: its [shape_size()] is read through [shape()] and
    [height()]. *)
Record sprite_item := {
  tiles_item : sprite_tiles_item;
  palette_item : sprite_palette_item.t;
  shape : sprite_shape;
  height : Z
}.

Record sprite_font := {
  item : sprite_item;
  character_widths_ref : list Z;
  space_between_characters : Z
}.

Record t := {
  _font : sprite_font;
  _palette_item : sprite_palette_item.t;
  _utf8_characters_map : gmap Z Z;
  _alignment : alignment_type;
  _bg_priority : Z;
  _z_order : Z;
  _one_sprite_per_character : bool
}.

Record sprite_builder (F : Type) := {
  builder_shape : sprite_shape;
  builder_size : sprite_size;
  builder_tiles : sprite_tiles_ptr;
  builder_palette : sprite_palette_ptr;
  builder_position : fixed_point F;
  builder_bg_priority : Z;
  builder_z_order : Z
}.

Arguments Build_sprite_builder {F} _ _ _ _ _ _ _.

(** *** [bn::ivector<sprite_ptr>]: the elements and the capacity; the
    container is outside the sources at hand *)
Record ivector := {
  data : list sprite_ptr;
  max_size : nat
}.

Definition size (v : ivector) : Z := Z.of_nat (List.length (data v)).

Definition full (v : ivector) : bool :=
  (List.length (data v) =? max_size v)%nat.

Class sprite_system (F : Type) := {
  world : Type;
  (* sprite_palette_item::create_palette_optional / create_palette *)
  create_palette_optional :
    sprite_palette_item.t -> world -> option sprite_palette_ptr * world;
  create_palette :
    sprite_palette_item.t -> world -> result (sprite_palette_ptr * world);
  (* sprite_tiles_ptr::allocate_optional / allocate *)
  tiles_allocate_optional :
    Z -> bpp_mode -> world -> option sprite_tiles_ptr * world;
  tiles_allocate :
    Z -> bpp_mode -> world -> result (sprite_tiles_ptr * world);
  (* sprite_tiles_ptr::create_optional / create *)
  tiles_create_optional :
    sprite_tiles_item -> Z -> world -> option sprite_tiles_ptr * world;
  tiles_create :
    sprite_tiles_item -> Z -> world -> result (sprite_tiles_ptr * world);
  (* sprite_tiles_ptr::vram *)
  tiles_vram : sprite_tiles_ptr -> world -> option Z;
  (* sprite_ptr::create_optional / create *)
  sprite_create_optional :
    sprite_builder F -> world -> option sprite_ptr * world;
  sprite_create :
    sprite_builder F -> world -> result (sprite_ptr * world);
  (* ~sprite_ptr *)
  sprite_destroy : sprite_ptr -> world -> world;
  (* hw::sprite_tiles::copy_tiles(source graphics, first tile, count, destination) *)
  copy_tiles : sprite_tiles_item -> Z -> Z -> Z -> option Z -> world -> world;
  (* hw::sprite_tiles::clear_tiles(count, destination) *)
  clear_tiles : Z -> option Z -> world -> world;
  (* hw::sprite_tiles::plot_tiles(width, source, source height, source y,
     destination column, destination) *)
  plot_tiles :
    Z -> sprite_tiles_item -> Z -> Z -> Z -> option Z -> world -> world;
  (* utf8_character: data() and size() of the character that starts the
     given text *)
  utf8_character : list Z -> result (Z * positive)
}.

Definition tile_ptr_add (p : option Z) (n : Z) : option Z :=
  (fun a => a + n) <$> p.

Definition max_columns_per_sprite : Z := 32.
Definition fixed_character_width : Z := 8.
Definition fixed_max_characters_per_sprite : Z :=
  max_columns_per_sprite / fixed_character_width.

Section with_system.
Context {F : Type} `{bn_fixed F} `{sprite_system F}.

(** *** The state the generation acts on, and its monad *)
Record state := {
  the_world : world;
  output_sprites : ivector
}.

Definition M (A : Type) : Type := state -> result (A * state).

Definition ret {A : Type} (a : A) : M A := fun s => Ok (a, s).

Definition mbind {A B : Type} (m : M A) (k : A -> M B) : M B :=
  fun s =>
    match m s with
    | Ok (a, s') => k a s'
    | Fatal message values => Fatal message values
    end.

Definition fatal {A : Type} (message : string) (values : list Z) : M A :=
  fun _ => Fatal message values.

Definition on_world {A : Type} (f : world -> A * world) : M A :=
  fun s =>
    let '(a, w) := f (the_world s) in
    Ok (a, {| the_world := w; output_sprites := output_sprites s |}).

Definition on_world_result {A : Type} (f : world -> result (A * world)) : M A :=
  fun s =>
    match f (the_world s) with
    | Ok (a, w) =>
        Ok (a, {| the_world := w; output_sprites := output_sprites s |})
    | Fatal message values => Fatal message values
    end.

Definition hw (f : world -> world) : M unit :=
  fun s =>
    Ok (tt, {| the_world := f (the_world s);
               output_sprites := output_sprites s |}).

Definition read_world {A : Type} (f : world -> A) : M A :=
  fun s => Ok (f (the_world s), s).

Definition sprites_full : M bool := fun s => Ok (full (output_sprites s), s).

Definition sprites_size : M Z := fun s => Ok (size (output_sprites s), s).

Definition massert (condition : bool) (message : string) (values : list Z)
  : M unit :=
  if condition then ret tt else fatal message values.

(** [ivector::push_back]: asserts that the vector is not full. *)
Definition push_back (sprite : sprite_ptr) : M unit :=
  fun s =>
    if full (output_sprites s) then Fatal "Vector is full" []
    else
      Ok (tt, {| the_world := the_world s;
                 output_sprites :=
                   {| data := data (output_sprites s) ++ [sprite];
                      max_size := max_size (output_sprites s) |} |}).

(** [ivector::shrink(count)]: asserts [0 <= count <= size()], then destroys
    the elements from [count] on. *)
Definition shrink (count : Z) : M unit :=
  fun s =>
    if negb ((count >=? 0) && (count <=? size (output_sprites s)))
    then Fatal "Invalid count: " [count; size (output_sprites s)]
    else
      let kept := firstn (Z.to_nat count) (data (output_sprites s)) in
      let removed := skipn (Z.to_nat count) (data (output_sprites s)) in
      Ok (tt, {| the_world :=
                   fold_right sprite_destroy (the_world s) removed;
                 output_sprites :=
                   {| data := kept;
                      max_size := max_size (output_sprites s) |} |}).

End with_system.

Declare Scope gen_scope.
Delimit Scope gen_scope with gen.
Notation "x <~ m ;; k" := (mbind m (fun x => k))
  (at level 100, m at next level, right associativity) : gen_scope.
Notation "m ;;; k" := (mbind m (fun _ => k))
  (at level 100, right associativity) : gen_scope.

Section painters.
Context {F : Type} `{bn_fixed F} `{sprite_system F}.

Local Open Scope gen_scope.

Definition full_message : string :=
  "output_sprites vector is full, can't hold more sprites".

(** [_build_sprite<size, max_tiles_per_sprite, allow_failure>]: [None] is
    the [nullptr] of the failure paths. *)
Definition _build_sprite (size : sprite_size) (max_tiles_per_sprite : Z)
    (allow_failure : bool) (generator : t) (palette : sprite_palette_ptr)
    (current_position : fixed_point F) : M (option Z) :=
  tiles_ptr <~
    (if allow_failure then
       is_full <~ sprites_full ;;
       if is_full then ret None
       else on_world (tiles_allocate_optional max_tiles_per_sprite BPP_4)
     else
       is_full <~ sprites_full ;;
       massert (negb is_full) full_message [] ;;;
       tiles <~ on_world_result (tiles_allocate max_tiles_per_sprite BPP_4) ;;
       ret (Some tiles)) ;;
  match tiles_ptr with
  | None => ret None
  | Some tiles_ptr_ref =>
      vram <~ read_world (tiles_vram tiles_ptr_ref) ;;
      let builder :=
        Build_sprite_builder WIDE size tiles_ptr_ref palette current_position
          (_bg_priority generator) (_z_order generator) in
      pushed <~
        (if allow_failure then
           sprite <~ on_world (sprite_create_optional builder) ;;
           match sprite with
           | None => ret false
           | Some sprite => push_back sprite ;;; ret true
           end
         else
           sprite <~ on_world_result (sprite_create builder) ;;
           push_back sprite ;;; ret true) ;;
      if pushed then
        match vram with
        | Some address => ret (Some address)
        | None => fatal "Optional is empty" []
        end
      else ret None
  end.

(** *** What [paint] asks of its [Painter] template argument.
    [destroy] is the destructor. *)
Record painter (P : Type) := {
  paint_space : P -> M P;
  paint_tab : P -> M P;
  paint_character : Z -> P -> M (bool * P);
  destroy : P -> M unit
}.

(** [_character_widths[index]] *)
Definition width_at (character_widths : list Z) (index : Z) : Z :=
  nth (Z.to_nat index) character_widths 0.

End painters.

Arguments Build_painter {F _} P _ _ _ _.
Arguments paint_space {F _ P} _ _.
Arguments paint_tab {F _ P} _ _.
Arguments paint_character {F _ P} _ _ _.
Arguments destroy {F _ P} _ _.

Definition generator : Type := t.

Module fixed_width_painter.

Section with_system.
Context {F : Type} `{bn_fixed F} `{sprite_system F}.
Local Open Scope gen_scope.

Record t := {
  _space_between_characters : Z;
  _width : Z
}.

Definition make (g : generator) : t :=
  {| _space_between_characters := space_between_characters (_font g);
     _width := 0 |}.

Definition width (p : t) : Z := _width p.

Definition add_width (n : Z) (p : t) : t :=
  {| _space_between_characters := _space_between_characters p;
     _width := _width p + n |}.

Definition paint_space (p : t) : M t :=
  ret (add_width (fixed_character_width + _space_between_characters p) p).

Definition paint_tab (p : t) : M t :=
  ret (add_width ((fixed_character_width * 4) + _space_between_characters p) p).

Definition paint_character (graphics_index : Z) (p : t) : M (bool * t) :=
  ret (true,
       add_width (fixed_character_width + _space_between_characters p) p).

Definition ops : painter t :=
  Build_painter t paint_space paint_tab paint_character (fun _ => ret tt).

End with_system.

End fixed_width_painter.

Module variable_width_painter.

Section with_system.
Context {F : Type} `{bn_fixed F} `{sprite_system F}.
Local Open Scope gen_scope.

Record t := {
  _character_widths : list Z;
  _space_between_characters : Z;
  _width : Z
}.

Definition make (g : generator) : t :=
  {| _character_widths := character_widths_ref (_font g);
     _space_between_characters := space_between_characters (_font g);
     _width := 0 |}.

Definition width (p : t) : Z := _width p.

Definition add_width (n : Z) (p : t) : t :=
  {| _character_widths := _character_widths p;
     _space_between_characters := _space_between_characters p;
     _width := _width p + n |}.

Definition paint_space (p : t) : M t :=
  ret (add_width (width_at (_character_widths p) 0
                  + _space_between_characters p) p).

Definition paint_tab (p : t) : M t :=
  ret (add_width ((width_at (_character_widths p) 0 * 4)
                  + _space_between_characters p) p).

Definition paint_character (graphics_index : Z) (p : t) : M (bool * t) :=
  ret (true,
       add_width (width_at (_character_widths p) (graphics_index + 1)
                  + _space_between_characters p) p).

Definition ops : painter t :=
  Build_painter t paint_space paint_tab paint_character (fun _ => ret tt).

End with_system.

End variable_width_painter.

Module fixed_one_sprite_per_character_painter.

Section with_system.
Context {F : Type} `{bn_fixed F} `{sprite_system F}.
Local Open Scope gen_scope.

Record t := {
  _generator : generator;
  _palette : sprite_palette_ptr;
  _current_position : fixed_point F;
  _space_between_characters : Z
}.

Definition make (g : generator) (palette : sprite_palette_ptr)
    (position : fixed_point F) : t :=
  {| _generator := g;
     _palette := palette;
     _current_position :=
       {| x := fixed_add (x position) (fixed_character_width / 2);
          y := y position |};
     _space_between_characters := space_between_characters (_font g) |}.

Definition with_x (value : F) (p : t) : t :=
  {| _generator := _generator p; _palette := _palette p;
     _current_position := set_x value (_current_position p);
     _space_between_characters := _space_between_characters p |}.

Definition paint_space (p : t) : M t :=
  ret (with_x (fixed_add (fixed_add (x (_current_position p))
                            fixed_character_width)
                 (_space_between_characters p)) p).

Definition paint_tab (p : t) : M t :=
  ret (with_x (fixed_add (fixed_add (x (_current_position p))
                            (fixed_character_width * 4))
                 (_space_between_characters p)) p).

Definition paint_character (allow_failure : bool) (graphics_index : Z) (p : t)
  : M (bool * t) :=
  room <~
    (if allow_failure then
       is_full <~ sprites_full ;;
       ret (negb is_full)
     else
       is_full <~ sprites_full ;;
       massert (negb is_full) full_message [] ;;;
       ret true) ;;
  if negb room then ret (false, p)
  else
    let item := item (_font (_generator p)) in
    let tiles_item := tiles_item item in
    source_tiles_ptr <~
      (if allow_failure
       then on_world (tiles_create_optional tiles_item graphics_index)
       else
         tiles <~ on_world_result (tiles_create tiles_item graphics_index) ;;
         ret (Some tiles)) ;;
    match source_tiles_ptr with
    | None => ret (false, p)
    | Some tiles =>
        let builder :=
          Build_sprite_builder (shape item) SMALL tiles (_palette p)
            (_current_position p) (_bg_priority (_generator p))
            (_z_order (_generator p)) in
        pushed <~
          (if allow_failure then
             sprite <~ on_world (sprite_create_optional builder) ;;
             match sprite with
             | None => ret false
             | Some sprite => push_back sprite ;;; ret true
             end
           else
             sprite <~ on_world_result (sprite_create builder) ;;
             push_back sprite ;;; ret true) ;;
        if pushed then
          ret (true,
               with_x (fixed_add (fixed_add (x (_current_position p))
                                    fixed_character_width)
                         (_space_between_characters p)) p)
        else ret (false, p)
    end.

Definition ops (allow_failure : bool) : painter t :=
  Build_painter t paint_space paint_tab (paint_character allow_failure)
    (fun _ => ret tt).

End with_system.

End fixed_one_sprite_per_character_painter.

Module variable_one_sprite_per_character_painter.

Section with_system.
Context {F : Type} `{bn_fixed F} `{sprite_system F}.
Local Open Scope gen_scope.

Record t := {
  _generator : generator;
  _character_widths : list Z;
  _palette : sprite_palette_ptr;
  _current_position : fixed_point F;
  _space_between_characters : Z
}.

Definition make (g : generator) (palette : sprite_palette_ptr)
    (position : fixed_point F) : t :=
  {| _generator := g;
     _character_widths := character_widths_ref (_font g);
     _palette := palette;
     _current_position :=
       {| x := fixed_add (x position) (fixed_character_width / 2);
          y := y position |};
     _space_between_characters := space_between_characters (_font g) |}.

Definition with_x (value : F) (p : t) : t :=
  {| _generator := _generator p; _character_widths := _character_widths p;
     _palette := _palette p;
     _current_position := set_x value (_current_position p);
     _space_between_characters := _space_between_characters p |}.

Definition paint_space (p : t) : M t :=
  ret (with_x (fixed_add (fixed_add (x (_current_position p))
                            (width_at (_character_widths p) 0))
                 (_space_between_characters p)) p).

Definition paint_tab (p : t) : M t :=
  ret (with_x (fixed_add (fixed_add (x (_current_position p))
                            (width_at (_character_widths p) 0 * 4))
                 (_space_between_characters p)) p).

Definition paint_character (allow_failure : bool) (graphics_index : Z) (p : t)
  : M (bool * t) :=
  let character_width := width_at (_character_widths p) (graphics_index + 1) in
  if negb (character_width =? 0) then
    room <~
      (if allow_failure then
         is_full <~ sprites_full ;;
         ret (negb is_full)
       else
         is_full <~ sprites_full ;;
         massert (negb is_full) full_message [] ;;;
         ret true) ;;
    if negb room then ret (false, p)
    else
      let item := item (_font (_generator p)) in
      let tiles_item := tiles_item item in
      source_tiles_ptr <~
        (if allow_failure
         then on_world (tiles_create_optional tiles_item graphics_index)
         else
           tiles <~ on_world_result (tiles_create tiles_item graphics_index) ;;
           ret (Some tiles)) ;;
      match source_tiles_ptr with
      | None => ret (false, p)
      | Some tiles =>
          let builder :=
            Build_sprite_builder (shape item) SMALL tiles (_palette p)
              (_current_position p) (_bg_priority (_generator p))
              (_z_order (_generator p)) in
          pushed <~
            (if allow_failure then
               sprite <~ on_world (sprite_create_optional builder) ;;
               match sprite with
               | None => ret false
               | Some sprite => push_back sprite ;;; ret true
               end
             else
               sprite <~ on_world_result (sprite_create builder) ;;
               push_back sprite ;;; ret true) ;;
          if pushed then
            ret (true,
                 with_x (fixed_add (fixed_add (x (_current_position p))
                                      character_width)
                           (_space_between_characters p)) p)
          else ret (false, p)
      end
  else
    ret (true,
         with_x (fixed_add (x (_current_position p))
                   (_space_between_characters p)) p).

Definition ops (allow_failure : bool) : painter t :=
  Build_painter t paint_space paint_tab (paint_character allow_failure)
    (fun _ => ret tt).

End with_system.

End variable_one_sprite_per_character_painter.

Module fixed_8x8_painter.

Section with_system.
Context {F : Type} `{bn_fixed F} `{sprite_system F}.
Local Open Scope gen_scope.

Record t := {
  _generator : generator;
  _palette : sprite_palette_ptr;
  _current_position : fixed_point F;
  _tiles_vram : option Z;
  _sprite_character_index : Z;
  _space_between_characters : Z
}.

Definition make (g : generator) (palette : sprite_palette_ptr)
    (position : fixed_point F) : t :=
  {| _generator := g;
     _palette := palette;
     _current_position :=
       {| x := fixed_add (x position) (max_columns_per_sprite / 2);
          y := y position |};
     _tiles_vram := None;
     _sprite_character_index := fixed_max_characters_per_sprite;
     _space_between_characters := space_between_characters (_font g) |}.

Definition with_x (value : F) (p : t) : t :=
  {| _generator := _generator p; _palette := _palette p;
     _current_position := set_x value (_current_position p);
     _tiles_vram := _tiles_vram p;
     _sprite_character_index := _sprite_character_index p;
     _space_between_characters := _space_between_characters p |}.

Definition with_index (index : Z) (p : t) : t :=
  {| _generator := _generator p; _palette := _palette p;
     _current_position := _current_position p;
     _tiles_vram := _tiles_vram p;
     _sprite_character_index := index;
     _space_between_characters := _space_between_characters p |}.

Definition with_vram (vram : option Z) (p : t) : t :=
  {| _generator := _generator p; _palette := _palette p;
     _current_position := _current_position p;
     _tiles_vram := vram;
     _sprite_character_index := _sprite_character_index p;
     _space_between_characters := _space_between_characters p |}.

Definition _clear (characters : Z) (p : t) : M unit :=
  hw (clear_tiles characters
        (tile_ptr_add (_tiles_vram p) (_sprite_character_index p))).

Definition _clear_left (p : t) : M t :=
  if _sprite_character_index p <? fixed_max_characters_per_sprite then
    _clear (fixed_max_characters_per_sprite - _sprite_character_index p) p ;;;
    ret (with_index fixed_max_characters_per_sprite p)
  else ret p.

Definition paint_space (p : t) : M t :=
  p <~
    (if _sprite_character_index p <? fixed_max_characters_per_sprite then
       _clear 1 p ;;;
       ret (with_index (_sprite_character_index p + 1) p)
     else ret p) ;;
  ret (with_x (fixed_add (fixed_add (x (_current_position p))
                            fixed_character_width)
                 (_space_between_characters p)) p).

Definition paint_tab (p : t) : M t :=
  p <~ _clear_left p ;;
  ret (with_x (fixed_add (fixed_add (x (_current_position p))
                            (fixed_character_width * 4))
                 (_space_between_characters p)) p).

Definition paint_character (allow_failure : bool) (graphics_index : Z) (p : t)
  : M (bool * t) :=
  built <~
    (if _sprite_character_index p =? fixed_max_characters_per_sprite then
       vram <~ _build_sprite NORMAL fixed_max_characters_per_sprite
                 allow_failure (_generator p) (_palette p)
                 (_current_position p) ;;
       let p := with_vram vram p in
       if allow_failure && negb (bool_decide (is_Some vram))
       then ret (false, p)
       else ret (true, with_index 0 p)
     else ret (true, p)) ;;
  let p := snd built in
  if negb (fst built) then ret (false, p)
  else
    let item := item (_font (_generator p)) in
    hw (copy_tiles (tiles_item item) graphics_index 0 1
          (tile_ptr_add (_tiles_vram p) (_sprite_character_index p))) ;;;
    let p := with_x (fixed_add (fixed_add (x (_current_position p))
                                  fixed_character_width)
                       (_space_between_characters p)) p in
    ret (true, with_index (_sprite_character_index p + 1) p).

Definition destroy (p : t) : M unit :=
  _clear_left p ;;; ret tt.

Definition ops (allow_failure : bool) : painter t :=
  Build_painter t paint_space paint_tab (paint_character allow_failure)
    destroy.

End with_system.

End fixed_8x8_painter.

Module variable_8x8_painter.

Section with_system.
Context {F : Type} `{bn_fixed F} `{sprite_system F}.
Local Open Scope gen_scope.

Definition _character_height : Z := 8.
Definition _tiles : Z := 4.

Record t := {
  _generator : generator;
  _character_widths : list Z;
  _palette : sprite_palette_ptr;
  _current_position : fixed_point F;
  _tiles_vram : option Z;
  _space_between_characters : Z;
  _sprite_column : Z
}.

Definition make (g : generator) (palette : sprite_palette_ptr)
    (position : fixed_point F) : t :=
  {| _generator := g;
     _character_widths := character_widths_ref (_font g);
     _palette := palette;
     _current_position :=
       {| x := fixed_add (x position) (max_columns_per_sprite / 2);
          y := y position |};
     _tiles_vram := None;
     _space_between_characters := space_between_characters (_font g);
     _sprite_column := max_columns_per_sprite |}.

(** [_sprite_column] becomes [column] and [_current_position.x] advances. *)
Definition advance (column : Z) (value : F) (p : t) : t :=
  {| _generator := _generator p; _character_widths := _character_widths p;
     _palette := _palette p;
     _current_position := set_x value (_current_position p);
     _tiles_vram := _tiles_vram p;
     _space_between_characters := _space_between_characters p;
     _sprite_column := column |}.

Definition with_vram (vram : option Z) (p : t) : t :=
  {| _generator := _generator p; _character_widths := _character_widths p;
     _palette := _palette p;
     _current_position := _current_position p;
     _tiles_vram := vram;
     _space_between_characters := _space_between_characters p;
     _sprite_column := _sprite_column p |}.

Definition with_column (column : Z) (p : t) : t :=
  advance column (x (_current_position p)) p.

Definition paint_space (p : t) : M t :=
  let width_with_space :=
    width_at (_character_widths p) 0 + _space_between_characters p in
  ret (advance (_sprite_column p + width_with_space)
         (fixed_add (x (_current_position p)) width_with_space) p).

Definition paint_tab (p : t) : M t :=
  let width_with_space :=
    (width_at (_character_widths p) 0 * 4) + _space_between_characters p in
  ret (advance (_sprite_column p + width_with_space)
         (fixed_add (x (_current_position p)) width_with_space) p).

Definition paint_character (allow_failure : bool) (graphics_index : Z) (p : t)
  : M (bool * t) :=
  let width := width_at (_character_widths p) (graphics_index + 1) in
  if negb (width =? 0) then
    let width_with_space := width + _space_between_characters p in
    built <~
      (if _sprite_column p + width_with_space >? max_columns_per_sprite then
         vram <~ _build_sprite NORMAL _tiles allow_failure (_generator p)
                   (_palette p) (_current_position p) ;;
         let p := with_vram vram p in
         if allow_failure && negb (bool_decide (is_Some vram))
         then ret (false, p)
         else
           hw (clear_tiles _tiles (_tiles_vram p)) ;;;
           ret (true, with_column 0 p)
       else ret (true, p)) ;;
    let p := snd built in
    if negb (fst built) then ret (false, p)
    else
      let tiles_item := tiles_item (item (_font (_generator p))) in
      let source_height := graphics_count tiles_item * _character_height in
      let source_y := graphics_index * _character_height in
      hw (plot_tiles width tiles_item source_height source_y
            (_sprite_column p) (_tiles_vram p)) ;;;
      ret (true,
           advance (_sprite_column p + width_with_space)
             (fixed_add (x (_current_position p)) width_with_space) p)
  else
    ret (true,
         advance (_sprite_column p + _space_between_characters p)
           (fixed_add (x (_current_position p))
              (_space_between_characters p)) p).

Definition ops (allow_failure : bool) : painter t :=
  Build_painter t paint_space paint_tab (paint_character allow_failure)
    (fun _ => ret tt).

End with_system.

End variable_8x8_painter.

Module fixed_8x16_painter.

Section with_system.
Context {F : Type} `{bn_fixed F} `{sprite_system F}.
Local Open Scope gen_scope.

Record t := {
  _generator : generator;
  _palette : sprite_palette_ptr;
  _current_position : fixed_point F;
  _tiles_vram : option Z;
  _space_between_characters : Z;
  _sprite_character_index : Z
}.

Definition make (g : generator) (palette : sprite_palette_ptr)
    (position : fixed_point F) : t :=
  {| _generator := g;
     _palette := palette;
     _current_position :=
       {| x := fixed_add (x position) (max_columns_per_sprite / 2);
          y := y position |};
     _tiles_vram := None;
     _space_between_characters := space_between_characters (_font g);
     _sprite_character_index := fixed_max_characters_per_sprite |}.

Definition with_x (value : F) (p : t) : t :=
  {| _generator := _generator p; _palette := _palette p;
     _current_position := set_x value (_current_position p);
     _tiles_vram := _tiles_vram p;
     _space_between_characters := _space_between_characters p;
     _sprite_character_index := _sprite_character_index p |}.

Definition with_index (index : Z) (p : t) : t :=
  {| _generator := _generator p; _palette := _palette p;
     _current_position := _current_position p;
     _tiles_vram := _tiles_vram p;
     _space_between_characters := _space_between_characters p;
     _sprite_character_index := index |}.

Definition with_vram (vram : option Z) (p : t) : t :=
  {| _generator := _generator p; _palette := _palette p;
     _current_position := _current_position p;
     _tiles_vram := vram;
     _space_between_characters := _space_between_characters p;
     _sprite_character_index := _sprite_character_index p |}.

Definition _clear (characters : Z) (p : t) : M unit :=
  let up_tiles_vram_ptr :=
    tile_ptr_add (_tiles_vram p) (_sprite_character_index p) in
  hw (clear_tiles characters up_tiles_vram_ptr) ;;;
  let down_tiles_vram_ptr :=
    tile_ptr_add up_tiles_vram_ptr fixed_max_characters_per_sprite in
  hw (clear_tiles characters down_tiles_vram_ptr).

Definition _clear_left (p : t) : M t :=
  if _sprite_character_index p <? fixed_max_characters_per_sprite then
    _clear (fixed_max_characters_per_sprite - _sprite_character_index p) p ;;;
    ret (with_index fixed_max_characters_per_sprite p)
  else ret p.

Definition paint_space (p : t) : M t :=
  p <~
    (if _sprite_character_index p <? fixed_max_characters_per_sprite then
       _clear 1 p ;;;
       ret (with_index (_sprite_character_index p + 1) p)
     else ret p) ;;
  ret (with_x (fixed_add (fixed_add (x (_current_position p))
                            fixed_character_width)
                 (_space_between_characters p)) p).

Definition paint_tab (p : t) : M t :=
  p <~ _clear_left p ;;
  ret (with_x (fixed_add (fixed_add (x (_current_position p))
                            (fixed_character_width * 4))
                 (_space_between_characters p)) p).

Definition paint_character (allow_failure : bool) (graphics_index : Z) (p : t)
  : M (bool * t) :=
  built <~
    (if _sprite_character_index p =? fixed_max_characters_per_sprite then
       vram <~ _build_sprite BIG (fixed_max_characters_per_sprite * 2)
                 allow_failure (_generator p) (_palette p)
                 (_current_position p) ;;
       let p := with_vram vram p in
       if allow_failure && negb (bool_decide (is_Some vram))
       then ret (false, p)
       else ret (true, with_index 0 p)
     else ret (true, p)) ;;
  let p := snd built in
  if negb (fst built) then ret (false, p)
  else
    let item := item (_font (_generator p)) in
    let up_tiles_vram_ptr :=
      tile_ptr_add (_tiles_vram p) (_sprite_character_index p) in
    hw (copy_tiles (tiles_item item) graphics_index 0 1 up_tiles_vram_ptr) ;;;
    let down_tiles_vram_ptr :=
      tile_ptr_add up_tiles_vram_ptr fixed_max_characters_per_sprite in
    hw (copy_tiles (tiles_item item) graphics_index 1 1 down_tiles_vram_ptr) ;;;
    let p := with_x (fixed_add (fixed_add (x (_current_position p))
                                  fixed_character_width)
                       (_space_between_characters p)) p in
    ret (true, with_index (_sprite_character_index p + 1) p).

Definition destroy (p : t) : M unit :=
  _clear_left p ;;; ret tt.

Definition ops (allow_failure : bool) : painter t :=
  Build_painter t paint_space paint_tab (paint_character allow_failure)
    destroy.

End with_system.

End fixed_8x16_painter.

Module variable_8x16_painter.

Section with_system.
Context {F : Type} `{bn_fixed F} `{sprite_system F}.
Local Open Scope gen_scope.

Definition _character_height : Z := 16.
Definition _tiles : Z := 8.

Record t := {
  _generator : generator;
  _character_widths : list Z;
  _palette : sprite_palette_ptr;
  _current_position : fixed_point F;
  _tiles_vram : option Z;
  _space_between_characters : Z;
  _sprite_column : Z
}.

Definition make (g : generator) (palette : sprite_palette_ptr)
    (position : fixed_point F) : t :=
  {| _generator := g;
     _character_widths := character_widths_ref (_font g);
     _palette := palette;
     _current_position :=
       {| x := fixed_add (x position) (max_columns_per_sprite / 2);
          y := y position |};
     _tiles_vram := None;
     _space_between_characters := space_between_characters (_font g);
     _sprite_column := max_columns_per_sprite |}.

(** [_sprite_column] becomes [column] and [_current_position.x] advances. *)
Definition advance (column : Z) (value : F) (p : t) : t :=
  {| _generator := _generator p; _character_widths := _character_widths p;
     _palette := _palette p;
     _current_position := set_x value (_current_position p);
     _tiles_vram := _tiles_vram p;
     _space_between_characters := _space_between_characters p;
     _sprite_column := column |}.

Definition with_vram (vram : option Z) (p : t) : t :=
  {| _generator := _generator p; _character_widths := _character_widths p;
     _palette := _palette p;
     _current_position := _current_position p;
     _tiles_vram := vram;
     _space_between_characters := _space_between_characters p;
     _sprite_column := _sprite_column p |}.

Definition with_column (column : Z) (p : t) : t :=
  advance column (x (_current_position p)) p.

Definition paint_space (p : t) : M t :=
  let width_with_space :=
    width_at (_character_widths p) 0 + _space_between_characters p in
  ret (advance (_sprite_column p + width_with_space)
         (fixed_add (x (_current_position p)) width_with_space) p).

Definition paint_tab (p : t) : M t :=
  let width_with_space :=
    (width_at (_character_widths p) 0 * 4) + _space_between_characters p in
  ret (advance (_sprite_column p + width_with_space)
         (fixed_add (x (_current_position p)) width_with_space) p).

Definition paint_character (allow_failure : bool) (graphics_index : Z) (p : t)
  : M (bool * t) :=
  let width := width_at (_character_widths p) (graphics_index + 1) in
  if negb (width =? 0) then
    let width_with_space := width + _space_between_characters p in
    built <~
      (if _sprite_column p + width_with_space >? max_columns_per_sprite then
         vram <~ _build_sprite BIG _tiles allow_failure (_generator p)
                   (_palette p) (_current_position p) ;;
         let p := with_vram vram p in
         if allow_failure && negb (bool_decide (is_Some vram))
         then ret (false, p)
         else
           hw (clear_tiles _tiles (_tiles_vram p)) ;;;
           ret (true, with_column 0 p)
       else ret (true, p)) ;;
    let p := snd built in
    if negb (fst built) then ret (false, p)
    else
      let tiles_item := tiles_item (item (_font (_generator p))) in
      let source_height := graphics_count tiles_item * _character_height in
      let source_y := graphics_index * _character_height in
      hw (plot_tiles width tiles_item source_height source_y
            (_sprite_column p) (_tiles_vram p)) ;;;
      hw (plot_tiles width tiles_item source_height
            (source_y + (_character_height / 2))
            (_sprite_column p + (_character_height * 2)) (_tiles_vram p)) ;;;
      ret (true,
           advance (_sprite_column p + width_with_space)
             (fixed_add (x (_current_position p)) width_with_space) p)
  else
    ret (true,
         advance (_sprite_column p + _space_between_characters p)
           (fixed_add (x (_current_position p))
              (_space_between_characters p)) p).

Definition ops (allow_failure : bool) : painter t :=
  Build_painter t paint_space paint_tab (paint_character allow_failure)
    (fun _ => ret tt).

End with_system.

End variable_8x16_painter.

Section generation.
Context {F : Type} `{bn_fixed F} `{sprite_system F}.
Local Open Scope gen_scope.

(** [paint<allow_failure>(text, utf8_characters_map, painter)]: the loop over
    [text_index], which every turn moves at least one character forward. *)
Section paint_loop.
Context {P : Type} (allow_failure : bool) (text : list Z)
  (utf8_characters_map : gmap Z Z) (ops : painter P).

(** The graphics index of the UTF-8 character at [text_index], and its
    size. *)
Definition utf8_graphics (text_index : nat) : M (Z * positive) :=
  fun s =>
    match utf8_character (skipn text_index text) with
    | Ok (utf8_data, utf8_size) =>
        match utf8_characters_map !! utf8_data with
        | Some graphics_index => Ok ((graphics_index, utf8_size), s)
        | None => Fatal "UTF-8 character not found: " []
        end
    | Fatal message values => Fatal message values
    end.

Equations? paint_from (text_index : nat) (p : P) : M (bool * P)
    by wf (List.length text - text_index)%nat lt :=
  paint_from text_index p
    with decide (text_index < List.length text)%nat := {
    | right _ => ret (true, p)
    | left _ =>
        let character := nth text_index text 0 in
        if character =? 32 then
          p <~ paint_space ops p ;;
          paint_from (text_index + 1)%nat p
        else if character =? 9 then
          p <~ paint_tab ops p ;;
          paint_from (text_index + 1)%nat p
        else if character >=? 33 then
          found <~
            (if character <=? 126 then ret (character - 33, 1%positive)
             else utf8_graphics text_index) ;;
          painted <~ paint_character ops (fst found) p ;;
          if allow_failure && negb (fst painted) then ret (false, snd painted)
          else paint_from (text_index + Pos.to_nat (snd found))%nat (snd painted)
        else fatal "Invalid character: " [character]
    }.
Proof.
  all: lia.
Qed.

Definition paint (p : P) : M (bool * P) := paint_from 0 p.

End paint_loop.

(** [sprite_text_generator::width] *)
Definition width (g : generator) (text : list Z) : M Z :=
  if bool_decide (character_widths_ref (_font g) = []) then
    painted <~ paint false text (_utf8_characters_map g)
                 fixed_width_painter.ops (fixed_width_painter.make g) ;;
    ret (fixed_width_painter.width (snd painted))
  else
    painted <~ paint false text (_utf8_characters_map g)
                 variable_width_painter.ops (variable_width_painter.make g) ;;
    ret (variable_width_painter.width (snd painted)).

(** A painter lives for one [paint]; its destructor runs when the block that
    declares it ends. *)
Definition with_painter {P : Type} (allow_failure : bool) (text : list Z)
    (utf8_characters_map : gmap Z Z) (ops : painter P) (p : P) : M bool :=
  painted <~ paint allow_failure text utf8_characters_map ops p ;;
  destroy ops (snd painted) ;;;
  ret (fst painted).

(** [_generate<allow_failure>] *)
Definition _generate (allow_failure : bool) (g : generator)
    (position : fixed_point F) (text : list Z)
    (utf8_characters_map : gmap Z Z) : M bool :=
  palette <~
    (if allow_failure
     then on_world (create_palette_optional (_palette_item g))
     else
       palette <~ on_world_result (create_palette (_palette_item g)) ;;
       ret (Some palette)) ;;
  match palette with
  | None => ret false
  | Some palette =>
      aligned_position <~
        match _alignment g with
        | LEFT => ret position
        | CENTER =>
            text_width <~ width g text ;;
            ret (set_x (fixed_sub (x position) (text_width ÷ 2)) position)
        | RIGHT =>
            text_width <~ width g text ;;
            ret (set_x (fixed_sub (x position) text_width) position)
        end ;;
      let font := _font g in
      output_sprites_count <~ sprites_size ;;
      success <~
        (if _one_sprite_per_character g then
           if bool_decide (character_widths_ref font = []) then
             with_painter allow_failure text utf8_characters_map
               (fixed_one_sprite_per_character_painter.ops allow_failure)
               (fixed_one_sprite_per_character_painter.make g palette
                  aligned_position)
           else
             with_painter allow_failure text utf8_characters_map
               (variable_one_sprite_per_character_painter.ops allow_failure)
               (variable_one_sprite_per_character_painter.make g palette
                  aligned_position)
         else if height (item font) =? 8 then
           if bool_decide (character_widths_ref font = []) then
             with_painter allow_failure text utf8_characters_map
               (fixed_8x8_painter.ops allow_failure)
               (fixed_8x8_painter.make g palette aligned_position)
           else
             with_painter allow_failure text utf8_characters_map
               (variable_8x8_painter.ops allow_failure)
               (variable_8x8_painter.make g palette aligned_position)
         else
           if bool_decide (character_widths_ref font = []) then
             with_painter allow_failure text utf8_characters_map
               (fixed_8x16_painter.ops allow_failure)
               (fixed_8x16_painter.make g palette aligned_position)
           else
             with_painter allow_failure text utf8_characters_map
               (variable_8x16_painter.ops allow_failure)
               (variable_8x16_painter.make g palette aligned_position)) ;;
      (if allow_failure && negb success
       then shrink output_sprites_count
       else ret tt) ;;;
      ret success
  end.

(** [generate(position, text, output_sprites)] *)
Definition generate (g : generator) (position : fixed_point F)
    (text : list Z) : M unit :=
  _generate false g position text (_utf8_characters_map g) ;;; ret tt.

(** [generate(x, y, text, output_sprites)] *)
Definition generate_at (g : generator) (x y : F) (text : list Z) : M unit :=
  _generate false g {| x := x; y := y |} text (_utf8_characters_map g) ;;;
  ret tt.

(** [generate_optional(position, text, output_sprites)] *)
Definition generate_optional (g : generator) (position : fixed_point F)
    (text : list Z) : M bool :=
  _generate true g position text (_utf8_characters_map g).

(** [generate_optional(x, y, text, output_sprites)] *)
Definition generate_optional_at (g : generator) (x y : F) (text : list Z)
  : M bool :=
  _generate true g {| x := x; y := y |} text (_utf8_characters_map g).

(** *** Relations between the output vector before and after a step *)

(** The vector after is the vector before with elements added at the back. *)
Definition extends (v v' : ivector) : Prop :=
  (exists extra : list sprite_ptr, data v' = data v ++ extra)
  /\ max_size v' = max_size v.

(** [m] relates by [R] the output vector it leaves to the one it found. *)
Definition preserves (R : ivector -> ivector -> Prop) {A : Type} (m : M A)
  : Prop :=
  forall (s : state) (a : A) (s' : state),
    m s = Ok (a, s') -> R (output_sprites s) (output_sprites s').

(** A painter all of whose operations preserve the relation. *)
Definition painter_preserves (R : ivector -> ivector -> Prop) {P : Type}
    (ops : painter P) : Prop :=
  (forall p, preserves R (paint_space ops p))
  /\ (forall p, preserves R (paint_tab ops p))
  /\ (forall graphics_index p,
        preserves R (paint_character ops graphics_index p))
  /\ (forall p, preserves R (destroy ops p)).

End generation.

End sprite_text_generator.

(** ** Concrete instances

    One instance of each interface, small enough to run: an engine, a
    palette, a fixed-point type with twelve fractional bits, palette routines
    that do change colors, and a sprite system that counts what it has left
    to give. *)
Module example.

Definition the_engine : engine :=
  {| rect_window_hw_horizontal_boundaries := fun id => (id, id + 240);
     fill_rect_window_hblank_effect_horizontal_boundaries :=
       fun last input output => output;
     bgs_hw_id := fun handle => if handle =? 0 then None else Some (handle - 1);
     bgs_map :=
       fun handle =>
         {| map_dimensions := (32, 32); map_tiles_cbb := handle;
            map_bpp := BPP_4 |};
     fill_hblank_effect_regular_attributes :=
       fun handle input output => output;
     window_horizontal_boundaries_register := fun id => 64 + 2 * id;
     bgs_attributes_register := fun id => 8 + 2 * id;
     sprite_color_register := fun index => 512 + 2 * index |}.

Record palette := {
  id : Z;
  colors_count : Z
}.

#[global] Instance palette_view : sprite_palette_view palette :=
  {| palette_id := id; palette_colors_count := colors_count |}.

Definition the_palette : palette := {| id := 2; colors_count := 16 |}.

(** A table of one color per scanline. *)
Definition the_colors : span :=
  {| span_data := replicate display_height 31;
     span_size := Z.of_nat display_height |}.

(** A manager with a single slot, taken by a color effect. *)
Definition one_slot_taken : hblank_effects_manager.manager :=
  snd (hblank_effects_manager.optional_create the_engine
         (span_data the_colors) (span_size the_colors) 35
         color_hblank_effect_handler.handler (hblank_effects_manager.init 1)).

(** The slot after the first frame pass: written once, reload flag down. *)
Definition after_first_frame : hblank_effects_manager.manager :=
  match hblank_effects_manager.update_items the_engine one_slot_taken with
  | Ok items => items
  | Fatal _ _ => []
  end.

#[global] Instance fixed_12 : bn_fixed Z :=
  {| fixed_ge := fun value n => value >=? n * 4096;
     fixed_le := fun value n => value <=? n * 4096;
     fixed_add := fun value n => value + n * 4096;
     fixed_sub := fun value n => value - n * 4096;
     fixed_t_5_data := fun value => value ÷ 128 |}.

#[global] Instance palettes : hw_palettes :=
  {| hw_colors := 256;
     hw_brightness :=
       fun source value count destination => map (Z.add value) source;
     hw_contrast :=
       fun source value count destination => map (Z.add value) source;
     hw_intensity :=
       fun source value count destination => map (Z.add value) source;
     hw_grayscale :=
       fun source value count destination => map (Z.add value) source;
     hw_hue_shift :=
       fun source value count destination => map (Z.add value) source;
     hw_fade :=
       fun source color value count destination =>
         map (fun _ => color) source |}.

Record counters := {
  free_tiles : Z;
  free_sprites : Z;
  next_handle : Z;
  tiles_written : Z
}.

Definition take_tiles (n : Z) (w : counters) : option Z * counters :=
  if n <=? free_tiles w
  then (Some (next_handle w),
        {| free_tiles := free_tiles w - n; free_sprites := free_sprites w;
           next_handle := next_handle w + 1;
           tiles_written := tiles_written w |})
  else (None, w).

Definition take_sprite (w : counters) : option Z * counters :=
  if 0 <? free_sprites w
  then (Some (next_handle w),
        {| free_tiles := free_tiles w; free_sprites := free_sprites w - 1;
           next_handle := next_handle w + 1;
           tiles_written := tiles_written w |})
  else (None, w).

Definition or_fatal {A : Type} (message : string) (r : option A * counters)
  : result (A * counters) :=
  match r with
  | (Some a, w) => Ok (a, w)
  | (None, _) => Fatal message []
  end.

Definition write_tiles (n : Z) (w : counters) : counters :=
  {| free_tiles := free_tiles w; free_sprites := free_sprites w;
     next_handle := next_handle w; tiles_written := tiles_written w + n |}.

#[global] Instance sprites : sprite_text_generator.sprite_system Z :=
  {| sprite_text_generator.world := counters;
     sprite_text_generator.create_palette_optional :=
       fun item w => (Some 0, w);
     sprite_text_generator.create_palette := fun item w => Ok (0, w);
     sprite_text_generator.tiles_allocate_optional :=
       fun tiles mode w => take_tiles tiles w;
     sprite_text_generator.tiles_allocate :=
       fun tiles mode w =>
         or_fatal "No more sprite tiles available" (take_tiles tiles w);
     sprite_text_generator.tiles_create_optional :=
       fun item graphics_index w => take_tiles 1 w;
     sprite_text_generator.tiles_create :=
       fun item graphics_index w =>
         or_fatal "No more sprite tiles available" (take_tiles 1 w);
     sprite_text_generator.tiles_vram := fun tiles w => Some (tiles * 8);
     sprite_text_generator.sprite_create_optional :=
       fun builder w => take_sprite w;
     sprite_text_generator.sprite_create :=
       fun builder w =>
         or_fatal "No more sprite items available" (take_sprite w);
     sprite_text_generator.sprite_destroy :=
       fun sprite w =>
         {| free_tiles := free_tiles w; free_sprites := free_sprites w + 1;
            next_handle := next_handle w;
            tiles_written := tiles_written w |};
     sprite_text_generator.copy_tiles :=
       fun item graphics_index first count destination w =>
         write_tiles count w;
     sprite_text_generator.clear_tiles :=
       fun count destination w => write_tiles count w;
     sprite_text_generator.plot_tiles :=
       fun width item source_height source_y column destination w =>
         write_tiles 1 w;
     sprite_text_generator.utf8_character :=
       fun text => Ok (nth 0 text 0, 2%positive) |}.

Definition sixteen_colors : list Z :=
  [0; 31; 992; 1023; 31744; 31775; 32736; 32767;
   0; 15; 480; 495; 15360; 15375; 15840; 15855].

Definition the_palette_item : sprite_palette_item.t :=
  {| sprite_palette_item._colors := sixteen_colors;
     sprite_palette_item._bpp_mode := BPP_4 |}.

Definition the_font : sprite_text_generator.sprite_font :=
  {| sprite_text_generator.item :=
       {| sprite_text_generator.tiles_item :=
            {| sprite_text_generator.tiles_ref := [];
               sprite_text_generator.graphics_count := 94 |};
          sprite_text_generator.palette_item := the_palette_item;
          sprite_text_generator.shape := sprite_text_generator.SQUARE;
          sprite_text_generator.height := 8 |};
     sprite_text_generator.character_widths_ref := [];
     sprite_text_generator.space_between_characters := 0 |}.

(** A generator that makes one sprite per character. *)
Definition the_generator : sprite_text_generator.generator :=
  {| sprite_text_generator._font := the_font;
     sprite_text_generator._palette_item := the_palette_item;
     sprite_text_generator._utf8_characters_map := ∅;
     sprite_text_generator._alignment := sprite_text_generator.LEFT;
     sprite_text_generator._bg_priority := 3;
     sprite_text_generator._z_order := 0;
     sprite_text_generator._one_sprite_per_character := true |}.

(** One sprite already in the vector, and room in the sprite system for one
    more sprite only. *)
Definition the_state : sprite_text_generator.state :=
  {| sprite_text_generator.the_world :=
       {| free_tiles := 64; free_sprites := 1; next_handle := 10;
          tiles_written := 0 |};
     sprite_text_generator.output_sprites :=
       {| sprite_text_generator.data := [7];
          sprite_text_generator.max_size := 8 |} |}.

(** The text "AB". *)
Definition the_text : list Z := [65; 66].

Definition the_position : sprite_text_generator.fixed_point Z :=
  {| sprite_text_generator.x := 0; sprite_text_generator.y := 0 |}.

End example.

(** *** A registry with one owner, and calls to it *)
Module example_registry.

Definition other_palette_item : sprite_palette_item.t :=
  {| sprite_palette_item._colors := replicate 16 21;
     sprite_palette_item._bpp_mode := BPP_4 |}.

(** Fifteen tiles of 32 bytes: 480 bytes. *)
Definition big_tiles_item : affine_bg_tiles_item.t :=
  {| affine_bg_tiles_item._tiles_ref := replicate 15 (replicate 32 9);
     affine_bg_tiles_item._compression := affine_bg_tiles_item.NONE |}.

(** The handle of the other palette, at the start of the bank. *)
Definition other_handle : registry.handle :=
  {| registry.bank_id := 0; registry.start_offset := 0;
     registry.length := 32; registry.bpp := BPP_4;
     registry.reference_count := 1 |}.

(** A bank of 512 bytes that holds the other palette. *)
Definition one_owner : registry.t :=
  match sprite_palette_item.create_palette other_palette_item
          (registry.init 0 512) with
  | Ok (_, r) => r
  | Fatal _ _ => registry.init 0 512
  end.

(** The other palette is released, the tiles are created, which takes a
    compaction, and the palette of the example is searched for. *)
Definition the_operations : list calls.operation :=
  [ calls.release other_handle;
    calls.create (affine_bg_tiles_item.descriptor big_tiles_item);
    calls.find (sprite_palette_item.descriptor example.the_palette_item) ].

End example_registry.

(** ** Texts of plain characters *)

(** A space, a tab or a character from ['!'] to ['~']: what [paint] handles
    without the UTF-8 decoder. *)
Definition plain_character (c : Z) : Prop :=
  c = 32 \/ c = 9 \/ 33 <= c <= 126.

Definition plain_text (text : list Z) : Prop := Forall plain_character text.

(** How far the width painters advance on a plain character: the fixed
    width painter when the font has no character widths, the variable width
    painter otherwise. *)
Definition character_advance (font : sprite_text_generator.sprite_font)
    (c : Z) : Z :=
  let space := sprite_text_generator.space_between_characters font in
  let widths := sprite_text_generator.character_widths_ref font in
  if bool_decide (widths = []) then
    if c =? 9
    then (sprite_text_generator.fixed_character_width * 4) + space
    else sprite_text_generator.fixed_character_width + space
  else
    if c =? 32 then sprite_text_generator.width_at widths 0 + space
    else if c =? 9 then (sprite_text_generator.width_at widths 0 * 4) + space
    else sprite_text_generator.width_at widths ((c - 33) + 1) + space.

Definition text_advance (font : sprite_text_generator.sprite_font)
    (text : list Z) : Z :=
  fold_right (fun c total => character_advance font c + total) 0 text.

(** The characters for which the one sprite per character painters build a
    sprite: the printable ones, except those to which a font with character
    widths gives the width zero. *)
Definition builds_a_sprite (font : sprite_text_generator.sprite_font)
    (c : Z) : bool :=
  (33 <=? c)
  && (bool_decide (sprite_text_generator.character_widths_ref font = [])
      || negb (sprite_text_generator.width_at
                 (sprite_text_generator.character_widths_ref font)
                 ((c - 33) + 1) =? 0)).

Definition sprites_of_text (font : sprite_text_generator.sprite_font)
    (text : list Z) : nat :=
  List.length (List.filter (builds_a_sprite font) text).

(** The vector after is the vector before with [n] elements added at the
    back. *)
Definition adds (n : nat) (v v' : sprite_text_generator.ivector) : Prop :=
  (exists extra : list sprite_text_generator.sprite_ptr,
     sprite_text_generator.data v' = sprite_text_generator.data v ++ extra
     /\ List.length extra = n)
  /\ sprite_text_generator.max_size v' = sprite_text_generator.max_size v.

Section painter_choice.
Context {F : Type} `{bn_fixed F} `{sprite_text_generator.sprite_system F}.

Import sprite_text_generator.

(** The painter [_generate] picks for a generator, run over the text: the
    [if] cascade in the middle of [_generate]. *)
Definition chosen_painter (allow_failure : bool) (g : generator)
    (text : list Z) (palette : sprite_palette_ptr)
    (aligned_position : fixed_point F) : M bool :=
  if _one_sprite_per_character g then
    if bool_decide (character_widths_ref (_font g) = []) then
      with_painter allow_failure text (_utf8_characters_map g)
        (fixed_one_sprite_per_character_painter.ops allow_failure)
        (fixed_one_sprite_per_character_painter.make g palette
           aligned_position)
    else
      with_painter allow_failure text (_utf8_characters_map g)
        (variable_one_sprite_per_character_painter.ops allow_failure)
        (variable_one_sprite_per_character_painter.make g palette
           aligned_position)
  else if height (item (_font g)) =? 8 then
    if bool_decide (character_widths_ref (_font g) = []) then
      with_painter allow_failure text (_utf8_characters_map g)
        (fixed_8x8_painter.ops allow_failure)
        (fixed_8x8_painter.make g palette aligned_position)
    else
      with_painter allow_failure text (_utf8_characters_map g)
        (variable_8x8_painter.ops allow_failure)
        (variable_8x8_painter.make g palette aligned_position)
  else
    if bool_decide (character_widths_ref (_font g) = []) then
      with_painter allow_failure text (_utf8_characters_map g)
        (fixed_8x16_painter.ops allow_failure)
        (fixed_8x16_painter.make g palette aligned_position)
    else
      with_painter allow_failure text (_utf8_characters_map g)
        (variable_8x16_painter.ops allow_failure)
        (variable_8x16_painter.make g palette aligned_position).

(** The position [_generate] starts painting at. *)
Definition aligned (g : generator) (position : fixed_point F)
    (text : list Z) : M (fixed_point F) :=
  match _alignment g with
  | LEFT => ret position
  | CENTER =>
      mbind (width g text)
        (fun text_width =>
           ret (set_x (fixed_sub (x position) (text_width ÷ 2)) position))
  | RIGHT =>
      mbind (width g text)
        (fun text_width =>
           ret (set_x (fixed_sub (x position) text_width) position))
  end.

End painter_choice.

(** ** More states for the generator of the example *)
Module example_states.

(** One sprite in the vector, and room for plenty more everywhere. *)
Definition roomy_state : @sprite_text_generator.state Z example.sprites :=
  {| sprite_text_generator.the_world :=
       {| example.free_tiles := 64; example.free_sprites := 8;
          example.next_handle := 10; example.tiles_written := 0 |};
     sprite_text_generator.output_sprites :=
       {| sprite_text_generator.data := [7];
          sprite_text_generator.max_size := 8 |} |}.

(** A vector that is full with its one sprite. *)
Definition full_state : @sprite_text_generator.state Z example.sprites :=
  {| sprite_text_generator.the_world :=
       {| example.free_tiles := 64; example.free_sprites := 8;
          example.next_handle := 10; example.tiles_written := 0 |};
     sprite_text_generator.output_sprites :=
       {| sprite_text_generator.data := [7];
          sprite_text_generator.max_size := 1 |} |}.

(** The generator of the example with sprites shared by its characters. *)
Definition shared_generator : sprite_text_generator.generator :=
  {| sprite_text_generator._font := example.the_font;
     sprite_text_generator._palette_item := example.the_palette_item;
     sprite_text_generator._utf8_characters_map := ∅;
     sprite_text_generator._alignment := sprite_text_generator.LEFT;
     sprite_text_generator._bg_priority := 3;
     sprite_text_generator._z_order := 0;
     sprite_text_generator._one_sprite_per_character := false |}.

End example_states.

(** ** The two variants of the sprite system's operations

    The operations that can fail come in two variants: the one returns an
    empty optional where the other stops in an assertion. *)
Section optional_variants.
Context {F : Type} `{bn_fixed F} `{sprite_text_generator.sprite_system F}.

Import sprite_text_generator.

(** The two variants do the same whenever one of them gives a result. *)
Definition optional_variants_agree : Prop :=
  (forall item w palette w',
      create_palette item w = Ok (palette, w')
      <-> create_palette_optional item w = (Some palette, w'))
  /\ (forall tiles_count mode w tiles w',
         tiles_allocate tiles_count mode w = Ok (tiles, w')
         <-> tiles_allocate_optional tiles_count mode w = (Some tiles, w'))
  /\ (forall item graphics_index w tiles w',
         tiles_create item graphics_index w = Ok (tiles, w')
         <-> tiles_create_optional item graphics_index w = (Some tiles, w'))
  /\ (forall builder w sprite w',
         sprite_create builder w = Ok (sprite, w')
         <-> sprite_create_optional builder w = (Some sprite, w')).

(** What the failing variant of a computation says about the asserting
    one: a result that is no failure is the asserting variant's result, and
    where the failing variant fails or stops the asserting one stops. *)
Definition stands_for {A : Type} (succeeded : A -> bool)
    (failing asserting : M A) : Prop :=
  forall s : state,
    match failing s with
    | Ok (a, s') =>
        if succeeded a then asserting s = Ok (a, s')
        else forall r s', asserting s <> Ok (r, s')
    | Fatal _ _ => forall r s', asserting s <> Ok (r, s')
    end.

End optional_variants.

(** ** [affine_bg_tiles_item::uncompress] (bn_affine_bg_tiles_item.cpp)

    The decompression routines of [hw::uncompress] are outside the sources at
    hand: each reads the source tiles and returns the destination as it
    leaves it. *)
Record hw_uncompress := {
  lz77_wram : list (list Z) -> list (list Z) -> list (list Z);
  rl_wram : list (list Z) -> list (list Z) -> list (list Z)
}.

Module affine_bg_tiles_item_uncompress.

Import affine_bg_tiles_item.

(** Returns the item that refers to the uncompressed tiles, and the
    destination span as the call leaves it.  The [default:] branch of the
    [switch] answers a [compression_type] outside its three values, which the
    inductive type does not have. *)
Definition uncompress (hw : hw_uncompress) (item : t)
    (uncompressed_tiles_ref : list (list Z)) : result (t * list (list Z)) :=
  let source_tiles_count := Z.of_nat (List.length (_tiles_ref item)) in
  let destination_size := Z.of_nat (List.length uncompressed_tiles_ref) in
  (_ <- bn_assert (destination_size >=? source_tiles_count)
         "There's not enough space to store the uncompressed data: "
         [destination_size; source_tiles_count] ;;
   match _compression item with
   | NONE => Ok (item, uncompressed_tiles_ref)
   | LZ77 =>
       let written := lz77_wram hw (_tiles_ref item) uncompressed_tiles_ref in
       Ok ({| _tiles_ref := firstn (Z.to_nat source_tiles_count) written;
              _compression := NONE |}, written)
   | RUN_LENGTH =>
       let written := rl_wram hw (_tiles_ref item) uncompressed_tiles_ref in
       Ok ({| _tiles_ref := firstn (Z.to_nat source_tiles_count) written;
              _compression := NONE |}, written)
   end)%result.

End affine_bg_tiles_item_uncompress.

(** ** [bn::hw::text] (bn_hw_text.cpp)

    A [char*] into the output array is the array, as the list of its
    character codes, and an index into it.  A write through the pointer is
    [<[index := character]>]; the properties below are stated for writes
    that stay inside the array. *)
Module hw_text.

(** The loop [while(value > 9)] of [_to_string]: the digits of [value] from
    the last one on, written from [current_output_data] on.  Returns what
    is left of [value], the array and the pointer. *)
Equations? digits_loop (value : Z) (output : list Z)
    (current_output_data : nat) : Z * list Z * nat
    by wf (Z.to_nat value) lt :=
  digits_loop value output current_output_data with decide (value > 9) := {
    | left _ =>
        let digit := Z.rem value 10 in
        digits_loop (value ÷ 10)
          (<[current_output_data := 48 + digit]> output)
          (S current_output_data)
    | right _ => (value, output, current_output_data)
    }.
Proof.
  assert (0 <= value ÷ 10 < value)
    by (split; [apply Z.quot_pos; lia|apply Z.quot_lt; lia]).
  lia.
Qed.

(** [std::reverse(first, last)] on the array. *)
Definition reverse (first last : nat) (data : list Z) : list Z :=
  take first data ++ rev (take (last - first) (drop first data))
  ++ drop last data.

(** [_to_string<Type>(value, output_data)]: returns the number of characters
    written and the array.  [Type] is a signed or unsigned integer type of
    any width; the values are those for which [-value] is a value of the
    type. *)
Equations? _to_string (value : Z) (output : list Z) (output_data : nat)
    : Z * list Z by wf (Z.to_nat (- value)) lt :=
  _to_string value output output_data with decide (value < 0) := {
    | left _ =>
        let output := <[output_data := 45]> output in
        let written := _to_string (- value) output (S output_data) in
        (fst written + 1, snd written)
    | right _ =>
        let looped := digits_loop value output output_data in
        let value := fst (fst looped) in
        let output := snd (fst looped) in
        let current_output_data := snd looped in
        let digit := value in
        let output := <[current_output_data := 48 + digit]> output in
        let current_output_data := S current_output_data in
        (Z.of_nat current_output_data - Z.of_nat output_data,
         reverse output_data current_output_data output)
    }.
Proof. lia. Qed.

(** The number a run of decimal digits stands for. *)
Definition decimal_value (characters : list Z) : Z :=
  fold_left (fun value character => value * 10 + (character - 48))
    characters 0.

(** The same for digits in the order the loop writes them, the last one
    first. *)
Fixpoint reversed_decimal_value (characters : list Z) : Z :=
  match characters with
  | [] => 0
  | character :: rest => (character - 48) + 10 * reversed_decimal_value rest
  end.

(** A decimal numeral as one writes it: digits only, at least one, and no
    zero in front of others. *)
Definition numeral (characters : list Z) : Prop :=
  Forall (fun character => 48 <= character <= 57) characters
  /\ characters <> []
  /\ (head characters = Some 48 -> characters = [48]).

(** [posprintf] of the third party library is outside the sources at hand:
    each routine stands for one format string, takes the value and returns
    the array with the text and its terminating zero written. *)
Record posprintf_routines := {
  posprintf_d : Z -> list Z -> list Z;
  posprintf_l : Z -> list Z -> list Z;
  posprintf_x : Z -> list Z -> list Z
}.

(** [string_view(output_data).size()]: the characters before the first
    zero. *)
Fixpoint string_view_size (data : list Z) : Z :=
  match data with
  | [] => 0
  | character :: rest =>
      if character =? 0 then 0 else 1 + string_view_size rest
  end.

(** The value a signed type of [bits] bits holds after an arithmetic
    result or a cast: two's complement wrap-around. *)
Definition wrap_signed (bits value : Z) : Z :=
  (value + 2 ^ (bits - 1)) mod 2 ^ bits - 2 ^ (bits - 1).

(** [abs(value)] on a signed type of [bits] bits: the least value has no
    negation in the type, and its absolute value is again the least
    value. *)
Definition abs (bits value : Z) : Z := wrap_signed bits (Z.abs value).

(** [parse(int value, array<char, 32>& output)].  [int] and [long] are the
    32 bit types of the target; a cast to one of them is [wrap_signed 32]. *)
Definition parse (p : posprintf_routines) (value : Z) (output : list Z)
  : Z * list Z :=
  let output_data := 0%nat in
  let abs_value := abs 32 value in
  if abs_value <? 65536 then
    let output := posprintf_d p value output in
    (string_view_size output, output)
  else if abs_value <? 500000000 then
    let output := posprintf_l p (wrap_signed 32 value) output in
    (string_view_size output, output)
  else _to_string value output output_data.

(** [parse(long value, array<char, 32>& output)] *)
Definition parse_long (p : posprintf_routines) (value : Z) (output : list Z)
  : Z * list Z :=
  let output_data := 0%nat in
  let abs_value := abs 32 value in
  if abs_value <? 65536 then
    let output := posprintf_d p (wrap_signed 32 value) output in
    (string_view_size output, output)
  else if abs_value <? 500000000 then
    let output := posprintf_l p value output in
    (string_view_size output, output)
  else _to_string value output output_data.

(** [parse(int64_t value, array<char, 32>& output)] *)
Definition parse_int64 (p : posprintf_routines) (value : Z)
    (output : list Z) : Z * list Z :=
  let output_data := 0%nat in
  let abs_value := abs 64 value in
  if abs_value <? 65536 then
    let output := posprintf_d p (wrap_signed 32 value) output in
    (string_view_size output, output)
  else if abs_value <? 500000000 then
    let output := posprintf_l p (wrap_signed 32 value) output in
    (string_view_size output, output)
  else _to_string value output output_data.

(** [parse(unsigned value, array<char, 32>& output)], and the same for
    [unsigned long] and [uint64_t]: the value is not negative. *)
Definition parse_unsigned (p : posprintf_routines) (value : Z)
    (output : list Z) : Z * list Z :=
  let output_data := 0%nat in
  if value <? 65536 then
    let output := posprintf_d p (wrap_signed 32 value) output in
    (string_view_size output, output)
  else if value <? 500000000 then
    let output := posprintf_l p (wrap_signed 32 value) output in
    (string_view_size output, output)
  else _to_string value output output_data.

(** [parse(const void* ptr, array<char, 32>& output)] *)
Definition parse_pointer (p : posprintf_routines) (ptr : Z)
    (output : list Z) : Z * list Z :=
  let output := posprintf_x p ptr output in
  (string_view_size output, output).

End hw_text.

(** ** Template actions (btn_template_actions.h)

    Each class template takes the type of a property and a
    [PropertyManager] with static [get] and [set].  The property's
    arithmetic is a class, the manager a record of functions on the state
    it reads and writes (the [world]).  The counters are [uint16_t]: [++]
    wraps around at 65536, and a comparison with the [int] duration is
    made on the values. *)

Class property_type (Property : Type) := {
  (* operator+ and operator- *)
  property_add : Property -> Property -> Property;
  property_sub : Property -> Property -> Property;
  (* operator/ with an int *)
  property_div : Property -> Z -> Property;
  (* operator< and operator>= *)
  property_lt : Property -> Property -> bool;
  property_ge : Property -> Property -> bool
}.

Record property_manager (Property world : Type) := {
  get : world -> Property;
  set : Property -> world -> world
}.

Arguments get {Property world} _ _.
Arguments set {Property world} _ _ _.

Module template_actions.

(** [++_current_update] on a [uint16_t]. *)
Definition uint16_increment (counter : Z) : Z := (counter + 1) mod 65536.

(** [numeric_limits<uint16_t>::max()] *)
Definition uint16_max : Z := 65535.

(** [n] calls of an [update] that cannot fail, one after the other. *)
Fixpoint repeat_update {A world : Type} (update : A -> world -> A * world)
    (n : nat) (action : A) (w : world) : A * world :=
  match n with
  | O => (action, w)
  | S n =>
      let '(action, w) := update action w in
      repeat_update update n action w
  end.

(** The same for an [update] that can stop in an assertion. *)
Fixpoint repeat_update_result {A world : Type}
    (update : A -> world -> result (A * world))
    (n : nat) (action : A) (w : world) : result (A * world) :=
  match n with
  | O => Ok (action, w)
  | S n =>
      match update action w with
      | Ok (action, w) => repeat_update_result update n action w
      | Fatal message values => Fatal message values
      end
  end.

Module by_template_action.
Section with_manager.
Context {Property world : Type} `{property_type Property}
  (manager : property_manager Property world).

Record t := {
  _delta_property : Property;
  _initial_property : Property
}.

Definition make (delta_property : Property) (w : world) : t :=
  {| _delta_property := delta_property;
     _initial_property := get manager w |}.

Definition reset (action : t) (w : world) : world :=
  set manager (_initial_property action) w.

Definition update (action : t) (w : world) : t * world :=
  (action,
   set manager (property_add (get manager w) (_delta_property action)) w).

End with_manager.
End by_template_action.

Module cyclic_by_template_action.
Section with_manager.
Context {Property world : Type} `{property_type Property}
  (manager : property_manager Property world).

Record t := {
  _delta_property : Property;
  _min_property : Property;
  _after_max_property : Property;
  _initial_property : Property
}.

Definition make (delta_property min_property after_max_property : Property)
    (w : world) : t :=
  {| _delta_property := delta_property;
     _min_property := min_property;
     _after_max_property := after_max_property;
     _initial_property := get manager w |}.

Definition reset (action : t) (w : world) : world :=
  set manager (_initial_property action) w.

(** The property after one step of the cycle. *)
Definition cycled (action : t) (property : Property) : Property :=
  let new_property := property_add property (_delta_property action) in
  if property_lt new_property (_min_property action) then
    property_add new_property
      (property_sub (_after_max_property action) (_min_property action))
  else if property_ge new_property (_after_max_property action) then
    property_sub new_property
      (property_sub (_after_max_property action) (_min_property action))
  else new_property.

Definition update (action : t) (w : world) : t * world :=
  (action, set manager (cycled action (get manager w)) w).

End with_manager.
End cyclic_by_template_action.

Module duration_by_template_action.
Section with_manager.
Context {Property world : Type} `{property_type Property}
  (manager : property_manager Property world).

Record t := {
  _current_update : Z;
  _delta_property : Property;
  _initial_property : Property;
  _duration_updates : Z
}.

Definition make (duration_updates : Z) (delta_property : Property)
    (w : world) : result t :=
  (_ <- bn_assert (duration_updates >? 0)
         "Invalid duration updates: " [duration_updates] ;;
   Ok {| _current_update := 0;
         _delta_property := delta_property;
         _initial_property := get manager w;
         _duration_updates := duration_updates |})%result.

Definition with_current_update (value : Z) (action : t) : t :=
  {| _current_update := value;
     _delta_property := _delta_property action;
     _initial_property := _initial_property action;
     _duration_updates := _duration_updates action |}.

Definition reset (action : t) (w : world) : t * world :=
  (with_current_update 0 action,
   set manager (_initial_property action) w).

Definition update (action : t) (w : world) : t * world :=
  if _current_update action =? _duration_updates action - 1 then
    (with_current_update 0 action,
     set manager (property_add (get manager w) (_delta_property action)) w)
  else
    (with_current_update (uint16_increment (_current_update action)) action,
     w).

End with_manager.
End duration_by_template_action.

Module cyclic_duration_by_template_action.
Section with_manager.
Context {Property world : Type} `{property_type Property}
  (manager : property_manager Property world).

Record t := {
  _current_update : Z;
  _delta_property : Property;
  _min_property : Property;
  _after_max_property : Property;
  _initial_property : Property;
  _duration_updates : Z
}.

Definition make (duration_updates : Z)
    (delta_property min_property after_max_property : Property) (w : world)
  : result t :=
  (_ <- bn_assert (duration_updates >? 0)
         "Invalid duration updates: " [duration_updates] ;;
   Ok {| _current_update := 0;
         _delta_property := delta_property;
         _min_property := min_property;
         _after_max_property := after_max_property;
         _initial_property := get manager w;
         _duration_updates := duration_updates |})%result.

Definition with_current_update (value : Z) (action : t) : t :=
  {| _current_update := value;
     _delta_property := _delta_property action;
     _min_property := _min_property action;
     _after_max_property := _after_max_property action;
     _initial_property := _initial_property action;
     _duration_updates := _duration_updates action |}.

(** [reset] sets the property and nothing else. *)
Definition reset (action : t) (w : world) : t * world :=
  (action, set manager (_initial_property action) w).

Definition cycled (action : t) (property : Property) : Property :=
  let new_property := property_add property (_delta_property action) in
  if property_lt new_property (_min_property action) then
    property_add new_property
      (property_sub (_after_max_property action) (_min_property action))
  else if property_ge new_property (_after_max_property action) then
    property_sub new_property
      (property_sub (_after_max_property action) (_min_property action))
  else new_property.

Definition update (action : t) (w : world) : t * world :=
  if _current_update action =? _duration_updates action - 1 then
    (with_current_update 0 action,
     set manager (cycled action (get manager w)) w)
  else
    (with_current_update (uint16_increment (_current_update action)) action,
     w).

End with_manager.
End cyclic_duration_by_template_action.

Module to_template_action.
Section with_manager.
Context {Property world : Type} `{property_type Property}
  (manager : property_manager Property world).

Record t := {
  _current_update : Z;
  _final_property : Property;
  _initial_property : Property;
  _delta_property : Property;
  _duration_updates : Z
}.

Definition _calculate_delta_property
    (final_property initial_property : Property)
    (duration_updates : Z) : result Property :=
  (_ <- bn_assert (duration_updates >? 0)
         "Invalid duration updates: " [duration_updates] ;;
   _ <- bn_assert (duration_updates <=? uint16_max)
         "Too much duration updates: " [duration_updates] ;;
   Ok (property_div (property_sub final_property initial_property)
         duration_updates))%result.

Definition make (duration_updates : Z) (final_property : Property)
    (w : world) : result t :=
  (let initial_property := get manager w in
   delta_property <- _calculate_delta_property final_property
                       initial_property duration_updates ;;
   Ok {| _current_update := 0;
         _final_property := final_property;
         _initial_property := initial_property;
         _delta_property := delta_property;
         _duration_updates := duration_updates |})%result.

Definition with_current_update (value : Z) (action : t) : t :=
  {| _current_update := value;
     _final_property := _final_property action;
     _initial_property := _initial_property action;
     _delta_property := _delta_property action;
     _duration_updates := _duration_updates action |}.

Definition reset (action : t) (w : world) : t * world :=
  (with_current_update 0 action,
   set manager (_initial_property action) w).

Definition done (action : t) : bool :=
  _current_update action =? _duration_updates action.

Definition update (action : t) (w : world) : result (t * world) :=
  (_ <- bn_assert (negb (done action)) "Action is done" [] ;;
   let action :=
     with_current_update (uint16_increment (_current_update action)) action in
   if _current_update action =? _duration_updates action then
     Ok (action, set manager (_final_property action) w)
   else
     Ok (action,
         set manager
           (property_add (get manager w) (_delta_property action)) w))%result.

End with_manager.
End to_template_action.

Module loop_template_action.
Section with_manager.
Context {Property world : Type} `{property_type Property}
  (manager : property_manager Property world).

Record t := {
  _reverse : bool;
  _current_update : Z;
  _final_property : Property;
  _initial_property : Property;
  _delta_property : Property;
  _duration_updates : Z
}.

Definition _calculate_delta_property
    (final_property initial_property : Property)
    (duration_updates : Z) : result Property :=
  (_ <- bn_assert (duration_updates >? 0)
         "Invalid duration updates: " [duration_updates] ;;
   _ <- bn_assert (duration_updates <=? uint16_max)
         "Too much duration updates: " [duration_updates] ;;
   Ok (property_div (property_sub final_property initial_property)
         duration_updates))%result.

Definition make (duration_updates : Z) (final_property : Property)
    (w : world) : result t :=
  (let initial_property := get manager w in
   delta_property <- _calculate_delta_property final_property
                       initial_property duration_updates ;;
   Ok {| _reverse := false;
         _current_update := 0;
         _final_property := final_property;
         _initial_property := initial_property;
         _delta_property := delta_property;
         _duration_updates := duration_updates |})%result.

Definition with_state (reverse : bool) (current_update : Z) (action : t) : t :=
  {| _reverse := reverse;
     _current_update := current_update;
     _final_property := _final_property action;
     _initial_property := _initial_property action;
     _delta_property := _delta_property action;
     _duration_updates := _duration_updates action |}.

Definition reset (action : t) (w : world) : t * world :=
  (with_state false 0 action, set manager (_initial_property action) w).

Definition update (action : t) (w : world) : t * world :=
  let current_update := uint16_increment (_current_update action) in
  if current_update =? _duration_updates action then
    if _reverse action then
      (with_state false 0 action, set manager (_initial_property action) w)
    else
      (with_state true 0 action, set manager (_final_property action) w)
  else
    if _reverse action then
      (with_state (_reverse action) current_update action,
       set manager
         (property_sub (get manager w) (_delta_property action)) w)
    else
      (with_state (_reverse action) current_update action,
       set manager
         (property_add (get manager w) (_delta_property action)) w).

End with_manager.
End loop_template_action.

Module toggle_template_action.
Section with_manager.
Context {Property world : Type}
  (manager : property_manager Property world).

Record t := {
  _reverse : bool;
  _current_update : Z;
  _initial_property : Property;
  _new_property : Property;
  _duration_updates : Z
}.

Definition make (duration_updates : Z) (new_property : Property)
    (w : world) : result t :=
  (_ <- bn_assert (duration_updates >? 0)
         "Invalid duration updates: " [duration_updates] ;;
   Ok {| _reverse := false;
         _current_update := 0;
         _initial_property := get manager w;
         _new_property := new_property;
         _duration_updates := duration_updates |})%result.

Definition with_state (reverse : bool) (current_update : Z) (action : t) : t :=
  {| _reverse := reverse;
     _current_update := current_update;
     _initial_property := _initial_property action;
     _new_property := _new_property action;
     _duration_updates := _duration_updates action |}.

Definition reset (action : t) (w : world) : t * world :=
  (with_state false 0 action, set manager (_initial_property action) w).

Definition update (action : t) (w : world) : t * world :=
  let current_update := uint16_increment (_current_update action) in
  if current_update =? _duration_updates action then
    if _reverse action then
      (with_state false 0 action, set manager (_initial_property action) w)
    else
      (with_state true 0 action, set manager (_new_property action) w)
  else (with_state (_reverse action) current_update action, w).

End with_manager.
End toggle_template_action.

Module bool_toggle_template_action.
Section with_manager.
Context {world : Type} (manager : property_manager bool world).

Record t := {
  _reverse : bool;
  _initial_property : bool;
  _current_update : Z;
  _duration_updates : Z
}.

Definition make (duration_updates : Z) (w : world) : result t :=
  (_ <- bn_assert (duration_updates >? 0)
         "Invalid duration updates: " [duration_updates] ;;
   Ok {| _reverse := false;
         _initial_property := get manager w;
         _current_update := 0;
         _duration_updates := duration_updates |})%result.

Definition with_state (reverse : bool) (current_update : Z) (action : t) : t :=
  {| _reverse := reverse;
     _initial_property := _initial_property action;
     _current_update := current_update;
     _duration_updates := _duration_updates action |}.

Definition reset (action : t) (w : world) : t * world :=
  (with_state false 0 action, set manager (_initial_property action) w).

Definition update (action : t) (w : world) : t * world :=
  let current_update := uint16_increment (_current_update action) in
  if current_update =? _duration_updates action then
    if _reverse action then
      (with_state false 0 action, set manager (_initial_property action) w)
    else
      (with_state true 0 action,
       set manager (negb (_initial_property action)) w)
  else (with_state (_reverse action) current_update action, w).

End with_manager.
End bool_toggle_template_action.

End template_actions.

(** *** An [int] property that is the whole state

    The property of the examples is an [int]: 32 bits in two's complement.
    The result of an addition, a subtraction or a division that is not an
    [int] wraps around. *)
Module example_actions.

(** The [int] an arithmetic result leaves. *)
Definition int_wrap (value : Z) : Z := (value + 2 ^ 31) mod 2 ^ 32 - 2 ^ 31.

#[global] Instance integer_property : property_type Z :=
  {| property_add := fun a b => int_wrap (a + b);
     property_sub := fun a b => int_wrap (a - b);
     property_div := fun a b => int_wrap (a ÷ b);
     property_lt := Z.ltb;
     property_ge := Z.geb |}.

Definition the_manager : property_manager Z Z :=
  {| get := fun w => w; set := fun value _ => value |}.

Definition the_switch : property_manager bool bool :=
  {| get := fun w => w; set := fun value _ => value |}.

(** A [posprintf] that writes nothing. *)
Definition the_posprintf : hw_text.posprintf_routines :=
  {| hw_text.posprintf_d := fun value output => output;
     hw_text.posprintf_l := fun value output => output;
     hw_text.posprintf_x := fun value output => output |}.

End example_actions.

(** The [toggle_template_action<bool, PropertyManager>] that has the state
    of a [bool_toggle_template_action] and the negated initial property as
    its new property. *)
Definition as_toggle (action : template_actions.bool_toggle_template_action.t)
  : template_actions.toggle_template_action.t :=
  {| template_actions.toggle_template_action._reverse :=
       template_actions.bool_toggle_template_action._reverse action;
     template_actions.toggle_template_action._current_update :=
       template_actions.bool_toggle_template_action._current_update action;
     template_actions.toggle_template_action._initial_property :=
       template_actions.bool_toggle_template_action._initial_property action;
     template_actions.toggle_template_action._new_property :=
       negb
         (template_actions.bool_toggle_template_action._initial_property
            action);
     template_actions.toggle_template_action._duration_updates :=
       template_actions.bool_toggle_template_action._duration_updates
         action |}.

(** ** [bf::game_hero_bomb] (bf_game_hero_bomb.cpp)

    The bomb of the game's hero: a window that opens around the hero for
    [open_frames] updates and a fade that closes it for [close_frames].
    The objects the bomb drives (windows, backgrounds, HBlank effects, the
    circle and wave generators, sounds) are outside the sources at hand:
    a call to one of them is an [event] in the log an update returns, in
    the order of the calls.  What the code reads back is part of the
    state: the radius it gives the circle generator, whether the optional
    window actions hold an action (dereferencing an empty optional stops
    in its assertion), and the blending action, whose class is an
    interface. *)
Module game_hero_bomb.

Inductive status_type := INACTIVE | OPEN | CLOSE.

Definition open_frames : Z := 50.
Definition close_frames : Z := 130.

(** The name of the function called and its integer arguments. *)
Definition event : Type := string * list Z.

Definition call (name : string) (arguments : list Z) : event :=
  (name, arguments).

(** [btn::blending_transparency_alpha_to_action]: the constructor from a
    duration and a final alpha, [update] and [done]. *)
Record blending_action_type (B : Type) := {
  blending_emplace : Z -> Z -> B;
  blending_update : B -> B;
  blending_done : B -> bool
}.

Arguments blending_emplace {B} _ _ _.
Arguments blending_update {B} _ _.
Arguments blending_done {B} _ _.

(** What an update asks of the keypad and the hero. *)
Record input := {
  a_pressed : bool;
  (* hero.throw_bomb(), when it is called *)
  throw_bomb : bool;
  (* hero.weapon_position() *)
  hero_x : Z;
  hero_y : Z
}.

Section with_blending.
Context {B : Type} (blending : blending_action_type B).

Record t := {
  _status : status_type;
  _counter : Z;
  _flame_sound_counter : Z;
  _circle_radius : Z;
  _move_window_top_action : bool;
  _move_window_bottom_action : bool;
  _blending_action : option B
}.

(** [_play_flame_sound] *)
Definition _play_flame_sound (flame_sound_counter : Z) : Z * list event :=
  let flame_sound_counter := flame_sound_counter + 1 in
  if (flame_sound_counter >? 16) && (Z.rem flame_sound_counter 16 =? 0)
  then (flame_sound_counter, [call "sound::play flame_thrower" []])
  else (flame_sound_counter, []).

Definition update (bomb : t) (i : input) : result (t * list event) :=
  match _status bomb with
  | INACTIVE =>
      if a_pressed i then
        if throw_bomb i then
          Ok ({| _status := OPEN;
                 _counter := open_frames;
                 _flame_sound_counter := 0;
                 _circle_radius := 0;
                 _move_window_top_action := true;
                 _move_window_bottom_action := true;
                 _blending_action := _blending_action bomb |},
              [call "hero.throw_bomb" [];
               call "window.set_boundaries"
                 [hero_x i; hero_y i; hero_x i; hero_y i];
               call "window.set_show_blending" [0];
               call "move_window_top_action.emplace" [-4];
               call "move_window_bottom_action.emplace" [4];
               call "circle_generator.set_origin_y" [hero_y i];
               call "circle_generator.set_radius" [0];
               call "circle_generator.generate" [];
               call "circle_hblank_effect.reload_deltas_ref" [];
               call "circle_hblank_effect.set_visible" [1];
               call "background.show_bomb_open" [open_frames];
               call "wave_hblank_effect.set_visible" [1];
               call "sound::play explosion_2" []])
        else Ok (bomb, [call "hero.throw_bomb" []])
      else Ok (bomb, [])
  | OPEN =>
      if negb (_counter bomb =? 0) then
        let counter := _counter bomb - 1 in
        if negb (_move_window_top_action bomb
                 && _move_window_bottom_action bomb)
        then Fatal "Optional is empty" []
        else
          let radius := _circle_radius bomb + 4 in
          let flame := _play_flame_sound (_flame_sound_counter bomb) in
          Ok ({| _status := OPEN;
                 _counter := counter;
                 _flame_sound_counter := fst flame;
                 _circle_radius := radius;
                 _move_window_top_action := _move_window_top_action bomb;
                 _move_window_bottom_action :=
                   _move_window_bottom_action bomb;
                 _blending_action := _blending_action bomb |},
              [call "bg_move_action.update" [];
               call "move_window_top_action.update" [];
               call "move_window_bottom_action.update" [];
               call "circle_generator.set_radius" [radius];
               call "circle_generator.generate" [];
               call "circle_hblank_effect.reload_deltas_ref" []]
              ++ snd flame)
      else
        Ok ({| _status := CLOSE;
               _counter := close_frames;
               _flame_sound_counter := _flame_sound_counter bomb;
               _circle_radius := _circle_radius bomb;
               _move_window_top_action := false;
               _move_window_bottom_action := false;
               _blending_action := None |},
            [call "bg_move_action.update" [];
             call "move_window_top_action.reset" [];
             call "move_window_bottom_action.reset" [];
             call "circle_hblank_effect.set_visible" [0];
             call "window.set_boundaries" [-1000; -1000; 1000; 1000];
             call "blending_action.reset" []])
  | CLOSE =>
      let blended :=
        match _blending_action bomb with
        | Some action =>
            let action := blending_update blending action in
            if blending_done blending action
            then (None,
                  [call "blending_action.update" [];
                   call "blending_action.reset" []])
            else (Some action, [call "blending_action.update" []])
        | None => (None, [])
        end in
      if negb (_counter bomb =? 0) then
        let counter := _counter bomb - 1 in
        let faded :=
          if counter =? close_frames - 30 then
            (Some (blending_emplace blending (close_frames - 30) 0),
             [call "window.set_show_blending" [1];
              call "blending::set_transparency_alpha" [1];
              call "blending_action.emplace" [close_frames - 30; 0];
              call "background.show_bomb_fade" [close_frames - 50]])
          else if counter =? 20 then
            (None,
             [call "window.set_boundaries" [0; 0; 0; 0];
              call "blending_action.reset" [];
              call "background.show_clouds" [];
              call "wave_hblank_effect.set_visible" [0]])
          else (fst blended, []) in
        let flame :=
          if counter >? 40
          then _play_flame_sound (_flame_sound_counter bomb)
          else (_flame_sound_counter bomb, []) in
        Ok ({| _status := CLOSE;
               _counter := counter;
               _flame_sound_counter := fst flame;
               _circle_radius := _circle_radius bomb;
               _move_window_top_action := _move_window_top_action bomb;
               _move_window_bottom_action := _move_window_bottom_action bomb;
               _blending_action := fst faded |},
            [call "bg_move_action.update" []] ++ snd blended ++ snd faded
            ++ snd flame)
      else
        Ok ({| _status := INACTIVE;
               _counter := _counter bomb;
               _flame_sound_counter := _flame_sound_counter bomb;
               _circle_radius := _circle_radius bomb;
               _move_window_top_action := _move_window_top_action bomb;
               _move_window_bottom_action := _move_window_bottom_action bomb;
               _blending_action := fst blended |},
            [call "bg_move_action.update" []] ++ snd blended)
  end.

(** One update for each input of the list, and the log of them all. *)
Fixpoint updates (inputs : list input) (bomb : t)
  : result (t * list event) :=
  match inputs with
  | [] => Ok (bomb, [])
  | i :: rest =>
      match update bomb i with
      | Ok (bomb, log) =>
          match updates rest bomb with
          | Ok (bomb, more) => Ok (bomb, log ++ more)
          | Fatal message values => Fatal message values
          end
      | Fatal message values => Fatal message values
      end
  end.

(** How often the flame sound was played. *)
Definition flame_sounds (log : list event) : nat :=
  List.length
    (List.filter (fun e => String.eqb (fst e) "sound::play flame_thrower")
       log).

(** How often the hero was asked for a bomb. *)
Definition bombs_asked (log : list event) : nat :=
  List.length
    (List.filter (fun e => String.eqb (fst e) "hero.throw_bomb") log).

(** The updates a bomb that is on still has before it is inactive again. *)
Definition remaining_updates (bomb : t) : Z :=
  match _status bomb with
  | INACTIVE => 0
  | OPEN => _counter bomb + (close_frames + 2)
  | CLOSE => _counter bomb + 1
  end.

(** The flame sounds among the first [flame_sound_counter] calls of
    [_play_flame_sound]: one at 32 and one every 16 calls from there. *)
Definition flame_sounds_until (flame_sound_counter : Z) : Z :=
  Z.max 0 (flame_sound_counter / 16 - 1).

(** The state of a bomb that was thrown, as far as its counter tells: the
    window actions are there while it opens, the radius has grown by 4 and
    the flame has been counted on every update that counted down, with
    the updates of the last 41 frames of the fade apart. *)
Definition thrown (bomb : t) : Prop :=
  match _status bomb with
  | OPEN =>
      0 <= _counter bomb <= open_frames
      /\ _move_window_top_action bomb = true
      /\ _move_window_bottom_action bomb = true
      /\ _flame_sound_counter bomb = open_frames - _counter bomb
      /\ _circle_radius bomb = 4 * (open_frames - _counter bomb)
  | CLOSE =>
      0 <= _counter bomb <= close_frames
      /\ _flame_sound_counter bomb
         = open_frames + Z.min (close_frames - _counter bomb) 89
      /\ _circle_radius bomb = 4 * open_frames
  | INACTIVE =>
      _flame_sound_counter bomb = open_frames + 89
      /\ _circle_radius bomb = 4 * open_frames
  end.

End with_blending.

End game_hero_bomb.

(** *** A bomb to throw *)
Module example_bomb.

(** A blending action that counts its updates and is done after 100. *)
Definition the_blending : game_hero_bomb.blending_action_type Z :=
  {| game_hero_bomb.blending_emplace := fun duration_updates final => 0;
     game_hero_bomb.blending_update := fun updates => updates + 1;
     game_hero_bomb.blending_done := fun updates => updates =? 100 |}.

Definition the_bomb : @game_hero_bomb.t Z :=
  {| game_hero_bomb._status := game_hero_bomb.INACTIVE;
     game_hero_bomb._counter := 0;
     game_hero_bomb._flame_sound_counter := 0;
     game_hero_bomb._circle_radius := 0;
     game_hero_bomb._move_window_top_action := false;
     game_hero_bomb._move_window_bottom_action := false;
     game_hero_bomb._blending_action := None |}.

(** A pressed, and the hero has a bomb. *)
Definition the_throw : game_hero_bomb.input :=
  {| game_hero_bomb.a_pressed := true;
     game_hero_bomb.throw_bomb := true;
     game_hero_bomb.hero_x := 3;
     game_hero_bomb.hero_y := 7 |}.

(** A held down all the time, and the hero has more bombs. *)
Definition held : game_hero_bomb.input :=
  {| game_hero_bomb.a_pressed := true;
     game_hero_bomb.throw_bomb := true;
     game_hero_bomb.hero_x := 0;
     game_hero_bomb.hero_y := 0 |}.

End example_bomb.

(* ===================================================================== *)
(** * Part II. Properties                                                 *)
(* ===================================================================== *)

(** ** Fatal assertions *)

Lemma bn_assert_ok (condition : bool) (message : string) (values : list Z) :
  bn_assert condition message values = Ok tt <-> condition = true.
Proof.
  unfold bn_assert. destruct condition; split; intros E; congruence.
Qed.

Lemma bind_ok {A B : Type} (r : result A) (k : A -> result B) (b : B) :
  bind r k = Ok b <-> exists a, r = Ok a /\ k a = Ok b.
Proof.
  destruct r as [a|m vs]; simpl; split.
  - intros E. exists a. split; [reflexivity | exact E].
  - intros (a' & Ea & Ek). inversion Ea; subst. exact Ek.
  - intros E. discriminate E.
  - intros (a' & Ea & _). discriminate Ea.
Qed.

(** ** The handlers' caches *)

Lemma int_pair_eqb_eq (a b : Z * Z) : int_pair_eqb a b = true <-> a = b.
Proof.
  destruct a as [a1 a2], b as [b1 b2]. unfold int_pair_eqb. simpl.
  rewrite andb_true_iff, !Z.eqb_eq. split.
  - intros [-> ->]. reflexivity.
  - intros E. inversion E. split; reflexivity.
Qed.

Lemma bpp_mode_eqb_eq (a b : bpp_mode) : bpp_mode_eqb a b = true <-> a = b.
Proof. destruct a, b; simpl; split; congruence. Qed.

Lemma last_value_eqb_eq (a b : last_value_type) :
  last_value_eqb a b = true <-> a = b.
Proof.
  destruct a as [da ca ba], b as [db cb bb]. unfold last_value_eqb. simpl.
  rewrite !andb_true_iff, int_pair_eqb_eq, Z.eqb_eq, bpp_mode_eqb_eq. split.
  - intros [[-> ->] ->]. reflexivity.
  - intros E. inversion E. repeat split; reflexivity.
Qed.

(** C4. For every target and every cached pair, [target_updated] of the
    rect-window horizontal boundaries handler answers true exactly when the
    window's current hardware boundaries differ from the cached pair, and
    leaves the current boundaries in the cache; a second call on the
    unchanged target answers false. *)
Theorem rect_window_target_updated_compares_and_caches
    (e : engine) (target_id : Z) (cached : Z * Z) :
  let current := rect_window_hw_horizontal_boundaries e target_id in
  exists updated : bool,
    rect_window_horizontal_boundaries_hbe_handler.target_updated
      e target_id (any_int_pair cached)
    = Ok (updated, any_int_pair current)
    /\ (updated = true <-> current <> cached)
    /\ rect_window_horizontal_boundaries_hbe_handler.target_updated
         e target_id (any_int_pair current)
       = Ok (false, any_int_pair current).
Proof.
  intros current.
  unfold rect_window_horizontal_boundaries_hbe_handler.target_updated.
  simpl. fold current.
  exists (negb (int_pair_eqb cached current)). split; [reflexivity|]. split.
  - rewrite negb_true_iff.
    destruct (int_pair_eqb cached current) eqn:E.
    + apply int_pair_eqb_eq in E. split; [discriminate | congruence].
    + split; [|reflexivity]. intros _ Heq.
      assert (int_pair_eqb cached current = true) as E'
        by (apply int_pair_eqb_eq; congruence).
      congruence.
  - assert (int_pair_eqb current current = true) as ->
      by (apply int_pair_eqb_eq; reflexivity).
    reflexivity.
Qed.

(** The regular-background attributes handler compares and caches in the
    same way. *)
Lemma regular_bg_target_updated_compares_and_caches
    (e : engine) (target_id : Z) (cached : last_value_type) :
  let current :=
    regular_bg_attributes_hblank_effect_handler.make_last_value e target_id in
  regular_bg_attributes_hblank_effect_handler.target_updated
    e target_id (any_last_value cached)
  = Ok (negb (last_value_eqb cached current), any_last_value current)
  /\ (negb (last_value_eqb cached current) = true <-> current <> cached).
Proof.
  intros current. split; [reflexivity|].
  rewrite negb_true_iff.
  destruct (last_value_eqb cached current) eqn:E.
  - apply last_value_eqb_eq in E. split; [discriminate | congruence].
  - split; [|reflexivity]. intros _ Heq.
    assert (last_value_eqb cached current = true) as E'
      by (apply last_value_eqb_eq; congruence).
    congruence.
Qed.

(** C5. [target_visible] of the regular-background attributes handler is
    true exactly when the background has a hardware id; [target_visible] of
    the rect-window boundaries handler is true for every target. *)
Theorem target_visible_regular_bg_and_rect_window
    (e : engine) (target_id : Z) :
  (regular_bg_attributes_hblank_effect_handler.target_visible e target_id
   = true
   <-> exists hw_id : Z, bgs_hw_id e target_id = Some hw_id)
  /\ rect_window_horizontal_boundaries_hbe_handler.target_visible e target_id
     = true.
Proof.
  split; [|reflexivity].
  unfold regular_bg_attributes_hblank_effect_handler.target_visible.
  destruct (bgs_hw_id e target_id) as [hw_id|]; split.
  - intros _. exists hw_id. reflexivity.
  - reflexivity.
  - discriminate.
  - intros [hw_id E]. discriminate E.
Qed.

(** ** [memory::copy] *)

Lemma memory_copy_length {A : Type} (source destination : list A) (n : nat) :
  (n <= List.length source)%nat ->
  (n <= List.length destination)%nat ->
  List.length (memory_copy source n destination) = List.length destination.
Proof.
  intros Hs Hd. unfold memory_copy.
  rewrite length_app, length_take, length_drop. lia.
Qed.

Lemma memory_copy_lookup_lt {A : Type} (source destination : list A)
    (n i : nat) :
  (n <= List.length source)%nat ->
  (i < n)%nat ->
  memory_copy source n destination !! i = source !! i.
Proof.
  intros Hs Hi. unfold memory_copy.
  rewrite lookup_app_l by (rewrite length_take; lia).
  apply lookup_take_lt. exact Hi.
Qed.

Lemma memory_copy_lookup_ge {A : Type} (source destination : list A)
    (n i : nat) :
  (n <= List.length source)%nat ->
  (n <= i)%nat ->
  memory_copy source n destination !! i = destination !! i.
Proof.
  intros Hs Hi. unfold memory_copy.
  rewrite lookup_app_r by (rewrite length_take; lia).
  rewrite length_take, lookup_drop. f_equal. lia.
Qed.

(** ** The sprite-palette color handler *)

Lemma get_values_ref_item (id : Z) (items : hblank_effects_manager.manager)
    (it : hblank_effects_manager.item_type) :
  hblank_effects_manager.item_at id items = Some it ->
  hblank_effects_manager.get_values_ref id items
  = Ok (hblank_effects_manager.values_ref it).
Proof.
  intros E. unfold hblank_effects_manager.get_values_ref. rewrite E.
  reflexivity.
Qed.

(** C6. [write_output_values] of the sprite-palette color handler writes one
    value per scanline: the first [display_height] (160) cells of the output
    are those of the input, the output keeps its length and its other cells;
    and the span [colors_ref] exposes has the display height as its size. *)
Theorem color_handler_writes_one_value_per_scanline
    (e : engine) (target_id : Z) (last : iany) (input output : list Z) :
  (display_height <= List.length input)%nat ->
  (display_height <= List.length output)%nat ->
  display_height = 160%nat
  /\ (exists written : list Z,
        color_hblank_effect_handler.write_output_values
          e target_id last input output = Ok written
        /\ List.length written = List.length output
        /\ (forall i : nat,
              (i < display_height)%nat -> written !! i = input !! i)
        /\ (forall i : nat,
              (display_height <= i)%nat -> written !! i = output !! i))
  /\ (forall (P : Type) (p : sprite_palette_color_hblank_effect_ptr.t P)
        (items : hblank_effects_manager.manager)
        (it : hblank_effects_manager.item_type),
        hblank_effects_manager.item_at
          (sprite_palette_color_hblank_effect_ptr.id p) items = Some it ->
        exists colors : span,
          sprite_palette_color_hblank_effect_ptr.colors_ref p items
          = Ok colors
          /\ span_data colors = hblank_effects_manager.values_ref it
          /\ span_size colors = Z.of_nat display_height).
Proof.
  intros Hin Hout. split; [reflexivity|]. split.
  - exists (memory_copy input display_height output).
    split; [reflexivity|]. split; [|split].
    + apply memory_copy_length; assumption.
    + intros i Hi. apply memory_copy_lookup_lt; assumption.
    + intros i Hi. apply memory_copy_lookup_ge; assumption.
  - intros P p items it Hit.
    unfold sprite_palette_color_hblank_effect_ptr.colors_ref.
    rewrite (get_values_ref_item _ _ _ Hit). simpl.
    eexists. split; [reflexivity|]. split; reflexivity.
Qed.

(** ** The scheduler's frame pass *)

Lemma item_at_lookup (id : Z) (items : hblank_effects_manager.manager)
    (it : hblank_effects_manager.item_type) :
  hblank_effects_manager.item_at id items = Some it <->
  0 <= id /\ items !! Z.to_nat id = Some (Some it).
Proof.
  unfold hblank_effects_manager.item_at.
  destruct (id <? 0) eqn:E.
  - apply Z.ltb_lt in E. split; [discriminate | lia].
  - apply Z.ltb_ge in E.
    destruct (items !! Z.to_nat id) as [[it'|]|]; simpl; split;
      try discriminate; try (intros [_ ?]; congruence).
    + intros E'. inversion E'. split; [lia | reflexivity].
Qed.

Lemma update_items_lookup (e : engine)
    (items items' : hblank_effects_manager.manager) (i : nat)
    (it : hblank_effects_manager.item_type) :
  hblank_effects_manager.update_items e items = Ok items' ->
  items !! i = Some (Some it) ->
  exists it' : hblank_effects_manager.item_type,
    hblank_effects_manager.update_item e it = Ok it'
    /\ items' !! i = Some (Some it').
Proof.
  revert items' i. induction items as [|slot rest IH]; intros items' i Hup Hi.
  - discriminate Hi.
  - simpl in Hup. destruct slot as [it0|].
    + apply bind_ok in Hup as (it0' & Hit0 & Hup).
      apply bind_ok in Hup as (rest' & Hrest & Hup).
      inversion Hup; subst items'; clear Hup.
      destruct i as [|i]; simpl in *.
      * inversion Hi; subst it0. exists it0'. split; [assumption|reflexivity].
      * apply (IH rest' i Hrest Hi).
    + apply bind_ok in Hup as (rest' & Hrest & Hup).
      inversion Hup; subst items'; clear Hup.
      destruct i as [|i]; simpl in *.
      * discriminate Hi.
      * apply (IH rest' i Hrest Hi).
Qed.

(** A slot whose reload flag is down and whose target did not change is not
    recomputed. *)
Lemma update_item_skips (e : engine) (it it' : hblank_effects_manager.item_type)
    (cache : iany) :
  hblank_effects_manager.update it = false ->
  target_updated (hblank_effects_manager.handler it) e
    (hblank_effects_manager.target_id it)
    (hblank_effects_manager.target_last_value it) = Ok (false, cache) ->
  hblank_effects_manager.update_item e it = Ok it' ->
  hblank_effects_manager.write_calls it'
  = hblank_effects_manager.write_calls it
  /\ hblank_effects_manager.output_values it'
     = hblank_effects_manager.output_values it
  /\ hblank_effects_manager.inactive_values it'
     = hblank_effects_manager.inactive_values it.
Proof.
  intros Hflag Htarget Hup.
  unfold hblank_effects_manager.update_item in Hup.
  destruct (negb (hblank_effects_manager.visible it)).
  { inversion Hup; subst. repeat split. }
  destruct (negb (target_visible _ e _)).
  { inversion Hup; subst. repeat split. }
  rewrite Htarget, Hflag in Hup. simpl in Hup.
  inversion Hup; subst. repeat split.
Qed.

(** What the frame pass does to a slot of the color handler. *)
Lemma update_item_color (e : engine) (it : hblank_effects_manager.item_type) :
  hblank_effects_manager.handler it = color_hblank_effect_handler.handler ->
  exists it' : hblank_effects_manager.item_type,
    hblank_effects_manager.update_item e it = Ok it'
    /\ hblank_effects_manager.write_calls it'
       = (hblank_effects_manager.write_calls it
          + (if hblank_effects_manager.visible it
                && hblank_effects_manager.update it
             then 1 else 0))%nat.
Proof.
  intros Hh. unfold hblank_effects_manager.update_item. rewrite Hh. simpl.
  destruct (hblank_effects_manager.visible it); simpl.
  - destruct (hblank_effects_manager.update it); simpl;
      eexists; (split; [reflexivity|]); simpl; lia.
  - eexists. split; [reflexivity|]. lia.
Qed.

(** C3. In a frame pass, an effect slot whose handler's [target_updated]
    reports no change and whose reload flag is down keeps its
    [write_output_values] call counter and its line tables; the color
    handler's [target_updated] reports no change for every target and leaves
    the cache as it is, so a color slot is recomputed exactly when it is
    shown and its reload flag is up. *)
Theorem unchanged_slot_is_not_recomputed
    (e : engine) (items items' : hblank_effects_manager.manager) (id : Z)
    (it : hblank_effects_manager.item_type) (cache : iany) :
  hblank_effects_manager.update_items e items = Ok items' ->
  hblank_effects_manager.item_at id items = Some it ->
  hblank_effects_manager.update it = false ->
  target_updated (hblank_effects_manager.handler it) e
    (hblank_effects_manager.target_id it)
    (hblank_effects_manager.target_last_value it) = Ok (false, cache) ->
  (exists it' : hblank_effects_manager.item_type,
     hblank_effects_manager.item_at id items' = Some it'
     /\ hblank_effects_manager.write_calls it'
        = hblank_effects_manager.write_calls it
     /\ hblank_effects_manager.output_values it'
        = hblank_effects_manager.output_values it
     /\ hblank_effects_manager.inactive_values it'
        = hblank_effects_manager.inactive_values it)
  /\ (forall (target : Z) (last : iany),
        color_hblank_effect_handler.target_updated e target last
        = Ok (false, last))
  /\ (forall slot : hblank_effects_manager.item_type,
        hblank_effects_manager.handler slot
        = color_hblank_effect_handler.handler ->
        exists slot' : hblank_effects_manager.item_type,
          hblank_effects_manager.update_item e slot = Ok slot'
          /\ hblank_effects_manager.write_calls slot'
             = (hblank_effects_manager.write_calls slot
                + (if hblank_effects_manager.visible slot
                      && hblank_effects_manager.update slot
                   then 1 else 0))%nat).
Proof.
  intros Hup Hit Hflag Htarget. split; [|split].
  - apply item_at_lookup in Hit as [Hid Hit].
    destruct (update_items_lookup _ _ _ _ _ Hup Hit) as (it' & Hit' & Hlook).
    exists it'. split.
    + apply item_at_lookup. split; assumption.
    + apply (update_item_skips e it it' cache); assumption.
  - reflexivity.
  - intros slot Hslot. apply update_item_color. exact Hslot.
Qed.

(** ** Creating a sprite-palette color effect *)

Lemma full_free_index (items : hblank_effects_manager.manager) :
  hblank_effects_manager.full items = true
  <-> hblank_effects_manager.free_index items = None.
Proof.
  unfold hblank_effects_manager.full.
  destruct (hblank_effects_manager.free_index items); split;
    congruence.
Qed.

Section color_effect_creation.
Context {P : Type} `{sprite_palette_view P}.

Lemma index_assert_ok (palette : P) (color_index : Z) :
  bn_assert
    ((color_index >=? 0) && (color_index <? palette_colors_count palette))
    "Invalid color index: " [color_index; palette_colors_count palette]
  = Ok tt
  <-> 0 <= color_index < palette_colors_count palette.
Proof.
  rewrite bn_assert_ok, andb_true_iff, Z.geb_le, Z.ltb_lt. reflexivity.
Qed.

Lemma index_assert_fatal (palette : P) (color_index : Z) :
  ~ (0 <= color_index < palette_colors_count palette) ->
  bn_assert
    ((color_index >=? 0) && (color_index <? palette_colors_count palette))
    "Invalid color index: " [color_index; palette_colors_count palette]
  = Fatal "Invalid color index: "
      [color_index; palette_colors_count palette].
Proof.
  intros Hout. unfold bn_assert.
  destruct ((color_index >=? 0)
            && (color_index <? palette_colors_count palette)) eqn:E.
  - apply andb_true_iff in E as [E1 E2].
    apply Z.geb_le in E1. apply Z.ltb_lt in E2. lia.
  - reflexivity.
Qed.

(** C2. With a valid color index and every effect slot taken,
    [optional_create] returns an empty optional and leaves the slots as they
    are, while [create] stops in the manager's fatal assertion instead of
    returning; and whenever [optional_create] does return a result, the
    manager gave it a non-negative slot id and that slot holds the new
    effect. *)
Theorem exhausted_slots_are_reported_to_the_caller
    (e : engine) (palette : P) (color_index : Z) (colors_ref : span)
    (items : hblank_effects_manager.manager) :
  0 <= color_index < palette_colors_count palette ->
  hblank_effects_manager.full items = true ->
  sprite_palette_color_hblank_effect_ptr.optional_create
    e palette color_index colors_ref items = Ok (None, items)
  /\ sprite_palette_color_hblank_effect_ptr.create
       e palette color_index colors_ref items
     = Fatal "No more HBlank effects available" []
  /\ (forall (items0 items1 : hblank_effects_manager.manager)
        (created : sprite_palette_color_hblank_effect_ptr.t P),
        sprite_palette_color_hblank_effect_ptr.optional_create
          e palette color_index colors_ref items0 = Ok (Some created, items1)
        -> 0 <= sprite_palette_color_hblank_effect_ptr.id created
           /\ hblank_effects_manager.full items0 = false
           /\ hblank_effects_manager.optional_create e (span_data colors_ref)
                (span_size colors_ref) ((palette_id palette * 16) + color_index)
                color_hblank_effect_handler.handler items0
              = (sprite_palette_color_hblank_effect_ptr.id created, items1)).
Proof.
  intros Hindex Hfull. apply full_free_index in Hfull.
  pose proof (proj2 (index_assert_ok palette color_index) Hindex) as Hassert.
  split; [|split].
  - unfold sprite_palette_color_hblank_effect_ptr.optional_create.
    rewrite Hassert. simpl.
    unfold hblank_effects_manager.optional_create. rewrite Hfull.
    reflexivity.
  - unfold sprite_palette_color_hblank_effect_ptr.create.
    rewrite Hassert. simpl.
    unfold hblank_effects_manager.create. rewrite Hfull. reflexivity.
  - intros items0 items1 created Hcreate.
    unfold sprite_palette_color_hblank_effect_ptr.optional_create in Hcreate.
    rewrite Hassert in Hcreate. simpl in Hcreate.
    unfold hblank_effects_manager.optional_create,
      hblank_effects_manager.full in *.
    destruct (hblank_effects_manager.free_index items0) as [i|]; simpl in *.
    + destruct (Z.of_nat i >=? 0) eqn:Ei; [|discriminate Hcreate].
      inversion Hcreate; subst; simpl. repeat split. lia.
    + discriminate Hcreate.
Qed.

(** C7. [create] and [optional_create] stop in the "Invalid color index"
    assertion exactly when the color index is negative or not below the
    palette's color count.  With the index in range the assertion is passed:
    [optional_create] returns, and [create] ends as the manager's [create]
    does, with the manager's id in the handle. *)
Theorem color_index_assertion_iff_out_of_range
    (e : engine) (palette : P) (color_index : Z) (colors_ref : span)
    (items : hblank_effects_manager.manager) :
  let count := palette_colors_count palette in
  let final_color_index := (palette_id palette * 16) + color_index in
  (sprite_palette_color_hblank_effect_ptr.create
     e palette color_index colors_ref items
   = Fatal "Invalid color index: " [color_index; count]
   <-> color_index < 0 \/ color_index >= count)
  /\ (sprite_palette_color_hblank_effect_ptr.optional_create
        e palette color_index colors_ref items
      = Fatal "Invalid color index: " [color_index; count]
      <-> color_index < 0 \/ color_index >= count)
  /\ (is_ok (sprite_palette_color_hblank_effect_ptr.optional_create
               e palette color_index colors_ref items) = false
      <-> color_index < 0 \/ color_index >= count)
  /\ (0 <= color_index < count ->
      sprite_palette_color_hblank_effect_ptr.create
        e palette color_index colors_ref items
      = match hblank_effects_manager.create e (span_data colors_ref)
                (span_size colors_ref) final_color_index
                color_hblank_effect_handler.handler items with
        | Ok (id, items') =>
            Ok ({| sprite_palette_color_hblank_effect_ptr.id := id;
                   sprite_palette_color_hblank_effect_ptr._color_index :=
                     color_index;
                   sprite_palette_color_hblank_effect_ptr._palette :=
                     palette |}, items')
        | Fatal message values => Fatal message values
        end).
Proof.
  intros count final_color_index.
  destruct (decide (0 <= color_index < count)) as [Hin|Hout].
  - pose proof (proj2 (index_assert_ok palette color_index) Hin) as Hassert.
    assert (sprite_palette_color_hblank_effect_ptr.create
              e palette color_index colors_ref items
            = match hblank_effects_manager.create e (span_data colors_ref)
                      (span_size colors_ref) final_color_index
                      color_hblank_effect_handler.handler items with
              | Ok (id, items') =>
                  Ok ({| sprite_palette_color_hblank_effect_ptr.id := id;
                         sprite_palette_color_hblank_effect_ptr._color_index :=
                           color_index;
                         sprite_palette_color_hblank_effect_ptr._palette :=
                           palette |}, items')
              | Fatal message values => Fatal message values
              end) as Hcreate.
    { unfold sprite_palette_color_hblank_effect_ptr.create.
      rewrite Hassert. simpl. fold final_color_index.
      destruct (hblank_effects_manager.create _ _ _ _ _ _) as [[id items']|];
        reflexivity. }
    split; [|split; [|split]].
    + split; [|lia]. rewrite Hcreate.
      unfold hblank_effects_manager.create.
      destruct (hblank_effects_manager.free_index items); discriminate.
    + split; [|lia].
      unfold sprite_palette_color_hblank_effect_ptr.optional_create.
      rewrite Hassert. discriminate.
    + split; [|lia].
      unfold sprite_palette_color_hblank_effect_ptr.optional_create.
      rewrite Hassert. discriminate.
    + intros _. exact Hcreate.
  - pose proof (index_assert_fatal palette color_index Hout) as Hassert.
    fold count in Hassert.
    split; [|split; [|split]].
    + split; [lia|]. intros _.
      unfold sprite_palette_color_hblank_effect_ptr.create.
      fold count. rewrite Hassert. reflexivity.
    + split; [lia|]. intros _.
      unfold sprite_palette_color_hblank_effect_ptr.optional_create.
      fold count. rewrite Hassert. reflexivity.
    + split; [lia|]. intros _.
      unfold sprite_palette_color_hblank_effect_ptr.optional_create.
      fold count. rewrite Hassert. reflexivity.
    + intros Hin. contradiction.
Qed.

End color_effect_creation.

(** ** Color effects *)

Section color_effects.
Context {F : Type} `{bn_fixed F} `{hw_palettes}.

Ltac unchanged_colors E :=
  cbv beta delta
    [color_effect.brightness color_effect.contrast color_effect.intensity
     color_effect.grayscale color_effect.hue_shift color_effect.fade];
  rewrite E; simpl;
  repeat match goal with
         | |- context [if ?c then _ else _] => destruct c; simpl
         end;
  reflexivity.

(** C9. On a non-empty span, [brightness], [contrast], [intensity],
    [grayscale], [hue_shift] and [fade] called with an intensity whose
    5-fractional-bit representation is zero leave every color of the span as
    it is; with the intensity in [0, 1] (and, for [grayscale] and
    [hue_shift], no more colors than the hardware palette has) the call
    passes its assertions and returns. *)
Theorem zero_intensity_leaves_colors_unchanged
    (value : F) (fade_color : Z) (colors_ref : list Z) :
  colors_ref <> [] ->
  fixed_t_5_data value = 0 ->
  (snd (color_effect.brightness value colors_ref) = colors_ref
   /\ snd (color_effect.contrast value colors_ref) = colors_ref
   /\ snd (color_effect.intensity value colors_ref) = colors_ref
   /\ snd (color_effect.grayscale value colors_ref) = colors_ref
   /\ snd (color_effect.hue_shift value colors_ref) = colors_ref
   /\ snd (color_effect.fade fade_color value colors_ref) = colors_ref)
  /\ ((fixed_ge value 0 && fixed_le value 1) = true ->
      color_effect.brightness value colors_ref = (Ok tt, colors_ref)
      /\ color_effect.contrast value colors_ref = (Ok tt, colors_ref)
      /\ color_effect.intensity value colors_ref = (Ok tt, colors_ref)
      /\ color_effect.fade fade_color value colors_ref = (Ok tt, colors_ref)
      /\ (Z.of_nat (List.length colors_ref) <= hw_colors ->
          color_effect.grayscale value colors_ref = (Ok tt, colors_ref)
          /\ color_effect.hue_shift value colors_ref = (Ok tt, colors_ref))).
Proof.
  intros Hnonempty Hzero. split.
  - repeat split; unchanged_colors Hzero.
  - intros Hrange.
    assert ((Z.of_nat (List.length colors_ref) >? 0) = true) as Hcount.
    { destruct colors_ref as [|c rest]; [congruence|].
      simpl List.length. apply Z.gtb_lt. lia. }
    split; [|split; [|split; [|split]]].
    + unfold color_effect.brightness.
      rewrite Hcount, Hrange, Hzero. reflexivity.
    + unfold color_effect.contrast.
      rewrite Hcount, Hrange, Hzero. reflexivity.
    + unfold color_effect.intensity.
      rewrite Hcount, Hrange, Hzero. reflexivity.
    + unfold color_effect.fade.
      rewrite Hcount, Hrange, Hzero. reflexivity.
    + intros Hhw. apply Z.leb_le in Hhw. split.
      * unfold color_effect.grayscale.
        rewrite Hcount, Hhw, Hrange, Hzero. reflexivity.
      * unfold color_effect.hue_shift.
        rewrite Hcount, Hhw, Hrange, Hzero. reflexivity.
Qed.

End color_effects.

(** ** The bank's bytes *)

Lemma read_length (offset len : nat) (m : nat -> Z) :
  List.length (memory_pool.read offset len m) = len.
Proof.
  unfold memory_pool.read. rewrite length_map, length_seq. reflexivity.
Qed.

Lemma read_nth (offset len i : nat) (m : nat -> Z) :
  (i < len)%nat ->
  nth i (memory_pool.read offset len m) 0 = m (offset + i)%nat.
Proof.
  intros Hi. unfold memory_pool.read.
  rewrite (nth_indep _ 0 (m 0%nat)) by (rewrite length_map, length_seq; lia).
  rewrite map_nth. f_equal. apply seq_nth. exact Hi.
Qed.

(** What was copied to a block is what the block holds. *)
Lemma read_write (offset : nat) (data : list Z) (m : nat -> Z) :
  memory_pool.read offset (List.length data)
    (memory_pool.write offset data m) = data.
Proof.
  apply (nth_ext _ _ 0 0).
  - apply read_length.
  - intros i Hi. rewrite read_length in Hi.
    rewrite read_nth by exact Hi. unfold memory_pool.write.
    assert (((offset <=? offset + i) && (offset + i <? offset + List.length data))%nat
            = true) as ->.
    { apply andb_true_iff. split.
      - apply Nat.leb_le. lia.
      - apply Nat.ltb_lt. lia. }
    f_equal. lia.
Qed.

(** Bytes outside the written range are not touched. *)
Lemma read_write_disjoint (offset : nat) (data : list Z) (m : nat -> Z)
    (start len : nat) :
  (start + len <= offset \/ offset + List.length data <= start)%nat ->
  memory_pool.read start len (memory_pool.write offset data m)
  = memory_pool.read start len m.
Proof.
  intros Hdisjoint. unfold memory_pool.read. apply map_ext_in.
  intros a Ha. apply in_seq in Ha. unfold memory_pool.write.
  destruct ((offset <=? a) && (a <? offset + List.length data))%nat eqn:E;
    [|reflexivity].
  apply andb_true_iff in E as [E1 E2].
  apply Nat.leb_le in E1. apply Nat.ltb_lt in E2. lia.
Qed.

(** ** Colors and their bytes *)

Lemma bytes_colors_of_colors_bytes (colors : list Z) :
  Forall (fun c => 0 <= c < 65536) colors ->
  bytes_colors (colors_bytes colors) = colors.
Proof.
  induction 1 as [|c rest Hc _ IH]; [reflexivity|].
  simpl. rewrite IH. f_equal.
  rewrite (Z.mod_small (c / 256) 256).
  - rewrite Z.add_comm. symmetry. apply Z.div_mod. lia.
  - split.
    + apply Z.div_pos; lia.
    + apply Z.div_lt_upper_bound; lia.
Qed.

Lemma colors_bytes_length (colors : list Z) :
  List.length (colors_bytes colors) = (2 * List.length colors)%nat.
Proof.
  induction colors as [|c rest IH]; [reflexivity|].
  simpl. simpl in IH. rewrite IH. lia.
Qed.

(** ** Finding a live handle *)

Lemma bytes_eqb_eq (a b : list Z) : registry.bytes_eqb a b = true <-> a = b.
Proof. unfold registry.bytes_eqb. apply bool_decide_eq_true. Qed.

Lemma backing_bytes_add_reference (m : nat -> Z) (h : registry.handle) :
  registry.backing_bytes m (registry.add_reference h)
  = registry.backing_bytes m h.
Proof. reflexivity. Qed.

(** A handle that was found holds the requested bytes. *)
Lemma find_handle_backing (m : nat -> Z) (bytes : list Z)
    (hs hs' : list registry.handle) (h : registry.handle) :
  registry.find_handle m bytes hs = Some (h, hs') ->
  registry.backing_bytes m h = bytes.
Proof.
  revert hs'. induction hs as [|h0 rest IH]; intros hs' Hfind; simpl in Hfind.
  - discriminate Hfind.
  - destruct (registry.bytes_eqb (registry.backing_bytes m h0) bytes) eqn:E.
    + inversion Hfind; subst. rewrite backing_bytes_add_reference.
      apply bytes_eqb_eq. exact E.
    + destruct (registry.find_handle m bytes rest) as [[found rest']|];
        [|discriminate Hfind].
      inversion Hfind; subst. apply (IH rest'). reflexivity.
Qed.

(** Searching again finds the same handle, with one reference more. *)
Lemma find_handle_again (m : nat -> Z) (bytes : list Z)
    (hs hs' : list registry.handle) (h : registry.handle) :
  registry.find_handle m bytes hs = Some (h, hs') ->
  exists hs'' : list registry.handle,
    registry.find_handle m bytes hs'
    = Some (registry.add_reference h, hs'').
Proof.
  revert hs'. induction hs as [|h0 rest IH]; intros hs' Hfind; simpl in Hfind.
  - discriminate Hfind.
  - destruct (registry.bytes_eqb (registry.backing_bytes m h0) bytes) eqn:E.
    + inversion Hfind; subst. simpl.
      rewrite backing_bytes_add_reference, E. eexists. reflexivity.
    + destruct (registry.find_handle m bytes rest) as [[found rest']|] eqn:Er;
        [|discriminate Hfind].
      inversion Hfind; subst. simpl. rewrite E.
      destruct (IH rest' eq_refl) as [hs'' Hagain]. rewrite Hagain.
      eexists. reflexivity.
Qed.

(** The search leaves the pool alone. *)
Lemma find_keeps_pool (d : registry.content_descriptor) (r r' : registry.t)
    (h : registry.handle) :
  registry.find d r = Some (h, r') -> registry.pool r' = registry.pool r.
Proof.
  unfold registry.find. intros Hfind.
  destruct (registry.find_handle _ _ _) as [[found hs]|]; [|discriminate].
  inversion Hfind; subst. reflexivity.
Qed.

Lemma find_again (d1 d2 : registry.content_descriptor) (r r' : registry.t)
    (h : registry.handle) :
  registry.content d1 = registry.content d2 ->
  registry.find d1 r = Some (h, r') ->
  exists r'' : registry.t,
    registry.find d2 r' = Some (registry.add_reference h, r'')
    /\ registry.pool r'' = registry.pool r'.
Proof.
  unfold registry.find. intros Hcontent Hfind.
  destruct (registry.find_handle _ _ (registry.handles r))
    as [[found hs]|] eqn:E; [|discriminate].
  inversion Hfind; subst. simpl. rewrite <- Hcontent.
  destruct (find_handle_again _ _ _ _ _ E) as [hs'' Hagain].
  rewrite Hagain. eexists. split; reflexivity.
Qed.

(** A freshly registered handle is the first one the search meets. *)
Lemma find_registered (d1 d2 : registry.content_descriptor)
    (offset : nat) (r r' : registry.t) (h : registry.handle) :
  registry.content d1 = registry.content d2 ->
  registry.register d1 offset r = (h, r') ->
  exists r'' : registry.t,
    registry.find d2 r' = Some (registry.add_reference h, r'')
    /\ registry.pool r'' = registry.pool r'.
Proof.
  unfold registry.register. intros Hcontent Hreg.
  inversion Hreg; subst; clear Hreg.
  unfold registry.find. simpl.
  unfold registry.backing_bytes at 1. simpl.
  rewrite read_write, Hcontent.
  assert (registry.bytes_eqb (registry.content d2) (registry.content d2)
          = true) as -> by (apply bytes_eqb_eq; reflexivity).
  eexists. split; reflexivity.
Qed.

(** ** The pool's blocks and its free bytes *)

Lemma used_and_free_bytes (bs : list memory_pool.block) :
  (memory_pool.used_bytes bs + memory_pool.free_bytes bs
   = list_sum (map memory_pool.length bs))%nat.
Proof.
  unfold memory_pool.used_bytes, memory_pool.free_bytes.
  induction bs as [|b rest IH]; [reflexivity|].
  rewrite !filter_cons. simpl.
  destruct (memory_pool.in_use b); simpl; rewrite <- IH; lia.
Qed.

Lemma allocate_blocks_sum (len : nat) (bs bs' : list memory_pool.block)
    (offset : nat) :
  memory_pool.allocate_blocks len bs = Some (offset, bs') ->
  list_sum (map memory_pool.length bs')
  = list_sum (map memory_pool.length bs).
Proof.
  revert bs' offset. induction bs as [|b rest IH]; intros bs' offset E.
  - discriminate E.
  - simpl in E.
    destruct (negb (memory_pool.in_use b) && (len <=? memory_pool.length b)%nat)
      eqn:Efit.
    + apply andb_true_iff in Efit as [_ Hlen]. apply Nat.leb_le in Hlen.
      destruct (len <? memory_pool.length b)%nat eqn:Elt;
        inversion E; subst; simpl.
      * lia.
      * apply Nat.ltb_ge in Elt. lia.
    + destruct (memory_pool.allocate_blocks len rest) as [[o rest']|] eqn:Er;
        [|discriminate E].
      inversion E; subst. simpl. rewrite (IH rest' offset eq_refl).
      reflexivity.
Qed.

(** Allocation fails exactly when no free block is long enough. *)
Lemma allocate_blocks_none (len : nat) (bs : list memory_pool.block) :
  memory_pool.allocate_blocks len bs = None <->
  Forall (fun b => memory_pool.in_use b = true
                   \/ (memory_pool.length b < len)%nat) bs.
Proof.
  induction bs as [|b rest IH]; simpl.
  - split; [constructor | reflexivity].
  - destruct (negb (memory_pool.in_use b) && (len <=? memory_pool.length b)%nat)
      eqn:Efit.
    + apply andb_true_iff in Efit as [Hfree Hlen].
      apply negb_true_iff in Hfree. apply Nat.leb_le in Hlen.
      split; [discriminate|]. intros Hall. inversion Hall as [|? ? [Hb|Hb]]; subst.
      * congruence.
      * lia.
    + destruct (memory_pool.allocate_blocks len rest) as [[o rest']|].
      * split; [discriminate|]. intros Hall. inversion Hall; subst.
        apply IH in H2. discriminate H2.
      * split; [|reflexivity]. intros _. constructor.
        -- apply andb_false_iff in Efit as [Hused|Hshort].
           ++ left. apply negb_false_iff. exact Hused.
           ++ right. apply Nat.leb_gt. exact Hshort.
        -- apply IH. reflexivity.
Qed.

Lemma relocations_used_blocks (len destination : nat)
    (bs tail : list memory_pool.block) :
  memory_pool.allocate_blocks len
    (map (fun r : memory_pool.relocation =>
            let '(_, new, l) := r in
            {| memory_pool.start_offset := new; memory_pool.length := l;
               memory_pool.in_use := true |})
         (memory_pool.relocations destination bs) ++ tail)
  = match memory_pool.allocate_blocks len tail with
    | Some (offset, tail') =>
        Some (offset,
              map (fun r : memory_pool.relocation =>
                     let '(_, new, l) := r in
                     {| memory_pool.start_offset := new;
                        memory_pool.length := l;
                        memory_pool.in_use := true |})
                  (memory_pool.relocations destination bs) ++ tail')
    | None => None
    end.
Proof.
  revert destination. induction bs as [|b rest IH]; intros destination; simpl.
  - destruct (memory_pool.allocate_blocks len tail) as [[o t]|]; reflexivity.
  - destruct (memory_pool.in_use b); simpl.
    + rewrite IH.
      destruct (memory_pool.allocate_blocks len tail) as [[o t]|]; reflexivity.
    + apply IH.
Qed.

(** After a compaction, a request that the free bytes can hold is served
    from the trailing block. *)
Lemma allocate_after_compact (len : nat) (p : memory_pool.pool) :
  covers_bank p ->
  (0 < len <= memory_pool.free_bytes (memory_pool.blocks p))%nat ->
  exists p' : memory_pool.pool,
    memory_pool.allocate len (fst (memory_pool.compact p))
    = Some (memory_pool.used_bytes (memory_pool.blocks p), p').
Proof.
  intros Hcovers Hlen. unfold covers_bank in Hcovers.
  pose proof (used_and_free_bytes (memory_pool.blocks p)) as Htotal.
  unfold memory_pool.allocate, memory_pool.compact. simpl.
  assert ((memory_pool.used_bytes (memory_pool.blocks p)
           <? memory_pool.bank_size p)%nat = true) as ->
    by (apply Nat.ltb_lt; lia).
  rewrite relocations_used_blocks. simpl.
  assert ((len <=? memory_pool.bank_size p
                   - memory_pool.used_bytes (memory_pool.blocks p))%nat = true)
    as -> by (apply Nat.leb_le; lia).
  simpl. eexists. reflexivity.
Qed.

(** In a pool whose blocks cover the bank, the registry fails to allocate
    exactly when the free bytes do not suffice: no compaction is attempted in
    vain. *)
Lemma registry_allocate_none (len : nat) (r : registry.t) :
  covers_bank (registry.pool r) ->
  (0 < len)%nat ->
  registry.allocate len r = None <->
  (memory_pool.free_bytes (memory_pool.blocks (registry.pool r)) < len)%nat.
Proof.
  intros Hcovers Hpos. unfold registry.allocate.
  destruct (memory_pool.allocate len (registry.pool r)) as [[o p']|] eqn:Ealloc.
  - split; [discriminate|]. intros Hshort. exfalso.
    unfold memory_pool.allocate in Ealloc.
    destruct (memory_pool.allocate_blocks len _) as [[o' bs']|] eqn:Eblocks;
      [|discriminate Ealloc].
    clear Ealloc. revert Hshort Eblocks. clear.
    generalize (memory_pool.blocks (registry.pool r)). intros bs.
    revert o' bs'. induction bs as [|b rest IH]; intros o' bs' Hshort E.
    + discriminate E.
    + simpl in E. unfold memory_pool.free_bytes in *.
      rewrite filter_cons in Hshort.
      destruct (negb (memory_pool.in_use b)
                && (len <=? memory_pool.length b)%nat) eqn:Efit.
      * apply andb_true_iff in Efit as [Hfree Hfit].
        apply Nat.leb_le in Hfit.
        destruct (decide (Is_true (negb (memory_pool.in_use b)))) as [?|Hn].
        -- simpl in Hshort. lia.
        -- apply Hn. rewrite Hfree. exact I.
      * destruct (memory_pool.allocate_blocks len rest) as [[o rest']|] eqn:Er;
          [|discriminate E].
        apply (IH o rest'); [|reflexivity].
        destruct (decide (Is_true (negb (memory_pool.in_use b))));
          simpl in Hshort; lia.
  - destruct (len <=? memory_pool.free_bytes _)%nat eqn:Efree.
    + apply Nat.leb_le in Efree.
      destruct (allocate_after_compact len (registry.pool r) Hcovers)
        as [p' Hafter]; [lia|].
      unfold registry.compact.
      destruct (memory_pool.compact (registry.pool r)) as [pc moves] eqn:Ec.
      simpl in Hafter. simpl. rewrite Hafter. split; [discriminate | lia].
    + apply Nat.leb_gt in Efree. split; [intros _; exact Efree | reflexivity].
Qed.

(** ** Creating handles *)

(** A second [create] with the same bytes hits the handle the first one
    returned. *)
Lemma create_again (d1 d2 : registry.content_descriptor) (r r1 : registry.t)
    (h1 : registry.handle) :
  registry.content d1 = registry.content d2 ->
  registry.create d1 r = Ok (h1, r1) ->
  exists r2 : registry.t,
    registry.create d2 r1 = Ok (registry.add_reference h1, r2)
    /\ registry.pool r2 = registry.pool r1.
Proof.
  intros Hcontent Hcreate. unfold registry.create in Hcreate.
  assert (exists r2 : registry.t,
             registry.find d2 r1 = Some (registry.add_reference h1, r2)
             /\ registry.pool r2 = registry.pool r1) as (r2 & Hfind & Hpool).
  { destruct (registry.find d1 r) as [[found r']|] eqn:Efind.
    - inversion Hcreate; subst. apply (find_again d1 d2 r); assumption.
    - destruct (registry.allocate _ r) as [[offset r']|] eqn:Ealloc;
        [|discriminate Hcreate].
      assert (registry.register d1 offset r' = (h1, r1)) as Hreg
        by congruence.
      apply (find_registered d1 d2 offset r'); assumption. }
  exists r2. unfold registry.create. rewrite Hfind. split; [reflexivity|].
  exact Hpool.
Qed.

(** What [create] returns holds the requested bytes. *)
Lemma create_backing (d : registry.content_descriptor) (r r' : registry.t)
    (h : registry.handle) :
  registry.create d r = Ok (h, r') ->
  registry.backing_bytes (memory_pool.cells (registry.pool r')) h
  = registry.content d.
Proof.
  intros Hcreate. unfold registry.create in Hcreate.
  destruct (registry.find d r) as [[found r0]|] eqn:Efind.
  - inversion Hcreate; subst. unfold registry.find in Efind.
    destruct (registry.find_handle _ _ _) as [[found hs]|] eqn:E;
      [|discriminate Efind].
    inversion Efind; subst. simpl.
    apply (find_handle_backing _ _ _ _ _ E).
  - destruct (registry.allocate _ r) as [[offset r0]|]; [|discriminate].
    inversion Hcreate; subst. unfold registry.backing_bytes. simpl.
    apply read_write.
Qed.

(** [create_optional] against [create], case by case. *)
Lemma create_optional_against_create (d : registry.content_descriptor)
    (r : registry.t) :
  match registry.create d r with
  | Ok (h, r') => registry.create_optional d r = (Some h, r')
  | Fatal _ _ =>
      registry.create_optional d r = (None, r)
      /\ registry.find d r = None
      /\ registry.allocate (List.length (registry.content d)) r = None
  end.
Proof.
  unfold registry.create, registry.create_optional,
    registry.create_new_optional.
  destruct (registry.find d r) as [[found r0]|]; [reflexivity|].
  destruct (registry.allocate _ r) as [[offset r0]|].
  - destruct (registry.register d offset r0) as [h r'']. reflexivity.
  - repeat split.
Qed.

(** ** The blocks of a well-formed pool *)

Lemma blocks_from_lower (start : nat) (bs : list memory_pool.block)
    (b : memory_pool.block) :
  blocks_from start bs -> In b bs ->
  (start <= memory_pool.start_offset b)%nat.
Proof.
  revert start. induction bs as [|b0 rest IH]; intros start Hfrom Hin.
  - destruct Hin.
  - destruct Hfrom as [Hstart Hrest]. destruct Hin as [->|Hin]; [lia|].
    specialize (IH _ Hrest Hin). lia.
Qed.

(** Two blocks of a bank are the same block or do not overlap. *)
Lemma blocks_disjoint (start : nat) (bs : list memory_pool.block)
    (b1 b2 : memory_pool.block) :
  blocks_from start bs -> In b1 bs -> In b2 bs ->
  b1 = b2
  \/ (memory_pool.start_offset b1 + memory_pool.length b1
      <= memory_pool.start_offset b2)%nat
  \/ (memory_pool.start_offset b2 + memory_pool.length b2
      <= memory_pool.start_offset b1)%nat.
Proof.
  revert start. induction bs as [|b0 rest IH]; intros start Hfrom H1 H2.
  - destruct H1.
  - destruct Hfrom as [Hstart Hrest].
    destruct H1 as [->|H1], H2 as [->|H2].
    + left. reflexivity.
    + right. left. pose proof (blocks_from_lower _ _ _ Hrest H2). lia.
    + right. right. pose proof (blocks_from_lower _ _ _ Hrest H1). lia.
    + exact (IH _ Hrest H1 H2).
Qed.

(** *** Allocation *)

Lemma allocate_blocks_from (len : nat) (bs bs' : list memory_pool.block)
    (offset start : nat) :
  memory_pool.allocate_blocks len bs = Some (offset, bs') ->
  blocks_from start bs -> blocks_from start bs'.
Proof.
  revert bs' start. induction bs as [|b rest IH]; intros bs' start E Hfrom.
  - discriminate E.
  - simpl in E. destruct Hfrom as [Hstart Hrest].
    destruct (negb (memory_pool.in_use b) && (len <=? memory_pool.length b)%nat)
      eqn:Efit.
    + apply andb_true_iff in Efit as [_ Hlen]. apply Nat.leb_le in Hlen.
      destruct (len <? memory_pool.length b)%nat eqn:Elt;
        inversion E; subst; clear E; simpl.
      * split; [reflexivity|]. split; [reflexivity|].
        replace (memory_pool.start_offset b + len
                 + (memory_pool.length b - len))%nat
          with (memory_pool.start_offset b + memory_pool.length b)%nat
          by lia.
        exact Hrest.
      * apply Nat.ltb_ge in Elt. split; [reflexivity|].
        replace len with (memory_pool.length b) by lia. exact Hrest.
    + destruct (memory_pool.allocate_blocks len rest) as [[o rest']|] eqn:Er;
        [|discriminate E].
      inversion E; subst; clear E. simpl. split; [reflexivity|].
      apply (IH rest'); [reflexivity|exact Hrest].
Qed.

(** What an allocation does to the blocks: those in use stay, the one in
    use that is new is the allocated one, and it was cut from a free
    block. *)
Lemma allocate_blocks_in_use (len : nat) (bs bs' : list memory_pool.block)
    (offset : nat) :
  memory_pool.allocate_blocks len bs = Some (offset, bs') ->
  let allocated :=
    {| memory_pool.start_offset := offset; memory_pool.length := len;
       memory_pool.in_use := true |} in
  (forall b, In b bs -> memory_pool.in_use b = true -> In b bs')
  /\ (forall b, In b bs' -> memory_pool.in_use b = true ->
                In b bs \/ b = allocated)
  /\ In allocated bs'
  /\ exists free : memory_pool.block,
       In free bs /\ memory_pool.in_use free = false
       /\ memory_pool.start_offset free = offset
       /\ (len <= memory_pool.length free)%nat.
Proof.
  revert bs'. induction bs as [|b rest IH]; intros bs' E allocated.
  - discriminate E.
  - simpl in E.
    destruct (negb (memory_pool.in_use b) && (len <=? memory_pool.length b)%nat)
      eqn:Efit.
    + apply andb_true_iff in Efit as [Hfree Hlen].
      apply negb_true_iff in Hfree. apply Nat.leb_le in Hlen.
      assert (exists tail,
                 bs' = allocated :: tail
                 /\ (forall b', In b' rest -> In b' tail)
                 /\ (forall b', In b' tail -> memory_pool.in_use b' = true ->
                                In b' rest)) as (tail & -> & Hkeeps & Hfrom).
      { destruct (len <? memory_pool.length b)%nat;
          inversion E; subst; clear E; eexists; (split; [reflexivity|]).
        - split; [intros b' Hb'; right; exact Hb'|].
          intros b' [<-|Hb'] Hused; [discriminate Hused|exact Hb'].
        - split; auto. }
      split; [|split; [|split]].
      * intros b' [<-|Hb'] Hused; [congruence|].
        right. apply Hkeeps. exact Hb'.
      * intros b' [<-|Hb'] Hused; [right; reflexivity|].
        left. right. apply Hfrom; assumption.
      * left. reflexivity.
      * exists b. split; [left; reflexivity|].
        split; [exact Hfree|]. split; [|exact Hlen].
        destruct (len <? memory_pool.length b)%nat; inversion E; reflexivity.
    + destruct (memory_pool.allocate_blocks len rest) as [[o rest']|] eqn:Er;
        [|discriminate E].
      inversion E; subst; clear E.
      destruct (IH rest' eq_refl) as (Hold & Hnew & Hin & free & Hfree).
      split; [|split; [|split]].
      * intros b' [<-|Hb'] Hused; [left; reflexivity|].
        right. apply Hold; assumption.
      * intros b' [<-|Hb'] Hused; [left; left; reflexivity|].
        destruct (Hnew b' Hb' Hused) as [Hrest|Hallocated].
        -- left. right. exact Hrest.
        -- right. exact Hallocated.
      * right. exact Hin.
      * exists free. destruct Hfree as (Hfree & Hrest).
        split; [right; exact Hfree|exact Hrest].
Qed.

(** *** Release *)

Lemma merge_free_from (start : nat) (bs : list memory_pool.block) :
  blocks_from start bs -> blocks_from start (memory_pool.merge_free bs).
Proof.
  revert start. induction bs as [|b rest IH]; intros start Hfrom.
  - exact I.
  - destruct Hfrom as [Hstart Hrest]. simpl.
    specialize (IH _ Hrest).
    destruct (memory_pool.merge_free rest) as [|b' rest'].
    + simpl. auto.
    + destruct IH as [Hstart' Hrest'].
      destruct (negb (memory_pool.in_use b) && negb (memory_pool.in_use b')).
      * simpl. split; [exact Hstart|].
        replace (start + (memory_pool.length b + memory_pool.length b'))%nat
          with (start + memory_pool.length b + memory_pool.length b')%nat
          by lia.
        exact Hrest'.
      * simpl. auto.
Qed.

(** Merging free blocks leaves the blocks in use as they are. *)
Lemma merge_free_in_use (bs : list memory_pool.block)
    (b : memory_pool.block) :
  memory_pool.in_use b = true ->
  In b (memory_pool.merge_free bs) <-> In b bs.
Proof.
  intros Hused. induction bs as [|b0 rest IH]; [reflexivity|].
  simpl. destruct (memory_pool.merge_free rest) as [|b' rest'].
  - simpl in *. rewrite <- IH. reflexivity.
  - destruct (negb (memory_pool.in_use b0) && negb (memory_pool.in_use b'))
      eqn:Efree.
    + apply andb_true_iff in Efree as [Hfree0 Hfree'].
      apply negb_true_iff in Hfree0. apply negb_true_iff in Hfree'.
      simpl in *. rewrite <- IH. split.
      * intros [<-|Hin]; [discriminate Hused|]. right. right. exact Hin.
      * intros [<-|[<-|Hin]]; [congruence|congruence|]. right. exact Hin.
    + simpl in *. rewrite <- IH. reflexivity.
Qed.

Lemma mark_free_from (offset len start : nat)
    (bs : list memory_pool.block) :
  blocks_from start bs ->
  blocks_from start (map (memory_pool.mark_free offset len) bs).
Proof.
  revert start. induction bs as [|b rest IH]; intros start Hfrom.
  - exact I.
  - destruct Hfrom as [Hstart Hrest]. simpl.
    assert (memory_pool.start_offset (memory_pool.mark_free offset len b)
            = memory_pool.start_offset b
            /\ memory_pool.length (memory_pool.mark_free offset len b)
               = memory_pool.length b) as [Hs Hl].
    { unfold memory_pool.mark_free.
      destruct ((memory_pool.start_offset b =? offset)%nat
                && (memory_pool.length b =? len)%nat
                && memory_pool.in_use b) eqn:E; [|auto].
      apply andb_true_iff in E as [E _].
      apply andb_true_iff in E as [E1 E2].
      apply Nat.eqb_eq in E1. apply Nat.eqb_eq in E2. simpl. auto. }
    rewrite Hs, Hl. split; [exact Hstart|]. apply IH. exact Hrest.
Qed.

(** Marking a block free leaves the other blocks in use, and adds none. *)
Lemma mark_free_in_use (offset len : nat) (bs : list memory_pool.block)
    (b : memory_pool.block) :
  memory_pool.in_use b = true ->
  In b (map (memory_pool.mark_free offset len) bs)
  <-> In b bs
      /\ ~ (memory_pool.start_offset b = offset
            /\ memory_pool.length b = len).
Proof.
  intros Hused. rewrite in_map_iff. split.
  - intros (b0 & Hmark & Hin). unfold memory_pool.mark_free in Hmark.
    destruct ((memory_pool.start_offset b0 =? offset)%nat
              && (memory_pool.length b0 =? len)%nat
              && memory_pool.in_use b0) eqn:E.
    + subst b. discriminate Hused.
    + subst b0. split; [exact Hin|]. intros [Hs Hl].
      rewrite Hs, Hl, !Nat.eqb_refl, Hused in E. discriminate E.
  - intros [Hin Hother]. exists b. split; [|exact Hin].
    unfold memory_pool.mark_free.
    destruct ((memory_pool.start_offset b =? offset)%nat
              && (memory_pool.length b =? len)%nat
              && memory_pool.in_use b) eqn:E; [|reflexivity].
    apply andb_true_iff in E as [E _].
    apply andb_true_iff in E as [E1 E2].
    apply Nat.eqb_eq in E1. apply Nat.eqb_eq in E2. tauto.
Qed.

(** *** Compaction *)

Lemma read_ext (offset len : nat) (m m' : nat -> Z) :
  (forall a, (offset <= a < offset + len)%nat -> m a = m' a) ->
  memory_pool.read offset len m = memory_pool.read offset len m'.
Proof.
  intros Hsame. unfold memory_pool.read. apply map_ext_in.
  intros a Ha. apply in_seq in Ha. apply Hsame. lia.
Qed.

Lemma write_outside (offset : nat) (data : list Z) (m : nat -> Z)
    (a : nat) :
  (a < offset \/ offset + List.length data <= a)%nat ->
  memory_pool.write offset data m a = m a.
Proof.
  intros Houtside. unfold memory_pool.write.
  destruct ((offset <=? a) && (a <? offset + List.length data))%nat eqn:E;
    [|reflexivity].
  apply andb_true_iff in E as [E1 E2].
  apply Nat.leb_le in E1. apply Nat.ltb_lt in E2. lia.
Qed.

Lemma used_bytes_cons (b : memory_pool.block)
    (bs : list memory_pool.block) :
  memory_pool.used_bytes (b :: bs)
  = ((if memory_pool.in_use b then memory_pool.length b else 0)
     + memory_pool.used_bytes bs)%nat.
Proof.
  unfold memory_pool.used_bytes. rewrite filter_cons.
  destruct (memory_pool.in_use b); simpl; reflexivity.
Qed.

(** The blocks a compaction leaves in use follow one another. *)
Lemma relocations_from (destination : nat)
    (bs tail : list memory_pool.block) :
  blocks_from (destination + memory_pool.used_bytes bs)%nat tail ->
  blocks_from destination
    (map placed_block (memory_pool.relocations destination bs) ++ tail).
Proof.
  revert destination. induction bs as [|b rest IH]; intros destination Htail.
  - simpl. unfold memory_pool.used_bytes in Htail. simpl in Htail.
    rewrite Nat.add_0_r in Htail. exact Htail.
  - rewrite used_bytes_cons in Htail. simpl.
    destruct (memory_pool.in_use b).
    + simpl. split; [reflexivity|]. apply IH.
      rewrite <- Nat.add_assoc. exact Htail.
    + apply IH. exact Htail.
Qed.

(** Each of them is a block that was in use. *)
Lemma relocations_of_blocks (destination : nat)
    (bs : list memory_pool.block) (move : memory_pool.relocation) :
  In move (memory_pool.relocations destination bs) ->
  exists b : memory_pool.block,
    In b bs /\ memory_pool.in_use b = true
    /\ memory_pool.length (placed_block move) = memory_pool.length b.
Proof.
  revert destination. induction bs as [|b rest IH]; intros destination Hin.
  - destruct Hin.
  - simpl in Hin. destruct (memory_pool.in_use b) eqn:Eused.
    + destruct Hin as [<-|Hin].
      * exists b. split; [left; reflexivity|]. split; [exact Eused|].
        reflexivity.
      * destruct (IH _ Hin) as (b' & Hb' & Hrest).
        exists b'. split; [right; exact Hb'|exact Hrest].
    + destruct (IH _ Hin) as (b' & Hb' & Hrest).
      exists b'. split; [right; exact Hb'|exact Hrest].
Qed.

(** A handle that starts at no old offset of a move stays as it is. *)
Lemma relocate_handle_other (move : memory_pool.relocation)
    (h : registry.handle) :
  registry.start_offset h <> fst (fst move) ->
  registry.relocate_handle move h = h.
Proof.
  destruct move as [[old new] len]. simpl. intros Hother.
  assert ((registry.start_offset h =? old)%nat = false) as ->
    by (apply Nat.eqb_neq; exact Hother).
  reflexivity.
Qed.

(** A relocation changes nothing of a handle but its start offset. *)
Lemma relocate_fields (moves : list memory_pool.relocation)
    (h : registry.handle) :
  registry.bank_id (calls.relocate moves h) = registry.bank_id h
  /\ registry.length (calls.relocate moves h) = registry.length h
  /\ registry.bpp (calls.relocate moves h) = registry.bpp h
  /\ registry.reference_count (calls.relocate moves h)
     = registry.reference_count h.
Proof.
  unfold calls.relocate. revert h.
  induction moves as [|[[old new] len] rest IH]; intros h; [auto|].
  simpl.
  destruct ((registry.start_offset h =? old)%nat && negb (old =? new)%nat).
  - destruct (IH {| registry.bank_id := registry.bank_id h;
                    registry.start_offset := new;
                    registry.length := registry.length h;
                    registry.bpp := registry.bpp h;
                    registry.reference_count := registry.reference_count h |})
      as (H1 & H2 & H3 & H4).
    simpl in *. auto.
  - apply IH.
Qed.

(** Where a relocation takes a handle depends on its start offset only. *)
Lemma relocate_start (moves : list memory_pool.relocation)
    (h1 h2 : registry.handle) :
  registry.start_offset h1 = registry.start_offset h2 ->
  registry.start_offset (calls.relocate moves h1)
  = registry.start_offset (calls.relocate moves h2).
Proof.
  unfold calls.relocate. revert h1 h2.
  induction moves as [|[[old new] len] rest IH]; intros h1 h2 Hstart;
    [exact Hstart|].
  simpl. rewrite Hstart.
  destruct ((registry.start_offset h2 =? old)%nat && negb (old =? new)%nat).
  - apply IH. reflexivity.
  - apply IH. exact Hstart.
Qed.

(** The compaction of the blocks from [start] on to [destination] on:
    the bytes below the destination stay, a handle below [start] stays, and
    a block in use is moved with its bytes to a place no higher than its
    own, where the handles that start at it follow. *)
Lemma compaction_moves (bs : list memory_pool.block) :
  forall (start destination : nat) (m : nat -> Z),
    blocks_from start bs ->
    (destination <= start)%nat ->
    Forall (fun b => memory_pool.in_use b = true ->
                     (0 < memory_pool.length b)%nat) bs ->
    let moves := memory_pool.relocations destination bs in
    let m' := fold_left memory_pool.move moves m in
    (forall a, (a < destination)%nat -> m' a = m a)
    /\ (forall h, (registry.start_offset h < start)%nat ->
                  calls.relocate moves h = h)
    /\ (forall b, In b bs -> memory_pool.in_use b = true ->
          exists new : nat,
            (destination <= new <= memory_pool.start_offset b)%nat
            /\ In {| memory_pool.start_offset := new;
                     memory_pool.length := memory_pool.length b;
                     memory_pool.in_use := true |} (map placed_block moves)
            /\ memory_pool.read new (memory_pool.length b) m'
               = memory_pool.read (memory_pool.start_offset b)
                   (memory_pool.length b) m
            /\ (forall h,
                  registry.start_offset h = memory_pool.start_offset b ->
                  registry.start_offset (calls.relocate moves h) = new)).
Proof.
  induction bs as [|b0 rest IH];
    intros start destination m Hfrom Hbelow Hpositive.
  - simpl. split; [reflexivity|]. split; [reflexivity|].
    intros b [].
  - destruct Hfrom as [Hstart Hrest]. subst start.
    apply Forall_cons_1 in Hpositive as [Hlength Hpositive'].
    simpl. destruct (memory_pool.in_use b0) eqn:Eused.
    + specialize (Hlength eq_refl).
      set (len := memory_pool.length b0) in *.
      set (old := memory_pool.start_offset b0) in *.
      set (m1 := memory_pool.write destination
                   (memory_pool.read old len m) m).
      destruct (IH (old + len)%nat (destination + len)%nat m1 Hrest
                  ltac:(lia) Hpositive') as (Hbytes & Hhandles & Hblocks).
      simpl. fold m1.
      split; [|split].
      * intros a Ha. rewrite Hbytes by lia. unfold m1.
        apply write_outside. left. exact Ha.
      * intros h Hh. unfold calls.relocate. simpl. fold old.
        assert ((registry.start_offset h =? old)%nat = false) as ->
          by (apply Nat.eqb_neq; lia).
        simpl. apply Hhandles. lia.
      * intros b [<-|Hb] Hused.
        -- exists destination. split; [lia|].
           split; [left; reflexivity|]. split.
           ++ fold len old.
              rewrite (read_ext destination len _ m1)
                by (intros a Ha; apply Hbytes; lia).
              unfold m1.
              rewrite <- (read_length old len m) at 1.
              apply read_write.
           ++ intros h Hh. unfold calls.relocate. simpl. fold old.
              fold old in Hh. rewrite Hh, Nat.eqb_refl. simpl.
              destruct (old =? destination)%nat eqn:Esame; simpl.
              ** apply Nat.eqb_eq in Esame.
                 change (registry.start_offset
                           (calls.relocate
                              (memory_pool.relocations (destination + len)
                                 rest) h) = destination).
                 rewrite Hhandles by lia. lia.
              ** change (registry.start_offset
                           (calls.relocate
                              (memory_pool.relocations (destination + len)
                                 rest)
                              {| registry.bank_id := registry.bank_id h;
                                 registry.start_offset := destination;
                                 registry.length := registry.length h;
                                 registry.bpp := registry.bpp h;
                                 registry.reference_count :=
                                   registry.reference_count h |})
                         = destination).
                 rewrite Hhandles by (simpl; lia). reflexivity.
        -- pose proof (blocks_from_lower _ _ _ Hrest Hb) as Hlower.
           destruct (Hblocks b Hb Hused)
             as (new & Hnew & Hplaced & Hread & Hfollow).
           exists new. split; [lia|]. split; [right; exact Hplaced|].
           split.
           ++ rewrite Hread. unfold m1.
              apply read_write_disjoint. right.
              rewrite read_length. lia.
           ++ intros h Hh. unfold calls.relocate. simpl. fold old.
              assert ((registry.start_offset h =? old)%nat = false) as ->
                by (apply Nat.eqb_neq; lia).
              simpl. apply Hfollow. exact Hh.
    + destruct (IH (memory_pool.start_offset b0 + memory_pool.length b0)%nat
                  destination m Hrest
                  ltac:(lia) Hpositive') as (Hbytes & Hhandles & Hblocks).
      split; [exact Hbytes|]. split.
      * intros h Hh. apply Hhandles. lia.
      * intros b [<-|Hb] Hused; [congruence|].
        exact (Hblocks b Hb Hused).
Qed.

(** ** The handles of a well-formed registry *)

Lemma compact_handles (r : registry.t) :
  registry.handles (registry.compact r)
  = map (calls.relocate (snd (memory_pool.compact (registry.pool r))))
      (registry.handles r)
  /\ registry.pool (registry.compact r)
     = fst (memory_pool.compact (registry.pool r)).
Proof.
  unfold registry.compact, memory_pool.compact. cbv zeta. simpl.
  split; [|reflexivity].
  generalize (memory_pool.relocations 0
                (memory_pool.blocks (registry.pool r))).
  intros moves. generalize (registry.handles r).
  induction moves as [|move rest IH]; intros hs; simpl.
  - symmetry. apply map_id.
  - rewrite IH, map_map. reflexivity.
Qed.

(** What a handle holds, and the block it stands for, do not depend on its
    reference count. *)
Lemma same_range_spec (h1 h2 : registry.handle) :
  calls.same_range h1 h2 = true <->
  registry.bank_id h1 = registry.bank_id h2
  /\ registry.start_offset h1 = registry.start_offset h2
  /\ registry.length h1 = registry.length h2.
Proof.
  unfold calls.same_range. rewrite !andb_true_iff, !Nat.eqb_eq. tauto.
Qed.

Lemma same_range_bytes (m : nat -> Z) (h1 h2 : registry.handle) :
  calls.same_range h1 h2 = true ->
  registry.backing_bytes m h1 = registry.backing_bytes m h2
  /\ block_of h1 = block_of h2.
Proof.
  intros Hsame. apply same_range_spec in Hsame as (_ & Hstart & Hlength).
  unfold registry.backing_bytes, block_of. rewrite Hstart, Hlength. auto.
Qed.

Lemma same_range_relocate (moves : list memory_pool.relocation)
    (h1 h2 : registry.handle) :
  calls.same_range h1 h2 = true ->
  calls.same_range (calls.relocate moves h1) (calls.relocate moves h2)
  = true.
Proof.
  intros Hsame. apply same_range_spec in Hsame as (Hbank & Hstart & Hlength).
  apply same_range_spec.
  destruct (relocate_fields moves h1) as (H1 & H2 & _).
  destruct (relocate_fields moves h2) as (H3 & H4 & _).
  rewrite H1, H2, H3, H4. split; [exact Hbank|].
  split; [|exact Hlength]. apply relocate_start. exact Hstart.
Qed.

(** A compaction keeps a registry well formed, and every handle whose block
    is in use holds after it what it held before. *)
Lemma compact_well_formed (r : registry.t) :
  well_formed r ->
  let moves := snd (memory_pool.compact (registry.pool r)) in
  well_formed (registry.compact r)
  /\ forall h : registry.handle,
       In (block_of h) (memory_pool.blocks (registry.pool r)) ->
       In (block_of (calls.relocate moves h))
         (memory_pool.blocks (registry.pool (registry.compact r)))
       /\ registry.backing_bytes
            (memory_pool.cells (registry.pool (registry.compact r)))
            (calls.relocate moves h)
          = registry.backing_bytes (memory_pool.cells (registry.pool r)) h.
Proof.
  intros (Hfrom & Hpositive & Hblocks & Hunique) moves.
  destruct (compact_handles r) as [Hhandles Hpool].
  pose proof (compaction_moves (memory_pool.blocks (registry.pool r)) 0 0
                (memory_pool.cells (registry.pool r)) Hfrom (Nat.le_refl 0)
                Hpositive) as (_ & _ & Hmoved).
  assert (forall h : registry.handle,
             In (block_of h) (memory_pool.blocks (registry.pool r)) ->
             In (block_of (calls.relocate moves h))
               (memory_pool.blocks (registry.pool (registry.compact r)))
             /\ registry.backing_bytes
                  (memory_pool.cells (registry.pool (registry.compact r)))
                  (calls.relocate moves h)
                = registry.backing_bytes
                    (memory_pool.cells (registry.pool r)) h) as Hkept.
  { intros h Hh.
    destruct (Hmoved (block_of h) Hh eq_refl)
      as (new & _ & Hplaced & Hread & Hfollow).
    specialize (Hfollow h eq_refl).
    destruct (relocate_fields moves h) as (_ & Hlength & _).
    assert (block_of (calls.relocate moves h)
            = {| memory_pool.start_offset := new;
                 memory_pool.length := registry.length h;
                 memory_pool.in_use := true |}) as Hblock.
    { unfold block_of. unfold moves. simpl. simpl in Hfollow.
      rewrite Hfollow. unfold moves in Hlength. simpl in Hlength.
      rewrite Hlength. reflexivity. }
    rewrite Hpool. split.
    - rewrite Hblock. unfold memory_pool.compact. simpl.
      apply in_or_app. left. exact Hplaced.
    - unfold registry.backing_bytes.
      unfold moves in *. simpl in Hfollow, Hlength |- *.
      rewrite Hfollow, Hlength. exact Hread. }
  split; [|exact Hkept].
  split; [|split; [|split]].
  - rewrite Hpool. unfold memory_pool.compact. simpl.
    apply (relocations_from 0). simpl.
    destruct (memory_pool.used_bytes (memory_pool.blocks (registry.pool r))
              <? memory_pool.bank_size (registry.pool r))%nat;
      simpl; auto.
  - rewrite Hpool. unfold memory_pool.compact. simpl.
    apply Forall_app. split.
    + apply List.Forall_forall. intros b Hb _.
      apply in_map_iff in Hb as (move & <- & Hmove).
      change (0 < memory_pool.length (placed_block move))%nat.
      destruct (relocations_of_blocks _ _ _ Hmove) as (b0 & Hb0 & Hused & ->).
      rewrite List.Forall_forall in Hpositive. apply Hpositive; assumption.
    + destruct (memory_pool.used_bytes (memory_pool.blocks (registry.pool r))
                <? memory_pool.bank_size (registry.pool r))%nat;
        [|constructor].
      constructor; [|constructor]. intros Hused. discriminate Hused.
  - rewrite Hhandles. apply List.Forall_forall. intros h' Hh'.
    apply in_map_iff in Hh' as (h & <- & Hh).
    rewrite List.Forall_forall in Hblocks.
    apply Hkept. apply Hblocks. exact Hh.
  - rewrite Hhandles, map_map.
    rewrite (map_ext_in _ (registry.backing_bytes
                             (memory_pool.cells (registry.pool r)))).
    + exact Hunique.
    + intros h Hh. rewrite List.Forall_forall in Hblocks.
      apply Hkept. apply Hblocks. exact Hh.
Qed.

(** *** The search *)

(** The search returns a new reference to the first live handle that holds
    the bytes, and misses when none does. *)
Lemma find_handle_first (m : nat -> Z) (bytes : list Z)
    (hs : list registry.handle) :
  match registry.find_handle m bytes hs with
  | Some (h, hs') =>
      exists (before after : list registry.handle) (e : registry.handle),
        hs = before ++ e :: after
        /\ hs' = before ++ registry.add_reference e :: after
        /\ h = registry.add_reference e
        /\ registry.backing_bytes m e = bytes
        /\ Forall (fun e0 => registry.backing_bytes m e0 <> bytes) before
  | None => Forall (fun e0 => registry.backing_bytes m e0 <> bytes) hs
  end.
Proof.
  induction hs as [|h0 rest IH]; simpl; [constructor|].
  destruct (registry.bytes_eqb (registry.backing_bytes m h0) bytes) eqn:E.
  - apply bytes_eqb_eq in E.
    exists [], rest, h0. simpl. repeat split; auto.
  - assert (registry.backing_bytes m h0 <> bytes) as Hother.
    { intros Hsame. apply bytes_eqb_eq in Hsame. congruence. }
    destruct (registry.find_handle m bytes rest) as [[found rest']|].
    + destruct IH as (before & after & e & -> & -> & -> & Hbytes & Hbefore).
      exists (h0 :: before), after, e. simpl. repeat split; auto.
    + constructor; assumption.
Qed.

(** A new reference changes neither the blocks the handles stand for nor
    what they hold. *)
Lemma add_reference_keeps (m : nat -> Z)
    (before after : list registry.handle) (e : registry.handle) :
  map block_of (before ++ registry.add_reference e :: after)
  = map block_of (before ++ e :: after)
  /\ map (registry.backing_bytes m)
       (before ++ registry.add_reference e :: after)
     = map (registry.backing_bytes m) (before ++ e :: after).
Proof. rewrite !map_app. simpl. split; reflexivity. Qed.

(** A registry with the same pool whose handles stand for the same blocks
    and hold the same bytes is well formed as well. *)
Lemma well_formed_handles (r : registry.t) (hs : list registry.handle) :
  well_formed r ->
  map block_of hs = map block_of (registry.handles r) ->
  map (registry.backing_bytes (memory_pool.cells (registry.pool r))) hs
  = map (registry.backing_bytes (memory_pool.cells (registry.pool r)))
      (registry.handles r) ->
  well_formed {| registry.pool := registry.pool r; registry.handles := hs |}.
Proof.
  intros (Hfrom & Hpositive & Hblocks & Hunique) Hsame Hbytes.
  split; [exact Hfrom|]. split; [exact Hpositive|]. simpl. split.
  - apply List.Forall_forall. intros h Hh.
    apply (in_map block_of) in Hh. rewrite Hsame in Hh.
    apply in_map_iff in Hh as (h0 & <- & Hh0).
    rewrite List.Forall_forall in Hblocks. apply Hblocks. exact Hh0.
  - rewrite Hbytes. exact Hunique.
Qed.

Lemma find_well_formed (d : registry.content_descriptor)
    (r r' : registry.t) (h : registry.handle) :
  well_formed r ->
  registry.find d r = Some (h, r') ->
  well_formed r'
  /\ registry.pool r' = registry.pool r
  /\ In h (registry.handles r')
  /\ registry.backing_bytes (memory_pool.cells (registry.pool r')) h
     = registry.content d
  /\ forall e : registry.handle,
       In e (registry.handles r) ->
       exists e' : registry.handle,
         In e' (registry.handles r') /\ calls.same_range e' e = true.
Proof.
  intros Hwf Hfind. unfold registry.find in Hfind.
  pose proof (find_handle_first (memory_pool.cells (registry.pool r))
                (registry.content d) (registry.handles r)) as Hfirst.
  destruct (registry.find_handle _ _ _) as [[found hs]|];
    [|discriminate Hfind].
  inversion Hfind; subst; clear Hfind.
  destruct Hfirst as (before & after & e & Hhandles & -> & -> & Hbytes & _).
  destruct (add_reference_keeps (memory_pool.cells (registry.pool r))
              before after e) as [Hblocks Hheld].
  split; [|split; [|split; [|split]]].
  - apply well_formed_handles; [exact Hwf| |]; rewrite Hhandles; assumption.
  - reflexivity.
  - simpl. apply in_or_app. right. left. reflexivity.
  - simpl. exact Hbytes.
  - intros e0 He0. rewrite Hhandles in He0. simpl.
    apply in_app_or in He0 as [He0|[<-|He0]].
    + exists e0. split; [apply in_or_app; left; exact He0|].
      apply same_range_spec. auto.
    + exists (registry.add_reference e).
      split; [apply in_or_app; right; left; reflexivity|].
      apply same_range_spec. auto.
    + exists e0. split; [apply in_or_app; right; right; exact He0|].
      apply same_range_spec. auto.
Qed.

Lemma find_misses (d : registry.content_descriptor) (r : registry.t) :
  registry.find d r = None ->
  Forall (fun e =>
            registry.backing_bytes (memory_pool.cells (registry.pool r)) e
            <> registry.content d) (registry.handles r).
Proof.
  intros Hfind. unfold registry.find in Hfind.
  pose proof (find_handle_first (memory_pool.cells (registry.pool r))
                (registry.content d) (registry.handles r)) as Hfirst.
  destruct (registry.find_handle _ _ _) as [[found hs]|];
    [discriminate Hfind|exact Hfirst].
Qed.

(** *** The allocation *)

(** An allocation from the pool keeps the registry well formed; the block
    it returns is in use and overlaps no handle's. *)
Lemma pool_allocate_well_formed (len : nat) (r : registry.t) (offset : nat)
    (p' : memory_pool.pool) :
  well_formed r -> (0 < len)%nat ->
  memory_pool.allocate len (registry.pool r) = Some (offset, p') ->
  well_formed {| registry.pool := p'; registry.handles := registry.handles r |}
  /\ memory_pool.cells p' = memory_pool.cells (registry.pool r)
  /\ In {| memory_pool.start_offset := offset; memory_pool.length := len;
           memory_pool.in_use := true |} (memory_pool.blocks p')
  /\ forall h : registry.handle,
       In (block_of h) (memory_pool.blocks (registry.pool r)) ->
       In (block_of h) (memory_pool.blocks p')
       /\ (registry.start_offset h + registry.length h <= offset
           \/ offset + len <= registry.start_offset h)%nat.
Proof.
  intros (Hfrom & Hpositive & Hblocks & Hunique) Hlen Hallocate.
  unfold memory_pool.allocate in Hallocate.
  destruct (memory_pool.allocate_blocks len
              (memory_pool.blocks (registry.pool r)))
    as [[o bs']|] eqn:E; [|discriminate Hallocate].
  inversion Hallocate; subst; clear Hallocate.
  destruct (allocate_blocks_in_use _ _ _ _ E)
    as (Hold & Hnew & Hin & free & Hfree & Hflag & Hstart & Hfits).
  assert (forall h : registry.handle,
             In (block_of h) (memory_pool.blocks (registry.pool r)) ->
             In (block_of h) bs'
             /\ (registry.start_offset h + registry.length h <= offset
                 \/ offset + len <= registry.start_offset h)%nat) as Hkept.
  { intros h Hh. split; [apply Hold; [exact Hh|reflexivity]|].
    destruct (blocks_disjoint _ _ _ _ Hfrom Hh Hfree) as [Hsame|Hapart].
    - rewrite <- Hsame in Hflag. discriminate Hflag.
    - simpl in Hapart. lia. }
  split; [|split; [reflexivity|split; [exact Hin|exact Hkept]]].
  split; [|split; [|split]]; simpl.
  - apply (allocate_blocks_from _ _ _ _ _ E). exact Hfrom.
  - apply List.Forall_forall. intros b Hb Hused.
    destruct (Hnew b Hb Hused) as [Hwas| ->]; [|exact Hlen].
    rewrite List.Forall_forall in Hpositive. apply Hpositive; assumption.
  - apply List.Forall_forall. intros h Hh.
    rewrite List.Forall_forall in Hblocks. apply Hkept. apply Hblocks.
    exact Hh.
  - exact Hunique.
Qed.

(** The same for the allocation of the registry, which compacts when it
    has to: the handles are those it had, relocated, and each holds what it
    held. *)
Lemma allocate_well_formed (len : nat) (r r' : registry.t) (offset : nat) :
  well_formed r -> (0 < len)%nat ->
  registry.allocate len r = Some (offset, r') ->
  let moves := calls.allocate_moves len r in
  well_formed r'
  /\ registry.handles r' = map (calls.relocate moves) (registry.handles r)
  /\ In {| memory_pool.start_offset := offset; memory_pool.length := len;
           memory_pool.in_use := true |}
       (memory_pool.blocks (registry.pool r'))
  /\ forall h : registry.handle,
       In (block_of h) (memory_pool.blocks (registry.pool r)) ->
       let h' := calls.relocate moves h in
       In (block_of h') (memory_pool.blocks (registry.pool r'))
       /\ registry.backing_bytes (memory_pool.cells (registry.pool r')) h'
          = registry.backing_bytes (memory_pool.cells (registry.pool r)) h
       /\ (registry.start_offset h' + registry.length h' <= offset
           \/ offset + len <= registry.start_offset h')%nat.
Proof.
  intros Hwf Hlen Hallocate moves. unfold moves, calls.allocate_moves.
  unfold registry.allocate in Hallocate.
  destruct (memory_pool.allocate len (registry.pool r)) as [[o p']|] eqn:E.
  - inversion Hallocate; subst; clear Hallocate.
    destruct (pool_allocate_well_formed _ _ _ _ Hwf Hlen E)
      as (Hwf' & Hcells & Hin & Hkept).
    split; [exact Hwf'|]. simpl.
    split; [symmetry; apply map_id|]. split; [exact Hin|].
    intros h Hh. unfold calls.relocate. simpl.
    destruct (Hkept h Hh) as [Hblock Hapart].
    split; [exact Hblock|]. split; [|exact Hapart].
    rewrite Hcells. reflexivity.
  - destruct (len <=? memory_pool.free_bytes _)%nat; [|discriminate].
    destruct (memory_pool.allocate len (registry.pool (registry.compact r)))
      as [[o p']|] eqn:E'; [|discriminate Hallocate].
    inversion Hallocate; subst; clear Hallocate.
    destruct (compact_well_formed r Hwf) as [Hcompact Hmoved].
    destruct (pool_allocate_well_formed _ _ _ _ Hcompact Hlen E')
      as (Hwf' & Hcells & Hin & Hkept).
    destruct (compact_handles r) as [Hhandles _].
    split; [exact Hwf'|]. simpl.
    split; [exact Hhandles|]. split; [exact Hin|].
    intros h Hh. destruct (Hmoved h Hh) as [Hblock Hbytes].
    destruct (Hkept _ Hblock) as [Hblock' Hapart].
    split; [exact Hblock'|]. split; [|exact Hapart].
    rewrite Hcells. exact Hbytes.
Qed.

(** An allocation that fails reports no move. *)
Lemma allocate_moves_none (len : nat) (r : registry.t) :
  registry.allocate len r = None -> calls.allocate_moves len r = [].
Proof.
  unfold registry.allocate, calls.allocate_moves.
  destruct (memory_pool.allocate len (registry.pool r)) as [[o p']|];
    [discriminate|].
  destruct (len <=? memory_pool.free_bytes _)%nat; [|reflexivity].
  destruct (memory_pool.allocate len (registry.pool (registry.compact r)))
    as [[o p']|]; [discriminate|reflexivity].
Qed.

(** *** The registration *)

Lemma register_well_formed (d : registry.content_descriptor) (offset : nat)
    (r : registry.t) :
  well_formed r ->
  In {| memory_pool.start_offset := offset;
        memory_pool.length := List.length (registry.content d);
        memory_pool.in_use := true |}
    (memory_pool.blocks (registry.pool r)) ->
  Forall (fun e =>
            (registry.start_offset e + registry.length e <= offset
             \/ offset + List.length (registry.content d)
                <= registry.start_offset e)%nat
            /\ registry.backing_bytes
                 (memory_pool.cells (registry.pool r)) e
               <> registry.content d) (registry.handles r) ->
  let h := fst (registry.register d offset r) in
  let r' := snd (registry.register d offset r) in
  well_formed r'
  /\ registry.handles r' = h :: registry.handles r
  /\ memory_pool.blocks (registry.pool r')
     = memory_pool.blocks (registry.pool r)
  /\ registry.backing_bytes (memory_pool.cells (registry.pool r')) h
     = registry.content d
  /\ forall e : registry.handle,
       (registry.start_offset e + registry.length e <= offset
        \/ offset + List.length (registry.content d)
           <= registry.start_offset e)%nat ->
       registry.backing_bytes (memory_pool.cells (registry.pool r')) e
       = registry.backing_bytes (memory_pool.cells (registry.pool r)) e.
Proof.
  intros (Hfrom & Hpositive & Hblocks & Hunique) Hin Hothers h r'.
  unfold h, r', registry.register. simpl.
  assert (forall e : registry.handle,
             (registry.start_offset e + registry.length e <= offset
              \/ offset + List.length (registry.content d)
                 <= registry.start_offset e)%nat ->
             registry.backing_bytes
               (memory_pool.write offset (registry.content d)
                  (memory_pool.cells (registry.pool r))) e
             = registry.backing_bytes
                 (memory_pool.cells (registry.pool r)) e) as Hkept.
  { intros e Hapart. unfold registry.backing_bytes.
    apply read_write_disjoint. exact Hapart. }
  assert (registry.backing_bytes
            (memory_pool.write offset (registry.content d)
               (memory_pool.cells (registry.pool r)))
            {| registry.bank_id := memory_pool.bank_id (registry.pool r);
               registry.start_offset := offset;
               registry.length := List.length (registry.content d);
               registry.bpp := registry.content_bpp d;
               registry.reference_count := 1 |}
          = registry.content d) as Hheld.
  { unfold registry.backing_bytes. simpl. apply read_write. }
  split; [|split; [reflexivity|split; [reflexivity|split;
                                         [exact Hheld|exact Hkept]]]].
  split; [exact Hfrom|]. split; [exact Hpositive|]. simpl. split.
  - constructor; [exact Hin|exact Hblocks].
  - rewrite Hheld.
    rewrite (map_ext_in _ (registry.backing_bytes
                             (memory_pool.cells (registry.pool r)))).
    + constructor; [|exact Hunique].
      intros Hdup. apply list_elem_of_In in Hdup.
      apply in_map_iff in Hdup as (e & Hbytes & He).
      rewrite List.Forall_forall in Hothers.
      destruct (Hothers e He) as [_ Hother]. contradiction.
    + intros e He. rewrite List.Forall_forall in Hothers.
      apply Hkept. apply Hothers. exact He.
Qed.

(** *** The operations *)

Lemma same_range_refl (h : registry.handle) : calls.same_range h h = true.
Proof. apply same_range_spec. auto. Qed.

Lemma same_range_sym (h1 h2 : registry.handle) :
  calls.same_range h1 h2 = true -> calls.same_range h2 h1 = true.
Proof. rewrite !same_range_spec. intros (H1 & H2 & H3). auto. Qed.

Lemma same_range_trans (h1 h2 h3 : registry.handle) :
  calls.same_range h1 h2 = true -> calls.same_range h2 h3 = true ->
  calls.same_range h1 h3 = true.
Proof.
  rewrite !same_range_spec. intros (H1 & H2 & H3) (H4 & H5 & H6).
  repeat split; congruence.
Qed.

(** [create] keeps the registry well formed; the handle it returns is live
    and holds the content, and every handle that was live still is, where
    the compaction took it, and holds what it held. *)
Lemma create_well_formed (d : registry.content_descriptor)
    (r r' : registry.t) (h : registry.handle) :
  well_formed r ->
  registry.content d <> [] ->
  registry.create d r = Ok (h, r') ->
  let moves := calls.moves (calls.create d) r in
  well_formed r'
  /\ In h (registry.handles r')
  /\ registry.backing_bytes (memory_pool.cells (registry.pool r')) h
     = registry.content d
  /\ forall e : registry.handle,
       In e (registry.handles r) ->
       exists e' : registry.handle,
         In e' (registry.handles r')
         /\ calls.same_range e' (calls.relocate moves e) = true
         /\ registry.backing_bytes (memory_pool.cells (registry.pool r')) e'
            = registry.backing_bytes (memory_pool.cells (registry.pool r)) e.
Proof.
  intros Hwf Hsized Hcreate moves. unfold moves. simpl.
  unfold registry.create in Hcreate.
  destruct (registry.find d r) as [[found r0]|] eqn:Efind.
  - inversion Hcreate; subst; clear Hcreate.
    destruct (find_well_formed d r r' h Hwf Efind)
      as (Hwf' & Hpool & Hin & Hheld & Hlive).
    split; [exact Hwf'|]. split; [exact Hin|]. split; [exact Hheld|].
    intros e He. destruct (Hlive e He) as (e' & He' & Hsame).
    exists e'. split; [exact He'|]. split; [exact Hsame|].
    rewrite Hpool. apply same_range_bytes. exact Hsame.
  - assert (0 < List.length (registry.content d))%nat as Hlen.
    { destruct (registry.content d); [congruence|simpl; lia]. }
    destruct (registry.allocate _ r) as [[offset r1]|] eqn:Eallocate;
      [|discriminate Hcreate].
    assert (registry.register d offset r1 = (h, r')) as Hregister
      by congruence.
    clear Hcreate.
    destruct (allocate_well_formed _ _ _ _ Hwf Hlen Eallocate)
      as (Hwf1 & Hhandles & Hblock & Hkept).
    pose proof (find_misses d r Efind) as Hmisses.
    destruct Hwf as (_ & _ & Hblocks & _).
    rewrite List.Forall_forall in Hblocks, Hmisses.
    destruct (register_well_formed d offset r1 Hwf1 Hblock)
      as (Hwf' & Hhandles' & _ & Hheld & Hapart).
    { apply List.Forall_forall. intros e1 He1. rewrite Hhandles in He1.
      apply in_map_iff in He1 as (e & <- & He).
      destruct (Hkept e (Hblocks e He)) as (_ & Hbytes & Hfree).
      split; [exact Hfree|]. rewrite Hbytes. apply Hmisses. exact He. }
    rewrite Hregister in Hwf', Hhandles', Hheld, Hapart.
    simpl in Hwf', Hhandles', Hheld, Hapart.
    split; [exact Hwf'|].
    split; [rewrite Hhandles'; left; reflexivity|].
    split; [exact Hheld|].
    intros e He.
    destruct (Hkept e (Hblocks e He)) as (_ & Hbytes & Hfree).
    exists (calls.relocate
              (calls.allocate_moves (List.length (registry.content d)) r) e).
    split.
    + rewrite Hhandles', Hhandles. right. apply in_map. exact He.
    + split; [apply same_range_refl|].
      rewrite (Hapart _ Hfree). exact Hbytes.
Qed.

(** What [release] does to the handles: one of them, [e], has a reference
    less, or is no longer there. *)
Lemma release_handle_spec (offset : nat) (hs hs' : list registry.handle)
    (freed : bool) (len : nat) :
  registry.release_handle offset hs = Some (freed, len, hs') ->
  exists (before after : list registry.handle) (e : registry.handle),
    hs = before ++ e :: after
    /\ registry.start_offset e = offset
    /\ registry.length e = len
    /\ hs' = before
             ++ (if freed then [] else [registry.remove_reference e])
             ++ after.
Proof.
  revert hs'. induction hs as [|h0 rest IH]; intros hs' E; simpl in E.
  - discriminate E.
  - destruct (registry.start_offset h0 =? offset)%nat eqn:Estart.
    + apply Nat.eqb_eq in Estart.
      exists [], rest, h0.
      destruct (registry.reference_count h0 <=? 1)%nat;
        inversion E; subst; simpl; auto.
    + destruct (registry.release_handle offset rest)
        as [[[freed' len'] rest']|]; [|discriminate E].
      inversion E; subst; clear E.
      destruct (IH rest' eq_refl) as (before & after & e & -> & Hs & Hl & ->).
      exists (h0 :: before), after, e. simpl. auto.
Qed.

(** [release] keeps the registry well formed and the bytes of the bank, and
    brings no handle of a range that was not live. *)
Lemma release_well_formed (h : registry.handle) (r : registry.t) :
  well_formed r ->
  well_formed (registry.release h r)
  /\ memory_pool.cells (registry.pool (registry.release h r))
     = memory_pool.cells (registry.pool r)
  /\ forall e' : registry.handle,
       In e' (registry.handles (registry.release h r)) ->
       exists e : registry.handle,
         In e (registry.handles r) /\ calls.same_range e' e = true.
Proof.
  intros Hwf. unfold registry.release.
  destruct (registry.release_handle (registry.start_offset h)
              (registry.handles r)) as [[[freed len] hs']|] eqn:E.
  2:{ split; [exact Hwf|]. split; [reflexivity|].
      intros e' He'. exists e'. split; [exact He'|apply same_range_refl]. }
  destruct (release_handle_spec _ _ _ _ _ E)
    as (before & after & e & Hhandles & Hstart & Hlength & ->).
  destruct freed.
  - simpl. split; [|split; [reflexivity|]].
    + destruct Hwf as (Hfrom & Hpositive & Hblocks & Hunique).
      rewrite Hhandles in Hblocks, Hunique.
      split; [|split; [|split]]; simpl.
      * apply merge_free_from. apply mark_free_from. exact Hfrom.
      * apply List.Forall_forall. intros b Hb Hused.
        apply (proj1 (merge_free_in_use _ _ Hused)) in Hb.
        apply (proj1 (mark_free_in_use _ _ _ _ Hused)) in Hb.
        destruct Hb as [Hb _].
        rewrite List.Forall_forall in Hpositive. apply Hpositive; assumption.
      * apply List.Forall_forall. intros e0 He0.
        apply (proj2 (merge_free_in_use _ (block_of e0) eq_refl)).
        apply (proj2 (mark_free_in_use (registry.start_offset h) len _
                        (block_of e0) eq_refl)).
        rewrite List.Forall_forall in Hblocks.
        split; [apply Hblocks; apply in_app_or in He0 as [He0|He0];
                apply in_or_app; [left|right; right]; exact He0|].
        simpl. intros [Hs Hl].
        rewrite map_app in Hunique. simpl in Hunique.
        apply NoDup_app in Hunique as (_ & Hapart & Hrest).
        apply NoDup_cons in Hrest as [Hnot _].
        assert (registry.backing_bytes
                  (memory_pool.cells (registry.pool r)) e0
                = registry.backing_bytes
                    (memory_pool.cells (registry.pool r)) e) as Hsame.
        { unfold registry.backing_bytes. congruence. }
        apply in_app_or in He0 as [He0|He0].
        -- apply (Hapart (registry.backing_bytes
                            (memory_pool.cells (registry.pool r)) e0)).
           ++ apply list_elem_of_In. apply in_map. exact He0.
           ++ rewrite Hsame. left.
        -- apply Hnot. rewrite <- Hsame.
           apply list_elem_of_In. apply in_map. exact He0.
      * rewrite map_app in Hunique |- *. simpl in Hunique.
        apply NoDup_app in Hunique as (Hbefore & Hapart & Hrest).
        apply NoDup_cons in Hrest as [_ Hafter].
        apply NoDup_app. split; [exact Hbefore|]. split; [|exact Hafter].
        intros x Hx Hx'. apply (Hapart x Hx). right. exact Hx'.
    + intros e' He'. exists e'. split; [|apply same_range_refl].
      rewrite Hhandles. apply in_app_or in He' as [He'|He'];
        apply in_or_app; [left|right; right]; exact He'.
  - simpl. split; [|split; [reflexivity|]].
    + apply well_formed_handles; [exact Hwf| |];
        rewrite Hhandles, !map_app; reflexivity.
    + intros e' He'. rewrite Hhandles.
      apply in_app_or in He' as [He'|[<-|He']].
      * exists e'. split; [apply in_or_app; left; exact He'|].
        apply same_range_refl.
      * exists e. split; [apply in_or_app; right; left; reflexivity|].
        apply same_range_spec. auto.
      * exists e'. split; [apply in_or_app; right; right; exact He'|].
        apply same_range_refl.
Qed.

(** One operation: the registry stays well formed, and a handle that is
    still live after it holds what it held. *)
Lemma step_follows (o : calls.operation) (r r' : registry.t)
    (e h : registry.handle) :
  well_formed r ->
  calls.sized o ->
  calls.step o r = Ok r' ->
  In e (registry.handles r) ->
  calls.same_range e h = true ->
  let h' := calls.relocate (calls.moves o r) h in
  well_formed r'
  /\ (calls.live h' r' = true ->
      exists e' : registry.handle,
        In e' (registry.handles r')
        /\ calls.same_range e' h' = true
        /\ registry.backing_bytes (memory_pool.cells (registry.pool r')) e'
           = registry.backing_bytes (memory_pool.cells (registry.pool r)) e).
Proof.
  intros Hwf Hsized Hstep He Hsame h'.
  assert (forall (d : registry.content_descriptor) (found : registry.handle),
             registry.content d <> [] ->
             registry.create d r = Ok (found, r') ->
             calls.moves (calls.create d) r = calls.moves o r ->
             well_formed r'
             /\ exists e' : registry.handle,
                  In e' (registry.handles r')
                  /\ calls.same_range e' h' = true
                  /\ registry.backing_bytes
                       (memory_pool.cells (registry.pool r')) e'
                     = registry.backing_bytes
                         (memory_pool.cells (registry.pool r)) e)
    as Hcreated.
  { intros d found Hd Hcreate Hmoves.
    destruct (create_well_formed d r r' found Hwf Hd Hcreate)
      as (Hwf' & _ & _ & Hlive).
    split; [exact Hwf'|].
    destruct (Hlive e He) as (e' & He' & Hrange & Hbytes).
    exists e'. split; [exact He'|]. split; [|exact Hbytes].
    apply (same_range_trans _ _ _ Hrange). unfold h'. rewrite <- Hmoves.
    apply same_range_relocate. exact Hsame. }
  assert (calls.moves o r = [] ->
          registry.pool r' = registry.pool r ->
          registry.handles r' = registry.handles r ->
          exists e' : registry.handle,
            In e' (registry.handles r')
            /\ calls.same_range e' h' = true
            /\ registry.backing_bytes
                 (memory_pool.cells (registry.pool r')) e'
               = registry.backing_bytes
                   (memory_pool.cells (registry.pool r)) e) as Hsame_state.
  { intros Hmoves Hpool Hhandles. exists e.
    rewrite Hhandles, Hpool. split; [exact He|].
    split; [|reflexivity]. unfold h'. rewrite Hmoves. exact Hsame. }
  destruct o as [d|d|d|released]; simpl in Hstep, Hsized.
  - (* find *)
    destruct (registry.find d r) as [[found r0]|] eqn:Efind.
    + inversion Hstep; subst; clear Hstep.
      destruct (find_well_formed d r r' found Hwf Efind)
        as (Hwf' & Hpool & _ & _ & Hlive).
      split; [exact Hwf'|]. intros _.
      destruct (Hlive e He) as (e' & He' & Hrange).
      exists e'. split; [exact He'|].
      split; [exact (same_range_trans _ _ _ Hrange Hsame)|].
      rewrite Hpool. apply same_range_bytes. exact Hrange.
    + inversion Hstep; subst; clear Hstep.
      split; [exact Hwf|]. intros _. apply Hsame_state; reflexivity.
  - (* create *)
    destruct (registry.create d r) as [[found r0]|] eqn:Ecreate;
      [|discriminate Hstep].
    inversion Hstep; subst; clear Hstep.
    destruct (Hcreated d found Hsized Ecreate eq_refl) as [Hwf' Hlive].
    split; [exact Hwf'|]. intros _. exact Hlive.
  - (* create_optional *)
    assert (r' = snd (registry.create_optional d r)) as Hr'
      by (inversion Hstep; reflexivity).
    clear Hstep.
    pose proof (create_optional_against_create d r) as Hagainst.
    destruct (registry.create d r) as [[found r0]|] eqn:Ecreate.
    + rewrite Hagainst in Hr'. simpl in Hr'. subst r0.
      destruct (Hcreated d found Hsized Ecreate eq_refl) as [Hwf' Hlive].
      split; [exact Hwf'|]. intros _. exact Hlive.
    + destruct Hagainst as (Hnone & Hfind & Hallocate).
      rewrite Hnone in Hr'. simpl in Hr'. subst r'.
      split; [exact Hwf|]. intros _. apply Hsame_state; try reflexivity.
      simpl. rewrite Hfind. apply allocate_moves_none. exact Hallocate.
  - (* release *)
    inversion Hstep; subst; clear Hstep.
    destruct (release_well_formed released r Hwf) as (Hwf' & Hcells & Hfrom).
    split; [exact Hwf'|]. intros Hlive.
    unfold calls.live in Hlive. apply existsb_exists in Hlive
      as (e' & He' & Hrange).
    exists e'. split; [exact He'|].
    split; [apply same_range_sym; exact Hrange|].
    rewrite Hcells. apply same_range_bytes.
    apply same_range_sym.
    apply (same_range_trans _ _ _ Hsame). exact Hrange.
Qed.

(** A sequence of operations: the same. *)
Lemma follow_keeps (ops : list calls.operation) :
  forall (r rn : registry.t) (e h hn : registry.handle),
    well_formed r ->
    Forall calls.sized ops ->
    In e (registry.handles r) ->
    calls.same_range e h = true ->
    calls.follow ops r h = Some (rn, hn) ->
    well_formed rn
    /\ exists en : registry.handle,
         In en (registry.handles rn)
         /\ calls.same_range en hn = true
         /\ registry.backing_bytes (memory_pool.cells (registry.pool rn)) en
            = registry.backing_bytes (memory_pool.cells (registry.pool r)) e.
Proof.
  induction ops as [|o rest IH]; intros r rn e h hn Hwf Hsized He Hsame E.
  - inversion E; subst. split; [exact Hwf|]. exists e. auto.
  - simpl in E. apply Forall_cons_1 in Hsized as [Ho Hrest].
    destruct (calls.step o r) as [r'|] eqn:Estep; [|discriminate E].
    destruct (calls.live (calls.relocate (calls.moves o r) h) r') eqn:Elive;
      [|discriminate E].
    destruct (step_follows o r r' e h Hwf Ho Estep He Hsame)
      as [Hwf' Hlive].
    destruct (Hlive Elive) as (e' & He' & Hrange & Hbytes).
    destruct (IH r' rn e' _ hn Hwf' Hrest He' Hrange E)
      as (Hwfn & en & Hen & Hrangen & Hbytesn).
    split; [exact Hwfn|]. exists en. split; [exact Hen|].
    split; [exact Hrangen|]. rewrite Hbytesn. exact Hbytes.
Qed.

(** The registry of an empty bank is well formed, and the operations keep
    it so. *)
Lemma init_well_formed (bank size : nat) :
  well_formed (registry.init bank size).
Proof.
  unfold well_formed, registry.init, memory_pool.init. simpl.
  split; [auto|]. split; [|split; constructor].
  constructor; [|constructor]. intros Hused. discriminate Hused.
Qed.

Lemma step_well_formed (o : calls.operation) (r r' : registry.t) :
  well_formed r -> calls.sized o -> calls.step o r = Ok r' ->
  well_formed r'.
Proof.
  intros Hwf Hsized Hstep.
  destruct o as [d|d|d|released]; simpl in Hstep, Hsized.
  - destruct (registry.find d r) as [[found r0]|] eqn:Efind;
      inversion Hstep; subst; clear Hstep; [|exact Hwf].
    apply (find_well_formed d r r' found Hwf Efind).
  - destruct (registry.create d r) as [[found r0]|] eqn:Ecreate;
      [|discriminate Hstep].
    inversion Hstep; subst; clear Hstep.
    apply (create_well_formed d r r' found Hwf Hsized Ecreate).
  - assert (r' = snd (registry.create_optional d r)) as Hr'
      by (inversion Hstep; reflexivity).
    clear Hstep.
    pose proof (create_optional_against_create d r) as Hagainst.
    destruct (registry.create d r) as [[found r0]|] eqn:Ecreate.
    + rewrite Hagainst in Hr'. simpl in Hr'. subst r0.
      apply (create_well_formed d r r' found Hwf Hsized Ecreate).
    + destruct Hagainst as (Hnone & _). rewrite Hnone in Hr'.
      simpl in Hr'. subst r'. exact Hwf.
  - inversion Hstep; subst; clear Hstep.
    apply (release_well_formed released r Hwf).
Qed.

(** [create] on the handles of the registry: a new reference to the first
    live handle that holds the content, and only when there is none an
    allocation and a registration. *)
Lemma create_searches_first (d : registry.content_descriptor)
    (r r1 : registry.t) (h1 : registry.handle) :
  registry.create d r = Ok (h1, r1) ->
  let held :=
    registry.backing_bytes (memory_pool.cells (registry.pool r)) in
  (exists (before after : list registry.handle) (e : registry.handle),
      registry.handles r = before ++ e :: after
      /\ Forall (fun e0 => held e0 <> registry.content d) before
      /\ held e = registry.content d
      /\ h1 = registry.add_reference e
      /\ r1 = {| registry.pool := registry.pool r;
                 registry.handles :=
                   before ++ registry.add_reference e :: after |})
  \/ (Forall (fun e0 => held e0 <> registry.content d) (registry.handles r)
      /\ exists (offset : nat) (r' : registry.t),
           registry.allocate (List.length (registry.content d)) r
           = Some (offset, r')
           /\ registry.register d offset r' = (h1, r1)
           /\ registry.start_offset h1 = offset
           /\ registry.reference_count h1 = 1%nat
           /\ registry.handles r1 = h1 :: registry.handles r').
Proof.
  intros Hcreate held. unfold registry.create in Hcreate.
  destruct (registry.find d r) as [[found r0]|] eqn:Efind.
  - left. inversion Hcreate; subst; clear Hcreate.
    unfold registry.find in Efind.
    pose proof (find_handle_first (memory_pool.cells (registry.pool r))
                  (registry.content d) (registry.handles r)) as Hfirst.
    destruct (registry.find_handle _ _ _) as [[found hs]|];
      [|discriminate Efind].
    inversion Efind; subst; clear Efind.
    destruct Hfirst as (before & after & e & Hhandles & -> & -> & Hbytes
                        & Hbefore).
    exists before, after, e. auto.
  - right. split; [apply find_misses; exact Efind|].
    destruct (registry.allocate _ r) as [[offset r']|];
      [|discriminate Hcreate].
    assert (registry.register d offset r' = (h1, r1)) as Hregister
      by congruence.
    exists offset, r'. split; [reflexivity|]. split; [exact Hregister|].
    unfold registry.register in Hregister. inversion Hregister; subst.
    simpl. auto.
Qed.

Lemma item_create_is_create (item : resource_item) (r : registry.t) :
  item_create item r = registry.create (item_descriptor item) r.
Proof. destruct item; reflexivity. Qed.

(** C1. Two [create_palette] or [create_tiles] calls on items of equal
    content, with any number of registry operations between them.

    The first call searches first: it returns a new reference to the first
    live handle that holds the content, and the registry is as it was but
    for that reference; only when no live handle holds the content does it
    allocate a block and register a handle with one reference.  Either way
    the handle it returns holds the content.

    A second call that follows at once returns a handle of the same range
    with one reference more, and does not touch the pool.

    In a well-formed registry the same is true of a second call that
    follows any sequence of [find], [create], [create_optional] and
    [release] operations that leaves the first handle live: at that time
    one live handle and no other holds the content, its range is the one the
    first handle has after the relocations of the compactions in between,
    and the call returns a new reference to it, without an allocation. *)
Theorem identical_content_shares_one_handle
    (item1 item2 : resource_item) (r r1 : registry.t) (h1 : registry.handle) :
  let bytes := registry.content (item_descriptor item1) in
  registry.content (item_descriptor item2) = bytes ->
  item_create item1 r = Ok (h1, r1) ->
  let held (r : registry.t) :=
    registry.backing_bytes (memory_pool.cells (registry.pool r)) in
  ((exists (before after : list registry.handle) (e : registry.handle),
       registry.handles r = before ++ e :: after
       /\ Forall (fun e0 => held r e0 <> bytes) before
       /\ held r e = bytes
       /\ h1 = registry.add_reference e
       /\ r1 = {| registry.pool := registry.pool r;
                  registry.handles :=
                    before ++ registry.add_reference e :: after |})
   \/ (Forall (fun e0 => held r e0 <> bytes) (registry.handles r)
       /\ exists (offset : nat) (r' : registry.t),
            registry.allocate (List.length bytes) r = Some (offset, r')
            /\ registry.register (item_descriptor item1) offset r'
               = (h1, r1)
            /\ registry.start_offset h1 = offset
            /\ registry.reference_count h1 = 1%nat
            /\ registry.handles r1 = h1 :: registry.handles r'))
  /\ held r1 h1 = bytes
  /\ (exists (h2 : registry.handle) (r2 : registry.t),
        item_create item2 r1 = Ok (h2, r2)
        /\ calls.same_range h2 h1 = true
        /\ registry.reference_count h2 = S (registry.reference_count h1)
        /\ held r2 h2 = bytes
        /\ registry.pool r2 = registry.pool r1)
  /\ (well_formed r -> bytes <> [] ->
      forall (ops : list calls.operation) (rn : registry.t)
        (hn : registry.handle),
        Forall calls.sized ops ->
        calls.follow ops r1 h1 = Some (rn, hn) ->
        exists (before after : list registry.handle) (e : registry.handle),
          registry.handles rn = before ++ e :: after
          /\ Forall (fun e0 => held rn e0 <> bytes) (before ++ after)
          /\ held rn e = bytes
          /\ calls.same_range e hn = true
          /\ item_create item2 rn
             = Ok (registry.add_reference e,
                   {| registry.pool := registry.pool rn;
                      registry.handles :=
                        before ++ registry.add_reference e :: after |})).
Proof.
  intros bytes Hcontent Hcreate held. subst held bytes. cbv beta.
  rewrite item_create_is_create in Hcreate.
  pose proof (create_backing _ _ _ _ Hcreate) as Hheld.
  split; [exact (create_searches_first _ _ _ _ Hcreate)|].
  split; [exact Hheld|]. split.
  - destruct (create_again (item_descriptor item1) (item_descriptor item2)
                r r1 h1 (eq_sym Hcontent) Hcreate) as (r2 & Hagain & Hpool).
    exists (registry.add_reference h1), r2.
    rewrite item_create_is_create.
    split; [exact Hagain|]. split; [apply same_range_spec; auto|].
    split; [reflexivity|]. split; [|exact Hpool].
    rewrite (create_backing _ _ _ _ Hagain). exact Hcontent.
  - intros Hwf Hsized ops rn hn Hops Hfollow.
    destruct (create_well_formed _ _ _ _ Hwf Hsized Hcreate)
      as (Hwf1 & Hin & _ & _).
    destruct (follow_keeps ops r1 rn h1 h1 hn Hwf1 Hops Hin
                (same_range_refl h1) Hfollow)
      as (Hwfn & en & Hen & Hrange & Hbytes).
    rewrite Hheld in Hbytes.
    apply in_split in Hen as (before & after & Hhandles).
    exists before, after, en.
    assert (Forall (fun e0 =>
                      registry.backing_bytes
                        (memory_pool.cells (registry.pool rn)) e0
                      <> registry.content (item_descriptor item1))
              (before ++ after)) as Hothers.
    { destruct Hwfn as (_ & _ & _ & Hunique).
      rewrite Hhandles, map_app in Hunique. simpl in Hunique.
      apply NoDup_app in Hunique as (_ & Hapart & Hrest).
      apply NoDup_cons in Hrest as [Hnot _].
      apply Forall_app. split; apply List.Forall_forall; intros e0 He0 Hsame.
      - apply (Hapart (registry.backing_bytes
                         (memory_pool.cells (registry.pool rn)) e0)).
        + apply list_elem_of_In. apply in_map. exact He0.
        + rewrite Hsame, <- Hbytes. left.
      - apply Hnot. rewrite Hbytes, <- Hsame.
        apply list_elem_of_In. apply in_map. exact He0. }
    split; [exact Hhandles|]. split; [exact Hothers|].
    split; [exact Hbytes|]. split; [exact Hrange|].
    rewrite item_create_is_create. unfold registry.create, registry.find.
    pose proof (find_handle_first (memory_pool.cells (registry.pool rn))
                  (registry.content (item_descriptor item2))
                  (registry.handles rn)) as Hfirst.
    destruct (registry.find_handle _ _ _) as [[found hs]|].
    + destruct Hfirst as (before' & after' & e' & Hhandles' & -> & ->
                          & Hbytes' & Hbefore').
      rewrite Hcontent in Hbytes', Hbefore'.
      assert (before' = before /\ e' = en /\ after' = after)
        as (-> & -> & ->); [|reflexivity].
      rewrite Hhandles in Hhandles'. apply Forall_app in Hothers as [Hb Ha].
      rewrite List.Forall_forall in Hb.
      revert before' Hhandles' Hbefore'. clear - Hb Hbytes Hbytes'.
      induction before as [|b0 before IH]; intros before' Hhandles' Hbefore'.
      * destruct before' as [|b1 before']; simpl in Hhandles'.
        -- inversion Hhandles'; subst. auto.
        -- inversion Hhandles'; subst.
           apply Forall_cons_1 in Hbefore' as [Hb1 _]. contradiction.
      * destruct before' as [|b1 before']; simpl in Hhandles'.
        -- inversion Hhandles'; subst. exfalso.
           apply (Hb e'); [left; reflexivity|exact Hbytes'].
        -- inversion Hhandles' as [[Hhead Htail]]. subst b1.
           apply Forall_cons_1 in Hbefore' as [_ Hbefore'].
           destruct (IH (fun e0 He0 => Hb e0 (or_intror He0)) before' Htail
                       Hbefore') as (-> & -> & ->).
           auto.
    + exfalso. rewrite List.Forall_forall in Hfirst.
      apply (Hfirst en); [rewrite Hhandles; apply in_elt|].
      rewrite Hcontent. exact Hbytes.
Qed.

(** *** The cover of the bank is kept by every operation *)

Lemma covers_bank_init (bank size : nat) :
  covers_bank (memory_pool.init bank size).
Proof. unfold covers_bank. simpl. lia. Qed.

Lemma covers_bank_allocate (len offset : nat) (p p' : memory_pool.pool) :
  covers_bank p ->
  memory_pool.allocate len p = Some (offset, p') ->
  covers_bank p'.
Proof.
  unfold covers_bank, memory_pool.allocate. intros Hcovers E.
  destruct (memory_pool.allocate_blocks len (memory_pool.blocks p))
    as [[o bs]|] eqn:Eblocks; [|discriminate E].
  inversion E; subst. simpl.
  rewrite (allocate_blocks_sum _ _ _ _ Eblocks). exact Hcovers.
Qed.

Lemma relocations_sum (destination : nat) (bs : list memory_pool.block) :
  list_sum
    (map memory_pool.length
       (map (fun r : memory_pool.relocation =>
               let '(_, new, l) := r in
               {| memory_pool.start_offset := new; memory_pool.length := l;
                  memory_pool.in_use := true |})
            (memory_pool.relocations destination bs)))
  = memory_pool.used_bytes bs.
Proof.
  unfold memory_pool.used_bytes. revert destination.
  induction bs as [|b rest IH]; intros destination; [reflexivity|].
  simpl. rewrite filter_cons.
  destruct (memory_pool.in_use b); simpl; rewrite IH; reflexivity.
Qed.

Lemma covers_bank_compact (p : memory_pool.pool) :
  covers_bank p -> covers_bank (fst (memory_pool.compact p)).
Proof.
  unfold covers_bank, memory_pool.compact. intros Hcovers. simpl.
  pose proof (used_and_free_bytes (memory_pool.blocks p)) as Htotal.
  rewrite map_app, list_sum_app, relocations_sum.
  destruct (memory_pool.used_bytes (memory_pool.blocks p)
            <? memory_pool.bank_size p)%nat eqn:Etop; simpl.
  - apply Nat.ltb_lt in Etop. lia.
  - apply Nat.ltb_ge in Etop. lia.
Qed.

Lemma merge_free_sum (bs : list memory_pool.block) :
  list_sum (map memory_pool.length (memory_pool.merge_free bs))
  = list_sum (map memory_pool.length bs).
Proof.
  induction bs as [|b rest IH]; [reflexivity|].
  simpl. destruct (memory_pool.merge_free rest) as [|b' rest'].
  - simpl in *. lia.
  - destruct (negb (memory_pool.in_use b) && negb (memory_pool.in_use b'));
      simpl in *; lia.
Qed.

Lemma covers_bank_release (offset len : nat) (p : memory_pool.pool) :
  covers_bank p -> covers_bank (memory_pool.release offset len p).
Proof.
  unfold covers_bank, memory_pool.release. intros Hcovers. simpl.
  rewrite merge_free_sum, <- Hcovers. f_equal.
  rewrite map_map. apply map_ext. intros b. unfold memory_pool.mark_free.
  destruct ((memory_pool.start_offset b =? offset)%nat
            && (memory_pool.length b =? len)%nat
            && memory_pool.in_use b) eqn:E; [|reflexivity].
  apply andb_true_iff in E as [E _]. apply andb_true_iff in E as [_ E].
  apply Nat.eqb_eq in E. simpl. congruence.
Qed.

Lemma covers_bank_registry_allocate (len offset : nat) (r r' : registry.t) :
  covers_bank (registry.pool r) ->
  registry.allocate len r = Some (offset, r') ->
  covers_bank (registry.pool r').
Proof.
  intros Hcovers E. unfold registry.allocate in E.
  destruct (memory_pool.allocate len (registry.pool r)) as [[o p]|] eqn:Ea.
  - inversion E; subst. simpl.
    eapply covers_bank_allocate; [exact Hcovers | exact Ea].
  - destruct (len <=? _)%nat; [|discriminate E].
    pose proof (covers_bank_compact _ Hcovers) as Hcompact.
    unfold registry.compact in E.
    destruct (memory_pool.compact (registry.pool r)) as [pc moves].
    simpl in *.
    destruct (memory_pool.allocate len pc) as [[o p]|] eqn:Eb;
      [|discriminate E].
    inversion E; subst. simpl.
    eapply covers_bank_allocate; [exact Hcompact | exact Eb].
Qed.

(** [create], [create_optional] and [release] keep the cover of the bank:
    it holds in every state reached from [registry.init]. *)
Lemma covers_bank_create (d : registry.content_descriptor) (r r' : registry.t)
    (h : registry.handle) :
  covers_bank (registry.pool r) ->
  registry.create d r = Ok (h, r') ->
  covers_bank (registry.pool r').
Proof.
  intros Hcovers E. unfold registry.create in E.
  destruct (registry.find d r) as [[found r0]|] eqn:Efind.
  - inversion E; subst. rewrite (find_keeps_pool _ _ _ _ Efind). exact Hcovers.
  - destruct (registry.allocate _ r) as [[offset r0]|] eqn:Ealloc;
      [|discriminate E].
    pose proof (covers_bank_registry_allocate _ _ _ _ Hcovers Ealloc) as H0.
    inversion E; subst. exact H0.
Qed.

Lemma covers_bank_create_optional (d : registry.content_descriptor)
    (r : registry.t) :
  covers_bank (registry.pool r) ->
  covers_bank (registry.pool (snd (registry.create_optional d r))).
Proof.
  intros Hcovers.
  pose proof (create_optional_against_create d r) as Hagainst.
  destruct (registry.create d r) as [[h r']|message values] eqn:Ecreate.
  - rewrite Hagainst. apply (covers_bank_create d r r' h Hcovers Ecreate).
  - destruct Hagainst as (-> & _). exact Hcovers.
Qed.

Lemma covers_bank_registry_release (h : registry.handle) (r : registry.t) :
  covers_bank (registry.pool r) ->
  covers_bank (registry.pool (registry.release h r)).
Proof.
  intros Hcovers. unfold registry.release.
  destruct (registry.release_handle _ _) as [[[freed len] hs]|];
    [|exact Hcovers].
  destruct freed; simpl; [|exact Hcovers].
  apply covers_bank_release. exact Hcovers.
Qed.

(** With the bank covered, a non-empty content cannot be created exactly
    when no live handle holds its bytes and the free bytes are fewer than
    its length; the registry then has not been touched at all. *)
Lemma create_optional_empty_iff (d : registry.content_descriptor)
    (r : registry.t) :
  covers_bank (registry.pool r) ->
  registry.content d <> [] ->
  fst (registry.create_optional d r) = None <->
  registry.find d r = None
  /\ (memory_pool.free_bytes (memory_pool.blocks (registry.pool r))
      < List.length (registry.content d))%nat.
Proof.
  intros Hcovers Hnonempty.
  assert (0 < List.length (registry.content d))%nat as Hpos.
  { destruct (registry.content d); [congruence | simpl; lia]. }
  rewrite <- (registry_allocate_none _ r Hcovers Hpos).
  unfold registry.create_optional, registry.create_new_optional.
  destruct (registry.find d r) as [[found r0]|]; simpl.
  - split; [discriminate | intros [E _]; discriminate E].
  - destruct (registry.allocate _ r) as [[offset r0]|]; simpl.
    + split; [discriminate | intros [_ E]; discriminate E].
    + split; [intros _; split; reflexivity | reflexivity].
Qed.

(** C8. [create_palette_optional] returns what [create_palette] returns when
    that one returns: a palette whose bytes in the bank are those of the
    item's colors, so that it holds the item's colors.  Where
    [create_palette] stops in the fatal error (the search missed and the
    allocation failed), [create_palette_optional] returns an empty optional
    and the registry and its pool are as they were; with the bank covered by
    its blocks, that is exactly when no live palette holds the colors and the
    free bytes are fewer than the colors need.
    [create_tiles_optional] relates to [create_tiles] in the same way. *)
Theorem create_palette_optional_fails_softly
    (item : sprite_palette_item.t) (tiles : affine_bg_tiles_item.t)
    (r : registry.t) :
  match sprite_palette_item.create_palette item r with
  | Ok (h, r') =>
      sprite_palette_item.create_palette_optional item r = (Some h, r')
      /\ registry.backing_bytes (memory_pool.cells (registry.pool r')) h
         = colors_bytes (sprite_palette_item.colors item)
      /\ (Forall (fun c => 0 <= c < 65536) (sprite_palette_item.colors item)
          -> sprite_palette_item.palette_colors h r'
             = sprite_palette_item.colors item)
  | Fatal _ _ =>
      sprite_palette_item.create_palette_optional item r = (None, r)
      /\ sprite_palette_item.find_palette item r = None
      /\ registry.allocate
           (List.length (colors_bytes (sprite_palette_item.colors item))) r
         = None
  end
  /\ (covers_bank (registry.pool r) ->
      sprite_palette_item.colors item <> [] ->
      fst (sprite_palette_item.create_palette_optional item r) = None <->
      sprite_palette_item.find_palette item r = None
      /\ (memory_pool.free_bytes (memory_pool.blocks (registry.pool r))
          < 2 * List.length (sprite_palette_item.colors item))%nat)
  /\ match affine_bg_tiles_item.create_tiles tiles r with
     | Ok (h, r') =>
         affine_bg_tiles_item.create_tiles_optional tiles r = (Some h, r')
         /\ registry.backing_bytes (memory_pool.cells (registry.pool r')) h
            = concat (affine_bg_tiles_item._tiles_ref tiles)
     | Fatal _ _ =>
         affine_bg_tiles_item.create_tiles_optional tiles r = (None, r)
     end.
Proof.
  split; [|split].
  - unfold sprite_palette_item.create_palette,
      sprite_palette_item.create_palette_optional,
      sprite_palette_item.find_palette.
    pose proof (create_optional_against_create
                  (sprite_palette_item.descriptor item) r) as Hagainst.
    pose proof (create_backing (sprite_palette_item.descriptor item) r)
      as Hbacking.
    destruct (registry.create (sprite_palette_item.descriptor item) r)
      as [[h r']|message values].
    + split; [exact Hagainst|].
      specialize (Hbacking r' h eq_refl). split; [exact Hbacking|].
      intros Hrange. unfold sprite_palette_item.palette_colors.
      rewrite Hbacking. apply bytes_colors_of_colors_bytes. exact Hrange.
    + exact Hagainst.
  - intros Hcovers Hnonempty.
    unfold sprite_palette_item.create_palette_optional,
      sprite_palette_item.find_palette.
    rewrite <- colors_bytes_length.
    apply (create_optional_empty_iff (sprite_palette_item.descriptor item) r
             Hcovers).
    simpl. unfold sprite_palette_item.colors in Hnonempty.
    destruct (sprite_palette_item._colors item); [congruence|discriminate].
  - unfold affine_bg_tiles_item.create_tiles,
      affine_bg_tiles_item.create_tiles_optional.
    pose proof (create_optional_against_create
                  (affine_bg_tiles_item.descriptor tiles) r) as Hagainst.
    pose proof (create_backing (affine_bg_tiles_item.descriptor tiles) r)
      as Hbacking.
    destruct (registry.create (affine_bg_tiles_item.descriptor tiles) r)
      as [[h r']|message values].
    + split; [exact Hagainst|]. apply (Hbacking r' h eq_refl).
    + apply Hagainst.
Qed.

(** ** Text generation and the output vector

    Every step of the generation is followed through a relation between the
    output vector before and after it: equality for the steps that only act
    on the world, extension at the back for the painters. *)

Section generation_properties.
Context {F : Type} `{bn_fixed F} `{sprite_text_generator.sprite_system F}.

Import sprite_text_generator.

Lemma extends_refl (v : ivector) : extends v v.
Proof. split; [exists []; symmetry; apply app_nil_r | reflexivity]. Qed.

Lemma extends_trans (u v w : ivector) :
  extends u v -> extends v w -> extends u w.
Proof.
  intros [[e1 H1] M1] [[e2 H2] M2]. split.
  - exists (e1 ++ e2). rewrite H2, H1, app_assoc. reflexivity.
  - congruence.
Qed.

Section preserved_relation.
Variable R : ivector -> ivector -> Prop.
Hypothesis R_refl : forall v, R v v.
Hypothesis R_trans : forall u v w, R u v -> R v w -> R u w.

Lemma preserves_ret {A : Type} (a : A) : preserves R (ret a).
Proof using R_refl.
  intros s a' s' E. inversion E; subst. apply R_refl.
Qed.

Lemma preserves_fatal {A : Type} (message : string) (values : list Z) :
  preserves R (@fatal F _ A message values).
Proof. intros s a s' E. discriminate E. Qed.

Lemma preserves_bind {A B : Type} (m : M A) (k : A -> M B) :
  preserves R m -> (forall a, preserves R (k a)) -> preserves R (mbind m k).
Proof using R_trans.
  intros Hm Hk s b s' E. unfold mbind in E.
  destruct (m s) as [[a s1]|] eqn:Em; [|discriminate E].
  apply (R_trans _ (output_sprites s1)).
  - apply (Hm s a s1 Em).
  - apply (Hk a s1 b s' E).
Qed.

Lemma preserves_on_world {A : Type} (f : world -> A * world) :
  preserves R (on_world f).
Proof using R_refl.
  intros s a s' E. unfold on_world in E.
  destruct (f (the_world s)) as [a' w]. inversion E; subst. apply R_refl.
Qed.

Lemma preserves_on_world_result {A : Type}
    (f : world -> result (A * world)) :
  preserves R (on_world_result f).
Proof using R_refl.
  intros s a s' E. unfold on_world_result in E.
  destruct (f (the_world s)) as [[a' w]|]; [|discriminate E].
  inversion E; subst. apply R_refl.
Qed.

Lemma preserves_hw (f : world -> world) : preserves R (hw f).
Proof using R_refl.
  intros s a s' E. inversion E; subst. apply R_refl.
Qed.

Lemma preserves_read_world {A : Type} (f : world -> A) :
  preserves R (read_world f).
Proof using R_refl.
  intros s a s' E. inversion E; subst. apply R_refl.
Qed.

Lemma preserves_sprites_full : preserves R sprites_full.
Proof using R_refl.
  intros s a s' E. inversion E; subst. apply R_refl.
Qed.

Lemma preserves_sprites_size : preserves R sprites_size.
Proof using R_refl.
  intros s a s' E. inversion E; subst. apply R_refl.
Qed.

Lemma preserves_massert (condition : bool) (message : string)
    (values : list Z) :
  preserves R (massert condition message values).
Proof using R_refl.
  unfold massert. destruct condition.
  - apply preserves_ret.
  - apply preserves_fatal.
Qed.

Lemma preserves_utf8_graphics (text : list Z) (map : gmap Z Z)
    (text_index : nat) :
  preserves R (utf8_graphics text map text_index).
Proof using R_refl.
  intros s a s' E. unfold utf8_graphics in E.
  destruct (utf8_character _) as [[utf8_data utf8_size]|]; [|discriminate E].
  destruct (map !! utf8_data); [|discriminate E].
  inversion E; subst. apply R_refl.
Qed.

(** The loop of [paint] preserves what its painter preserves. *)
Lemma preserves_paint_from {P : Type} (allow_failure : bool) (text : list Z)
    (map : gmap Z Z) (ops : painter P) :
  painter_preserves R ops ->
  forall (text_index : nat) (p : P),
    preserves R (paint_from allow_failure text map ops text_index p).
Proof using R_refl R_trans.
  intros (Hspace & Htab & Hcharacter & _).
  apply (paint_from_elim allow_failure text map ops
           (fun _ _ m => preserves R m)).
  - intros text_index Hlt p IHnext IHskip _. cbv zeta.
    destruct (nth text_index text 0 =? 32).
    { apply preserves_bind; [apply Hspace|].
      intros p' s a s' E. apply (IHnext p' s s a s' E). }
    destruct (nth text_index text 0 =? 9).
    { apply preserves_bind; [apply Htab|].
      intros p' s a s' E. apply (IHnext p' s s a s' E). }
    destruct (nth text_index text 0 >=? 33); [|apply preserves_fatal].
    apply preserves_bind.
    { destruct (nth text_index text 0 <=? 126).
      - apply preserves_ret.
      - apply preserves_utf8_graphics. }
    intros found. apply preserves_bind; [apply Hcharacter|].
    intros painted.
    destruct (allow_failure && negb (fst painted)).
    + apply preserves_ret.
    + intros s a s' E. apply (IHskip found painted s s a s' E).
  - intros text_index Hge p _. apply preserves_ret.
Qed.

Lemma preserves_with_painter {P : Type} (allow_failure : bool)
    (text : list Z) (map : gmap Z Z) (ops : painter P) (p : P) :
  painter_preserves R ops ->
  preserves R (with_painter allow_failure text map ops p).
Proof using R_refl R_trans.
  intros Hops. unfold with_painter, paint.
  apply preserves_bind; [apply preserves_paint_from; exact Hops|].
  intros painted. apply preserves_bind.
  - destruct Hops as (_ & _ & _ & Hdestroy). apply Hdestroy.
  - intros _. apply preserves_ret.
Qed.

End preserved_relation.

Lemma preserves_push_back (sprite : sprite_ptr) :
  preserves extends (push_back sprite).
Proof.
  intros s a s' E. unfold push_back in E.
  destruct (full (output_sprites s)); [discriminate E|].
  inversion E; subst. simpl. split; [|reflexivity].
  exists [sprite]. reflexivity.
Qed.

Ltac preserve_step refl trans :=
  match goal with
  | |- preserves _ (mbind _ _) =>
      apply (preserves_bind _ trans); [|intros ?]
  | |- preserves _ (ret _) => apply (preserves_ret _ refl)
  | |- preserves _ (fatal _ _) => apply preserves_fatal
  | |- preserves _ (on_world _) => apply (preserves_on_world _ refl)
  | |- preserves _ (on_world_result _) =>
      apply (preserves_on_world_result _ refl)
  | |- preserves _ (hw _) => apply (preserves_hw _ refl)
  | |- preserves _ (read_world _) => apply (preserves_read_world _ refl)
  | |- preserves _ sprites_full => apply (preserves_sprites_full _ refl)
  | |- preserves _ sprites_size => apply (preserves_sprites_size _ refl)
  | |- preserves _ (massert _ _ _) => apply (preserves_massert _ refl)
  | |- preserves _ (push_back _) => apply preserves_push_back
  | |- preserves _ (if ?c then _ else _) => destruct c
  | |- preserves _ (match ?x with _ => _ end) => destruct x
  | |- preserves _ _ => progress cbv zeta
  end.

Ltac preserve_extends := repeat preserve_step extends_refl extends_trans.

Lemma preserves_build_sprite (size : sprite_size) (max_tiles : Z)
    (allow_failure : bool) (g : generator) (palette : sprite_palette_ptr)
    (position : fixed_point F) :
  preserves extends
    (_build_sprite size max_tiles allow_failure g palette position).
Proof. unfold _build_sprite. preserve_extends. Qed.

Ltac preserve_painter :=
  repeat first
    [ preserve_step extends_refl extends_trans
    | apply preserves_build_sprite ].

(** The painters that only measure leave the vector as it is. *)
Lemma fixed_width_painter_preserves (R : ivector -> ivector -> Prop) :
  (forall v, R v v) -> painter_preserves R fixed_width_painter.ops.
Proof.
  intros Hrefl.
  split; [|split; [|split]]; intros; apply (preserves_ret _ Hrefl).
Qed.

Lemma variable_width_painter_preserves (R : ivector -> ivector -> Prop) :
  (forall v, R v v) -> painter_preserves R variable_width_painter.ops.
Proof.
  intros Hrefl.
  split; [|split; [|split]]; intros; apply (preserves_ret _ Hrefl).
Qed.

(** The painters that build sprites only add them at the back. *)
Lemma fixed_one_sprite_per_character_painter_extends (allow_failure : bool) :
  painter_preserves extends
    (fixed_one_sprite_per_character_painter.ops allow_failure).
Proof.
  split; [|split; [|split]]; intros; simpl;
    unfold fixed_one_sprite_per_character_painter.paint_space,
      fixed_one_sprite_per_character_painter.paint_tab,
      fixed_one_sprite_per_character_painter.paint_character;
    preserve_painter.
Qed.

Lemma variable_one_sprite_per_character_painter_extends
    (allow_failure : bool) :
  painter_preserves extends
    (variable_one_sprite_per_character_painter.ops allow_failure).
Proof.
  split; [|split; [|split]]; intros; simpl;
    unfold variable_one_sprite_per_character_painter.paint_space,
      variable_one_sprite_per_character_painter.paint_tab,
      variable_one_sprite_per_character_painter.paint_character;
    preserve_painter.
Qed.

Lemma fixed_8x8_painter_extends (allow_failure : bool) :
  painter_preserves extends (fixed_8x8_painter.ops allow_failure).
Proof.
  split; [|split; [|split]]; intros; simpl;
    unfold fixed_8x8_painter.paint_space, fixed_8x8_painter.paint_tab,
      fixed_8x8_painter.paint_character, fixed_8x8_painter.destroy,
      fixed_8x8_painter._clear_left, fixed_8x8_painter._clear;
    preserve_painter.
Qed.

Lemma variable_8x8_painter_extends (allow_failure : bool) :
  painter_preserves extends (variable_8x8_painter.ops allow_failure).
Proof.
  split; [|split; [|split]]; intros; simpl;
    unfold variable_8x8_painter.paint_space, variable_8x8_painter.paint_tab,
      variable_8x8_painter.paint_character;
    preserve_painter.
Qed.

Lemma fixed_8x16_painter_extends (allow_failure : bool) :
  painter_preserves extends (fixed_8x16_painter.ops allow_failure).
Proof.
  split; [|split; [|split]]; intros; simpl;
    unfold fixed_8x16_painter.paint_space, fixed_8x16_painter.paint_tab,
      fixed_8x16_painter.paint_character, fixed_8x16_painter.destroy,
      fixed_8x16_painter._clear_left, fixed_8x16_painter._clear;
    preserve_painter.
Qed.

Lemma variable_8x16_painter_extends (allow_failure : bool) :
  painter_preserves extends (variable_8x16_painter.ops allow_failure).
Proof.
  split; [|split; [|split]]; intros; simpl;
    unfold variable_8x16_painter.paint_space, variable_8x16_painter.paint_tab,
      variable_8x16_painter.paint_character;
    preserve_painter.
Qed.

(** [width] leaves the vector as it is. *)
Lemma width_keeps_output (g : generator) (text : list Z) :
  preserves eq (width g text).
Proof.
  assert (forall v : ivector, v = v) as Hrefl by reflexivity.
  assert (forall u v w : ivector, u = v -> v = w -> u = w) as Htrans
    by (intros; congruence).
  unfold width, paint. destruct (bool_decide _).
  - apply (preserves_bind _ Htrans).
    + apply (preserves_paint_from _ Hrefl Htrans).
      apply fixed_width_painter_preserves. exact Hrefl.
    + intros painted. apply (preserves_ret _ Hrefl).
  - apply (preserves_bind _ Htrans).
    + apply (preserves_paint_from _ Hrefl Htrans).
      apply variable_width_painter_preserves. exact Hrefl.
    + intros painted. apply (preserves_ret _ Hrefl).
Qed.

(** Counting the sprites, painting, and shrinking back to the count when the
    painting failed: a failure leaves the vector it found. *)
Lemma shrink_undoes_failed_painting (painting : M bool) (s s' : state) :
  preserves extends painting ->
  mbind sprites_size
    (fun output_sprites_count =>
       mbind painting
         (fun success =>
            mbind (if true && negb success
                   then shrink output_sprites_count
                   else ret tt)
              (fun _ => ret success))) s = Ok (false, s') ->
  output_sprites s' = output_sprites s.
Proof.
  intros Hpainting E. unfold mbind at 1 in E. unfold sprites_size in E.
  unfold mbind at 1 in E.
  destruct (painting s) as [[success s1]|] eqn:Epainting; [|discriminate E].
  destruct (Hpainting s success s1 Epainting) as [[extra Hdata] Hmax].
  destruct success; simpl in E.
  - unfold mbind, ret in E. inversion E.
  - unfold mbind, shrink, ret, size in E.
    destruct (negb _) eqn:Echeck; [discriminate E|].
    inversion E; subst; clear E. simpl.
    rewrite Nat2Z.id, Hdata, take_app_length, Hmax.
    destruct (output_sprites s). reflexivity.
Qed.

(** A [_generate<true>] that returns false leaves the vector it found. *)
Lemma failed_generate_restores_output_sprites
    (g : generator) (position : fixed_point F) (text : list Z)
    (s s' : state) :
  _generate true g position text (_utf8_characters_map g) s = Ok (false, s') ->
  output_sprites s' = output_sprites s.
Proof.
  assert (forall v : ivector, v = v) as Hrefl by reflexivity.
  assert (forall u v w : ivector, u = v -> v = w -> u = w) as Htrans
    by (intros; congruence).
  unfold _generate. intros E.
  unfold mbind at 1 in E.
  destruct (on_world (create_palette_optional (_palette_item g)) s)
    as [[palette s1]|] eqn:Epalette; [|discriminate E].
  apply (preserves_on_world _ Hrefl) in Epalette.
  destruct palette as [palette|].
  2:{ inversion E; subst. symmetry. exact Epalette. }
  unfold mbind at 1 in E.
  match type of E with
  | match ?aligning s1 with _ => _ end = _ =>
      assert (preserves eq aligning) as Haligning
  end.
  { destruct (_alignment g).
    - apply (preserves_ret _ Hrefl).
    - apply (preserves_bind _ Htrans); [apply width_keeps_output|].
      intros w. apply (preserves_ret _ Hrefl).
    - apply (preserves_bind _ Htrans); [apply width_keeps_output|].
      intros w. apply (preserves_ret _ Hrefl). }
  match type of E with
  | match ?aligning s1 with _ => _ end = _ =>
      destruct (aligning s1) as [[aligned_position s2]|] eqn:Ealigned;
        [|discriminate E]
  end.
  apply Haligning in Ealigned. cbv zeta in E.
  rewrite Epalette, Ealigned.
  apply shrink_undoes_failed_painting in E; [exact E|].
  destruct (_one_sprite_per_character g).
  - destruct (bool_decide _);
      apply (preserves_with_painter _ extends_refl extends_trans).
    + apply fixed_one_sprite_per_character_painter_extends.
    + apply variable_one_sprite_per_character_painter_extends.
  - destruct (height (item (_font g)) =? 8); destruct (bool_decide _);
      apply (preserves_with_painter _ extends_refl extends_trans).
    + apply fixed_8x8_painter_extends.
    + apply variable_8x8_painter_extends.
    + apply fixed_8x16_painter_extends.
    + apply variable_8x16_painter_extends.
Qed.

(** C10. Whenever [generate_optional], in either of its overloads, returns
    false, the output vector holds what it held on entry, elements and
    capacity: every sprite the failed attempt added has been removed. *)
Theorem failed_generate_optional_restores_output_sprites
    (g : generator) (position : fixed_point F) (text : list Z)
    (s s' : state) :
  generate_optional g position text s = Ok (false, s')
  \/ generate_optional_at g (x position) (y position) text s
     = Ok (false, s') ->
  output_sprites s' = output_sprites s.
Proof.
  intros [E|E].
  - apply (failed_generate_restores_output_sprites g position text).
    exact E.
  - apply (failed_generate_restores_output_sprites g
             {| x := x position; y := y position |} text).
    exact E.
Qed.

End generation_properties.

(** ** The properties at concrete inputs *)

(** The scenario of the specification for a palette bank of 512 bytes: a
    palette of 16 colors goes to offset 0; one of 256 colors does not fit
    beside it; once the first is released, it goes to offset 0. *)
Example palette_bank_scenario :
  let r0 := registry.init 0 512 in
  let big := {| registry.content := replicate 512 1;
                registry.content_bpp := BPP_8 |} in
  exists (a : registry.handle) (r1 : registry.t),
    sprite_palette_item.create_palette example.the_palette_item r0
    = Ok (a, r1)
    /\ registry.start_offset a = 0%nat
    /\ registry.length a = 32%nat
    /\ registry.create_optional big r1 = (None, r1)
    /\ exists (b : registry.handle) (r2 : registry.t),
         registry.create big (registry.release a r1) = Ok (b, r2)
         /\ registry.start_offset b = 0%nat
         /\ registry.length b = 512%nat.
Proof.
  eexists _, _. split; [vm_compute; reflexivity|].
  split; [reflexivity|]. split; [reflexivity|].
  split; [reflexivity|].
  eexists _, _. split; [vm_compute; reflexivity|].
  split; reflexivity.
Qed.

(** After a compaction the free bytes are one block again. *)
Example compaction_scenario :
  let r0 := registry.init 0 64 in
  let d (n : Z) (len : nat) :=
    {| registry.content := replicate len n; registry.content_bpp := BPP_4 |} in
  exists (a b c : registry.handle) (r3 : registry.t),
    (exists r1 r2,
       registry.create (d 1 16%nat) r0 = Ok (a, r1)
       /\ registry.create (d 2 16%nat) r1 = Ok (b, r2)
       /\ registry.create (d 3 16%nat) r2 = Ok (c, r3))
    /\ let r4 := registry.release a r3 in
       memory_pool.allocate 32%nat (registry.pool r4) = None
       /\ exists (e : registry.handle) (r5 : registry.t),
            registry.create (d 4 32%nat) r4 = Ok (e, r5)
            /\ registry.start_offset e = 32%nat
            /\ map registry.start_offset (registry.handles r5)
               = [32; 16; 0]%nat
            /\ registry.backing_bytes
                 (memory_pool.cells (registry.pool r5))
                 {| registry.bank_id := 0; registry.start_offset := 0;
                    registry.length := 16; registry.bpp := BPP_4;
                    registry.reference_count := 1 |}
               = replicate 16 2.
Proof.
  eexists _, _, _, _. split.
  - eexists _, _. split; [vm_compute; reflexivity|].
    split; vm_compute; reflexivity.
  - cbv zeta. split; [vm_compute; reflexivity|].
    eexists _, _. split; [vm_compute; reflexivity|].
    split; [reflexivity|]. split; vm_compute; reflexivity.
Qed.

(** The palette of the example is created behind another one, at offset
    32; the other one is released and the tiles take the rest of the bank,
    so that the palette is moved to offset 0; a search takes a second
    reference.  A second [create_palette] then returns the handle at offset
    0, with a third reference. *)
Lemma identical_content_example :
  exists (h1 hn h2 : registry.handle) (r1 rn r2 : registry.t),
    sprite_palette_item.create_palette example.the_palette_item
      example_registry.one_owner = Ok (h1, r1)
    /\ registry.start_offset h1 = 32%nat
    /\ calls.follow example_registry.the_operations r1 h1 = Some (rn, hn)
    /\ registry.start_offset hn = 0%nat
    /\ sprite_palette_item.create_palette example.the_palette_item rn
       = Ok (h2, r2)
    /\ calls.same_range h2 hn = true
    /\ registry.reference_count h2 = 3%nat.
Proof.
  let first :=
    eval vm_compute in
      (sprite_palette_item.create_palette example.the_palette_item
         example_registry.one_owner) in
  match first with
  | Ok (?h, ?r) => pose (h1 := h); pose (r1 := r)
  end.
  assert (item_create (palette_item example.the_palette_item)
            example_registry.one_owner = Ok (h1, r1)) as Hfirst
    by (vm_compute; reflexivity).
  let later :=
    eval vm_compute in
      (calls.follow example_registry.the_operations r1 h1) in
  match later with
  | Some (?r, ?h) => pose (rn := r); pose (hn := h)
  end.
  assert (calls.follow example_registry.the_operations r1 h1
          = Some (rn, hn)) as Hfollow by (vm_compute; reflexivity).
  destruct (identical_content_shares_one_handle
              (palette_item example.the_palette_item)
              (palette_item example.the_palette_item)
              example_registry.one_owner r1 h1 eq_refl Hfirst)
    as (_ & _ & _ & Hlater).
  destruct (Hlater
              ltac:(vm_compute;
                    repeat first [split | constructor | left; reflexivity
                                 | intros; lia
                                 | apply not_elem_of_nil])
              ltac:(vm_compute; discriminate)
              example_registry.the_operations rn hn
              ltac:(repeat constructor; vm_compute; discriminate)
              Hfollow)
    as (before & after & e & _ & _ & _ & Hrange & Hsecond).
  exists h1, hn, (registry.add_reference e), r1, rn.
  eexists.
  split; [exact Hfirst|]. split; [reflexivity|].
  split; [exact Hfollow|]. split; [reflexivity|].
  split; [exact Hsecond|].
  split.
  { apply same_range_spec. apply same_range_spec in Hrange. exact Hrange. }
  let second :=
    eval vm_compute in
      (item_create (palette_item example.the_palette_item) rn) in
  match second with
  | Ok (?h, ?r) =>
      assert (item_create (palette_item example.the_palette_item) rn
              = Ok (h, r)) as Hcomputed by (vm_compute; reflexivity)
  end.
  rewrite Hcomputed in Hsecond.
  apply (f_equal (fun created : result (registry.handle * registry.t) =>
                    match created with
                    | Ok (h, _) => registry.reference_count h
                    | Fatal _ _ => 0%nat
                    end)) in Hsecond.
  symmetry. exact Hsecond.
Defined.

Lemma exhausted_slots_example :
  sprite_palette_color_hblank_effect_ptr.optional_create
    example.the_engine example.the_palette 3 example.the_colors example.one_slot_taken
  = Ok (None, example.one_slot_taken)
  /\ sprite_palette_color_hblank_effect_ptr.create
       example.the_engine example.the_palette 3 example.the_colors
       example.one_slot_taken
     = Fatal "No more HBlank effects available" [].
Proof.
  destruct (exhausted_slots_are_reported_to_the_caller
              example.the_engine example.the_palette 3 example.the_colors
              example.one_slot_taken) as (Hoptional & Hcreate & _).
  - simpl. lia.
  - reflexivity.
  - split; assumption.
Defined.

(** With a free slot the same calls give the effect the slot's id. *)
Example free_slot_example :
  exists items : hblank_effects_manager.manager,
    sprite_palette_color_hblank_effect_ptr.optional_create
      example.the_engine example.the_palette 3 example.the_colors
      (hblank_effects_manager.init 2)
    = Ok (Some {| sprite_palette_color_hblank_effect_ptr.id := 0;
                  sprite_palette_color_hblank_effect_ptr._color_index := 3;
                  sprite_palette_color_hblank_effect_ptr._palette :=
                    example.the_palette |}, items)
    /\ hblank_effects_manager.full items = false.
Proof. eexists. split; reflexivity. Qed.

Example invalid_color_index_example :
  sprite_palette_color_hblank_effect_ptr.create
    example.the_engine example.the_palette 16 example.the_colors
    (hblank_effects_manager.init 2)
  = Fatal "Invalid color index: " [16; 16]
  /\ sprite_palette_color_hblank_effect_ptr.optional_create
       example.the_engine example.the_palette (-1) example.the_colors
       (hblank_effects_manager.init 2)
     = Fatal "Invalid color index: " [-1; 16].
Proof. split; reflexivity. Qed.

Lemma unchanged_slot_example :
  exists (items' : hblank_effects_manager.manager)
         (it' : hblank_effects_manager.item_type),
    hblank_effects_manager.update_items example.the_engine example.after_first_frame
    = Ok items'
    /\ hblank_effects_manager.item_at 0 items' = Some it'
    /\ hblank_effects_manager.write_calls it' = 1%nat
    /\ hblank_effects_manager.output_values it' = replicate display_height 31.
Proof.
  eexists. 
  match goal with
  | |- exists it', ?update = Ok ?items' /\ _ =>
      assert (update = Ok items') as Hpass by (vm_compute; reflexivity)
  end.
  match type of Hpass with
  | _ = Ok ?items' =>
      destruct (hblank_effects_manager.item_at 0 example.after_first_frame)
        as [it|] eqn:Hit; [|discriminate Hit];
      destruct (unchanged_slot_is_not_recomputed example.the_engine
                  example.after_first_frame items' 0 it
                  (hblank_effects_manager.target_last_value it))
        as [(it' & Hat & Hcalls & Houtput & _) _]
  end.
  - exact Hpass.
  - exact Hit.
  - vm_compute in Hit. inversion Hit. reflexivity.
  - vm_compute in Hit. inversion Hit. reflexivity.
  - exists it'. split; [exact Hpass|]. split; [exact Hat|].
    rewrite Hcalls, Houtput. vm_compute in Hit. inversion Hit.
    split; reflexivity.
Defined.

Lemma color_handler_example :
  exists written : list Z,
    color_hblank_effect_handler.write_output_values example.the_engine 35
      any_empty (span_data example.the_colors) (replicate 200 0) = Ok written
    /\ List.length written = 200%nat
    /\ written !! 159%nat = Some 31
    /\ written !! 160%nat = Some 0.
Proof.
  destruct (color_handler_writes_one_value_per_scanline example.the_engine 35
              any_empty (span_data example.the_colors) (replicate 200 0))
    as (_ & (written & Hwritten & Hlength & Hbelow & Habove) & _).
  - vm_compute. lia.
  - vm_compute. lia.
  - exists written. split; [exact Hwritten|]. split; [exact Hlength|].
    rewrite Hbelow by (unfold display_height; lia).
    rewrite Habove by (unfold display_height; lia).
    split; reflexivity.
Defined.

Lemma zero_intensity_example :
  @color_effect.brightness Z example.fixed_12 example.palettes 100 [1; 2; 3]
  = (Ok tt, [1; 2; 3])
  /\ snd (@color_effect.fade Z example.fixed_12 example.palettes 31 100
            [1; 2; 3])
     = [1; 2; 3].
Proof.
  destruct (@zero_intensity_leaves_colors_unchanged Z example.fixed_12
              example.palettes 100 31 [1; 2; 3])
    as [(_ & _ & _ & _ & _ & Hfade) Hreturns].
  - discriminate.
  - reflexivity.
  - split; [|exact Hfade].
    destruct Hreturns as (Hbrightness & _); [reflexivity|].
    exact Hbrightness.
Defined.

(** An intensity that is not zero does change the colors. *)
Example full_intensity_example :
  @color_effect.brightness Z example.fixed_12 example.palettes 4096 [1; 2; 3]
  = (Ok tt, [33; 34; 35])
  /\ @color_effect.fade Z example.fixed_12 example.palettes 31 4096 [1; 2; 3]
     = (Ok tt, [31; 31; 31]).
Proof. split; reflexivity. Qed.

(** "AB" with room for one more sprite only: the first character's sprite
    is added, the second cannot be created, and the vector is back to the
    one sprite it held. *)
Lemma failed_generation_example :
  exists s' : sprite_text_generator.state,
    @sprite_text_generator.generate_optional Z example.fixed_12
      example.sprites example.the_generator example.the_position
      example.the_text example.the_state = Ok (false, s')
    /\ sprite_text_generator.output_sprites s'
       = {| sprite_text_generator.data := [7];
            sprite_text_generator.max_size := 8 |}.
Proof.
  eexists. split.
  - vm_compute. reflexivity.
  - rewrite (@failed_generate_optional_restores_output_sprites Z
               example.fixed_12 example.sprites example.the_generator
               example.the_position example.the_text example.the_state _).
    + reflexivity.
    + left. vm_compute. reflexivity.
Defined.

(** With room for both sprites the same call succeeds and adds them. *)
Example successful_generation_example :
  exists s' : sprite_text_generator.state,
    @sprite_text_generator.generate_optional Z example.fixed_12
      example.sprites example.the_generator example.the_position
      example.the_text
      {| sprite_text_generator.the_world :=
           {| example.free_tiles := 64; example.free_sprites := 2;
              example.next_handle := 10; example.tiles_written := 0 |};
         sprite_text_generator.output_sprites :=
           {| sprite_text_generator.data := [7];
              sprite_text_generator.max_size := 8 |} |}
    = Ok (true, s')
    /\ sprite_text_generator.data (sprite_text_generator.output_sprites s')
       = [7; 11; 13].
Proof. eexists. split; vm_compute; reflexivity. Qed.

(** ** The loop of [paint], one character at a time *)

Section paint_steps.
Context {F : Type} `{bn_fixed F} `{sprite_text_generator.sprite_system F}.

Import sprite_text_generator.

Lemma nth_middle_Z (done rest : list Z) (c : Z) :
  nth (List.length done) (done ++ c :: rest) 0 = c.
Proof. apply nth_middle. Qed.

(** Past the end of the text the loop is over. *)
Lemma paint_from_end {P : Type} (allow_failure : bool) (text : list Z)
    (map : gmap Z Z) (ops : painter P) (p : P) :
  paint_from allow_failure text map ops (List.length text) p = ret (true, p).
Proof.
  rewrite paint_from_equation_1.
  destruct (decide (List.length text < List.length text)%nat) as [Hlt|Hge].
  - lia.
  - reflexivity.
Qed.

(** One turn of the loop, at the character [c] that follows [done]. *)
Lemma paint_from_here {P : Type} (allow_failure : bool) (done rest : list Z)
    (c : Z) (map : gmap Z Z) (ops : painter P) (p : P) :
  let text := done ++ c :: rest in
  let next := paint_from allow_failure text map ops in
  paint_from allow_failure text map ops (List.length done) p
  = if c =? 32 then
      mbind (paint_space ops p) (fun p => next (List.length done + 1)%nat p)
    else if c =? 9 then
      mbind (paint_tab ops p) (fun p => next (List.length done + 1)%nat p)
    else if c >=? 33 then
      mbind (if c <=? 126 then ret (c - 33, 1%positive)
             else utf8_graphics text map (List.length done))
        (fun found =>
           mbind (paint_character ops (fst found) p)
             (fun painted =>
                if allow_failure && negb (fst painted)
                then ret (false, snd painted)
                else next (List.length done + Pos.to_nat (snd found))%nat
                       (snd painted)))
    else fatal "Invalid character: " [c].
Proof.
  intros text next. unfold next, text.
  rewrite paint_from_equation_1.
  destruct (decide (List.length done < List.length (done ++ c :: rest))%nat)
    as [Hlt|Hge].
  - rewrite paint_from_clause_1_equation_1. cbv zeta.
    rewrite nth_middle_Z. reflexivity.
  - exfalso. apply Hge. rewrite length_app. simpl. lia.
Qed.

End paint_steps.

(** ** The width of a text *)

Section text_width.
Context {F : Type} `{bn_fixed F} `{sprite_text_generator.sprite_system F}.

Import sprite_text_generator.

Ltac same_painter :=
  match goal with
  | |- paint_from _ _ _ _ _ ?p _ = paint_from _ _ _ _ _ ?q _ =>
      assert (p = q) as -> by (f_equal; lia); reflexivity
  end.

Lemma text_advance_app (font : sprite_font) (a b : list Z) :
  text_advance font (a ++ b) = text_advance font a + text_advance font b.
Proof.
  unfold text_advance. induction a as [|c a IH]; simpl; [reflexivity|].
  rewrite IH. lia.
Qed.

(** The fixed width painter over a run of plain characters. *)
Lemma fixed_width_paint_plain (allow_failure : bool) (map : gmap Z Z)
    (font : sprite_font) (pre : list Z) :
  character_widths_ref font = [] ->
  plain_text pre ->
  forall (done rest : list Z) (w : Z) (s : state),
    paint_from allow_failure (done ++ pre ++ rest) map fixed_width_painter.ops
      (List.length done)
      {| fixed_width_painter._space_between_characters :=
           space_between_characters font;
         fixed_width_painter._width := w |} s
    = paint_from allow_failure (done ++ pre ++ rest) map
        fixed_width_painter.ops (List.length done + List.length pre)
        {| fixed_width_painter._space_between_characters :=
             space_between_characters font;
           fixed_width_painter._width := w + text_advance font pre |} s.
Proof.
  intros Hfixed Hplain. induction Hplain as [|c pre Hc _ IH];
    intros done rest w s.
  - simpl. rewrite Nat.add_0_r, Z.add_0_r. reflexivity.
  - change (done ++ (c :: pre) ++ rest) with (done ++ c :: (pre ++ rest)).
    rewrite paint_from_here. cbv zeta.
    assert (done ++ c :: pre ++ rest = (done ++ [c]) ++ pre ++ rest) as Htext
      by (rewrite <- app_assoc; reflexivity).
    assert (List.length done + 1 = List.length (done ++ [c]))%nat as Hnext
      by (rewrite length_app; reflexivity).
    assert (character_advance font c
            = if c =? 9 then (fixed_character_width * 4)
                             + space_between_characters font
              else fixed_character_width + space_between_characters font)
      as Hadvance.
    { unfold character_advance. rewrite Hfixed.
      rewrite bool_decide_eq_true_2 by reflexivity. reflexivity. }
    simpl text_advance. rewrite Hadvance.
    assert (List.length done + List.length (c :: pre)
            = List.length (done ++ [c]) + List.length pre)%nat as Hlast
      by (rewrite length_app; simpl; lia).
    rewrite Hlast.
    destruct Hc as [->|[->|Hc]].
    + simpl.
      unfold mbind, fixed_width_painter.paint_space, ret,
        fixed_width_painter.add_width.
      simpl.
      rewrite Hnext, Htext, IH. same_painter.
    + simpl.
      unfold mbind, fixed_width_painter.paint_tab, ret,
        fixed_width_painter.add_width.
      simpl.
      rewrite Hnext, Htext, IH. same_painter.
    + assert ((c =? 32) = false) as -> by (apply Z.eqb_neq; lia).
      assert ((c =? 9) = false) as -> by (apply Z.eqb_neq; lia).
      assert ((c >=? 33) = true) as -> by (apply Z.geb_le; lia).
      assert ((c <=? 126) = true) as -> by (apply Z.leb_le; lia).
      unfold mbind, ret. simpl.
      unfold fixed_width_painter.paint_character, ret,
        fixed_width_painter.add_width.
      simpl.
      rewrite andb_false_r. change (Pos.to_nat 1) with 1%nat.
      rewrite Hnext, Htext, IH. same_painter.
Qed.

(** The variable width painter over a run of plain characters. *)
Lemma variable_width_paint_plain (allow_failure : bool) (map : gmap Z Z)
    (font : sprite_font) (pre : list Z) :
  character_widths_ref font <> [] ->
  plain_text pre ->
  forall (done rest : list Z) (w : Z) (s : state),
    paint_from allow_failure (done ++ pre ++ rest) map
      variable_width_painter.ops (List.length done)
      {| variable_width_painter._character_widths :=
           character_widths_ref font;
         variable_width_painter._space_between_characters :=
           space_between_characters font;
         variable_width_painter._width := w |} s
    = paint_from allow_failure (done ++ pre ++ rest) map
        variable_width_painter.ops (List.length done + List.length pre)
        {| variable_width_painter._character_widths :=
             character_widths_ref font;
           variable_width_painter._space_between_characters :=
             space_between_characters font;
           variable_width_painter._width := w + text_advance font pre |} s.
Proof.
  intros Hvariable Hplain. induction Hplain as [|c pre Hc _ IH];
    intros done rest w s.
  - simpl. rewrite Nat.add_0_r, Z.add_0_r. reflexivity.
  - change (done ++ (c :: pre) ++ rest) with (done ++ c :: (pre ++ rest)).
    rewrite paint_from_here. cbv zeta.
    assert (done ++ c :: pre ++ rest = (done ++ [c]) ++ pre ++ rest) as Htext
      by (rewrite <- app_assoc; reflexivity).
    assert (List.length done + 1 = List.length (done ++ [c]))%nat as Hnext
      by (rewrite length_app; reflexivity).
    assert (character_advance font c
            = if c =? 32
              then width_at (character_widths_ref font) 0
                   + space_between_characters font
              else if c =? 9
              then (width_at (character_widths_ref font) 0 * 4)
                   + space_between_characters font
              else width_at (character_widths_ref font) ((c - 33) + 1)
                   + space_between_characters font) as Hadvance.
    { unfold character_advance.
      rewrite bool_decide_eq_false_2 by exact Hvariable. reflexivity. }
    simpl text_advance. rewrite Hadvance.
    assert (List.length done + List.length (c :: pre)
            = List.length (done ++ [c]) + List.length pre)%nat as Hlast
      by (rewrite length_app; simpl; lia).
    rewrite Hlast.
    destruct Hc as [->|[->|Hc]].
    + simpl.
      unfold mbind, variable_width_painter.paint_space, ret,
        variable_width_painter.add_width.
      simpl.
      rewrite Hnext, Htext, IH. same_painter.
    + simpl.
      unfold mbind, variable_width_painter.paint_tab, ret,
        variable_width_painter.add_width.
      simpl.
      rewrite Hnext, Htext, IH. same_painter.
    + assert ((c =? 32) = false) as -> by (apply Z.eqb_neq; lia).
      assert ((c =? 9) = false) as -> by (apply Z.eqb_neq; lia).
      assert ((c >=? 33) = true) as -> by (apply Z.geb_le; lia).
      assert ((c <=? 126) = true) as -> by (apply Z.leb_le; lia).
      unfold mbind, ret. simpl.
      unfold variable_width_painter.paint_character, ret,
        variable_width_painter.add_width.
      simpl.
      rewrite andb_false_r. change (Pos.to_nat 1) with 1%nat.
      rewrite Hnext, Htext, IH. same_painter.
Qed.

(** [width] of a plain text: the sum of the advances, and the state as it
    was. *)
Lemma width_plain_text (g : generator) (text : list Z) (s : state) :
  plain_text text ->
  width g text s = Ok (text_advance (_font g) text, s).
Proof.
  intros Hplain. unfold width, paint.
  destruct (bool_decide (character_widths_ref (_font g) = [])) eqn:Efont.
  - apply bool_decide_eq_true in Efont.
    unfold mbind, fixed_width_painter.make.
    pose proof (fixed_width_paint_plain false (_utf8_characters_map g)
                  (_font g) text Efont Hplain [] [] 0 s) as Hrun.
    simpl in Hrun. rewrite app_nil_r in Hrun. rewrite Hrun.
    rewrite paint_from_end. reflexivity.
  - apply bool_decide_eq_false in Efont.
    unfold mbind, variable_width_painter.make.
    pose proof (variable_width_paint_plain false (_utf8_characters_map g)
                  (_font g) text Efont Hplain [] [] 0 s) as Hrun.
    simpl in Hrun. rewrite app_nil_r in Hrun. rewrite Hrun.
    rewrite paint_from_end. reflexivity.
Qed.

(** X1. With a font of fixed width, the width of a plain text without tabs is
    its number of characters times the character width (8) plus the space
    between characters; computing it leaves the sprites and the world as
    they are. *)
Theorem width_of_fixed_width_text (g : generator) (text : list Z)
    (s : state) :
  character_widths_ref (_font g) = [] ->
  plain_text text ->
  ~ In 9 text ->
  width g text s
  = Ok (Z.of_nat (List.length text)
        * (fixed_character_width + space_between_characters (_font g)), s).
Proof.
  intros Hfixed Hplain Htabs. rewrite (width_plain_text g text s Hplain).
  do 2 f_equal. clear Hplain s.
  induction text as [|c text IH]; [reflexivity|].
  assert (c <> 9) as Hc by (intros ->; apply Htabs; left; reflexivity).
  assert (~ In 9 text) as Hrest by (intros Hin; apply Htabs; right; exact Hin).
  simpl text_advance. rewrite (IH Hrest).
  unfold character_advance. rewrite Hfixed.
  rewrite bool_decide_eq_true_2 by reflexivity.
  assert ((c =? 9) = false) as -> by (apply Z.eqb_neq; exact Hc).
  simpl List.length. lia.
Qed.

(** X2. The width of two plain texts put together is the sum of their
    widths, with every font. *)
Theorem width_of_concatenation (g : generator) (a b : list Z) (s : state) :
  plain_text a ->
  plain_text b ->
  exists wa wb : Z,
    width g a s = Ok (wa, s)
    /\ width g b s = Ok (wb, s)
    /\ width g (a ++ b) s = Ok (wa + wb, s).
Proof.
  intros Ha Hb.
  exists (text_advance (_font g) a), (text_advance (_font g) b).
  split; [apply width_plain_text; exact Ha|].
  split; [apply width_plain_text; exact Hb|].
  rewrite width_plain_text by (apply Forall_app; split; assumption).
  rewrite text_advance_app. reflexivity.
Qed.

End text_width.

(** ** The steps of [_generate] *)

Section generation_steps.
Context {F : Type} `{bn_fixed F} `{sprite_text_generator.sprite_system F}.

Import sprite_text_generator.

(** [_generate] once the palette is there: align, count, paint, and shrink
    back if the painting was allowed to fail and did. *)
Lemma generate_with_palette (allow_failure : bool) (g : generator)
    (position : fixed_point F) (text : list Z) :
  _generate allow_failure g position text (_utf8_characters_map g)
  = mbind
      (if allow_failure
       then on_world (create_palette_optional (_palette_item g))
       else mbind (on_world_result (create_palette (_palette_item g)))
              (fun palette => ret (Some palette)))
      (fun palette =>
         match palette with
         | None => ret false
         | Some palette =>
             mbind (aligned g position text)
               (fun aligned_position =>
                  mbind sprites_size
                    (fun output_sprites_count =>
                       mbind (chosen_painter allow_failure g text palette
                                aligned_position)
                         (fun success =>
                            mbind (if allow_failure && negb success
                                   then shrink output_sprites_count
                                   else ret tt)
                              (fun _ => ret success))))
         end).
Proof. reflexivity. Qed.

End generation_steps.

(** ** Characters that [paint] rejects *)

Section rejected_characters.
Context {F : Type} `{bn_fixed F} `{sprite_text_generator.sprite_system F}.

Import sprite_text_generator.

(** The first character is none that [paint] knows: the loop stops in
    [BN_ERROR] before it asks anything of the painter. *)
Lemma paint_invalid_character {P : Type} (allow_failure : bool)
    (done rest : list Z) (c : Z) (map : gmap Z Z) (ops : painter P) (p : P)
    (s : state) :
  c < 33 -> c <> 32 -> c <> 9 ->
  paint_from allow_failure (done ++ c :: rest) map ops (List.length done) p s
  = Fatal "Invalid character: " [c].
Proof.
  intros Hlow Hspace Htab. rewrite paint_from_here. cbv zeta.
  assert ((c =? 32) = false) as -> by (apply Z.eqb_neq; exact Hspace).
  assert ((c =? 9) = false) as -> by (apply Z.eqb_neq; exact Htab).
  assert ((c >=? 33) = false) as ->.
  { destruct (c >=? 33) eqn:E; [|reflexivity]. apply Z.geb_le in E. lia. }
  reflexivity.
Qed.

(** What the width painters do after a plain prefix is what they do at the
    character that follows it. *)
Lemma width_after_plain_prefix (g : generator) (pre rest : list Z) (c : Z)
    (s : state) (message : string) (values : list Z) :
  plain_text pre ->
  (forall (P : Type) (ops : painter P) (p : P),
     paint_from false (pre ++ c :: rest) (_utf8_characters_map g) ops
       (List.length pre) p s = Fatal message values) ->
  width g (pre ++ c :: rest) s = Fatal message values.
Proof.
  intros Hplain Hhere. unfold width, paint.
  destruct (bool_decide (character_widths_ref (_font g) = [])) eqn:Efont.
  - apply bool_decide_eq_true in Efont.
    unfold mbind, fixed_width_painter.make.
    pose proof (fixed_width_paint_plain false (_utf8_characters_map g)
                  (_font g) pre Efont Hplain [] (c :: rest) 0 s) as Hrun.
    simpl in Hrun. rewrite Hrun, Hhere. reflexivity.
  - apply bool_decide_eq_false in Efont.
    unfold mbind, variable_width_painter.make.
    pose proof (variable_width_paint_plain false (_utf8_characters_map g)
                  (_font g) pre Efont Hplain [] (c :: rest) 0 s) as Hrun.
    simpl in Hrun. rewrite Hrun, Hhere. reflexivity.
Qed.

(** X3. A character below ['!'] that is neither a space nor a tab (a line
    feed, say) is a fatal error wherever it stands after plain characters
    when measuring, and at the head of a text when generating: once the
    palette is there, [generate_optional] does not return false for it, it
    stops like [generate]. *)
Theorem invalid_character_is_fatal (g : generator) (pre rest : list Z)
    (c : Z) (position : fixed_point F) (s : state) :
  plain_text pre ->
  c < 33 -> c <> 32 -> c <> 9 ->
  width g (pre ++ c :: rest) s = Fatal "Invalid character: " [c]
  /\ generate_optional g position (c :: rest) s
     = match create_palette_optional (_palette_item g) (the_world s) with
       | (Some _, _) => Fatal "Invalid character: " [c]
       | (None, w) =>
           Ok (false, {| the_world := w; output_sprites := output_sprites s |})
       end
  /\ generate g position (c :: rest) s
     = match create_palette (_palette_item g) (the_world s) with
       | Ok _ => Fatal "Invalid character: " [c]
       | Fatal message values => Fatal message values
       end.
Proof.
  intros Hplain Hlow Hspace Htab.
  assert (forall (af : bool) (P : Type) (ops : painter P) (p : P) (s0 : state),
             with_painter af (c :: rest) (_utf8_characters_map g) ops p s0
             = Fatal "Invalid character: " [c]) as Hpaint.
  { intros af P ops p s0. unfold with_painter, paint, mbind.
    rewrite (paint_invalid_character af [] rest c _ ops p s0 Hlow Hspace Htab).
    reflexivity. }
  assert (forall s0 : state,
             width g (c :: rest) s0 = Fatal "Invalid character: " [c])
    as Hwidth.
  { intros s0. apply (width_after_plain_prefix g [] rest c s0).
    - constructor.
    - intros P ops p.
      apply (paint_invalid_character false [] rest c _ ops p s0);
        assumption. }
  assert (forall (af : bool) (palette : sprite_palette_ptr) (s0 : state),
             mbind (aligned g position (c :: rest))
               (fun aligned_position =>
                  mbind sprites_size
                    (fun output_sprites_count =>
                       mbind (chosen_painter af g (c :: rest) palette
                                aligned_position)
                         (fun success =>
                            mbind (if af && negb success
                                   then shrink output_sprites_count
                                   else ret tt)
                              (fun _ => ret success)))) s0
             = Fatal "Invalid character: " [c]) as Hbody.
  { intros af palette s0. unfold mbind at 1, aligned.
    destruct (_alignment g).
    - unfold ret at 1. unfold mbind at 1, sprites_size.
      unfold mbind at 1, chosen_painter.
      destruct (_one_sprite_per_character g);
        [|destruct (height (item (_font g)) =? 8)];
        destruct (bool_decide (character_widths_ref (_font g) = []));
        rewrite Hpaint; reflexivity.
    - unfold mbind at 1. rewrite Hwidth. reflexivity.
    - unfold mbind at 1. rewrite Hwidth. reflexivity. }
  split; [|split].
  - apply width_after_plain_prefix; [exact Hplain|].
    intros P ops p. apply paint_invalid_character; assumption.
  - unfold generate_optional. rewrite generate_with_palette.
    unfold mbind at 1, on_world.
    destruct (create_palette_optional (_palette_item g) (the_world s))
      as [[palette|] w].
    + apply Hbody.
    + reflexivity.
  - unfold generate. rewrite generate_with_palette.
    unfold mbind at 1. unfold mbind at 1. unfold mbind at 1.
    unfold on_world_result.
    destruct (create_palette (_palette_item g) (the_world s))
      as [[palette w]|message values]; [|reflexivity].
    unfold ret at 1. rewrite Hbody. reflexivity.
Qed.

(** X4. A character above ['~'] whose UTF-8 value is not in the generator's
    map is a fatal error, not a skipped character. *)
Theorem unknown_utf8_character_is_fatal (g : generator) (pre rest : list Z)
    (c utf8_data : Z) (utf8_size : positive) (s : state) :
  plain_text pre ->
  126 < c ->
  utf8_character (c :: rest) = Ok (utf8_data, utf8_size) ->
  _utf8_characters_map g !! utf8_data = None ->
  width g (pre ++ c :: rest) s = Fatal "UTF-8 character not found: " [].
Proof.
  intros Hplain Hhigh Hdecode Hmissing.
  apply width_after_plain_prefix; [exact Hplain|].
  intros P ops p. rewrite paint_from_here. cbv zeta.
  assert ((c =? 32) = false) as -> by (apply Z.eqb_neq; lia).
  assert ((c =? 9) = false) as -> by (apply Z.eqb_neq; lia).
  assert ((c >=? 33) = true) as -> by (apply Z.geb_le; lia).
  assert ((c <=? 126) = false) as -> by (apply Z.leb_gt; lia).
  unfold mbind at 1. unfold utf8_graphics.
  rewrite drop_app_length. rewrite Hdecode, Hmissing. reflexivity.
Qed.

End rejected_characters.

(** ** What a generation leaves in the vector *)

Section generation_outcomes.
Context {F : Type} `{bn_fixed F} `{sprite_text_generator.sprite_system F}.

Import sprite_text_generator.

Lemma aligned_keeps_output (g : generator) (position : fixed_point F)
    (text : list Z) :
  preserves eq (aligned g position text).
Proof.
  assert (forall v : ivector, v = v) as Hrefl by reflexivity.
  assert (forall u v w : ivector, u = v -> v = w -> u = w) as Htrans
    by (intros; congruence).
  unfold aligned. destruct (_alignment g).
  - apply (preserves_ret _ Hrefl).
  - apply (preserves_bind _ Htrans); [apply width_keeps_output|].
    intros w. apply (preserves_ret _ Hrefl).
  - apply (preserves_bind _ Htrans); [apply width_keeps_output|].
    intros w. apply (preserves_ret _ Hrefl).
Qed.

Lemma chosen_painter_extends (allow_failure : bool) (g : generator)
    (text : list Z) (palette : sprite_palette_ptr)
    (aligned_position : fixed_point F) :
  preserves extends
    (chosen_painter allow_failure g text palette aligned_position).
Proof.
  unfold chosen_painter. destruct (_one_sprite_per_character g).
  - destruct (bool_decide _);
      apply (preserves_with_painter _ extends_refl extends_trans).
    + apply fixed_one_sprite_per_character_painter_extends.
    + apply variable_one_sprite_per_character_painter_extends.
  - destruct (height (item (_font g)) =? 8); destruct (bool_decide _);
      apply (preserves_with_painter _ extends_refl extends_trans).
    + apply fixed_8x8_painter_extends.
    + apply variable_8x8_painter_extends.
    + apply fixed_8x16_painter_extends.
    + apply variable_8x16_painter_extends.
Qed.

(** A [_generate] that returns either reports a failure it was allowed, with
    the vector it found, or hands back what its painter left. *)
Lemma generate_returns (allow_failure : bool) (g : generator)
    (position : fixed_point F) (text : list Z) (s s' : state)
    (success : bool) :
  _generate allow_failure g position text (_utf8_characters_map g) s
  = Ok (success, s') ->
  (allow_failure = true /\ success = false
   /\ output_sprites s' = output_sprites s)
  \/ (exists (palette : sprite_palette_ptr)
             (aligned_position : fixed_point F) (s1 : state),
        output_sprites s1 = output_sprites s
        /\ chosen_painter allow_failure g text palette aligned_position s1
           = Ok (success, s')
        /\ (allow_failure = false \/ success = true)).
Proof.
  assert (forall v : ivector, v = v) as Hrefl by reflexivity.
  intros E.
  destruct allow_failure, success.
  2:{ left. split; [reflexivity|]. split; [reflexivity|].
      apply (failed_generate_restores_output_sprites g position text).
      exact E. }
  all: right; rewrite generate_with_palette in E; unfold mbind at 1 in E.
  - destruct (on_world (create_palette_optional (_palette_item g)) s)
      as [[[palette|] s0]|] eqn:Epalette; try discriminate E.
    apply (preserves_on_world _ Hrefl) in Epalette.
    unfold mbind at 1 in E.
    destruct (aligned g position text s0) as [[aligned_position s1]|]
      eqn:Ealigned; [|discriminate E].
    apply aligned_keeps_output in Ealigned.
    unfold mbind at 1, sprites_size in E. unfold mbind at 1 in E.
    destruct (chosen_painter true g text palette aligned_position s1)
      as [[[|] s2]|] eqn:Epainted; try discriminate E.
    + simpl in E. unfold mbind, ret in E. inversion E; subst.
      exists palette, aligned_position, s1.
      split; [congruence|]. split; [exact Epainted|]. right. reflexivity.
    + simpl in E. unfold mbind, ret in E.
      destruct (shrink _ s2) as [[? ?]|]; inversion E.
  - unfold mbind at 1 in E.
    destruct (on_world_result (create_palette (_palette_item g)) s)
      as [[palette s0]|] eqn:Epalette; [|discriminate E].
    apply (preserves_on_world_result _ Hrefl) in Epalette.
    unfold ret at 1 in E. unfold mbind at 1 in E.
    destruct (aligned g position text s0) as [[aligned_position s1]|]
      eqn:Ealigned; [|discriminate E].
    apply aligned_keeps_output in Ealigned.
    unfold mbind at 1, sprites_size in E. unfold mbind at 1 in E.
    destruct (chosen_painter false g text palette aligned_position s1)
      as [[b s2]|] eqn:Epainted; [|discriminate E].
    simpl in E. unfold mbind, ret in E. inversion E; subst.
    exists palette, aligned_position, s1.
    split; [congruence|]. split; [exact Epainted|]. left. reflexivity.
  - unfold mbind at 1 in E.
    destruct (on_world_result (create_palette (_palette_item g)) s)
      as [[palette s0]|] eqn:Epalette; [|discriminate E].
    apply (preserves_on_world_result _ Hrefl) in Epalette.
    unfold ret at 1 in E. unfold mbind at 1 in E.
    destruct (aligned g position text s0) as [[aligned_position s1]|]
      eqn:Ealigned; [|discriminate E].
    apply aligned_keeps_output in Ealigned.
    unfold mbind at 1, sprites_size in E. unfold mbind at 1 in E.
    destruct (chosen_painter false g text palette aligned_position s1)
      as [[b s2]|] eqn:Epainted; [|discriminate E].
    simpl in E. unfold mbind, ret in E. inversion E; subst.
    exists palette, aligned_position, s1.
    split; [congruence|]. split; [exact Epainted|]. left. reflexivity.
Qed.

(** X5. Whatever [generate] and [generate_optional] return, the sprites the
    vector held on entry are still there, in place and in order, and the
    capacity is the same: new sprites only come after them. *)
Theorem generation_only_appends (g : generator) (position : fixed_point F)
    (text : list Z) (s s' : state) :
  generate g position text s = Ok (tt, s')
  \/ (exists success : bool,
        generate_optional g position text s = Ok (success, s')) ->
  extends (output_sprites s) (output_sprites s').
Proof.
  assert (forall (af success : bool),
             _generate af g position text (_utf8_characters_map g) s
             = Ok (success, s') ->
             extends (output_sprites s) (output_sprites s')) as Hgenerate.
  { intros af success E. apply generate_returns in E.
    destruct E as [(_ & _ & Hsame)|(palette & aligned_position & s1 & Hsame
                                    & Epainted & _)].
    - rewrite Hsame. apply extends_refl.
    - rewrite <- Hsame.
      exact (chosen_painter_extends af g text palette aligned_position
               s1 success s' Epainted). }
  intros [E|[success E]].
  - unfold generate, mbind in E.
    destruct (_generate false g position text (_utf8_characters_map g) s)
      as [[success s1]|] eqn:Egenerate; [|discriminate E].
    unfold ret in E. inversion E; subst.
    exact (Hgenerate false success Egenerate).
  - exact (Hgenerate true success E).
Qed.

End generation_outcomes.

(** ** One sprite per character *)

Section sprite_counts.
Context {F : Type} `{bn_fixed F} `{sprite_text_generator.sprite_system F}.

Import sprite_text_generator.

Lemma adds_zero (v v' : ivector) : v' = v -> adds 0 v v'.
Proof.
  intros ->. split; [|reflexivity]. exists []. split; [|reflexivity].
  rewrite app_nil_r. reflexivity.
Qed.

Lemma adds_trans (n m : nat) (u v w : ivector) :
  adds n u v -> adds m v w -> adds (n + m) u w.
Proof.
  intros [(e1 & H1 & L1) M1] [(e2 & H2 & L2) M2]. split; [|congruence].
  exists (e1 ++ e2). split.
  - rewrite H2, H1, app_assoc. reflexivity.
  - rewrite length_app. lia.
Qed.

(** The loop over plain text with a painter whose spaces and tabs leave the
    vector alone and whose characters, when painted, add a sprite or none:
    a painting that succeeds has added one sprite for each character that
    asks for one. *)
Lemma paint_counts_sprites {P : Type} (allow_failure : bool)
    (map : gmap Z Z) (ops : painter P) (builds : Z -> bool)
    (invariant : P -> Prop) :
  (forall p s p' s',
      invariant p -> paint_space ops p s = Ok (p', s') ->
      invariant p' /\ output_sprites s' = output_sprites s) ->
  (forall p s p' s',
      invariant p -> paint_tab ops p s = Ok (p', s') ->
      invariant p' /\ output_sprites s' = output_sprites s) ->
  (forall c p s painted p' s',
      invariant p -> 33 <= c <= 126 ->
      paint_character ops (c - 33) p s = Ok ((painted, p'), s') ->
      (painted = true /\ invariant p'
       /\ adds (if builds c then 1 else 0)
            (output_sprites s) (output_sprites s'))
      \/ (painted = false /\ allow_failure = true)) ->
  (forall c, c < 33 -> builds c = false) ->
  forall text : list Z,
    plain_text text ->
    forall (done : list Z) (p : P) (s : state) (p' : P) (s' : state),
      invariant p ->
      paint_from allow_failure (done ++ text) map ops (List.length done) p s
      = Ok ((true, p'), s') ->
      adds (List.length (List.filter builds text))
        (output_sprites s) (output_sprites s').
Proof.
  intros Hspace Htab Hcharacter Hlow text Hplain.
  induction Hplain as [|c text Hc _ IH]; intros done p s p' s' Hp E.
  - rewrite app_nil_r, paint_from_end in E. unfold ret in E.
    inversion E; subst. apply adds_zero. reflexivity.
  - rewrite paint_from_here in E. cbv zeta in E.
    assert (done ++ c :: text = (done ++ [c]) ++ text) as Htext
      by (rewrite <- app_assoc; reflexivity).
    assert (List.length done + 1 = List.length (done ++ [c]))%nat as Hnext
      by (rewrite length_app; reflexivity).
    rewrite Hnext, Htext in E.
    destruct Hc as [->|[->|Hc]].
    + simpl in E. unfold mbind in E.
      destruct (paint_space ops p s) as [[p1 s1]|] eqn:E1; [|discriminate E].
      destruct (Hspace p s p1 s1 Hp E1) as [Hp1 Hsame].
      simpl. rewrite (Hlow 32) by lia. rewrite <- Hsame.
      exact (IH _ _ _ _ _ Hp1 E).
    + simpl in E. unfold mbind in E.
      destruct (paint_tab ops p s) as [[p1 s1]|] eqn:E1; [|discriminate E].
      destruct (Htab p s p1 s1 Hp E1) as [Hp1 Hsame].
      simpl. rewrite (Hlow 9) by lia. rewrite <- Hsame.
      exact (IH _ _ _ _ _ Hp1 E).
    + assert ((c =? 32) = false) as E32 by (apply Z.eqb_neq; lia).
      assert ((c =? 9) = false) as E9 by (apply Z.eqb_neq; lia).
      assert ((c >=? 33) = true) as E33 by (apply Z.geb_le; lia).
      assert ((c <=? 126) = true) as E126 by (apply Z.leb_le; lia).
      rewrite E32, E9, E33, E126 in E.
      unfold mbind at 1 in E. unfold ret at 1 in E. unfold mbind at 1 in E.
      cbn [fst snd] in E.
      destruct (paint_character ops (c - 33) p s) as [[[painted p1] s1]|]
        eqn:E1; [|discriminate E].
      cbn [fst snd] in E.
      change (Pos.to_nat 1) with 1%nat in E. rewrite Hnext in E.
      destruct (Hcharacter c p s painted p1 s1 Hp Hc E1)
        as [(-> & Hp1 & Hadds)|[-> ->]].
      * rewrite andb_false_r in E.
        pose proof (IH _ _ _ _ _ Hp1 E) as Hrest.
        simpl. destruct (builds c).
        -- exact (adds_trans 1 _ _ _ _ Hadds Hrest).
        -- exact (adds_trans 0 _ _ _ _ Hadds Hrest).
      * simpl in E. unfold ret in E. inversion E.
Qed.

Ltac run_in E :=
  repeat (simpl in E;
          match type of E with
          | context [match ?x with _ => _ end] =>
              lazymatch x with
              | context [match _ with _ => _ end] => fail
              | _ => destruct x eqn:?
              end
          end);
  simpl in E.

(** A character painted by the fixed one sprite per character painter is a
    sprite more. *)
Lemma fixed_one_sprite_character (allow_failure : bool) (graphics_index : Z)
    (p p' : fixed_one_sprite_per_character_painter.t) (s s' : state)
    (painted : bool) :
  fixed_one_sprite_per_character_painter.paint_character allow_failure
    graphics_index p s = Ok ((painted, p'), s') ->
  (painted = true /\ adds 1 (output_sprites s) (output_sprites s'))
  \/ (painted = false /\ allow_failure = true).
Proof.
  intros E.
  unfold fixed_one_sprite_per_character_painter.paint_character in E.
  unfold mbind, sprites_full, massert, ret, fatal, on_world,
    on_world_result, push_back in E.
  destruct allow_failure; run_in E; inversion E; subst;
    try (right; split; reflexivity);
    left; (split; [reflexivity|]); simpl;
    (split; [|reflexivity]); eexists; (split; [reflexivity|reflexivity]).
Qed.

(** With the variable one: a sprite more unless the character has no
    width. *)
Lemma variable_one_sprite_character (allow_failure : bool)
    (graphics_index : Z)
    (p p' : variable_one_sprite_per_character_painter.t) (s s' : state)
    (painted : bool) :
  variable_one_sprite_per_character_painter.paint_character allow_failure
    graphics_index p s = Ok ((painted, p'), s') ->
  (painted = true
   /\ variable_one_sprite_per_character_painter._character_widths p'
      = variable_one_sprite_per_character_painter._character_widths p
   /\ adds (if negb (width_at
                       (variable_one_sprite_per_character_painter._character_widths p)
                       (graphics_index + 1) =? 0)
            then 1 else 0)
        (output_sprites s) (output_sprites s'))
  \/ (painted = false /\ allow_failure = true).
Proof.
  intros E.
  unfold variable_one_sprite_per_character_painter.paint_character in E.
  cbv zeta in E.
  destruct (negb (width_at _ _ =? 0)) eqn:Ewidth.
  - unfold mbind, sprites_full, massert, ret, fatal, on_world,
      on_world_result, push_back in E.
    destruct allow_failure; run_in E; inversion E; subst;
      try (right; split; reflexivity);
      left; (split; [reflexivity|]); simpl;
      (split; [reflexivity|]);
      (split; [|reflexivity]); eexists; (split; [reflexivity|reflexivity]).
  - unfold ret in E. inversion E; subst. left.
    split; [reflexivity|]. split; [reflexivity|].
    apply adds_zero. reflexivity.
Qed.

(** A painting that is not allowed to fail does not report a failure. *)
Lemma paint_reports_no_failure_unasked {P : Type} (text : list Z)
    (map : gmap Z Z) (ops : painter P) (text_index : nat) (p : P) :
  forall (s : state) (painted : bool) (p' : P) (s' : state),
    paint_from false text map ops text_index p s = Ok ((painted, p'), s') ->
    painted = true.
Proof.
  apply (paint_from_elim false text map ops
           (fun _ _ m =>
              forall (s : state) (painted : bool) (p' : P) (s' : state),
                m s = Ok ((painted, p'), s') -> painted = true)).
  - clear text_index p. intros text_index Hlt p IHnext IHskip _. cbv zeta.
    intros s painted p' s' E.
    destruct (nth text_index text 0 =? 32).
    { unfold mbind in E.
      destruct (paint_space ops p s) as [[p1 s1]|]; [|discriminate E].
      exact (IHnext p1 s s1 painted p' s' E). }
    destruct (nth text_index text 0 =? 9).
    { unfold mbind in E.
      destruct (paint_tab ops p s) as [[p1 s1]|]; [|discriminate E].
      exact (IHnext p1 s s1 painted p' s' E). }
    destruct (nth text_index text 0 >=? 33); [|discriminate E].
    unfold mbind at 1 in E.
    match type of E with
    | match ?finding s with _ => _ end = _ =>
        destruct (finding s) as [[found s1]|]; [|discriminate E]
    end.
    unfold mbind at 1 in E.
    destruct (paint_character ops (fst found) p s1) as [[result s2]|];
      [|discriminate E].
    cbn [andb] in E.
    exact (IHskip found result s s2 painted p' s' E).
  - clear text_index p. intros text_index Hge p _ s painted p' s' E.
    unfold ret in E. inversion E. reflexivity.
Qed.

(** A generation that succeeded has run its painter to the end. *)
Lemma generation_painted (g : generator) (position : fixed_point F)
    (text : list Z) (s s' : state) :
  generate g position text s = Ok (tt, s')
  \/ generate_optional g position text s = Ok (true, s') ->
  exists (allow_failure success : bool) (palette : sprite_palette_ptr)
         (aligned_position : fixed_point F) (s1 : state),
    output_sprites s1 = output_sprites s
    /\ chosen_painter allow_failure g text palette aligned_position s1
       = Ok (success, s')
    /\ (allow_failure = false \/ success = true).
Proof.
  intros Hrun.
  assert (exists (af success : bool),
             _generate af g position text (_utf8_characters_map g) s
             = Ok (success, s')
             /\ (af = false \/ success = true)) as (af & success & E & Hcase).
  { destruct Hrun as [E|E].
    - exists false. unfold generate, mbind in E.
      destruct (_generate false g position text (_utf8_characters_map g) s)
        as [[success s1]|]; [|discriminate E].
      unfold ret in E. inversion E; subst. exists success. auto.
    - exists true, true. auto. }
  apply generate_returns in E.
  destruct E as [(-> & -> & _)|(palette & aligned_position & s1 & Hsame
                                & Epainted & _)].
  { destruct Hcase; discriminate. }
  exists af, success, palette, aligned_position, s1. auto.
Qed.

(** The painting of a painter whose destructor does nothing. *)
Lemma with_painter_painted {P : Type} (allow_failure : bool)
    (text : list Z) (map : gmap Z Z) (ops : painter P) (p : P)
    (s s' : state) (success : bool) :
  (forall (p0 : P) (s0 s1 : state),
      destroy ops p0 s0 = Ok (tt, s1) ->
      output_sprites s1 = output_sprites s0) ->
  with_painter allow_failure text map ops p s = Ok (success, s') ->
  allow_failure = false \/ success = true ->
  exists (p' : P) (s1 : state),
    paint_from allow_failure text map ops 0 p s = Ok ((true, p'), s1)
    /\ output_sprites s' = output_sprites s1.
Proof.
  intros Hdestroy Epainted Hcase.
  unfold with_painter, paint, mbind in Epainted.
  destruct (paint_from allow_failure text map ops 0 p s)
    as [[[painted p'] s1]|] eqn:Erun; [|discriminate Epainted].
  cbn [fst snd] in Epainted.
  destruct (destroy ops p' s1) as [[[] s2]|] eqn:Edestroy;
    [|discriminate Epainted].
  unfold ret in Epainted. inversion Epainted; subst. clear Epainted.
  assert (success = true) as ->.
  { destruct Hcase as [->|Hcase]; [|exact Hcase].
    exact (paint_reports_no_failure_unasked _ _ _ _ _ _ _ _ _ Erun). }
  exists p', s1. split; [reflexivity|].
  exact (Hdestroy p' s1 s' Edestroy).
Qed.

(** X6. With one sprite per character, a generation of plain text that
    succeeds adds exactly one sprite for each printable character (for each
    one of width other than zero when the font has character widths), and
    none for spaces and tabs. *)
Theorem one_sprite_for_each_character (g : generator)
    (position : fixed_point F) (text : list Z) (s s' : state) :
  _one_sprite_per_character g = true ->
  plain_text text ->
  generate g position text s = Ok (tt, s')
  \/ generate_optional g position text s = Ok (true, s') ->
  adds (sprites_of_text (_font g) text) (output_sprites s) (output_sprites s').
Proof.
  intros Hone Hplain Hrun.
  destruct (generation_painted g position text s s' Hrun)
    as (af & success & palette & aligned_position & s1 & Hsame & Epainted
        & Hcase).
  rewrite <- Hsame. clear Hrun Hsame s.
  unfold chosen_painter in Epainted. rewrite Hone in Epainted.
  unfold sprites_of_text.
  destruct (bool_decide (character_widths_ref (_font g) = [])) eqn:Efont;
    apply with_painter_painted in Epainted;
    try exact Hcase;
    try (intros p0 s0 s2 E; inversion E; reflexivity);
    destruct Epainted as (p' & s2 & Erun & ->).
  - apply (paint_counts_sprites af (_utf8_characters_map g)
             (fixed_one_sprite_per_character_painter.ops af)
             (builds_a_sprite (_font g)) (fun _ => True))
      with (done := []) (p := fixed_one_sprite_per_character_painter.make g
                                palette aligned_position) (p' := p');
      [ | | | | exact Hplain | exact I | exact Erun ].
    + intros p s p1 s3 _ E. inversion E; subst. auto.
    + intros p s p1 s3 _ E. inversion E; subst. auto.
    + intros c p s painted p1 s3 _ Hc E.
      apply fixed_one_sprite_character in E.
      destruct E as [[-> Hadds]|E]; [left|right; exact E].
      split; [reflexivity|]. split; [exact I|].
      unfold builds_a_sprite. rewrite Efont.
      assert ((33 <=? c) = true) as -> by (apply Z.leb_le; lia).
      exact Hadds.
    + intros c Hc. unfold builds_a_sprite.
      assert ((33 <=? c) = false) as -> by (apply Z.leb_gt; lia).
      reflexivity.
  - apply (paint_counts_sprites af (_utf8_characters_map g)
             (variable_one_sprite_per_character_painter.ops af)
             (builds_a_sprite (_font g))
             (fun p =>
                variable_one_sprite_per_character_painter._character_widths p
                = character_widths_ref (_font g)))
      with (done := []) (p := variable_one_sprite_per_character_painter.make
                                g palette aligned_position) (p' := p');
      [ | | | | exact Hplain | reflexivity | exact Erun ].
    + intros p s p1 s3 Hp E. inversion E; subst. auto.
    + intros p s p1 s3 Hp E. inversion E; subst. auto.
    + intros c p s painted p1 s3 Hp Hc E.
      apply variable_one_sprite_character in E.
      destruct E as [(-> & Hwidths & Hadds)|E]; [left|right; exact E].
      split; [reflexivity|]. split; [congruence|].
      unfold builds_a_sprite. rewrite Efont.
      assert ((33 <=? c) = true) as -> by (apply Z.leb_le; lia).
      rewrite Hp in Hadds. exact Hadds.
    + intros c Hc. unfold builds_a_sprite.
      assert ((33 <=? c) = false) as -> by (apply Z.leb_gt; lia).
      reflexivity.
Qed.

End sprite_counts.

(** ** A vector that is full on entry *)

Section full_vector.
Context {F : Type} `{bn_fixed F} `{sprite_text_generator.sprite_system F}.

Import sprite_text_generator.

Lemma shrink_to_size (s : state) :
  shrink (size (output_sprites s)) s = Ok (tt, s).
Proof.
  unfold shrink, size.
  assert (negb ((Z.of_nat (List.length (data (output_sprites s))) >=? 0)
                && (Z.of_nat (List.length (data (output_sprites s)))
                    <=? Z.of_nat (List.length (data (output_sprites s)))))
          = false) as ->.
  { apply negb_false_iff. apply andb_true_intro. split.
    - apply Z.geb_le. lia.
    - apply Z.leb_le. lia. }
  cbv zeta. rewrite Nat2Z.id, firstn_all, skipn_all. simpl.
  destruct s as [w [elements capacity]]. reflexivity.
Qed.

(** The painters of a font without character widths, at the first printable
    character of a text and with a full vector: the one that may fail
    reports it and adds nothing, the other stops in the assertion. *)
Lemma full_vector_stops_painter (allow_failure : bool) (g : generator)
    (c : Z) (rest : list Z) (palette : sprite_palette_ptr)
    (aligned_position : fixed_point F) (s : state) :
  character_widths_ref (_font g) = [] ->
  33 <= c <= 126 ->
  full (output_sprites s) = true ->
  chosen_painter allow_failure g (c :: rest) palette aligned_position s
  = if allow_failure then Ok (false, s) else Fatal full_message [].
Proof.
  intros Hfixed Hc Hfull. unfold chosen_painter.
  rewrite Hfixed. rewrite bool_decide_eq_true_2 by reflexivity.
  assert ((c =? 32) = false) as E32 by (apply Z.eqb_neq; lia).
  assert ((c =? 9) = false) as E9 by (apply Z.eqb_neq; lia).
  assert ((c >=? 33) = true) as E33 by (apply Z.geb_le; lia).
  assert ((c <=? 126) = true) as E126 by (apply Z.leb_le; lia).
  assert (forall (P : Type) (ops : painter P) (p : P),
             with_painter allow_failure (c :: rest) (_utf8_characters_map g)
               ops p s
             = mbind
                 (mbind (paint_character ops (c - 33) p)
                    (fun painted =>
                       if allow_failure && negb (fst painted)
                       then ret (false, snd painted)
                       else paint_from allow_failure (c :: rest)
                              (_utf8_characters_map g) ops 1 (snd painted)))
                 (fun painted =>
                    mbind (destroy ops (snd painted))
                      (fun _ => ret (fst painted))) s) as Hfirst.
  { intros P ops p. unfold with_painter, paint.
    rewrite (paint_from_here allow_failure [] rest c). cbv zeta.
    rewrite E32, E9, E33, E126. reflexivity. }
  destruct (_one_sprite_per_character g);
    [|destruct (height (item (_font g)) =? 8)];
    rewrite Hfirst; destruct allow_failure;
    cbn -[fixed_max_characters_per_sprite Z.mul];
    unfold mbind, sprites_full, massert, fatal, ret,
      fixed_8x8_painter.paint_character, fixed_8x16_painter.paint_character,
      fixed_one_sprite_per_character_painter.paint_character,
      _build_sprite, mbind, sprites_full, massert, fatal, ret;
    cbn -[fixed_max_characters_per_sprite Z.mul];
    rewrite ?Z.eqb_refl; rewrite ?Hfull;
    cbn -[fixed_max_characters_per_sprite Z.mul];
    unfold fixed_8x8_painter.destroy, fixed_8x16_painter.destroy,
      fixed_8x8_painter._clear_left, fixed_8x16_painter._clear_left,
      mbind, ret;
    cbn -[fixed_max_characters_per_sprite Z.mul];
    rewrite ?Z.ltb_irrefl; reflexivity.
Qed.

(** X7. A text of plain characters that starts with a printable one, a font
    without character widths, and an output vector that is already full:
    [generate_optional] returns false and leaves the vector and everything
    but the palette manager as they were, while [generate], once it has its
    palette, stops in the assertion on the full vector. *)
Theorem full_vector_refuses_text (g : generator) (position : fixed_point F)
    (c : Z) (rest : list Z) (s : state) :
  character_widths_ref (_font g) = [] ->
  33 <= c <= 126 ->
  plain_text rest ->
  full (output_sprites s) = true ->
  generate_optional g position (c :: rest) s
  = Ok (false,
        {| the_world :=
             snd (create_palette_optional (_palette_item g) (the_world s));
           output_sprites := output_sprites s |})
  /\ generate g position (c :: rest) s
     = match create_palette (_palette_item g) (the_world s) with
       | Ok _ => Fatal full_message []
       | Fatal message values => Fatal message values
       end.
Proof.
  intros Hfixed Hc Hrest Hfull.
  assert (plain_text (c :: rest)) as Hplain.
  { constructor; [|exact Hrest]. right. right. exact Hc. }
  assert (forall s0 : state,
             exists aligned_position : fixed_point F,
               aligned g position (c :: rest) s0
               = Ok (aligned_position, s0)) as Haligned.
  { intros s0. unfold aligned. destruct (_alignment g).
    - eexists. reflexivity.
    - eexists. unfold mbind. rewrite (width_plain_text g _ s0 Hplain).
      reflexivity.
    - eexists. unfold mbind. rewrite (width_plain_text g _ s0 Hplain).
      reflexivity. }
  split.
  - unfold generate_optional. rewrite generate_with_palette.
    unfold mbind at 1, on_world.
    destruct (create_palette_optional (_palette_item g) (the_world s))
      as [[palette|] w]; [|reflexivity].
    unfold mbind at 1.
    destruct (Haligned {| the_world := w; output_sprites := output_sprites s |})
      as [aligned_position ->].
    unfold mbind at 1, sprites_size. unfold mbind at 1.
    rewrite (full_vector_stops_painter true g c rest palette aligned_position
               {| the_world := w; output_sprites := output_sprites s |}
               Hfixed Hc Hfull).
    cbn [andb negb]. unfold mbind.
    rewrite (shrink_to_size
               {| the_world := w; output_sprites := output_sprites s |}).
    reflexivity.
  - unfold generate. rewrite generate_with_palette.
    unfold mbind at 1. unfold mbind at 1. unfold mbind at 1.
    unfold on_world_result.
    destruct (create_palette (_palette_item g) (the_world s))
      as [[palette w]|]; [|reflexivity].
    unfold ret at 1. unfold mbind at 1.
    destruct (Haligned {| the_world := w; output_sprites := output_sprites s |})
      as [aligned_position ->].
    unfold mbind at 1, sprites_size. unfold mbind at 1.
    rewrite (full_vector_stops_painter false g c rest palette aligned_position
               {| the_world := w; output_sprites := output_sprites s |}
               Hfixed Hc Hfull).
    reflexivity.
Qed.

End full_vector.

(** ** Four characters to a sprite *)

Section shared_sprites.
Context {F : Type} `{bn_fixed F} `{sprite_text_generator.sprite_system F}.

Import sprite_text_generator.

(** [_build_sprite] adds the sprite it gives the tiles of, and nothing when
    it gives none, which it does only where it may fail. *)
Lemma build_sprite_adds (size : sprite_size) (max_tiles_per_sprite : Z)
    (allow_failure : bool) (g : generator) (palette : sprite_palette_ptr)
    (position : fixed_point F) (s s' : state) (tiles : option Z) :
  _build_sprite size max_tiles_per_sprite allow_failure g palette position s
  = Ok (tiles, s') ->
  (is_Some tiles /\ adds 1 (output_sprites s) (output_sprites s'))
  \/ (tiles = None /\ allow_failure = true
      /\ output_sprites s' = output_sprites s).
Proof.
  intros E. unfold _build_sprite in E.
  unfold mbind, sprites_full, massert, ret, fatal, on_world,
    on_world_result, read_world, push_back in E.
  destruct allow_failure;
    repeat (simpl in E;
            match type of E with
            | context [match ?x with _ => _ end] =>
                lazymatch x with
                | context [match _ with _ => _ end] => fail
                | _ => destruct x eqn:?
                end
            end);
    simpl in E; inversion E; subst; simpl;
    try (right; repeat split; reflexivity);
    left; (split; [eexists; reflexivity|]);
    (split; [|reflexivity]); eexists; (split; [reflexivity|reflexivity]).
Qed.

(** The loop over printable characters with a painter that keeps count of
    the characters in its current sprite, from 1 to 4, and starts a sprite
    when it stands at 4. *)
Lemma paint_fills_sprites {P : Type} (allow_failure : bool)
    (map : gmap Z Z) (ops : painter P) (index : P -> Z) :
  (forall c p s painted p' s',
      33 <= c <= 126 ->
      paint_character ops (c - 33) p s = Ok ((painted, p'), s') ->
      (painted = true
       /\ index p' = (if index p =? 4 then 1 else index p + 1)
       /\ adds (if index p =? 4 then 1 else 0)
            (output_sprites s) (output_sprites s'))
      \/ (painted = false /\ allow_failure = true)) ->
  forall text : list Z,
    Forall (fun c => 33 <= c <= 126) text ->
    forall (done : list Z) (p : P) (s : state) (p' : P) (s' : state),
      1 <= index p <= 4 ->
      paint_from allow_failure (done ++ text) map ops (List.length done) p s
      = Ok ((true, p'), s') ->
      exists sprites : nat,
        adds sprites (output_sprites s) (output_sprites s')
        /\ 4 * Z.of_nat sprites
           <= Z.of_nat (List.length text) + index p - 1
           < 4 * Z.of_nat sprites + 4.
Proof.
  intros Hcharacter text Hprintable.
  induction Hprintable as [|c text Hc _ IH]; intros done p s p' s' Hp E.
  - rewrite app_nil_r, paint_from_end in E. unfold ret in E.
    inversion E; subst. exists 0%nat.
    split; [apply adds_zero; reflexivity|]. simpl. lia.
  - rewrite paint_from_here in E. cbv zeta in E.
    assert (done ++ c :: text = (done ++ [c]) ++ text) as Htext
      by (rewrite <- app_assoc; reflexivity).
    assert (List.length done + 1 = List.length (done ++ [c]))%nat as Hnext
      by (rewrite length_app; reflexivity).
    rewrite Htext in E.
    assert ((c =? 32) = false) as E32 by (apply Z.eqb_neq; lia).
    assert ((c =? 9) = false) as E9 by (apply Z.eqb_neq; lia).
    assert ((c >=? 33) = true) as E33 by (apply Z.geb_le; lia).
    assert ((c <=? 126) = true) as E126 by (apply Z.leb_le; lia).
    rewrite E32, E9, E33, E126 in E.
    unfold mbind at 1 in E. unfold ret at 1 in E. unfold mbind at 1 in E.
    cbn [fst snd] in E.
    destruct (paint_character ops (c - 33) p s) as [[[painted p1] s1]|]
      eqn:E1; [|discriminate E].
    cbn [fst snd] in E.
    change (Pos.to_nat 1) with 1%nat in E. rewrite Hnext in E.
    destruct (Hcharacter c p s painted p1 s1 Hc E1)
      as [(-> & Hindex & Hadds)|[-> ->]].
    + rewrite andb_false_r in E.
      assert (1 <= index p1 <= 4) as Hp1
        by (rewrite Hindex; destruct (Z.eqb_spec (index p) 4); lia).
      destruct (IH _ _ _ _ _ Hp1 E) as (sprites & Hrest & Hcount).
      change (List.length (c :: text)) with (S (List.length text)).
      rewrite Hindex in Hcount.
      destruct (Z.eqb_spec (index p) 4) as [Hfour|Hless].
      * exists (1 + sprites)%nat.
        split; [exact (adds_trans 1 _ _ _ _ Hadds Hrest)|]. lia.
      * exists (0 + sprites)%nat.
        split; [exact (adds_trans 0 _ _ _ _ Hadds Hrest)|]. lia.
    + simpl in E. unfold ret in E. inversion E.
Qed.

Ltac painted_character E index :=
  let Eindex := fresh "Eindex" in
  let Ebuild := fresh "Ebuild" in
  let tiles := fresh "tiles" in
  let s1 := fresh "s" in
  let address := fresh "address" in
  let Hadds := fresh "Hadds" in
  let Haf := fresh "Haf" in
  let Hsame := fresh "Hsame" in
  unfold mbind at 1 in E;
  destruct (index =? 4) eqn:Eindex;
  [ unfold mbind at 1 in E;
    match type of E with
    | context [_build_sprite ?size ?count ?af ?g ?palette ?position ?s] =>
        destruct (_build_sprite size count af g palette position s)
          as [[tiles s1]|] eqn:Ebuild; [|discriminate E]
    end;
    apply build_sprite_adds in Ebuild;
    destruct Ebuild as [[[address ->] Hadds]|(-> & Haf & Hsame)];
    [ cbv zeta in E;
      rewrite bool_decide_eq_true_2 in E by (eexists; reflexivity);
      rewrite andb_false_r in E;
      unfold ret, mbind, hw in E; simpl in E; inversion E; subst; simpl;
      left; (split; [reflexivity|]); (split; [reflexivity|]); exact Hadds
    | subst; simpl in E; unfold ret, mbind in E; simpl in E;
      inversion E; subst; right; split; reflexivity ]
  | unfold ret, mbind, hw in E; simpl in E; inversion E; subst; simpl;
    left; (split; [reflexivity|]); (split; [reflexivity|]);
    apply adds_zero; reflexivity ].

Lemma fixed_8x8_character (allow_failure : bool) (graphics_index : Z)
    (p p' : fixed_8x8_painter.t) (s s' : state) (painted : bool) :
  fixed_8x8_painter.paint_character allow_failure graphics_index p s
  = Ok ((painted, p'), s') ->
  (painted = true
   /\ fixed_8x8_painter._sprite_character_index p'
      = (if fixed_8x8_painter._sprite_character_index p =? 4 then 1
         else fixed_8x8_painter._sprite_character_index p + 1)
   /\ adds (if fixed_8x8_painter._sprite_character_index p =? 4 then 1 else 0)
        (output_sprites s) (output_sprites s'))
  \/ (painted = false /\ allow_failure = true).
Proof.
  intros E. unfold fixed_8x8_painter.paint_character in E.
  change fixed_max_characters_per_sprite with 4 in E.
  painted_character E (fixed_8x8_painter._sprite_character_index p).
Qed.

Lemma fixed_8x16_character (allow_failure : bool) (graphics_index : Z)
    (p p' : fixed_8x16_painter.t) (s s' : state) (painted : bool) :
  fixed_8x16_painter.paint_character allow_failure graphics_index p s
  = Ok ((painted, p'), s') ->
  (painted = true
   /\ fixed_8x16_painter._sprite_character_index p'
      = (if fixed_8x16_painter._sprite_character_index p =? 4 then 1
         else fixed_8x16_painter._sprite_character_index p + 1)
   /\ adds (if fixed_8x16_painter._sprite_character_index p =? 4
            then 1 else 0)
        (output_sprites s) (output_sprites s'))
  \/ (painted = false /\ allow_failure = true).
Proof.
  intros E. unfold fixed_8x16_painter.paint_character in E.
  change fixed_max_characters_per_sprite with 4 in E.
  painted_character E (fixed_8x16_painter._sprite_character_index p).
Qed.

(** The destructors of these painters clear tiles and leave the vector. *)
Lemma fixed_8x8_destroy_keeps_output (p : fixed_8x8_painter.t)
    (s s' : state) :
  destroy (fixed_8x8_painter.ops true) p s = Ok (tt, s')
  \/ destroy (fixed_8x8_painter.ops false) p s = Ok (tt, s') ->
  output_sprites s' = output_sprites s.
Proof.
  simpl. unfold fixed_8x8_painter.destroy, fixed_8x8_painter._clear_left,
    fixed_8x8_painter._clear, mbind, ret, hw.
  intros [E|E];
    destruct (fixed_8x8_painter._sprite_character_index p
              <? fixed_max_characters_per_sprite);
    simpl in E; inversion E; reflexivity.
Qed.

Lemma fixed_8x16_destroy_keeps_output (p : fixed_8x16_painter.t)
    (s s' : state) :
  destroy (fixed_8x16_painter.ops true) p s = Ok (tt, s')
  \/ destroy (fixed_8x16_painter.ops false) p s = Ok (tt, s') ->
  output_sprites s' = output_sprites s.
Proof.
  simpl. unfold fixed_8x16_painter.destroy, fixed_8x16_painter._clear_left,
    fixed_8x16_painter._clear, mbind, ret, hw.
  intros [E|E];
    destruct (fixed_8x16_painter._sprite_character_index p
              <? fixed_max_characters_per_sprite);
    simpl in E; inversion E; reflexivity.
Qed.

(** X24. Without one sprite per character and with a font that has no
    character widths, the characters share sprites, four to a sprite: a
    generation that succeeds on a text of printable characters only, no
    spaces and no tabs, adds as many sprites as it takes to hold them, the
    number of characters divided by four and rounded up. *)
Theorem four_characters_to_a_sprite (g : generator)
    (position : fixed_point F) (text : list Z) (s s' : state) :
  _one_sprite_per_character g = false ->
  character_widths_ref (_font g) = [] ->
  Forall (fun c => 33 <= c <= 126) text ->
  generate g position text s = Ok (tt, s')
  \/ generate_optional g position text s = Ok (true, s') ->
  exists sprites : nat,
    adds sprites (output_sprites s) (output_sprites s')
    /\ (List.length text <= 4 * sprites < List.length text + 4)%nat.
Proof.
  intros Hshared Hfixed Hprintable Hrun.
  destruct (generation_painted g position text s s' Hrun)
    as (af & success & palette & aligned_position & s1 & Hsame & Epainted
        & Hcase).
  rewrite <- Hsame. clear Hrun Hsame s.
  unfold chosen_painter in Epainted. rewrite Hshared, Hfixed in Epainted.
  rewrite bool_decide_eq_true_2 in Epainted by reflexivity.
  destruct (height (item (_font g)) =? 8).
  - apply with_painter_painted in Epainted; [|  |exact Hcase].
    2:{ intros p0 s0 s2 E.
        apply (fixed_8x8_destroy_keeps_output p0).
        destruct af; [left|right]; exact E. }
    destruct Epainted as (p' & s2 & Erun & ->).
    destruct (paint_fills_sprites af (_utf8_characters_map g)
                (fixed_8x8_painter.ops af)
                fixed_8x8_painter._sprite_character_index
                (fun c p s painted p1 s3 _ E =>
                   fixed_8x8_character af (c - 33) p p1 s s3 painted E)
                text Hprintable []
                (fixed_8x8_painter.make g palette aligned_position) s1 p' s2
                ltac:(change (1 <= 4 <= 4); lia) Erun)
      as (sprites & Hadds & Hcount).
    exists sprites. split; [exact Hadds|].
    change (fixed_8x8_painter._sprite_character_index
              (fixed_8x8_painter.make g palette aligned_position))
      with 4 in Hcount.
    lia.
  - apply with_painter_painted in Epainted; [|  |exact Hcase].
    2:{ intros p0 s0 s2 E.
        apply (fixed_8x16_destroy_keeps_output p0).
        destruct af; [left|right]; exact E. }
    destruct Epainted as (p' & s2 & Erun & ->).
    destruct (paint_fills_sprites af (_utf8_characters_map g)
                (fixed_8x16_painter.ops af)
                fixed_8x16_painter._sprite_character_index
                (fun c p s painted p1 s3 _ E =>
                   fixed_8x16_character af (c - 33) p p1 s s3 painted E)
                text Hprintable []
                (fixed_8x16_painter.make g palette aligned_position) s1 p' s2
                ltac:(change (1 <= 4 <= 4); lia) Erun)
      as (sprites & Hadds & Hcount).
    exists sprites. split; [exact Hadds|].
    change (fixed_8x16_painter._sprite_character_index
              (fixed_8x16_painter.make g palette aligned_position))
      with 4 in Hcount.
    lia.
Qed.

End shared_sprites.

(** ** [generate] against [generate_optional] *)

Section agreement.
Context {F : Type} `{bn_fixed F} `{sprite_text_generator.sprite_system F}.
Hypothesis variants_agree : optional_variants_agree.

Import sprite_text_generator.

(** A step in its two variants: where the optional one gives a value the
    asserting one gives the same, and elsewhere the asserting one stops. *)
Lemma variant_step {A : Type} (optional : world -> option A * world)
    (asserting : world -> result (A * world)) :
  (forall w a w', asserting w = Ok (a, w') <-> optional w = (Some a, w')) ->
  forall s : state,
    match on_world optional s with
    | Ok (Some a, s1) => on_world_result asserting s = Ok (a, s1)
    | Ok (None, _) =>
        forall a s1, on_world_result asserting s <> Ok (a, s1)
    | Fatal _ _ => False
    end.
Proof.
  intros Hlaw s. unfold on_world, on_world_result.
  destruct (optional (the_world s)) as [[a|] w1] eqn:Eoptional.
  - apply Hlaw in Eoptional. rewrite Eoptional. reflexivity.
  - intros a s1 E.
    destruct (asserting (the_world s)) as [[a2 w2]|] eqn:Easserting;
      [|discriminate E].
    apply Hlaw in Easserting. congruence.
Qed.

Ltac variant_with law :=
  match goal with
  | |- context [on_world ?optional ?s] =>
      let Hstep := fresh "Hstep" in
      pose proof (variant_step optional _ law s) as Hstep;
      destruct (on_world optional s) as [[[?|] ?]|];
      [ rewrite Hstep
      | match goal with
        | |- context [on_world_result ?asserting s] =>
            destruct (on_world_result asserting s) as [[? ?]|];
            [exfalso; exact (Hstep _ _ eq_refl)|]
        end
      | contradiction ];
      clear Hstep
  end.

Ltac both_fail := split; intros E; discriminate E.

Lemma tiles_allocate_agree (tiles_count : Z) (mode : bpp_mode) :
  forall w tiles w',
    tiles_allocate tiles_count mode w = Ok (tiles, w')
    <-> tiles_allocate_optional tiles_count mode w = (Some tiles, w').
Proof.
  destruct variants_agree as (_ & Hlaw & _). exact (Hlaw tiles_count mode).
Qed.

Lemma tiles_create_agree (item : sprite_tiles_item) (graphics_index : Z) :
  forall w tiles w',
    tiles_create item graphics_index w = Ok (tiles, w')
    <-> tiles_create_optional item graphics_index w = (Some tiles, w').
Proof.
  destruct variants_agree as (_ & _ & Hlaw & _).
  exact (Hlaw item graphics_index).
Qed.

Lemma sprite_create_agree (builder : sprite_builder F) :
  forall w sprite w',
    sprite_create builder w = Ok (sprite, w')
    <-> sprite_create_optional builder w = (Some sprite, w').
Proof.
  destruct variants_agree as (_ & _ & _ & Hlaw). exact (Hlaw builder).
Qed.

Lemma create_palette_agree (item : sprite_palette_item.t) :
  forall w palette w',
    create_palette item w = Ok (palette, w')
    <-> create_palette_optional item w = (Some palette, w').
Proof.
  destruct variants_agree as (Hlaw & _). exact (Hlaw item).
Qed.

Ltac variant_case :=
  match goal with
  | |- context [on_world (tiles_allocate_optional ?n ?mode) _] =>
      variant_with (tiles_allocate_agree n mode)
  | |- context [on_world (tiles_create_optional ?item ?index) _] =>
      variant_with (tiles_create_agree item index)
  | |- context [on_world (sprite_create_optional ?builder) _] =>
      variant_with (sprite_create_agree builder)
  | |- context [on_world (create_palette_optional ?item) _] =>
      variant_with (create_palette_agree item)
  end.

Ltac asserting_fails :=
  let E := fresh "E" in intros ? ? E; cbv beta iota in E; discriminate E.

(** [_build_sprite] builds the same sprite in both variants. *)
Lemma build_sprite_agrees (size : sprite_size) (max_tiles_per_sprite : Z)
    (g : generator) (palette : sprite_palette_ptr)
    (position : fixed_point F) (s : state) :
  match _build_sprite size max_tiles_per_sprite true g palette position s with
  | Ok (Some address, s1) =>
      _build_sprite size max_tiles_per_sprite false g palette position s
      = Ok (Some address, s1)
  | _ =>
      forall a s1,
        _build_sprite size max_tiles_per_sprite false g palette position s
        <> Ok (a, s1)
  end.
Proof.
  unfold _build_sprite, mbind, sprites_full, massert, ret, fatal.
  destruct (full (output_sprites s)); cbn [negb]; [asserting_fails|].
  variant_case; [|asserting_fails].
  unfold read_world.
  variant_case; [|asserting_fails].
  match goal with
  | |- context [push_back ?sprite ?s1] =>
      destruct (push_back sprite s1) as [[[] ?]|]; [|asserting_fails]
  end.
  match goal with
  | |- context [tiles_vram ?tiles ?w] => destruct (tiles_vram tiles w)
  end; [reflexivity|asserting_fails].
Qed.

Lemma paint_agrees {P : Type} (text : list Z) (map : gmap Z Z)
    (failing asserting : painter P) :
  (forall p, paint_space failing p = paint_space asserting p) ->
  (forall p, paint_tab failing p = paint_tab asserting p) ->
  (forall graphics_index p,
      stands_for fst (paint_character failing graphics_index p)
        (paint_character asserting graphics_index p)) ->
  forall text_index p,
    stands_for fst (paint_from true text map failing text_index p)
      (paint_from false text map asserting text_index p).
Proof.
  intros Hspace Htab Hcharacter text_index p.
  apply (paint_from_elim true text map failing
           (fun text_index p m =>
              stands_for fst m
                (paint_from false text map asserting text_index p))).
  - clear text_index p. intros text_index Hlt p IHnext IHskip _. cbv zeta.
    intros s. rewrite paint_from_equation_1.
    destruct (decide (text_index < List.length text)%nat) as [Hlt2|Hge];
      [|contradiction].
    rewrite paint_from_clause_1_equation_1. cbv zeta.
    destruct (nth text_index text 0 =? 32).
    { unfold mbind. rewrite Hspace.
      destruct (paint_space asserting p s) as [[p1 s1]|];
        [exact (IHnext p1 s s1)|asserting_fails]. }
    destruct (nth text_index text 0 =? 9).
    { unfold mbind. rewrite Htab.
      destruct (paint_tab asserting p s) as [[p1 s1]|];
        [exact (IHnext p1 s s1)|asserting_fails]. }
    destruct (nth text_index text 0 >=? 33);
      [|unfold fatal; asserting_fails].
    unfold mbind.
    match goal with
    | |- context [match ?finding s with _ => _ end] =>
        destruct (finding s) as [[found s1]|]; [|asserting_fails]
    end.
    pose proof (Hcharacter (fst found) p s1) as Hhere.
    destruct (paint_character failing (fst found) p s1)
      as [[[[|] p1] s2]|].
    + rewrite Hhere. cbn [andb negb fst snd].
      exact (IHskip found (true, p1) s s2).
    + destruct (paint_character asserting (fst found) p s1) as [[r s3]|];
        [exfalso; exact (Hhere _ _ eq_refl)|asserting_fails].
    + destruct (paint_character asserting (fst found) p s1) as [[r s3]|];
        [exfalso; exact (Hhere _ _ eq_refl)|asserting_fails].
  - clear text_index p. intros text_index Hge p _ s.
    rewrite paint_from_equation_1.
    destruct (decide (text_index < List.length text)%nat) as [Hlt|Hge2];
      [contradiction|].
    reflexivity.
Qed.

Ltac pushed_back :=
  match goal with
  | |- context [push_back ?sprite ?s] =>
      destruct (push_back sprite s) as [[[] ?]|];
      [reflexivity|asserting_fails]
  end.

Ltac sprite_built :=
  match goal with
  | |- context [_build_sprite ?size ?n true ?g ?palette ?position ?s] =>
      let Hbuilt := fresh "Hbuilt" in
      pose proof (build_sprite_agrees size n g palette position s) as Hbuilt;
      destruct (_build_sprite size n true g palette position s)
        as [[[?|] ?]|];
      [ rewrite Hbuilt; reflexivity
      | destruct (_build_sprite size n false g palette position s)
          as [[? ?]|];
        [exfalso; exact (Hbuilt _ _ eq_refl)|asserting_fails]
      | destruct (_build_sprite size n false g palette position s)
          as [[? ?]|];
        [exfalso; exact (Hbuilt _ _ eq_refl)|asserting_fails] ]
  end.

Lemma fixed_one_sprite_agrees (graphics_index : Z)
    (p : fixed_one_sprite_per_character_painter.t) :
  stands_for fst
    (fixed_one_sprite_per_character_painter.paint_character true
       graphics_index p)
    (fixed_one_sprite_per_character_painter.paint_character false
       graphics_index p).
Proof.
  intros s.
  unfold fixed_one_sprite_per_character_painter.paint_character, mbind,
    sprites_full, massert, ret, fatal.
  destruct (full (output_sprites s)); cbn [negb]; [asserting_fails|].
  variant_case; [|asserting_fails].
  variant_case; [|asserting_fails].
  pushed_back.
Qed.

Lemma variable_one_sprite_agrees (graphics_index : Z)
    (p : variable_one_sprite_per_character_painter.t) :
  stands_for fst
    (variable_one_sprite_per_character_painter.paint_character true
       graphics_index p)
    (variable_one_sprite_per_character_painter.paint_character false
       graphics_index p).
Proof.
  intros s.
  unfold variable_one_sprite_per_character_painter.paint_character, mbind,
    sprites_full, massert, ret, fatal.
  cbv zeta.
  destruct (negb (width_at _ (graphics_index + 1) =? 0)); [|reflexivity].
  destruct (full (output_sprites s)); cbn [negb]; [asserting_fails|].
  variant_case; [|asserting_fails].
  variant_case; [|asserting_fails].
  pushed_back.
Qed.

Lemma fixed_8x8_agrees (graphics_index : Z) (p : fixed_8x8_painter.t) :
  stands_for fst (fixed_8x8_painter.paint_character true graphics_index p)
    (fixed_8x8_painter.paint_character false graphics_index p).
Proof.
  intros s. unfold fixed_8x8_painter.paint_character, mbind, ret.
  destruct (fixed_8x8_painter._sprite_character_index p
            =? fixed_max_characters_per_sprite); [|reflexivity].
  sprite_built.
Qed.

Lemma variable_8x8_agrees (graphics_index : Z) (p : variable_8x8_painter.t) :
  stands_for fst (variable_8x8_painter.paint_character true graphics_index p)
    (variable_8x8_painter.paint_character false graphics_index p).
Proof.
  intros s. unfold variable_8x8_painter.paint_character, mbind, ret.
  cbv zeta.
  destruct (negb (width_at _ (graphics_index + 1) =? 0)); [|reflexivity].
  match goal with
  | |- context [?column >? max_columns_per_sprite] =>
      destruct (column >? max_columns_per_sprite); [|reflexivity]
  end.
  sprite_built.
Qed.

Lemma fixed_8x16_agrees (graphics_index : Z) (p : fixed_8x16_painter.t) :
  stands_for fst (fixed_8x16_painter.paint_character true graphics_index p)
    (fixed_8x16_painter.paint_character false graphics_index p).
Proof.
  intros s. unfold fixed_8x16_painter.paint_character, mbind, ret.
  destruct (fixed_8x16_painter._sprite_character_index p
            =? fixed_max_characters_per_sprite); [|reflexivity].
  sprite_built.
Qed.

Lemma variable_8x16_agrees (graphics_index : Z)
    (p : variable_8x16_painter.t) :
  stands_for fst (variable_8x16_painter.paint_character true graphics_index p)
    (variable_8x16_painter.paint_character false graphics_index p).
Proof.
  intros s. unfold variable_8x16_painter.paint_character, mbind, ret.
  cbv zeta.
  destruct (negb (width_at _ (graphics_index + 1) =? 0)); [|reflexivity].
  match goal with
  | |- context [?column >? max_columns_per_sprite] =>
      destruct (column >? max_columns_per_sprite); [|reflexivity]
  end.
  sprite_built.
Qed.

Lemma with_painter_agrees {P : Type} (text : list Z) (map : gmap Z Z)
    (failing asserting : painter P) (p : P) :
  (forall p, paint_space failing p = paint_space asserting p) ->
  (forall p, paint_tab failing p = paint_tab asserting p) ->
  (forall p, destroy failing p = destroy asserting p) ->
  (forall graphics_index p,
      stands_for fst (paint_character failing graphics_index p)
        (paint_character asserting graphics_index p)) ->
  stands_for id (with_painter true text map failing p)
    (with_painter false text map asserting p).
Proof.
  intros Hspace Htab Hdestroy Hcharacter s.
  unfold with_painter, paint, mbind, ret.
  pose proof (paint_agrees text map failing asserting Hspace Htab Hcharacter
                0%nat p s) as Hpainted.
  destruct (paint_from true text map failing 0 p s) as [[[[|] p1] s1]|];
    cbn [fst] in Hpainted.
  - rewrite Hpainted. cbn [fst snd]. rewrite Hdestroy.
    destruct (destroy asserting p1 s1) as [[[] s2]|];
      [reflexivity|asserting_fails].
  - destruct (paint_from false text map asserting 0 p s) as [[r s2]|];
      [exfalso; exact (Hpainted _ _ eq_refl)|].
    cbn [fst snd].
    destruct (destroy failing p1 s1) as [[[] s2]|]; asserting_fails.
  - destruct (paint_from false text map asserting 0 p s) as [[r s2]|];
      [exfalso; exact (Hpainted _ _ eq_refl)|asserting_fails].
Qed.

(** The painter [_generate] picks paints the same in both variants. *)
Lemma chosen_painter_agrees (g : generator) (text : list Z)
    (palette : sprite_palette_ptr) (position : fixed_point F) :
  stands_for id (chosen_painter true g text palette position)
    (chosen_painter false g text palette position).
Proof.
  unfold chosen_painter.
  destruct (_one_sprite_per_character g);
    [|destruct (height (item (_font g)) =? 8)];
    destruct (bool_decide (character_widths_ref (_font g) = []));
    apply with_painter_agrees; try (intros; reflexivity).
  - exact fixed_one_sprite_agrees.
  - exact variable_one_sprite_agrees.
  - exact fixed_8x8_agrees.
  - exact variable_8x8_agrees.
  - exact fixed_8x16_agrees.
  - exact variable_8x16_agrees.
Qed.

Lemma generate_agrees (g : generator) (position : fixed_point F)
    (text : list Z) :
  stands_for id (_generate true g position text (_utf8_characters_map g))
    (_generate false g position text (_utf8_characters_map g)).
Proof.
  intros s. rewrite !generate_with_palette. unfold mbind, ret.
  variant_case; [|asserting_fails].
  match goal with
  | |- context [aligned g position text ?s1] =>
      destruct (aligned g position text s1) as [[aligned_position s2]|];
      [|asserting_fails]
  end.
  unfold sprites_size.
  match goal with
  | |- context [chosen_painter true g text ?palette aligned_position s2] =>
      pose proof (chosen_painter_agrees g text palette aligned_position s2)
        as Hchosen;
      destruct (chosen_painter true g text palette aligned_position s2)
        as [[[|] s3]|]; cbn [id] in Hchosen;
      [ rewrite Hchosen; reflexivity
      | destruct (chosen_painter false g text palette aligned_position s2)
          as [[r s4]|]; [exfalso; exact (Hchosen _ _ eq_refl)|]
      | destruct (chosen_painter false g text palette aligned_position s2)
          as [[r s4]|];
        [exfalso; exact (Hchosen _ _ eq_refl)|asserting_fails] ]
  end.
  cbn [andb negb].
  destruct (shrink (size (output_sprites s2)) s3) as [[[] s4]|];
    asserting_fails.
Qed.

End agreement.

(** X27. Where the operations of the sprite system do the same in their two
    variants, [generate] returns exactly when [generate_optional] returns
    [true], and it leaves the same state: a failure that [generate_optional]
    reports is an assertion that stops [generate]. *)
Theorem generate_returns_when_optional_succeeds {F : Type} `{bn_fixed F}
    `{sprite_text_generator.sprite_system F}
    (g : sprite_text_generator.generator)
    (position : sprite_text_generator.fixed_point F) (text : list Z)
    (s s' : sprite_text_generator.state) :
  optional_variants_agree ->
  sprite_text_generator.generate g position text s = Ok (tt, s')
  <-> sprite_text_generator.generate_optional g position text s
      = Ok (true, s').
Proof.
  intros Hagree.
  pose proof (generate_agrees Hagree g position text s) as Hstands.
  unfold sprite_text_generator.generate,
    sprite_text_generator.generate_optional,
    sprite_text_generator.mbind, sprite_text_generator.ret.
  destruct (sprite_text_generator._generate true g position text
              (sprite_text_generator._utf8_characters_map g) s)
    as [[[|] s1]|]; cbn [id] in Hstands.
  - rewrite Hstands. split; intros E; inversion E; reflexivity.
  - split; [|intros E; discriminate E].
    destruct (sprite_text_generator._generate false g position text
                (sprite_text_generator._utf8_characters_map g) s)
      as [[r s2]|]; [|intros E; discriminate E].
    exfalso. exact (Hstands _ _ eq_refl).
  - split; [|intros E; discriminate E].
    destruct (sprite_text_generator._generate false g position text
                (sprite_text_generator._utf8_characters_map g) s)
      as [[r s2]|]; [|intros E; discriminate E].
    exfalso. exact (Hstands _ _ eq_refl).
Qed.

(** ** The handlers, from setup to the first frame *)

(** X8. The register of a regular background's attributes can be asked for
    exactly when the background is visible: [output_register] dereferences
    the hardware id that [target_visible] tests, and stops in the assertion
    of the empty optional otherwise. *)
Theorem regular_bg_output_register_needs_visible_target
    (e : engine) (target_id : Z) :
  is_ok (regular_bg_attributes_hblank_effect_handler.output_register
           e target_id)
  = regular_bg_attributes_hblank_effect_handler.target_visible e target_id
  /\ (regular_bg_attributes_hblank_effect_handler.target_visible e target_id
      = false ->
      regular_bg_attributes_hblank_effect_handler.output_register e target_id
      = Fatal "Optional is empty" [])
  /\ is_ok (rect_window_horizontal_boundaries_hbe_handler.output_register
              e target_id) = true
  /\ is_ok (color_hblank_effect_handler.output_register e target_id) = true.
Proof.
  unfold regular_bg_attributes_hblank_effect_handler.output_register,
    regular_bg_attributes_hblank_effect_handler.target_visible.
  destruct (bgs_hw_id e target_id) as [hw_id|]; simpl.
  - repeat split. discriminate.
  - repeat split.
Qed.

(** X9. The first [target_updated] after [setup_target], on a target that
    has not changed in between: the regular background handler, which seeds
    its cache with the background's current map, answers false; the rect
    window handler, which seeds it with a pair of zeros, answers true unless
    the window's boundaries are both zero; the color handler always answers
    false.  What the cache held before [setup_target] plays no part. *)
Theorem first_target_updated_after_setup
    (e : engine) (target_id : Z) (before : iany) :
  regular_bg_attributes_hblank_effect_handler.target_updated e target_id
    (regular_bg_attributes_hblank_effect_handler.setup_target
       e target_id before)
  = Ok (false,
        any_last_value
          (regular_bg_attributes_hblank_effect_handler.make_last_value
             e target_id))
  /\ (exists updated : bool,
        rect_window_horizontal_boundaries_hbe_handler.target_updated
          e target_id
          (rect_window_horizontal_boundaries_hbe_handler.setup_target
             e target_id before)
        = Ok (updated,
              any_int_pair (rect_window_hw_horizontal_boundaries e target_id))
        /\ (updated = false
            <-> rect_window_hw_horizontal_boundaries e target_id = (0, 0)))
  /\ color_hblank_effect_handler.target_updated e target_id
       (color_hblank_effect_handler.setup_target e target_id before)
     = Ok (false, before).
Proof.
  split; [|split].
  - unfold regular_bg_attributes_hblank_effect_handler.target_updated,
      regular_bg_attributes_hblank_effect_handler.setup_target. simpl.
    assert (last_value_eqb
              (regular_bg_attributes_hblank_effect_handler.make_last_value
                 e target_id)
              (regular_bg_attributes_hblank_effect_handler.make_last_value
                 e target_id) = true) as ->
      by (apply last_value_eqb_eq; reflexivity).
    reflexivity.
  - eexists. split; [reflexivity|].
    rewrite negb_false_iff, int_pair_eqb_eq. split; congruence.
  - reflexivity.
Qed.

(** ** [affine_bg_tiles_item::uncompress] *)

Lemma uncompress_uncompressed (hw : hw_uncompress)
    (item : affine_bg_tiles_item.t) (destination : list (list Z)) :
  affine_bg_tiles_item._compression item = affine_bg_tiles_item.NONE ->
  (List.length (affine_bg_tiles_item._tiles_ref item)
   <= List.length destination)%nat ->
  affine_bg_tiles_item_uncompress.uncompress hw item destination
  = Ok (item, destination).
Proof.
  intros Hnone Hroom. unfold affine_bg_tiles_item_uncompress.uncompress.
  cbv zeta. rewrite Hnone.
  assert ((Z.of_nat (List.length destination)
           >=? Z.of_nat (List.length (affine_bg_tiles_item._tiles_ref item)))
          = true) as -> by (apply Z.geb_le; lia).
  reflexivity.
Qed.

(** X10. [uncompress] returns exactly when the destination has room for as
    many tiles as the item refers to.  The item it returns is never
    compressed; an item that was not compressed is returned as it is, with
    the destination untouched; and uncompressing the result once more, into
    any destination with room for it, gives the result back and writes
    nothing. *)
Theorem uncompress_gives_an_uncompressed_item
    (hw : hw_uncompress) (item : affine_bg_tiles_item.t)
    (destination : list (list Z)) :
  (is_ok (affine_bg_tiles_item_uncompress.uncompress hw item destination)
   = (List.length (affine_bg_tiles_item._tiles_ref item)
      <=? List.length destination)%nat)
  /\ (forall (uncompressed : affine_bg_tiles_item.t)
        (written : list (list Z)),
        affine_bg_tiles_item_uncompress.uncompress hw item destination
        = Ok (uncompressed, written) ->
        affine_bg_tiles_item._compression uncompressed
        = affine_bg_tiles_item.NONE
        /\ (List.length (affine_bg_tiles_item._tiles_ref uncompressed)
            <= List.length (affine_bg_tiles_item._tiles_ref item))%nat
        /\ (affine_bg_tiles_item._compression item
            = affine_bg_tiles_item.NONE ->
            uncompressed = item /\ written = destination)
        /\ (forall other : list (list Z),
              (List.length (affine_bg_tiles_item._tiles_ref item)
               <= List.length other)%nat ->
              affine_bg_tiles_item_uncompress.uncompress
                hw uncompressed other
              = Ok (uncompressed, other))).
Proof.
  split.
  - unfold affine_bg_tiles_item_uncompress.uncompress. cbv zeta.
    destruct (Z.geb_spec (Z.of_nat (List.length destination))
                (Z.of_nat
                   (List.length (affine_bg_tiles_item._tiles_ref item))))
      as [Hroom|Hroom]; simpl.
    + destruct (affine_bg_tiles_item._compression item); simpl;
        symmetry; apply Nat.leb_le; lia.
    + symmetry. apply Nat.leb_gt. lia.
  - intros uncompressed written E.
    unfold affine_bg_tiles_item_uncompress.uncompress in E. cbv zeta in E.
    destruct (Z.of_nat (List.length destination)
              >=? Z.of_nat (List.length (affine_bg_tiles_item._tiles_ref item)))
      eqn:Eroom; simpl in E; [|discriminate E].
    rewrite Nat2Z.id in E.
    destruct (affine_bg_tiles_item._compression item) eqn:Ecompression;
      inversion E; subst; clear E; simpl.
    + split; [exact Ecompression|]. split; [lia|]. split; [auto|].
      intros other Hroom.
      apply uncompress_uncompressed; [exact Ecompression|exact Hroom].
    + split; [reflexivity|].
      split; [rewrite length_take; lia|]. split; [discriminate|].
      intros other Hroom. apply uncompress_uncompressed; [reflexivity|].
      simpl. rewrite length_take. lia.
    + split; [reflexivity|].
      split; [rewrite length_take; lia|]. split; [discriminate|].
      intros other Hroom. apply uncompress_uncompressed; [reflexivity|].
      simpl. rewrite length_take. lia.
Qed.

(** ** The assertions of the color effects *)

Section color_effect_assertions.
Context {F : Type} `{bn_fixed F} `{hw_palettes}.

Ltac effect_cases value colors :=
  destruct (Z.of_nat (List.length colors) >? 0);
  destruct (Z.of_nat (List.length colors) <=? hw_colors);
  destruct (fixed_ge value 0); destruct (fixed_le value 1);
  destruct (fixed_t_5_data value =? 0);
  simpl; intros; solve [reflexivity | discriminate].

(** X11. Each in-place color effect returns exactly when the span is not
    empty (and, for [grayscale] and [hue_shift], holds no more colors than
    the hardware has) and the intensity is in [0, 1].  In each of them the
    count is checked first: a span of a wrong size stops the call in the
    assertion on the colors count whatever the intensity is, and an
    intensity out of range stops it in the effect's own assertion only when
    the count is right.  A call that stops in an assertion has written
    nothing. *)
Theorem color_effects_return_iff (value : F) (fade_color : Z)
    (colors : list Z) :
  let count := Z.of_nat (List.length colors) in
  let in_range := fixed_ge value 0 && fixed_le value 1 in
  let some := count >? 0 in
  let fits := (count >? 0) && (count <=? hw_colors) in
  let outcome (count_is_right : bool) (message : string) : result unit :=
    if count_is_right then
      if in_range then Ok tt else Fatal message []
    else Fatal "Invalid colors count: " [count] in
  (fst (color_effect.brightness value colors)
   = outcome some "Invalid brightness: "%string
   /\ fst (color_effect.contrast value colors)
      = outcome some "Invalid contrast: "%string
   /\ fst (color_effect.intensity value colors)
      = outcome some "Invalid intensity: "%string
   /\ fst (color_effect.grayscale value colors)
      = outcome fits "Invalid grayscale intensity: "%string
   /\ fst (color_effect.hue_shift value colors)
      = outcome fits "Invalid hue shift intensity: "%string
   /\ fst (color_effect.fade fade_color value colors)
      = outcome some "Invalid fade intensity: "%string)
  /\ (is_ok (fst (color_effect.brightness value colors))
      = (count >? 0) && in_range
      /\ is_ok (fst (color_effect.contrast value colors))
         = (count >? 0) && in_range
      /\ is_ok (fst (color_effect.intensity value colors))
         = (count >? 0) && in_range
      /\ is_ok (fst (color_effect.grayscale value colors))
         = (count >? 0) && (count <=? hw_colors) && in_range
      /\ is_ok (fst (color_effect.hue_shift value colors))
         = (count >? 0) && (count <=? hw_colors) && in_range
      /\ is_ok (fst (color_effect.fade fade_color value colors))
         = (count >? 0) && in_range)
  /\ (is_ok (fst (color_effect.brightness value colors)) = false ->
      snd (color_effect.brightness value colors) = colors)
  /\ (is_ok (fst (color_effect.contrast value colors)) = false ->
      snd (color_effect.contrast value colors) = colors)
  /\ (is_ok (fst (color_effect.intensity value colors)) = false ->
      snd (color_effect.intensity value colors) = colors)
  /\ (is_ok (fst (color_effect.grayscale value colors)) = false ->
      snd (color_effect.grayscale value colors) = colors)
  /\ (is_ok (fst (color_effect.hue_shift value colors)) = false ->
      snd (color_effect.hue_shift value colors) = colors)
  /\ (is_ok (fst (color_effect.fade fade_color value colors)) = false ->
      snd (color_effect.fade fade_color value colors) = colors).
Proof.
  intros count in_range some fits outcome.
  unfold outcome, some, fits, count, in_range.
  unfold color_effect.brightness, color_effect.contrast,
    color_effect.intensity, color_effect.grayscale, color_effect.hue_shift,
    color_effect.fade.
  repeat split; effect_cases value colors.
Qed.

End color_effect_assertions.

(** ** The constructor of [sprite_palette_item] *)

(** X12. The constructor accepts 16 colors with 4 bits per pixel, and with
    8 bits per pixel 16, 32, ..., 256 colors: any other count stops in the
    assertion on the colors count.  An item it returns holds the colors and
    the mode it was given. *)
Theorem sprite_palette_item_colors_count (colors : list Z) (mode : bpp_mode) :
  let count := Z.of_nat (List.length colors) in
  (is_ok (sprite_palette_item.make colors mode) = true
   <-> match mode with
       | BPP_4 => count = 16
       | BPP_8 => exists banks : Z, 1 <= banks <= 16 /\ count = 16 * banks
       end)
  /\ (is_ok (sprite_palette_item.make colors mode) = false ->
      sprite_palette_item.make colors mode
      = Fatal "Invalid colors count: " [count])
  /\ (forall item : sprite_palette_item.t,
        sprite_palette_item.make colors mode = Ok item ->
        sprite_palette_item.colors item = colors
        /\ sprite_palette_item._bpp_mode item = mode).
Proof.
  intros count. unfold sprite_palette_item.make. fold count.
  split; [|split].
  - destruct mode; simpl.
    + rewrite orb_false_r.
      destruct (count =? 16) eqn:E; simpl.
      * apply Z.eqb_eq in E. split; auto.
      * apply Z.eqb_neq in E. split; [discriminate|]. intros; contradiction.
    + destruct (count >=? 16) eqn:E1; simpl.
      2:{ split; [discriminate|]. intros (banks & Hbanks & Hcount).
          destruct (Z.geb_spec count 16); [discriminate|lia]. }
      destruct (count <=? 256) eqn:E2; simpl.
      2:{ split; [discriminate|]. intros (banks & Hbanks & Hcount).
          apply Z.leb_gt in E2. lia. }
      destruct (count mod 16 =? 0) eqn:E3; simpl.
      * split; [|reflexivity]. intros _.
        apply Z.eqb_eq in E3. apply Z.leb_le in E2.
        destruct (Z.geb_spec count 16) as [Hge|]; [|discriminate].
        exists (count / 16).
        pose proof (Z.div_mod count 16) as Hdiv. lia.
      * split; [discriminate|]. intros (banks & Hbanks & Hcount).
        apply Z.eqb_neq in E3. exfalso. apply E3. rewrite Hcount.
        rewrite Z.mul_comm. apply Z.mod_mul. lia.
  - destruct (_ || _); simpl; [discriminate|reflexivity].
  - intros item E. destruct (_ || _); simpl in E; [|discriminate E].
    inversion E; subst. split; reflexivity.
Qed.

(** ** Integers as text *)

Section to_string.

Import hw_text.

Lemma decimal_value_of_reversed (characters : list Z) (value : Z) :
  fold_left (fun value character => value * 10 + (character - 48))
    (rev characters) value
  = value * 10 ^ Z.of_nat (List.length characters)
    + reversed_decimal_value characters.
Proof.
  induction characters as [|character rest IH]; simpl rev.
  - simpl. lia.
  - rewrite fold_left_app. simpl fold_left. rewrite IH.
    change (List.length (character :: rest)) with (S (List.length rest)).
    rewrite Nat2Z.inj_succ, Z.pow_succ_r by lia. simpl. lia.
Qed.

Lemma reversed_decimal_value_bound (characters : list Z) :
  Forall (fun character => 48 <= character <= 57) characters ->
  0 <= reversed_decimal_value characters
  < 10 ^ Z.of_nat (List.length characters).
Proof.
  induction 1 as [|character rest Hc _ IH].
  - simpl. lia.
  - change (List.length (character :: rest)) with (S (List.length rest)).
    rewrite Nat2Z.inj_succ, Z.pow_succ_r by lia. simpl. lia.
Qed.

(** What the loop leaves: a digit in [value], and behind the pointer it
    started from the digits it took off, last one first. *)
Lemma digits_loop_writes (value : Z) (output : list Z) (current : nat) :
  0 <= value ->
  exists taken : list Z,
    snd (digits_loop value output current)
    = (current + List.length taken)%nat
    /\ 0 <= fst (fst (digits_loop value output current)) <= 9
    /\ (1 <= value -> 1 <= fst (fst (digits_loop value output current)))
    /\ (value <= 9 -> taken = [])
    /\ Forall (fun character => 48 <= character <= 57) taken
    /\ value
       = fst (fst (digits_loop value output current))
         * 10 ^ Z.of_nat (List.length taken)
         + reversed_decimal_value taken
    /\ List.length (snd (fst (digits_loop value output current)))
       = List.length output
    /\ ((current + List.length taken <= List.length output)%nat ->
        snd (fst (digits_loop value output current))
        = take current output ++ taken
          ++ drop (current + List.length taken) output).
Proof.
  revert value output current.
  apply (digits_loop_elim
           (fun value output current looped =>
              0 <= value ->
              exists taken : list Z,
                snd looped = (current + List.length taken)%nat
                /\ 0 <= fst (fst looped) <= 9
                /\ (1 <= value -> 1 <= fst (fst looped))
                /\ (value <= 9 -> taken = [])
                /\ Forall (fun character => 48 <= character <= 57) taken
                /\ value
                   = fst (fst looped) * 10 ^ Z.of_nat (List.length taken)
                     + reversed_decimal_value taken
                /\ List.length (snd (fst looped)) = List.length output
                /\ ((current + List.length taken <= List.length output)%nat ->
                    snd (fst looped)
                    = take current output ++ taken
                      ++ drop (current + List.length taken) output))).
  - intros value Hbig output current IH _ Hvalue. cbv zeta in *.
    assert (0 <= value ÷ 10) as Hquot by (apply Z.quot_pos; lia).
    assert (0 <= Z.rem value 10 < 10) as Hrem
      by (apply Z.rem_bound_pos; lia).
    pose proof (Z.quot_rem' value 10) as Hsplit.
    destruct (IH Hquot)
      as (taken & Hpointer & Hdigit & Hlead & _ & Hdigits & Hremaining
          & Hlength & Houtput).
    exists ((48 + Z.rem value 10) :: taken).
    change (List.length ((48 + Z.rem value 10) :: taken))
      with (S (List.length taken)).
    split; [rewrite Hpointer; lia|].
    split; [exact Hdigit|].
    split.
    { intros _. apply Hlead.
      assert (value ÷ 10 <> 0); [|lia].
      intros Hzero. rewrite Hzero in Hsplit. lia. }
    split; [lia|].
    split; [constructor; [lia|exact Hdigits]|].
    split.
    { rewrite Nat2Z.inj_succ, Z.pow_succ_r by lia. simpl.
      set (power := 10 ^ Z.of_nat (List.length taken)) in *.
      set (left_over := fst (fst (digits_loop (value ÷ 10)
                                    (<[current := 48 + Z.rem value 10]> output)
                                    (S current)))) in *.
      assert (left_over * (10 * power) = 10 * (left_over * power)) as ->
        by ring.
      lia. }
    split; [rewrite Hlength; apply length_insert|].
    intros Hroom. rewrite Houtput by (rewrite length_insert; lia).
    assert (take (S current) (<[current := 48 + Z.rem value 10]> output)
            = take current output ++ [48 + Z.rem value 10]) as ->.
    { rewrite (take_S_r _ _ (48 + Z.rem value 10)).
      - rewrite take_insert_ge by lia. reflexivity.
      - apply list_lookup_insert_eq. lia. }
    rewrite drop_insert_lt by lia.
    rewrite <- app_assoc. simpl.
    replace (current + S (List.length taken))%nat
      with (S (current + List.length taken))%nat by lia.
    reflexivity.
  - intros value Hsmall output current _ Hvalue. exists []. simpl.
    rewrite Nat.add_0_r.
    split; [reflexivity|]. split; [lia|]. split; [auto|].
    split; [reflexivity|].
    split; [constructor|]. split; [lia|]. split; [reflexivity|].
    intros _. rewrite take_drop. reflexivity.
Qed.

Lemma reverse_middle (before middle after : list Z) :
  reverse (List.length before) (List.length before + List.length middle)
    (before ++ middle ++ after)
  = before ++ rev middle ++ after.
Proof.
  unfold reverse.
  rewrite take_app_length.
  rewrite drop_app_length.
  replace (List.length before + List.length middle - List.length before)%nat
    with (List.length middle) by lia.
  rewrite take_app_length.
  assert (drop (List.length before + List.length middle)
            (before ++ middle ++ after) = after) as ->.
  { rewrite (app_assoc before middle after).
    apply drop_app_length'. rewrite length_app. reflexivity. }
  reflexivity.
Qed.

Lemma reverse_length (first last : nat) (data : list Z) :
  (first <= last)%nat ->
  List.length (reverse first last data) = List.length data.
Proof.
  intros Horder. unfold reverse.
  rewrite !length_app, length_rev, !length_take, !length_drop. lia.
Qed.

(** [_to_string] of a value that is not negative. *)
Lemma to_string_not_negative (value : Z) (output : list Z)
    (output_data : nat) :
  0 <= value ->
  exists digits : list Z,
    numeral digits
    /\ decimal_value digits = value
    /\ value < 10 ^ Z.of_nat (List.length digits)
    /\ (1 <= value -> 10 ^ (Z.of_nat (List.length digits) - 1) <= value)
    /\ (value <= 9 -> List.length digits = 1%nat)
    /\ fst (_to_string value output output_data)
       = Z.of_nat (List.length digits)
    /\ List.length (snd (_to_string value output output_data))
       = List.length output
    /\ ((output_data + List.length digits <= List.length output)%nat ->
        snd (_to_string value output output_data)
        = take output_data output ++ digits
          ++ drop (output_data + List.length digits) output).
Proof.
  intros Hvalue. rewrite _to_string_equation_1.
  destruct (decide (value < 0)) as [Hnegative|Hnot]; [lia|].
  simpl. cbv zeta.
  destruct (digits_loop_writes value output output_data Hvalue)
    as (taken & Hpointer & Hdigit & Hlead & Hshort & Hdigits & Hremaining
        & Hlength & Houtput).
  set (looped := digits_loop value output output_data) in *.
  set (left_over := fst (fst looped)) in *.
  pose proof (reversed_decimal_value_bound taken Hdigits) as Hbound.
  set (power := 10 ^ Z.of_nat (List.length taken)) in *.
  assert (0 < power) as Hpower by (apply Z.pow_pos_nonneg; lia).
  exists ((48 + left_over) :: rev taken).
  change (List.length ((48 + left_over) :: rev taken))
    with (S (List.length (rev taken))).
  rewrite length_rev.
  split.
  { split; [|split].
    - constructor; [lia|]. apply Forall_rev. exact Hdigits.
    - discriminate.
    - simpl. intros Hzero.
      assert (left_over = 0) as Hleft by (inversion Hzero; lia).
      assert (value <= 9) as Hsmall by lia.
      rewrite (Hshort Hsmall). rewrite Hleft. reflexivity. }
  split.
  { unfold decimal_value. simpl fold_left. rewrite decimal_value_of_reversed.
    fold power. rewrite Hremaining. f_equal. f_equal. lia. }
  split.
  { rewrite Nat2Z.inj_succ, Z.pow_succ_r by lia. fold power. nia. }
  split.
  { intros Hone. rewrite Nat2Z.inj_succ.
    replace (Z.succ (Z.of_nat (List.length taken)) - 1)
      with (Z.of_nat (List.length taken)) by lia.
    fold power. specialize (Hlead Hone). nia. }
  split.
  { intros Hsmall. rewrite (Hshort Hsmall). reflexivity. }
  split; [rewrite Hpointer; lia|].
  split.
  { rewrite reverse_length by lia. rewrite length_insert. exact Hlength. }
  intros Hroom. rewrite Hpointer.
  rewrite Houtput by lia.
  assert (<[(output_data + List.length taken)%nat := 48 + left_over]>
            (take output_data output ++ taken
             ++ drop (output_data + List.length taken) output)
          = take output_data output ++ (taken ++ [48 + left_over])
            ++ drop (output_data + S (List.length taken)) output) as ->.
  { assert (List.length (take output_data output ++ taken)
            = (output_data + List.length taken)%nat) as Hprefix
      by (rewrite length_app, length_take; lia).
    rewrite (app_assoc (take output_data output) taken).
    rewrite insert_app_r_alt by lia.
    rewrite Hprefix, Nat.sub_diag.
    destruct (drop (output_data + List.length taken) output)
      as [|character rest] eqn:Edrop.
    { exfalso. apply (f_equal List.length) in Edrop.
      rewrite length_drop in Edrop. simpl in Edrop. lia. }
    simpl. rewrite <- !app_assoc. simpl. f_equal. f_equal. f_equal.
    replace (output_data + S (List.length taken))%nat
      with ((output_data + List.length taken) + 1)%nat by lia.
    rewrite <- drop_drop. rewrite Edrop. reflexivity. }
  pose proof (reverse_middle (take output_data output)
                (taken ++ [48 + left_over])
                (drop (output_data + S (List.length taken)) output))
    as Hreverse.
  rewrite length_take, length_app in Hreverse. simpl in Hreverse.
  replace (output_data `min` List.length output)%nat with output_data
    in Hreverse by lia.
  replace (S (output_data + List.length taken))
    with (output_data + (List.length taken + 1))%nat by lia.
  rewrite Hreverse. rewrite rev_app_distr. reflexivity.
Qed.

(** [_to_string] of a negative value: the sign, then the other path. *)
Lemma to_string_negative (value : Z) (output : list Z) (output_data : nat) :
  value < 0 ->
  _to_string value output output_data
  = (fst (_to_string (- value) (<[output_data := 45]> output)
            (S output_data)) + 1,
     snd (_to_string (- value) (<[output_data := 45]> output)
            (S output_data))).
Proof.
  intros Hvalue. rewrite _to_string_equation_1.
  destruct (decide (value < 0)) as [Hnegative|Hnot]; [|lia].
  reflexivity.
Qed.

(** What [_to_string] writes and returns, for either sign. *)
Lemma to_string_text (value : Z) (output : list Z) (output_data : nat) :
  exists digits : list Z,
    numeral digits
    /\ decimal_value digits = Z.abs value
    /\ Z.abs value < 10 ^ Z.of_nat (List.length digits)
    /\ (value <> 0 -> 10 ^ (Z.of_nat (List.length digits) - 1) <= Z.abs value)
    /\ (value = 0 -> List.length digits = 1%nat)
    /\ let text := if value <? 0 then 45 :: digits else digits in
       fst (_to_string value output output_data)
       = Z.of_nat (List.length text)
       /\ List.length (snd (_to_string value output output_data))
          = List.length output
       /\ ((output_data + List.length text <= List.length output)%nat ->
           snd (_to_string value output output_data)
           = take output_data output ++ text
             ++ drop (output_data + List.length text) output).
Proof.
  destruct (Z.ltb_spec value 0) as [Hnegative|Hnot].
  - rewrite to_string_negative by exact Hnegative. cbn [fst snd].
    assert (0 <= - value) as Hmagnitude by lia.
    destruct (to_string_not_negative (- value) (<[output_data := 45]> output)
                (S output_data) Hmagnitude)
      as (digits & Hnumeral & Hdecimal & Hhigh & Hlow & _ & Hsize & Hlength
          & Houtput).
    exists digits. rewrite Z.abs_neq by lia.
    split; [exact Hnumeral|]. split; [exact Hdecimal|].
    split; [exact Hhigh|]. split; [intros _; apply Hlow; lia|].
    split; [lia|]. cbv zeta.
    change (List.length (45 :: digits)) with (S (List.length digits)).
    split; [rewrite Hsize; lia|].
    split; [rewrite Hlength; apply length_insert|].
    intros Hroom.
    rewrite Houtput by (rewrite length_insert; lia).
    rewrite (take_S_r _ _ 45) by (apply list_lookup_insert_eq; lia).
    rewrite take_insert_ge by lia.
    rewrite drop_insert_lt by lia.
    rewrite <- app_assoc. simpl.
    replace (output_data + S (List.length digits))%nat
      with (S (output_data + List.length digits)) by lia.
    reflexivity.
  - destruct (to_string_not_negative value output output_data Hnot)
      as (digits & Hnumeral & Hdecimal & Hhigh & Hlow & Hshort & Hsize
          & Hlength & Houtput).
    exists digits. rewrite Z.abs_eq by lia.
    split; [exact Hnumeral|]. split; [exact Hdecimal|].
    split; [exact Hhigh|]. split; [intros Hvalue; apply Hlow; lia|].
    split; [intros ->; apply Hshort; lia|]. cbv zeta.
    split; [exact Hsize|]. split; [exact Hlength|exact Houtput].
Qed.

Lemma power_of_ten_above (value : Z) (digits limit : Z) :
  0 <= digits -> 0 <= limit ->
  10 ^ digits <= value -> value < 10 ^ limit -> digits < limit.
Proof.
  intros Hdigits Hlimit Hlow Hhigh.
  destruct (Z.lt_ge_cases digits limit) as [Hlt|Hge]; [exact Hlt|].
  pose proof (Z.pow_le_mono_r 10 limit digits) as Hmono. lia.
Qed.

Lemma numeral_length (digits : list Z) :
  numeral digits -> 1 <= Z.of_nat (List.length digits).
Proof.
  intros (_ & Hsome & _). destruct digits; [contradiction|].
  simpl List.length. lia.
Qed.

(** X13. [_to_string] writes the decimal numeral of the value, with a minus
    sign in front for a negative one: digits only, no zero in front of
    others, standing for the value's magnitude.  It returns the number of
    characters it wrote and, when they fit in the array, touches no other
    cell. *)
Theorem to_string_writes_the_numeral (value : Z) (output : list Z)
    (output_data : nat) :
  let size := fst (_to_string value output output_data) in
  (output_data + Z.to_nat size <= List.length output)%nat ->
  exists digits : list Z,
    numeral digits
    /\ decimal_value digits = Z.abs value
    /\ let text := if value <? 0 then 45 :: digits else digits in
       size = Z.of_nat (List.length text)
       /\ snd (_to_string value output output_data)
          = take output_data output ++ text
            ++ drop (output_data + List.length text) output.
Proof.
  intros size Hroom. unfold size in *. clear size.
  destruct (to_string_text value output output_data)
    as (digits & Hnumeral & Hdecimal & _ & _ & _ & Hsize & _ & Houtput).
  exists digits. split; [exact Hnumeral|]. split; [exact Hdecimal|].
  cbv zeta in *. split; [exact Hsize|].
  apply Houtput. rewrite Hsize in Hroom. lia.
Qed.

(** X14. The number of characters [_to_string] returns is the number of
    decimal digits of the value's magnitude, plus one for the sign of a
    negative value; it is 1 for zero, and at most 20 for every value of a
    64 bit type that has a negation, so that the array of 32 characters
    always has room.  The array keeps its length. *)
Theorem to_string_size (value : Z) (output : list Z) (output_data : nat) :
  let size := fst (_to_string value output output_data) in
  let digits := if value <? 0 then size - 1 else size in
  1 <= digits
  /\ Z.abs value < 10 ^ digits
  /\ (value <> 0 -> 10 ^ (digits - 1) <= Z.abs value)
  /\ (value = 0 -> size = 1)
  /\ (- 2 ^ 63 < value < 2 ^ 64 -> size <= 20)
  /\ List.length (snd (_to_string value output output_data))
     = List.length output.
Proof.
  cbv zeta.
  destruct (to_string_text value output output_data)
    as (digits & Hnumeral & _ & Hhigh & Hlow & Hzero & Hsize & Hlength & _).
  pose proof (numeral_length digits Hnumeral) as Hsome.
  cbv zeta in Hsize. rewrite Hsize, Hlength.
  assert ((if value <? 0
           then Z.of_nat (List.length (if value <? 0 then 45 :: digits
                                       else digits)) - 1
           else Z.of_nat (List.length (if value <? 0 then 45 :: digits
                                       else digits)))
          = Z.of_nat (List.length digits)) as ->.
  { destruct (value <? 0); [|reflexivity].
    change (List.length (45 :: digits)) with (S (List.length digits)). lia. }
  split; [exact Hsome|]. split; [exact Hhigh|]. split; [exact Hlow|].
  split.
  { intros Hvalue. rewrite Hvalue. simpl. rewrite (Hzero Hvalue).
    reflexivity. }
  split; [|reflexivity].
  intros Hrange.
  assert (2 ^ 63 < 10 ^ 19) as Hsigned by reflexivity.
  assert (2 ^ 64 < 10 ^ 20) as Hunsigned by reflexivity.
  destruct (Z.ltb_spec value 0) as [Hnegative|Hnot].
  - change (List.length (45 :: digits)) with (S (List.length digits)).
    assert (value <> 0) as Hvalue by lia. specialize (Hlow Hvalue).
    assert (Z.of_nat (List.length digits) - 1 < 19); [|lia].
    apply (power_of_ten_above (Z.abs value)); lia.
  - destruct (Z.eq_dec value 0) as [Hvalue|Hvalue].
    + rewrite (Hzero Hvalue). lia.
    + specialize (Hlow Hvalue).
      assert (Z.of_nat (List.length digits) - 1 < 20); [|lia].
      apply (power_of_ten_above (Z.abs value)); lia.
Qed.

(** The absolute value of a value that has a negation in the type. *)
Lemma abs_of_a_value (bits value : Z) :
  0 < bits ->
  - 2 ^ (bits - 1) < value < 2 ^ (bits - 1) ->
  abs bits value = Z.abs value.
Proof.
  intros Hbits Hvalue. unfold abs, wrap_signed.
  assert (2 ^ bits = 2 * 2 ^ (bits - 1)) as ->.
  { rewrite <- Z.pow_succ_r by lia. f_equal. lia. }
  rewrite Z.mod_small; lia.
Qed.

(** The absolute value of the least value of the type is that value. *)
Lemma abs_of_the_least_value (bits : Z) :
  0 < bits -> abs bits (- 2 ^ (bits - 1)) = - 2 ^ (bits - 1).
Proof.
  intros Hbits. unfold abs, wrap_signed.
  assert (0 < 2 ^ (bits - 1)) as Hpositive by (apply Z.pow_pos_nonneg; lia).
  assert (2 ^ bits = 2 * 2 ^ (bits - 1)) as ->.
  { rewrite <- Z.pow_succ_r by lia. f_equal. lia. }
  rewrite Z.abs_neq by lia.
  replace (- - 2 ^ (bits - 1) + 2 ^ (bits - 1)) with (2 * 2 ^ (bits - 1))
    by lia.
  rewrite Z.mod_same by lia. lia.
Qed.

(** X15. The [parse] overloads leave a value of magnitude 500000000 and
    more that has a negation in its type to [_to_string], whatever
    [posprintf] would do: the array then starts with the numeral of the value
    and is untouched after it, and the size returned is the numeral's
    length, 9 to 20 characters.  The least value of a signed type is not
    among them: its [abs] is negative, and it goes to [posprintf] with
    ["%d"], after the cast to [int] in the overload for [int64_t]. *)
Theorem parse_of_a_large_value (p : posprintf_routines) (value : Z)
    (output : list Z) :
  500000000 <= Z.abs value ->
  - 2 ^ 63 < value < 2 ^ 64 ->
  List.length output = 32%nat ->
  (exists digits : list Z,
     numeral digits
     /\ decimal_value digits = Z.abs value
     /\ let text := if value <? 0 then 45 :: digits else digits in
        let written :=
          (Z.of_nat (List.length text),
           text ++ drop (List.length text) output) in
        (- 2 ^ 31 < value < 2 ^ 31 ->
         parse p value output = written
         /\ parse_long p value output = written)
        /\ (value < 2 ^ 63 -> parse_int64 p value output = written)
        /\ (0 <= value -> parse_unsigned p value output = written)
        /\ (9 <= List.length text <= 20)%nat)
  /\ parse p (- 2 ^ 31) output
     = (string_view_size (posprintf_d p (- 2 ^ 31) output),
        posprintf_d p (- 2 ^ 31) output)
  /\ parse_int64 p (- 2 ^ 63) output
     = (string_view_size (posprintf_d p 0 output), posprintf_d p 0 output).
Proof.
  intros Hlarge Hrange Hroom.
  assert (- 2 ^ 31 < value < 2 ^ 31 ->
          parse p value output = _to_string value output 0
          /\ parse_long p value output = _to_string value output 0)
    as Hparse.
  { intros Hint. unfold parse, parse_long. cbv zeta.
    rewrite (abs_of_a_value 32 value) by lia.
    assert ((Z.abs value <? 65536) = false) as -> by (apply Z.ltb_ge; lia).
    assert ((Z.abs value <? 500000000) = false) as ->
      by (apply Z.ltb_ge; lia).
    split; reflexivity. }
  assert (value < 2 ^ 63 ->
          parse_int64 p value output = _to_string value output 0)
    as Hparse64.
  { intros Hint. unfold parse_int64. cbv zeta.
    rewrite (abs_of_a_value 64 value) by lia.
    assert ((Z.abs value <? 65536) = false) as -> by (apply Z.ltb_ge; lia).
    assert ((Z.abs value <? 500000000) = false) as ->
      by (apply Z.ltb_ge; lia).
    reflexivity. }
  assert (0 <= value -> parse_unsigned p value output
                        = _to_string value output 0) as Hunsigned.
  { intros Hvalue. unfold parse_unsigned. cbv zeta.
    assert ((value <? 65536) = false) as -> by (apply Z.ltb_ge; lia).
    assert ((value <? 500000000) = false) as -> by (apply Z.ltb_ge; lia).
    reflexivity. }
  split; [|split].
  2:{ unfold parse. cbv zeta.
      change (- 2 ^ 31) with (- 2 ^ (32 - 1)).
      rewrite (abs_of_the_least_value 32) by lia. reflexivity. }
  2:{ unfold parse_int64. cbv zeta.
      change (- 2 ^ 63) with (- 2 ^ (64 - 1)) at 1.
      rewrite (abs_of_the_least_value 64) by lia. reflexivity. }
  destruct (to_string_text value output 0)
    as (digits & Hnumeral & Hdecimal & Hhigh & Hlow & _ & Hsize & _
        & Houtput).
  pose proof (numeral_length digits Hnumeral) as Hsome.
  assert (value <> 0) as Hvalue by lia. specialize (Hlow Hvalue).
  assert (10 ^ 8 <= 500000000) as Height by (vm_compute; discriminate).
  assert (2 ^ 63 < 10 ^ 19) as Hsigned by reflexivity.
  assert (2 ^ 64 < 10 ^ 20) as Hunsigned' by reflexivity.
  assert (8 < Z.of_nat (List.length digits)) as Hnine
    by (apply (power_of_ten_above (Z.abs value)); lia).
  assert (Z.of_nat (List.length digits) - 1
          < (if value <? 0 then 19 else 20)) as Htwenty.
  { destruct (Z.ltb_spec value 0);
      apply (power_of_ten_above (Z.abs value)); lia. }
  cbv zeta in *.
  assert (9 <= Z.of_nat (List.length (if value <? 0 then 45 :: digits
                                      else digits)) <= 20) as Hlength.
  { destruct (value <? 0); simpl List.length; lia. }
  assert (_to_string value output 0
          = (Z.of_nat (List.length (if value <? 0 then 45 :: digits
                                    else digits)),
             (if value <? 0 then 45 :: digits else digits)
             ++ drop (List.length (if value <? 0 then 45 :: digits
                                   else digits)) output)) as Hwritten.
  { rewrite (surjective_pairing (_to_string value output 0)).
    rewrite Hsize, Houtput by lia. reflexivity. }
  exists digits. split; [exact Hnumeral|]. split; [exact Hdecimal|].
  split; [|split; [|split]].
  - intros Hint. destruct (Hparse Hint) as [-> ->].
    split; exact Hwritten.
  - intros Hint. rewrite (Hparse64 Hint). exact Hwritten.
  - intros Hpositive. rewrite (Hunsigned Hpositive). exact Hwritten.
  - lia.
Qed.

End to_string.

(** ** Template actions *)

Lemma uint16_increment_small (counter : Z) :
  0 <= counter < 65535 ->
  template_actions.uint16_increment counter = counter + 1.
Proof.
  intros Hcounter. unfold template_actions.uint16_increment.
  apply Z.mod_small. lia.
Qed.

Lemma uint16_increment_range (counter : Z) :
  0 <= template_actions.uint16_increment counter < 65536.
Proof.
  unfold template_actions.uint16_increment. apply Z.mod_pos_bound. lia.
Qed.

Lemma repeat_update_add {A world : Type} (update : A -> world -> A * world)
    (n m : nat) (action : A) (w : world) :
  template_actions.repeat_update update (n + m) action w
  = template_actions.repeat_update update m
      (fst (template_actions.repeat_update update n action w))
      (snd (template_actions.repeat_update update n action w)).
Proof.
  revert action w. induction n as [|n IH]; intros action w; simpl.
  - reflexivity.
  - destruct (update action w) as [action' w']. apply IH.
Qed.

Section duration_by.
Context {Property world : Type} `{property_type Property}
  (manager : property_manager Property world).

Import template_actions.
Import duration_by_template_action.

(** Updates that only count. *)
Lemma duration_by_waits (k : nat) (action : t) (w : world) :
  0 <= _current_update action ->
  _current_update action + Z.of_nat k <= _duration_updates action - 1 ->
  _duration_updates action <= 65536 ->
  repeat_update (update manager) k action w
  = (with_current_update (_current_update action + Z.of_nat k) action, w).
Proof.
  revert action. induction k as [|k IH]; intros action Hcounter Hroom Hshort.
  - simpl. rewrite Z.add_0_r. destruct action. reflexivity.
  - simpl. unfold update at 1.
    assert ((_current_update action =? _duration_updates action - 1) = false)
      as -> by (apply Z.eqb_neq; lia).
    rewrite uint16_increment_small by lia.
    rewrite IH; simpl; try lia.
    unfold with_current_update. simpl. f_equal. f_equal. lia.
Qed.

(** One period: [duration_updates] calls, of which the last one acts. *)
Lemma duration_by_period (action : t) (w : world) :
  _current_update action = 0 ->
  1 <= _duration_updates action <= 65536 ->
  repeat_update (update manager) (Z.to_nat (_duration_updates action))
    action w
  = (action,
     set manager
       (property_add (get manager w) (_delta_property action)) w).
Proof.
  intros Hcounter Hduration.
  replace (Z.to_nat (_duration_updates action))
    with (Z.to_nat (_duration_updates action - 1) + 1)%nat by lia.
  rewrite repeat_update_add.
  rewrite (duration_by_waits (Z.to_nat (_duration_updates action - 1))
             action w) by lia.
  simpl. unfold update. simpl.
  assert ((_current_update action
           + Z.of_nat (Z.to_nat (_duration_updates action - 1))
           =? _duration_updates action - 1) = true) as ->
    by (apply Z.eqb_eq; lia).
  unfold with_current_update. simpl.
  destruct action; simpl in *. subst. reflexivity.
Qed.

(** X16. A [duration_by_template_action] of a duration up to 65536 adds its
    delta on every [duration_updates]-th call of [update] and on no other:
    after [periods] full periods and [rest] more calls the property has
    been added to [periods] times and the counter stands at [rest]. *)
Theorem duration_by_acts_once_per_period
    (duration_updates : Z) (delta_property : Property) (w : world)
    (action : t) (periods : nat) (rest : Z) :
  make manager duration_updates delta_property w = Ok action ->
  duration_updates <= 65536 ->
  0 <= rest < duration_updates ->
  repeat_update (update manager)
    (periods * Z.to_nat duration_updates + Z.to_nat rest) action w
  = (with_current_update rest action,
     Nat.iter periods
       (fun w => set manager
                   (property_add (get manager w) delta_property) w) w).
Proof.
  intros Hmake Hshort Hrest. unfold make in Hmake.
  destruct (duration_updates >? 0) eqn:Epositive; [|discriminate Hmake].
  simpl in Hmake. inversion Hmake as [Haction]. clear Hmake.
  assert (0 < duration_updates) as Hpositive by lia.
  set (initial :=
         {| _current_update := 0; _delta_property := delta_property;
            _initial_property := get manager w;
            _duration_updates := duration_updates |}).
  assert (forall w0 : world,
             repeat_update (update manager)
               (periods * Z.to_nat duration_updates) initial w0
             = (initial,
                Nat.iter periods
                  (fun w => set manager
                              (property_add (get manager w) delta_property)
                              w) w0)) as Hperiods.
  { induction periods as [|periods IH]; intros w0.
    - reflexivity.
    - change (S periods * Z.to_nat duration_updates)%nat
        with (Z.to_nat duration_updates
              + periods * Z.to_nat duration_updates)%nat.
      rewrite repeat_update_add.
      pose proof (duration_by_period initial w0) as Hperiod.
      change (_duration_updates initial) with duration_updates in Hperiod.
      rewrite Hperiod by (simpl; lia).
      cbn [fst snd]. rewrite IH.
      rewrite Nat.iter_succ_r. reflexivity. }
  rewrite repeat_update_add, Hperiods. cbn [fst snd].
  rewrite (duration_by_waits (Z.to_nat rest) initial) by (simpl; lia).
  simpl. rewrite Z2Nat.id by lia. reflexivity.
Qed.

(** X17. The constructor accepts any positive duration, but the counter has
    16 bits: with a duration above 65536 the counter never reaches
    [duration_updates - 1], and no number of calls of [update] ever touches
    the property. *)
Theorem duration_by_above_the_counter_never_acts
    (duration_updates : Z) (delta_property : Property) (w : world)
    (updates : nat) :
  65536 < duration_updates ->
  exists action : t,
    make manager duration_updates delta_property w = Ok action
    /\ snd (repeat_update (update manager) updates action w) = w.
Proof.
  intros Hlong. unfold make.
  assert ((duration_updates >? 0) = true) as -> by lia.
  simpl. eexists. split; [reflexivity|].
  match goal with
  | |- snd (repeat_update _ _ ?initial _) = _ =>
      assert (0 <= _current_update initial < 65536) as Hcounter
        by (simpl; lia);
      assert (_duration_updates initial = duration_updates) as Hduration
        by reflexivity;
      generalize dependent initial
  end.
  induction updates as [|updates IH]; intros action Hcounter Hduration.
  - reflexivity.
  - simpl. unfold update at 1.
    assert ((_current_update action =? _duration_updates action - 1) = false)
      as -> by (apply Z.eqb_neq; lia).
    apply IH.
    + simpl. apply uint16_increment_range.
    + exact Hduration.
Qed.

End duration_by.

Section to_action.
Context {Property world : Type} `{property_type Property}
  (manager : property_manager Property world).

Import template_actions.
Import to_template_action.

(** The constructor returns exactly for durations from 1 to 65535. *)
Lemma to_action_make (duration_updates : Z) (final_property : Property)
    (w : world) (action : t) :
  make manager duration_updates final_property w = Ok action ->
  1 <= duration_updates <= 65535
  /\ action
     = {| _current_update := 0;
          _final_property := final_property;
          _initial_property := get manager w;
          _delta_property :=
            property_div (property_sub final_property (get manager w))
              duration_updates;
          _duration_updates := duration_updates |}.
Proof.
  unfold make, _calculate_delta_property, uint16_max. intros Hmake.
  destruct (duration_updates >? 0) eqn:Epositive; [|discriminate Hmake].
  destruct (duration_updates <=? 65535) eqn:Eshort; [|discriminate Hmake].
  simpl in Hmake. inversion Hmake. split; [lia|reflexivity].
Qed.

(** The updates before the last one add the delta. *)
Lemma to_action_steps (k : nat) (action : t) (w : world) :
  0 <= _current_update action ->
  _current_update action + Z.of_nat k < _duration_updates action ->
  _duration_updates action <= 65535 ->
  repeat_update_result (update manager) k action w
  = Ok (with_current_update (_current_update action + Z.of_nat k) action,
        Nat.iter k
          (fun w => set manager
                      (property_add (get manager w) (_delta_property action))
                      w) w).
Proof.
  revert action w.
  induction k as [|k IH]; intros action w Hcounter Hroom Hshort.
  - simpl. rewrite Z.add_0_r. destruct action. reflexivity.
  - rewrite Nat.iter_succ_r.
    simpl repeat_update_result. unfold update at 1. unfold done.
    assert ((_current_update action =? _duration_updates action) = false)
      as -> by (apply Z.eqb_neq; lia).
    simpl. rewrite uint16_increment_small by lia.
    assert ((_current_update action + 1 =? _duration_updates action) = false)
      as -> by (apply Z.eqb_neq; lia).
    rewrite IH by (simpl; lia). simpl.
    unfold with_current_update. simpl. do 3 f_equal. lia.
Qed.

(** X18. A [to_template_action] of [duration_updates] updates: each of the
    first [duration_updates - 1] calls of [update] adds the delta, the last
    one sets the final property itself, so that a manager that reads back
    what was set reads exactly the final property whatever the division
    that gave the delta lost; the action is then done, and one more
    [update] stops in the assertion. *)
Theorem to_action_ends_on_the_final_property
    (duration_updates : Z) (final_property : Property) (w : world)
    (action : t) :
  make manager duration_updates final_property w = Ok action ->
  let step :=
    fun w => set manager
               (property_add (get manager w) (_delta_property action)) w in
  let before_last :=
    Nat.iter (Z.to_nat (duration_updates - 1)) step w in
  let finished := with_current_update duration_updates action in
  (forall updates : nat,
      Z.of_nat updates < duration_updates ->
      repeat_update_result (update manager) updates action w
      = Ok (with_current_update (Z.of_nat updates) action,
            Nat.iter updates step w)
      /\ done (with_current_update (Z.of_nat updates) action) = false)
  /\ repeat_update_result (update manager) (Z.to_nat duration_updates)
       action w
     = Ok (finished, set manager final_property before_last)
  /\ done finished = true
  /\ update manager finished (set manager final_property before_last)
     = Fatal "Action is done" []
  /\ ((forall (value : Property) (w : world),
          get manager (set manager value w) = value) ->
      get manager (set manager final_property before_last)
      = final_property).
Proof.
  intros Hmake step before_last finished.
  destruct (to_action_make _ _ _ _ Hmake) as [Hduration Haction].
  assert (_current_update action = 0) as Hcounter by (subst; reflexivity).
  assert (_duration_updates action = duration_updates) as Hsame
    by (subst; reflexivity).
  assert (_final_property action = final_property) as Hfinal
    by (subst; reflexivity).
  split; [|split; [|split; [|split]]].
  - intros updates Hupdates. split.
    + rewrite to_action_steps by lia. rewrite Hcounter. reflexivity.
    + unfold done. simpl. apply Z.eqb_neq. lia.
  - replace (Z.to_nat duration_updates)
      with (Z.to_nat (duration_updates - 1) + 1)%nat by lia.
    assert (forall (n m : nat) (a : t) (w0 : world) (a1 : t) (w1 : world),
               repeat_update_result (update manager) n a w0 = Ok (a1, w1) ->
               repeat_update_result (update manager) (n + m) a w0
               = repeat_update_result (update manager) m a1 w1) as Hadd.
    { induction n as [|n IH]; intros m a w0 a1 w1 E; simpl in *.
      - inversion E. reflexivity.
      - destruct (update manager a w0) as [[a' w']|]; [|discriminate E].
        apply IH. exact E. }
    rewrite (Hadd _ 1%nat _ _ _ _
               (to_action_steps (Z.to_nat (duration_updates - 1)) action w
                  ltac:(lia) ltac:(lia) ltac:(lia))).
    simpl repeat_update_result. unfold update, done. simpl.
    rewrite Hcounter, Hsame.
    assert ((0 + Z.of_nat (Z.to_nat (duration_updates - 1))
             =? duration_updates) = false) as ->
      by (apply Z.eqb_neq; lia).
    simpl. rewrite uint16_increment_small by lia.
    assert ((0 + Z.of_nat (Z.to_nat (duration_updates - 1)) + 1
             =? duration_updates) = true) as ->
      by (apply Z.eqb_eq; lia).
    rewrite Hfinal. unfold finished, with_current_update. simpl.
    do 3 f_equal. lia.
  - unfold done, finished. simpl. rewrite Hsame. apply Z.eqb_refl.
  - unfold update, done, finished. simpl. rewrite Hsame, Z.eqb_refl.
    reflexivity.
  - intros Hreads. apply Hreads.
Qed.

End to_action.

Section loop_action.
Context {Property world : Type} `{property_type Property}
  (manager : property_manager Property world).

Import template_actions.
Import loop_template_action.

(** The updates of one direction before its last one. *)
Lemma loop_action_steps (k : nat) (action : t) (w : world) :
  0 <= _current_update action ->
  _current_update action + Z.of_nat k < _duration_updates action ->
  _duration_updates action <= 65535 ->
  repeat_update (update manager) k action w
  = (with_state (_reverse action) (_current_update action + Z.of_nat k)
       action,
     Nat.iter k
       (fun w =>
          set manager
            (if _reverse action
             then property_sub (get manager w) (_delta_property action)
             else property_add (get manager w) (_delta_property action))
            w) w).
Proof.
  revert action w.
  induction k as [|k IH]; intros action w Hcounter Hroom Hshort.
  - simpl. rewrite Z.add_0_r. destruct action. reflexivity.
  - rewrite Nat.iter_succ_r.
    simpl repeat_update. unfold update at 1. cbv zeta.
    rewrite uint16_increment_small by lia.
    assert ((_current_update action + 1 =? _duration_updates action) = false)
      as -> by (apply Z.eqb_neq; lia).
    destruct (_reverse action) eqn:Ereverse.
    + rewrite IH by (simpl; lia). simpl.
      unfold with_state. simpl. rewrite ?Ereverse. do 2 f_equal. lia.
    + rewrite IH by (simpl; lia). simpl.
      unfold with_state. simpl. rewrite ?Ereverse. do 2 f_equal. lia.
Qed.

(** One direction: [duration_updates] calls, of which the last one sets the
    end of the direction and turns the action round. *)
Lemma loop_action_half (action : t) (w : world) :
  _current_update action = 0 ->
  1 <= _duration_updates action <= 65535 ->
  repeat_update (update manager) (Z.to_nat (_duration_updates action))
    action w
  = (with_state (negb (_reverse action)) 0 action,
     set manager
       (if _reverse action then _initial_property action
        else _final_property action)
       (Nat.iter (Z.to_nat (_duration_updates action - 1))
          (fun w =>
             set manager
               (if _reverse action
                then property_sub (get manager w) (_delta_property action)
                else property_add (get manager w) (_delta_property action))
               w) w)).
Proof.
  intros Hcounter Hduration.
  replace (Z.to_nat (_duration_updates action))
    with (Z.to_nat (_duration_updates action - 1) + 1)%nat at 1 by lia.
  rewrite repeat_update_add.
  rewrite (loop_action_steps (Z.to_nat (_duration_updates action - 1))
             action w) by lia.
  cbn [fst snd]. simpl repeat_update. unfold update. cbv zeta. simpl.
  rewrite uint16_increment_small by lia.
  assert ((_current_update action
           + Z.of_nat (Z.to_nat (_duration_updates action - 1)) + 1
           =? _duration_updates action) = true) as ->
    by (apply Z.eqb_eq; lia).
  destruct (_reverse action); reflexivity.
Qed.

(** The constructor returns exactly for durations from 1 to 65535. *)
Lemma loop_action_make (duration_updates : Z) (final_property : Property)
    (w : world) (action : t) :
  make manager duration_updates final_property w = Ok action ->
  1 <= duration_updates <= 65535
  /\ action
     = {| _reverse := false;
          _current_update := 0;
          _final_property := final_property;
          _initial_property := get manager w;
          _delta_property :=
            property_div (property_sub final_property (get manager w))
              duration_updates;
          _duration_updates := duration_updates |}.
Proof.
  unfold make, _calculate_delta_property, uint16_max. intros Hmake.
  destruct (duration_updates >? 0) eqn:Epositive; [|discriminate Hmake].
  destruct (duration_updates <=? 65535) eqn:Eshort; [|discriminate Hmake].
  simpl in Hmake. inversion Hmake. split; [lia|reflexivity].
Qed.

(** X19. A [loop_template_action] goes to the final property in
    [duration_updates] calls of [update], setting it exactly on the last
    one, and comes back in as many, setting the initial property exactly on
    the last one; after the [2 * duration_updates] calls the action is in
    the state the constructor left it in, so the same repeats for ever. *)
Theorem loop_action_comes_back
    (duration_updates : Z) (final_property : Property) (w : world)
    (action : t) :
  make manager duration_updates final_property w = Ok action ->
  let forth :=
    fun w => set manager
               (property_add (get manager w) (_delta_property action)) w in
  let back :=
    fun w => set manager
               (property_sub (get manager w) (_delta_property action)) w in
  let there :=
    set manager final_property
      (Nat.iter (Z.to_nat (duration_updates - 1)) forth w) in
  let here :=
    set manager (get manager w)
      (Nat.iter (Z.to_nat (duration_updates - 1)) back there) in
  repeat_update (update manager) (Z.to_nat duration_updates) action w
  = (with_state true 0 action, there)
  /\ repeat_update (update manager)
       (Z.to_nat duration_updates + Z.to_nat duration_updates) action w
     = (action, here)
  /\ ((forall (value : Property) (w : world),
          get manager (set manager value w) = value) ->
      get manager there = final_property
      /\ get manager here = get manager w).
Proof.
  intros Hmake.
  destruct (loop_action_make _ _ _ _ Hmake) as [Hduration ->].
  clear Hmake. cbv zeta.
  set (fresh :=
         {| _reverse := false;
            _current_update := 0;
            _final_property := final_property;
            _initial_property := get manager w;
            _delta_property :=
              property_div (property_sub final_property (get manager w))
                duration_updates;
            _duration_updates := duration_updates |}).
  set (there :=
         set manager final_property
           (Nat.iter (Z.to_nat (duration_updates - 1))
              (fun w => set manager
                          (property_add (get manager w)
                             (_delta_property fresh)) w) w)).
  assert (repeat_update (update manager) (Z.to_nat duration_updates) fresh w
          = (with_state true 0 fresh, there)) as Hthere.
  { exact (loop_action_half fresh w eq_refl Hduration). }
  split; [exact Hthere|]. split.
  - rewrite repeat_update_add, Hthere. cbn [fst snd].
    exact (loop_action_half (with_state true 0 fresh) there eq_refl
             Hduration).
  - intros Hreads. split; apply Hreads.
Qed.

End loop_action.

Section toggle_action.
Context {Property world : Type}
  (manager : property_manager Property world).

Import template_actions.
Import toggle_template_action.

(** Updates that only count. *)
Lemma toggle_action_waits (k : nat) (action : t) (w : world) :
  0 <= _current_update action ->
  _current_update action + Z.of_nat k < _duration_updates action ->
  _duration_updates action <= 65535 ->
  repeat_update (update manager) k action w
  = (with_state (_reverse action) (_current_update action + Z.of_nat k)
       action, w).
Proof.
  revert action.
  induction k as [|k IH]; intros action Hcounter Hroom Hshort.
  - simpl. rewrite Z.add_0_r. destruct action. reflexivity.
  - simpl repeat_update. unfold update at 1. cbv zeta.
    rewrite uint16_increment_small by lia.
    assert ((_current_update action + 1 =? _duration_updates action) = false)
      as -> by (apply Z.eqb_neq; lia).
    rewrite IH by (simpl; lia). simpl.
    unfold with_state. simpl. do 2 f_equal. lia.
Qed.

Lemma toggle_action_half (action : t) (w : world) :
  _current_update action = 0 ->
  1 <= _duration_updates action <= 65535 ->
  repeat_update (update manager) (Z.to_nat (_duration_updates action))
    action w
  = (with_state (negb (_reverse action)) 0 action,
     set manager
       (if _reverse action then _initial_property action
        else _new_property action) w).
Proof.
  intros Hcounter Hduration.
  replace (Z.to_nat (_duration_updates action))
    with (Z.to_nat (_duration_updates action - 1) + 1)%nat at 1 by lia.
  rewrite repeat_update_add.
  rewrite (toggle_action_waits (Z.to_nat (_duration_updates action - 1))
             action w) by lia.
  cbn [fst snd]. simpl repeat_update. unfold update. cbv zeta. simpl.
  rewrite uint16_increment_small by lia.
  assert ((_current_update action
           + Z.of_nat (Z.to_nat (_duration_updates action - 1)) + 1
           =? _duration_updates action) = true) as ->
    by (apply Z.eqb_eq; lia).
  destruct (_reverse action); reflexivity.
Qed.

(** X20. A [toggle_template_action] of a duration up to 65535 sets the new
    property on the [duration_updates]-th call of [update] and not before,
    sets the initial one again as many calls later, and is then in the
    state the constructor left it in.  The constructor accepts longer
    durations too, but the 16 bit counter never reaches them: the property
    is then never set. *)
Theorem toggle_action_period
    (duration_updates : Z) (new_property : Property) (w : world)
    (action : t) :
  make manager duration_updates new_property w = Ok action ->
  (duration_updates <= 65535 ->
   (forall updates : nat,
       Z.of_nat updates < duration_updates ->
       snd (repeat_update (update manager) updates action w) = w)
   /\ repeat_update (update manager) (Z.to_nat duration_updates) action w
      = (with_state true 0 action, set manager new_property w)
   /\ repeat_update (update manager)
        (Z.to_nat duration_updates + Z.to_nat duration_updates) action w
      = (action,
         set manager (get manager w) (set manager new_property w)))
  /\ (65535 < duration_updates ->
      forall updates : nat,
        snd (repeat_update (update manager) updates action w) = w).
Proof.
  unfold make. intros Hmake.
  destruct (duration_updates >? 0) eqn:Epositive; [|discriminate Hmake].
  simpl in Hmake. inversion Hmake as [Haction]. clear Hmake.
  set (fresh :=
         {| _reverse := false;
            _current_update := 0;
            _initial_property := get manager w;
            _new_property := new_property;
            _duration_updates := duration_updates |}).
  split.
  - intros Hshort.
    assert (1 <= duration_updates <= 65535) as Hduration by lia.
    assert (repeat_update (update manager) (Z.to_nat duration_updates)
              fresh w
            = (with_state true 0 fresh, set manager new_property w))
      as Hthere by exact (toggle_action_half fresh w eq_refl Hduration).
    split; [|split].
    + intros updates Hupdates.
      rewrite (toggle_action_waits updates fresh w) by (simpl; lia).
      reflexivity.
    + exact Hthere.
    + rewrite repeat_update_add, Hthere. cbn [fst snd].
      exact (toggle_action_half (with_state true 0 fresh)
               (set manager new_property w) eq_refl Hduration).
  - intros Hlong updates.
    assert (0 <= _current_update fresh < 65536) as Hcounter by (simpl; lia).
    assert (_duration_updates fresh = duration_updates) as Hsame
      by reflexivity.
    generalize dependent fresh.
    induction updates as [|updates IH]; intros action' Hcounter Hsame.
    + reflexivity.
    + simpl. unfold update at 1. cbv zeta.
      pose proof (uint16_increment_range (_current_update action'))
        as Hrange.
      assert ((uint16_increment (_current_update action')
               =? _duration_updates action') = false) as ->
        by (apply Z.eqb_neq; lia).
      apply IH; simpl; [exact Hrange|exact Hsame].
Qed.

End toggle_action.

Section bool_toggle_action.
Context {world : Type} (manager : property_manager bool world).

Import template_actions.

(** X21. A [bool_toggle_template_action] is the [toggle_template_action]
    on [bool] whose new property is the negation of the initial one: the
    constructors, [update] and [reset] of the two classes correspond, call
    by call. *)
Theorem bool_toggle_is_a_toggle (duration_updates : Z)
    (action : bool_toggle_template_action.t) (w : world) :
  (match bool_toggle_template_action.make manager duration_updates w with
   | Ok made =>
       toggle_template_action.make manager duration_updates
         (negb (get manager w)) w = Ok (as_toggle made)
   | Fatal message values =>
       toggle_template_action.make manager duration_updates
         (negb (get manager w)) w = Fatal message values
   end)
  /\ toggle_template_action.update manager (as_toggle action) w
     = (as_toggle (fst (bool_toggle_template_action.update manager action w)),
        snd (bool_toggle_template_action.update manager action w))
  /\ toggle_template_action.reset manager (as_toggle action) w
     = (as_toggle (fst (bool_toggle_template_action.reset manager action w)),
        snd (bool_toggle_template_action.reset manager action w))
  /\ (forall updates : nat,
        repeat_update (toggle_template_action.update manager) updates
          (as_toggle action) w
        = (as_toggle
             (fst (repeat_update (bool_toggle_template_action.update manager)
                     updates action w)),
           snd (repeat_update (bool_toggle_template_action.update manager)
                  updates action w))).
Proof.
  assert (forall (a : bool_toggle_template_action.t) (w0 : world),
             toggle_template_action.update manager (as_toggle a) w0
             = (as_toggle
                  (fst (bool_toggle_template_action.update manager a w0)),
                snd (bool_toggle_template_action.update manager a w0)))
    as Hupdate.
  { intros a w0.
    unfold toggle_template_action.update, bool_toggle_template_action.update.
    cbv zeta. simpl.
    destruct (uint16_increment
                (bool_toggle_template_action._current_update a)
              =? bool_toggle_template_action._duration_updates a);
      [destruct (bool_toggle_template_action._reverse a)|]; reflexivity. }
  split; [|split; [|split]].
  - unfold bool_toggle_template_action.make, toggle_template_action.make.
    destruct (duration_updates >? 0); reflexivity.
  - apply Hupdate.
  - reflexivity.
  - intros updates. revert action w.
    induction updates as [|updates IH]; intros action w.
    + reflexivity.
    + simpl. rewrite Hupdate.
      destruct (bool_toggle_template_action.update manager action w)
        as [action' w'].
      apply IH.
Qed.

End bool_toggle_action.

Section cyclic_actions.
Context {world : Type} (manager : property_manager Z world).

Import template_actions.

(** An arithmetic result that is an [int] is left as it is. *)
Lemma int_wrap_small (value : Z) :
  - 2 ^ 31 <= value < 2 ^ 31 -> example_actions.int_wrap value = value.
Proof.
  intros Hvalue. unfold example_actions.int_wrap.
  rewrite Z.mod_small; lia.
Qed.

(** X22. For an [int] property: when the property is between the minimum
    and the amount after the maximum, the delta is no larger in magnitude
    than the distance between them, and neither the minimum less that
    distance nor the amount after the maximum plus that distance leaves the
    [int]s, the property still is in that range after an [update] of a
    [cyclic_by_template_action], and it has moved by the delta up to one
    turn of the cycle. *)
Theorem cyclic_by_stays_in_range
    (action : cyclic_by_template_action.t (Property := Z)) (w : world) :
  let low := cyclic_by_template_action._min_property action in
  let high := cyclic_by_template_action._after_max_property action in
  let delta := cyclic_by_template_action._delta_property action in
  (forall (value : Z) (w : world),
      get manager (set manager value w) = value) ->
  low <= get manager w < high ->
  Z.abs delta <= high - low ->
  - 2 ^ 31 <= low - (high - low) ->
  high + (high - low) <= 2 ^ 31 ->
  let after := snd (cyclic_by_template_action.update manager action w) in
  low <= get manager after < high
  /\ (get manager after = get manager w + delta
      \/ get manager after = get manager w + delta + (high - low)
      \/ get manager after = get manager w + delta - (high - low)).
Proof.
  intros low high delta Hreads Hrange Hdelta Hlowest Hhighest after.
  unfold after, cyclic_by_template_action.update. simpl.
  rewrite Hreads. unfold cyclic_by_template_action.cycled. simpl.
  fold low high delta.
  rewrite (int_wrap_small (get manager w + delta)) by lia.
  rewrite (int_wrap_small (high - low)) by lia.
  destruct (Z.ltb_spec (get manager w + delta) low) as [Hbelow|Hnot].
  - rewrite int_wrap_small by lia. split; [lia|]. right. left. reflexivity.
  - destruct (Z.geb_spec (get manager w + delta) high) as [Habove|Hinside].
    + rewrite int_wrap_small by lia.
      split; [lia|]. right. right. reflexivity.
    + split; [lia|]. left. reflexivity.
Qed.

(** Without the last two bounds the update can leave the range: the sum of
    the property and the delta no longer is an [int]. *)
Lemma cyclic_by_wraps_around :
  snd (cyclic_by_template_action.update example_actions.the_manager
         {| cyclic_by_template_action._delta_property := 2;
            cyclic_by_template_action._min_property := 0;
            cyclic_by_template_action._after_max_property := 2147483647;
            cyclic_by_template_action._initial_property := 2147483646 |}
         2147483646)
  = -1.
Proof. reflexivity. Qed.

(** X23. The two actions with a duration differ in [reset]:
    [duration_by_template_action] also puts the counter back to zero,
    [cyclic_duration_by_template_action] leaves it where it is.  After
    [duration_updates - 1] calls of [update] and a [reset], the next
    [update] of the cyclic action already changes the property, while the
    other one only counts. *)
Theorem reset_keeps_the_cyclic_counter
    (duration_updates delta low high : Z) (w : world)
    (plain : duration_by_template_action.t (Property := Z))
    (cyclic : cyclic_duration_by_template_action.t (Property := Z)) :
  duration_by_template_action.make manager duration_updates delta w
  = Ok plain ->
  cyclic_duration_by_template_action.make manager duration_updates delta
    low high w = Ok cyclic ->
  2 <= duration_updates <= 65536 ->
  let waited_plain :=
    repeat_update (duration_by_template_action.update manager)
      (Z.to_nat (duration_updates - 1)) plain w in
  let waited_cyclic :=
    repeat_update (cyclic_duration_by_template_action.update manager)
      (Z.to_nat (duration_updates - 1)) cyclic w in
  let reset_plain :=
    duration_by_template_action.reset manager (fst waited_plain)
      (snd waited_plain) in
  let reset_cyclic :=
    cyclic_duration_by_template_action.reset manager (fst waited_cyclic)
      (snd waited_cyclic) in
  let restored := set manager (get manager w) w in
  snd reset_plain = restored
  /\ snd reset_cyclic = restored
  /\ snd (duration_by_template_action.update manager (fst reset_plain)
            (snd reset_plain)) = restored
  /\ snd (cyclic_duration_by_template_action.update manager
            (fst reset_cyclic) (snd reset_cyclic))
     = set manager
         (cyclic_duration_by_template_action.cycled cyclic
            (get manager restored)) restored.
Proof.
  intros Hplain Hcyclic Hduration.
  unfold duration_by_template_action.make in Hplain.
  unfold cyclic_duration_by_template_action.make in Hcyclic.
  assert ((duration_updates >? 0) = true) as Epositive by lia.
  rewrite Epositive in Hplain, Hcyclic. simpl in Hplain, Hcyclic.
  inversion Hplain as [Hplain']. inversion Hcyclic as [Hcyclic'].
  clear Hplain Hcyclic. subst plain cyclic.
  assert (forall (k : nat) (action : cyclic_duration_by_template_action.t)
            (w0 : world),
             0 <= cyclic_duration_by_template_action._current_update action ->
             cyclic_duration_by_template_action._current_update action
             + Z.of_nat k
             <= cyclic_duration_by_template_action._duration_updates action
                - 1 ->
             cyclic_duration_by_template_action._duration_updates action
             <= 65536 ->
             repeat_update (cyclic_duration_by_template_action.update manager)
               k action w0
             = (cyclic_duration_by_template_action.with_current_update
                  (cyclic_duration_by_template_action._current_update action
                   + Z.of_nat k) action, w0)) as Hwaits.
  { induction k as [|k IH]; intros action w0 Hcounter Hroom Hshort.
    - simpl. rewrite Z.add_0_r. destruct action. reflexivity.
    - simpl. unfold cyclic_duration_by_template_action.update at 1.
      assert ((cyclic_duration_by_template_action._current_update action
               =? cyclic_duration_by_template_action._duration_updates action
                  - 1) = false) as -> by (apply Z.eqb_neq; lia).
      rewrite uint16_increment_small by lia.
      rewrite IH; simpl; try lia.
      unfold cyclic_duration_by_template_action.with_current_update. simpl.
      f_equal. f_equal. lia. }
  cbv zeta.
  rewrite (duration_by_waits manager (Z.to_nat (duration_updates - 1)))
    by (simpl; lia).
  rewrite Hwaits by (simpl; lia).
  cbn [fst snd].
  split; [reflexivity|]. split; [reflexivity|]. split.
  - unfold duration_by_template_action.update.
    cbn [duration_by_template_action._current_update
         duration_by_template_action._duration_updates
         duration_by_template_action.with_current_update
         duration_by_template_action.reset fst snd].
    assert ((0 =? duration_updates - 1) = false) as ->
      by (apply Z.eqb_neq; lia).
    reflexivity.
  - unfold cyclic_duration_by_template_action.update.
    cbn [cyclic_duration_by_template_action._current_update
         cyclic_duration_by_template_action._duration_updates
         cyclic_duration_by_template_action.with_current_update
         cyclic_duration_by_template_action.reset fst snd].
    assert ((0 + Z.of_nat (Z.to_nat (duration_updates - 1))
             =? duration_updates - 1) = true) as ->
      by (apply Z.eqb_eq; lia).
    reflexivity.
Qed.

End cyclic_actions.

(** ** The hero's bomb *)

Section bomb.
Context {B : Type} (blending : game_hero_bomb.blending_action_type B).

Import game_hero_bomb.

Lemma flame_sounds_app (a b : list event) :
  flame_sounds (a ++ b) = (flame_sounds a + flame_sounds b)%nat.
Proof.
  unfold flame_sounds. rewrite List.filter_app, length_app. reflexivity.
Qed.

Lemma bombs_asked_app (a b : list event) :
  bombs_asked (a ++ b) = (bombs_asked a + bombs_asked b)%nat.
Proof.
  unfold bombs_asked. rewrite List.filter_app, length_app. reflexivity.
Qed.

(** One call of [_play_flame_sound]. *)
Lemma play_flame_sound_counts (flame_sound_counter : Z) :
  0 <= flame_sound_counter ->
  fst (_play_flame_sound flame_sound_counter) = flame_sound_counter + 1
  /\ Z.of_nat (flame_sounds (snd (_play_flame_sound flame_sound_counter)))
     = flame_sounds_until (flame_sound_counter + 1)
       - flame_sounds_until flame_sound_counter
  /\ bombs_asked (snd (_play_flame_sound flame_sound_counter)) = 0%nat.
Proof.
  intros Hcounter. unfold _play_flame_sound, flame_sounds_until. cbv zeta.
  rewrite Z.rem_mod_nonneg by lia.
  destruct (Z.gtb_spec (flame_sound_counter + 1) 16) as [Hover|Hunder];
    destruct (Z.eqb_spec ((flame_sound_counter + 1) mod 16) 0)
      as [Hround|Hodd];
    simpl; (split; [reflexivity|]); (split; [|reflexivity]);
    [ change (flame_sounds [call "sound::play flame_thrower" []])
        with 1%nat
    | change (flame_sounds []) with 0%nat ..];
    Z.div_mod_to_equations; lia.
Qed.

Lemma flame_sounds_cons (name : string) (arguments : list Z)
    (log : list event) :
  flame_sounds (call name arguments :: log)
  = ((if String.eqb name "sound::play flame_thrower" then 1 else 0)
     + flame_sounds log)%nat.
Proof.
  unfold flame_sounds. simpl.
  destruct (String.eqb name "sound::play flame_thrower"); reflexivity.
Qed.

Lemma bombs_asked_cons (name : string) (arguments : list Z)
    (log : list event) :
  bombs_asked (call name arguments :: log)
  = ((if String.eqb name "hero.throw_bomb" then 1 else 0)
     + bombs_asked log)%nat.
Proof.
  unfold bombs_asked. simpl.
  destruct (String.eqb name "hero.throw_bomb"); reflexivity.
Qed.

Ltac count_calls :=
  repeat first
    [ rewrite flame_sounds_app | rewrite bombs_asked_app
    | rewrite flame_sounds_cons | rewrite bombs_asked_cons ];
  repeat match goal with
         | |- context [String.eqb ?a ?b] =>
             let v := eval vm_compute in (String.eqb a b) in
             change (String.eqb a b) with v
         end;
  change (flame_sounds []) with 0%nat;
  change (bombs_asked []) with 0%nat;
  cbn [Nat.add].

(** One update of a bomb that is on. *)
Lemma thrown_bomb_update (bomb : t) (i : input) :
  thrown bomb ->
  _status bomb <> INACTIVE ->
  exists (next : t) (log : list event),
    update blending bomb i = Ok (next, log)
    /\ thrown next
    /\ remaining_updates next = remaining_updates bomb - 1
    /\ Z.of_nat (flame_sounds log)
       = flame_sounds_until (_flame_sound_counter next)
         - flame_sounds_until (_flame_sound_counter bomb)
    /\ bombs_asked log = 0%nat.
Proof.
  intros Hthrown Hon. unfold thrown, remaining_updates in *.
  unfold update. unfold open_frames, close_frames in *.
  destruct (_status bomb) eqn:Estatus; [contradiction| |].
  - destruct Hthrown as (Hcounter & Htop & Hbottom & Hflame & Hradius).
    destruct (Z.eqb_spec (_counter bomb) 0) as [Hzero|Hmore]; simpl.
    + eexists. eexists. split; [reflexivity|]. simpl. count_calls.
      split; [lia|]. split; [lia|]. split; [lia|reflexivity].
    + rewrite Htop, Hbottom. simpl.
      destruct (play_flame_sound_counts (_flame_sound_counter bomb))
        as (Hnext & Hsounds & Hasked); [lia|].
      eexists. eexists. split; [reflexivity|]. cbn [_status _counter
        _flame_sound_counter _circle_radius _move_window_top_action
        _move_window_bottom_action _blending_action].
      count_calls. rewrite Hnext, Hasked.
      split; [lia|]. split; [lia|]. split; [|reflexivity].
      exact Hsounds.
  - destruct Hthrown as (Hcounter & Hflame & Hradius).
    set (blended :=
           match _blending_action bomb with
           | Some action =>
               if blending_done blending (blending_update blending action)
               then (None,
                     [call "blending_action.update" [];
                      call "blending_action.reset" []])
               else (Some (blending_update blending action),
                     [call "blending_action.update" []])
           | None => (None, [])
           end).
    assert (flame_sounds (snd blended) = 0%nat
            /\ bombs_asked (snd blended) = 0%nat) as [Hquiet Hnone].
    { unfold blended. destruct (_blending_action bomb) as [action|];
        [destruct (blending_done blending (blending_update blending action))|];
        split; reflexivity. }
    destruct (Z.eqb_spec (_counter bomb) 0) as [Hzero|Hmore]; simpl.
    + eexists. eexists. split; [reflexivity|]. simpl.
      fold blended. count_calls. rewrite Hquiet, Hnone.
      split; [lia|]. split; [lia|]. split; [lia|reflexivity].
    + fold blended.
      set (faded :=
             if _counter bomb - 1 =? 130 - 30
             then (Some (blending_emplace blending (130 - 30) 0),
                   [call "window.set_show_blending" [1];
                    call "blending::set_transparency_alpha" [1];
                    call "blending_action.emplace" [130 - 30; 0];
                    call "background.show_bomb_fade" [130 - 50]])
             else if _counter bomb - 1 =? 20
                  then (None,
                        [call "window.set_boundaries" [0; 0; 0; 0];
                         call "blending_action.reset" [];
                         call "background.show_clouds" [];
                         call "wave_hblank_effect.set_visible" [0]])
                  else (fst blended, [])).
      assert (flame_sounds (snd faded) = 0%nat
              /\ bombs_asked (snd faded) = 0%nat) as [Hquiet' Hnone'].
      { unfold faded. destruct (_counter bomb - 1 =? 130 - 30);
          [|destruct (_counter bomb - 1 =? 20)]; split; reflexivity. }
      eexists. eexists. split; [reflexivity|].
      cbn [_status _counter _flame_sound_counter _circle_radius
           _move_window_top_action _move_window_bottom_action
           _blending_action].
      fold blended. fold faded. count_calls.
      rewrite Hquiet, Hnone, Hquiet', Hnone'.
      destruct (Z.gtb_spec (_counter bomb - 1) 40) as [Hloud|Hlow].
      * destruct (play_flame_sound_counts (_flame_sound_counter bomb))
          as (Hnext & Hsounds & Hasked); [lia|].
        rewrite Hnext, Hasked.
        split; [lia|]. split; [lia|]. split; [|reflexivity].
        simpl. exact Hsounds.
      * cbn [fst snd]. count_calls.
        split; [lia|]. split; [lia|]. split; [lia|reflexivity].
Qed.

(** Updates of a bomb that is on, as long as it is. *)
Lemma thrown_bomb_updates (inputs : list input) (bomb : t) :
  thrown bomb ->
  Z.of_nat (List.length inputs) <= remaining_updates bomb ->
  exists (next : t) (log : list event),
    updates blending inputs bomb = Ok (next, log)
    /\ thrown next
    /\ remaining_updates next
       = remaining_updates bomb - Z.of_nat (List.length inputs)
    /\ Z.of_nat (flame_sounds log)
       = flame_sounds_until (_flame_sound_counter next)
         - flame_sounds_until (_flame_sound_counter bomb)
    /\ bombs_asked log = 0%nat.
Proof.
  revert bomb. induction inputs as [|i inputs IH]; intros bomb Hthrown Hlong.
  - exists bomb, []. simpl. split; [reflexivity|]. split; [exact Hthrown|].
    change (flame_sounds []) with 0%nat.
    split; [lia|]. split; [lia|reflexivity].
  - change (List.length (i :: inputs)) with (S (List.length inputs)) in *.
    assert (_status bomb <> INACTIVE) as Hon.
    { intros Hoff. unfold remaining_updates in Hlong. rewrite Hoff in Hlong.
      lia. }
    destruct (thrown_bomb_update bomb i Hthrown Hon)
      as (next & log & Eupdate & Hnext & Hremaining & Hsounds & Hasked).
    destruct (IH next Hnext ltac:(lia))
      as (last & more & Eupdates & Hlast & Hremaining' & Hsounds' & Hasked').
    exists last, (log ++ more). simpl. rewrite Eupdate, Eupdates.
    split; [reflexivity|]. split; [exact Hlast|]. split; [lia|].
    rewrite flame_sounds_app, bombs_asked_app, Hasked, Hasked'.
    split; [lia|reflexivity].
Qed.

(** The update that throws the bomb. *)
Lemma bomb_thrown (bomb : t) (i : input) :
  _status bomb = INACTIVE ->
  a_pressed i = true ->
  throw_bomb i = true ->
  exists (started : t) (log : list event),
    update blending bomb i = Ok (started, log)
    /\ thrown started
    /\ remaining_updates started = 182
    /\ _flame_sound_counter started = 0
    /\ bombs_asked log = 1%nat.
Proof.
  intros Hoff Hpressed Hthrow. unfold update.
  rewrite Hoff, Hpressed, Hthrow.
  eexists. eexists. split; [reflexivity|].
  unfold thrown, remaining_updates, open_frames, close_frames. simpl.
  split; [|split; [reflexivity|split; reflexivity]].
  repeat split; lia.
Qed.

(** X25. A bomb runs its course whatever the keypad and the hero do
    meanwhile: from the update that throws it, it is open for the next 50
    updates, the circle growing by 4 on each, closes on the 51st, fades for
    130 more and is inactive again after the 182nd.  No update of these
    stops in an assertion, and none asks the hero for another bomb. *)
Theorem bomb_runs_its_course (bomb : t) (thrown_at : input)
    (inputs : list input) :
  _status bomb = INACTIVE ->
  a_pressed thrown_at = true ->
  throw_bomb thrown_at = true ->
  Z.of_nat (List.length inputs) <= 182 ->
  let updates_done := Z.of_nat (List.length inputs) in
  exists (started : t) (first_log : list event) (next : t)
         (log : list event),
    update blending bomb thrown_at = Ok (started, first_log)
    /\ updates blending inputs started = Ok (next, log)
    /\ _status next
       = (if updates_done <=? 50 then OPEN
          else if updates_done <=? 181 then CLOSE else INACTIVE)
    /\ (updates_done <= 50 ->
        _counter next = 50 - updates_done
        /\ _circle_radius next = 4 * updates_done)
    /\ (51 <= updates_done <= 181 ->
        _counter next = 181 - updates_done /\ _circle_radius next = 200)
    /\ bombs_asked log = 0%nat.
Proof.
  intros Hoff Hpressed Hthrow Hlength updates_done.
  destruct (bomb_thrown bomb thrown_at Hoff Hpressed Hthrow)
    as (started & first_log & Estart & Hstarted & Hremaining & _ & _).
  destruct (thrown_bomb_updates inputs started Hstarted ltac:(lia))
    as (next & log & Eupdates & Hnext & Hremaining' & _ & Hasked).
  exists started, first_log, next, log.
  split; [exact Estart|]. split; [exact Eupdates|].
  rewrite Hremaining in Hremaining'. fold updates_done in Hremaining'.
  unfold thrown, remaining_updates, open_frames, close_frames in *.
  destruct (_status next).
  - assert (updates_done = 182) as -> by lia.
    split; [reflexivity|]. split; [lia|]. split; [lia|exact Hasked].
  - destruct Hnext as (Hcounter & _ & _ & _ & Hradius).
    assert ((updates_done <=? 50) = true) as -> by (apply Z.leb_le; lia).
    split; [reflexivity|]. split; [lia|]. split; [lia|exact Hasked].
  - destruct Hnext as (Hcounter & _ & Hradius).
    assert ((updates_done <=? 50) = false) as -> by (apply Z.leb_gt; lia).
    assert ((updates_done <=? 181) = true) as -> by (apply Z.leb_le; lia).
    split; [reflexivity|]. split; [lia|]. split; [lia|exact Hasked].
Qed.

(** X26. The flame sound is played on the 32nd call of
    [_play_flame_sound] since the bomb was thrown and on every 16th from
    there; the call is made on each of the 50 updates that open the bomb
    and on the first 89 of those that close it, so a bomb plays the sound
    7 times, twice while it opens. *)
Theorem bomb_flame_sounds (bomb : t) (thrown_at : input)
    (opening closing : list input) :
  _status bomb = INACTIVE ->
  a_pressed thrown_at = true ->
  throw_bomb thrown_at = true ->
  List.length opening = 50%nat ->
  List.length closing = 132%nat ->
  exists (started : t) (first_log : list event) (open closed : t)
         (open_log close_log : list event),
    update blending bomb thrown_at = Ok (started, first_log)
    /\ updates blending opening started = Ok (open, open_log)
    /\ updates blending closing open = Ok (closed, close_log)
    /\ updates blending (opening ++ closing) started
       = Ok (closed, open_log ++ close_log)
    /\ _flame_sound_counter open = 50
    /\ _flame_sound_counter closed = 139
    /\ flame_sounds first_log = 0%nat
    /\ flame_sounds open_log = 2%nat
    /\ flame_sounds close_log = 5%nat
    /\ flame_sounds (open_log ++ close_log) = 7%nat.
Proof.
  intros Hoff Hpressed Hthrow Hopening Hclosing.
  destruct (bomb_thrown bomb thrown_at Hoff Hpressed Hthrow)
    as (started & first_log & Estart & Hstarted & Hremaining & Hflame & _).
  destruct (thrown_bomb_updates opening started Hstarted ltac:(lia))
    as (open & open_log & Eopen & Hopen & Hremaining' & Hsounds & _).
  destruct (thrown_bomb_updates closing open Hopen ltac:(lia))
    as (closed & close_log & Eclose & Hclosed & Hremaining'' & Hsounds' & _).
  exists started, first_log, open, closed, open_log, close_log.
  assert (_flame_sound_counter open = 50) as Hfifty.
  { unfold thrown, remaining_updates, open_frames, close_frames in *.
    destruct (_status open); [lia| |].
    - destruct Hopen as (_ & _ & _ & Hcount & _). lia.
    - destruct Hopen as (Hcounter & _). lia. }
  assert (_flame_sound_counter closed = 139) as Hlast.
  { unfold thrown, remaining_updates, open_frames, close_frames in *.
    destruct (_status closed).
    - destruct Hclosed as [Hcount _]. lia.
    - destruct Hclosed as (Hcounter & _). lia.
    - destruct Hclosed as (Hcounter & _). lia. }
  rewrite Hflame, Hfifty in Hsounds. rewrite Hfifty, Hlast in Hsounds'.
  change (flame_sounds_until 50 - flame_sounds_until 0) with 2 in Hsounds.
  change (flame_sounds_until 139 - flame_sounds_until 50) with 5 in Hsounds'.
  split; [exact Estart|]. split; [exact Eopen|]. split; [exact Eclose|].
  split.
  { clear - Eopen Eclose. revert started open_log Eopen.
    induction opening as [|i opening IH]; intros started open_log Eopen.
    - simpl in *. inversion Eopen; subst. rewrite Eclose. reflexivity.
    - simpl in *.
      destruct (update blending started i) as [[next log]|];
        [|discriminate Eopen].
      destruct (updates blending opening next) as [[last more]|] eqn:Erest;
        [|discriminate Eopen].
      inversion Eopen; subst.
      rewrite (IH next more Erest). rewrite app_assoc. reflexivity. }
  split; [exact Hfifty|]. split; [exact Hlast|].
  split.
  { unfold update in Estart. rewrite Hoff, Hpressed, Hthrow in Estart.
    inversion Estart. reflexivity. }
  rewrite flame_sounds_app.
  split; [lia|]. split; lia.
Qed.

End bomb.

(** ** The text generator at concrete inputs *)

Ltac plain_characters :=
  repeat (constructor; [unfold plain_character; lia|]); constructor.

(** "AB" in the font of the example: two characters of eight pixels. *)
Lemma width_of_fixed_width_text_example :
  sprite_text_generator.width
    example.the_generator example.the_text example.the_state
  = Ok (16, example.the_state).
Proof.
  apply (width_of_fixed_width_text
           example.the_generator example.the_text example.the_state).
  - reflexivity.
  - unfold example.the_text. plain_characters.
  - unfold example.the_text. simpl. lia.
Defined.

(** "A" and "B" measured apart and together. *)
Lemma width_of_concatenation_example :
  exists wa wb : Z,
    sprite_text_generator.width
      example.the_generator [65] example.the_state
    = Ok (wa, example.the_state)
    /\ sprite_text_generator.width
         example.the_generator [66] example.the_state
       = Ok (wb, example.the_state)
    /\ sprite_text_generator.width
         example.the_generator ([65] ++ [66]) example.the_state
       = Ok (wa + wb, example.the_state).
Proof.
  apply (width_of_concatenation
           example.the_generator [65] [66] example.the_state);
    plain_characters.
Defined.

(** "A", a line feed, "B". *)
Lemma invalid_character_example :
  sprite_text_generator.width
    example.the_generator ([65] ++ 10 :: [66]) example.the_state
  = Fatal "Invalid character: " [10].
Proof.
  apply (invalid_character_is_fatal
           example.the_generator [65] [66] 10 example.the_position
           example.the_state).
  - plain_characters.
  - lia.
  - lia.
  - lia.
Defined.

(** The generator of the example has no UTF-8 characters at all. *)
Lemma unknown_utf8_character_example :
  sprite_text_generator.width
    example.the_generator ([65] ++ 200 :: [66]) example.the_state
  = Fatal "UTF-8 character not found: " [].
Proof.
  apply (unknown_utf8_character_is_fatal
           example.the_generator [65] [66] 200 200 2%positive
           example.the_state).
  - plain_characters.
  - lia.
  - reflexivity.
  - reflexivity.
Defined.

(** The generation of "AB" leaves a vector that starts with the sprite it
    held. *)
Lemma generation_only_appends_example :
  exists s' : sprite_text_generator.state,
    sprite_text_generator.generate_optional example.the_generator
      example.the_position example.the_text example_states.roomy_state
    = Ok (true, s')
    /\ sprite_text_generator.extends
         (sprite_text_generator.output_sprites example_states.roomy_state)
         (sprite_text_generator.output_sprites s').
Proof.
  eexists. split.
  - vm_compute. reflexivity.
  - apply (generation_only_appends
             example.the_generator example.the_position example.the_text).
    right. exists true. vm_compute. reflexivity.
Defined.

(** "A B": two sprites, none for the space. *)
Lemma one_sprite_for_each_character_example :
  exists s' : sprite_text_generator.state,
    sprite_text_generator.generate example.the_generator example.the_position
      [65; 32; 66] example_states.roomy_state = Ok (tt, s')
    /\ adds 2
         (sprite_text_generator.output_sprites example_states.roomy_state)
         (sprite_text_generator.output_sprites s').
Proof.
  eexists. split.
  - vm_compute. reflexivity.
  - apply (one_sprite_for_each_character
             example.the_generator example.the_position [65; 32; 66]).
    + reflexivity.
    + plain_characters.
    + left. vm_compute. reflexivity.
Defined.

(** A vector with room for one sprite that holds one. *)
Lemma full_vector_refuses_text_example :
  sprite_text_generator.generate_optional example.the_generator
    example.the_position example.the_text example_states.full_state
  = Ok (false, example_states.full_state)
  /\ sprite_text_generator.generate example.the_generator example.the_position
       example.the_text example_states.full_state
     = Fatal sprite_text_generator.full_message [].
Proof.
  apply (full_vector_refuses_text
           example.the_generator example.the_position 65 [66]
           example_states.full_state).
  - reflexivity.
  - lia.
  - plain_characters.
  - reflexivity.
Defined.

(** "ABCDE": two sprites, one of four characters and one of one. *)
Lemma four_characters_to_a_sprite_example :
  exists (s' : sprite_text_generator.state) (sprites : nat),
    sprite_text_generator.generate_optional example_states.shared_generator
      example.the_position [65; 66; 67; 68; 69] example_states.roomy_state
    = Ok (true, s')
    /\ adds sprites
         (sprite_text_generator.output_sprites example_states.roomy_state)
         (sprite_text_generator.output_sprites s')
    /\ (5 <= 4 * sprites < 9)%nat.
Proof.
  assert (exists s' : sprite_text_generator.state,
             sprite_text_generator.generate_optional
               example_states.shared_generator example.the_position
               [65; 66; 67; 68; 69] example_states.roomy_state
             = Ok (true, s')) as [s' Egenerate]
    by (eexists; vm_compute; reflexivity).
  exists s'.
  destruct (four_characters_to_a_sprite example_states.shared_generator
              example.the_position [65; 66; 67; 68; 69]
              example_states.roomy_state s' eq_refl eq_refl)
    as (sprites & Hadds & Hcount).
  - repeat (constructor; [lia|]). constructor.
  - right. exact Egenerate.
  - exists sprites. split; [exact Egenerate|].
    split; [exact Hadds|exact Hcount].
Defined.

(** The sprite system of the example takes from its counters in both
    variants, so they agree; "AB" is generated either way. *)
Lemma generate_returns_when_optional_succeeds_example :
  exists s' : sprite_text_generator.state,
    sprite_text_generator.generate_optional example.the_generator
      example.the_position example.the_text example_states.roomy_state
    = Ok (true, s')
    /\ sprite_text_generator.generate example.the_generator
         example.the_position example.the_text example_states.roomy_state
       = Ok (tt, s').
Proof.
  eexists. split.
  - vm_compute. reflexivity.
  - apply (generate_returns_when_optional_succeeds example.the_generator
             example.the_position example.the_text
             example_states.roomy_state).
    + unfold optional_variants_agree. cbn.
      repeat split; intros E;
        repeat match goal with
          | E : context [example.take_tiles ?n ?w] |- _ =>
              destruct (example.take_tiles n w) as [[?|] ?]
          | |- context [example.take_tiles ?n ?w] =>
              destruct (example.take_tiles n w) as [[?|] ?]
          | E : context [example.take_sprite ?w] |- _ =>
              destruct (example.take_sprite w) as [[?|] ?]
          | |- context [example.take_sprite ?w] =>
              destruct (example.take_sprite w) as [[?|] ?]
          end;
        try discriminate E; inversion E; reflexivity.
    + vm_compute. reflexivity.
Defined.

(** ** Numerals and actions at concrete inputs *)

(** -907 written at the third cell of an array of twelve. *)
Lemma to_string_example :
  exists digits : list Z,
    hw_text.numeral digits
    /\ hw_text.decimal_value digits = 907
    /\ hw_text._to_string (-907) (replicate 12 0) 2
       = (Z.of_nat (List.length (45 :: digits)),
          [0; 0] ++ (45 :: digits)
          ++ drop (2 + List.length (45 :: digits)) (replicate 12 0)).
Proof.
  destruct (to_string_writes_the_numeral (-907) (replicate 12 0) 2)
    as (digits & Hnumeral & Hdecimal & Hsize & Houtput).
  - vm_compute. lia.
  - exists digits. split; [exact Hnumeral|]. split; [exact Hdecimal|].
    rewrite (surjective_pairing (hw_text._to_string (-907) (replicate 12 0) 2)).
    rewrite Hsize, Houtput. reflexivity.
Defined.

(** The smallest [int] that has a negation. *)
Lemma parse_of_a_large_value_example :
  exists digits : list Z,
    hw_text.numeral digits
    /\ hw_text.decimal_value digits = 2147483647
    /\ hw_text.parse example_actions.the_posprintf (-2147483647)
         (replicate 32 0)
       = (Z.of_nat (List.length (45 :: digits)),
          (45 :: digits)
          ++ drop (List.length (45 :: digits)) (replicate 32 0)).
Proof.
  destruct (parse_of_a_large_value example_actions.the_posprintf
              (-2147483647) (replicate 32 0))
    as [(digits & Hnumeral & Hdecimal & Hparse & _) _].
  - vm_compute. discriminate.
  - split; vm_compute; reflexivity.
  - reflexivity.
  - exists digits. split; [exact Hnumeral|]. split; [exact Hdecimal|].
    apply Hparse. split; vm_compute; reflexivity.
Defined.

(** A duration of 3 and a delta of 5, from 10: after 7 updates the property
    has been added to twice and the counter stands at 1. *)
Lemma duration_by_example :
  template_actions.repeat_update
    (template_actions.duration_by_template_action.update
       example_actions.the_manager) 7
    {| template_actions.duration_by_template_action._current_update := 0;
       template_actions.duration_by_template_action._delta_property := 5;
       template_actions.duration_by_template_action._initial_property := 10;
       template_actions.duration_by_template_action._duration_updates := 3 |}
    10
  = ({| template_actions.duration_by_template_action._current_update := 1;
        template_actions.duration_by_template_action._delta_property := 5;
        template_actions.duration_by_template_action._initial_property := 10;
        template_actions.duration_by_template_action._duration_updates := 3 |},
     20).
Proof.
  exact (duration_by_acts_once_per_period example_actions.the_manager
           3 5 10
           {| template_actions.duration_by_template_action._current_update :=
                0;
              template_actions.duration_by_template_action._delta_property :=
                5;
              template_actions.duration_by_template_action._initial_property :=
                10;
              template_actions.duration_by_template_action._duration_updates :=
                3 |}
           2 1 eq_refl ltac:(lia) ltac:(lia)).
Defined.

(** A duration of 70000: a thousand updates later the property is
    what it was. *)
Lemma duration_by_above_the_counter_example :
  exists action : template_actions.duration_by_template_action.t,
    template_actions.duration_by_template_action.make
      example_actions.the_manager 70000 5 10 = Ok action
    /\ snd (template_actions.repeat_update
              (template_actions.duration_by_template_action.update
                 example_actions.the_manager) 1000 action 10) = 10.
Proof.
  apply (duration_by_above_the_counter_never_acts
           example_actions.the_manager 70000 5 10 1000).
  lia.
Defined.

(** From 0 to 10 in 4 updates: the delta is 2, the property goes 2, 4, 6
    and then 10. *)
Lemma to_action_example :
  exists action : template_actions.to_template_action.t,
    template_actions.to_template_action.make example_actions.the_manager
      4 10 0 = Ok action
    /\ snd <$> (match
                  template_actions.repeat_update_result
                    (template_actions.to_template_action.update
                       example_actions.the_manager) 3 action 0
                with
                | Ok r => Some r
                | Fatal _ _ => None
                end) = Some 6
    /\ snd <$> (match
                  template_actions.repeat_update_result
                    (template_actions.to_template_action.update
                       example_actions.the_manager) 4 action 0
                with
                | Ok r => Some r
                | Fatal _ _ => None
                end) = Some 10.
Proof.
  eexists. split; [reflexivity|].
  match goal with
  | |- context [template_actions.repeat_update_result _ _ ?action _] =>
      destruct (to_action_ends_on_the_final_property
                  example_actions.the_manager 4 10 0 action eq_refl)
        as (Hsteps & Hlast & _)
  end.
  destruct (Hsteps 3%nat ltac:(lia)) as [Hthree _].
  split.
  - rewrite Hthree. reflexivity.
  - change 4%nat with (Z.to_nat 4). rewrite Hlast. reflexivity.
Defined.

(** From 0 to 10 and back in 4 updates each way. *)
Lemma loop_action_example :
  exists action : template_actions.loop_template_action.t,
    template_actions.loop_template_action.make example_actions.the_manager
      4 10 0 = Ok action
    /\ snd (template_actions.repeat_update
              (template_actions.loop_template_action.update
                 example_actions.the_manager) 4 action 0) = 10
    /\ template_actions.repeat_update
         (template_actions.loop_template_action.update
            example_actions.the_manager) 8 action 0 = (action, 0).
Proof.
  eexists. split; [reflexivity|].
  match goal with
  | |- context [template_actions.repeat_update _ _ ?action _] =>
      destruct (loop_action_comes_back
                  example_actions.the_manager 4 10 0 action eq_refl)
        as (Hthere & Hback & _)
  end.
  split.
  - change 4%nat with (Z.to_nat 4). rewrite Hthere. reflexivity.
  - change 8%nat with (Z.to_nat 4 + Z.to_nat 4)%nat. rewrite Hback.
    reflexivity.
Defined.

(** Between 0 and 7 every 3 updates. *)
Lemma toggle_action_example :
  exists action : template_actions.toggle_template_action.t,
    template_actions.toggle_template_action.make example_actions.the_manager
      3 7 0 = Ok action
    /\ snd (template_actions.repeat_update
              (template_actions.toggle_template_action.update
                 example_actions.the_manager) 2 action 0) = 0
    /\ snd (template_actions.repeat_update
              (template_actions.toggle_template_action.update
                 example_actions.the_manager) 3 action 0) = 7
    /\ template_actions.repeat_update
         (template_actions.toggle_template_action.update
            example_actions.the_manager) 6 action 0 = (action, 0).
Proof.
  eexists. split; [reflexivity|].
  match goal with
  | |- context [template_actions.repeat_update _ _ ?action _] =>
      destruct (toggle_action_period
                  example_actions.the_manager 3 7 0 action eq_refl)
        as (Hshort & _)
  end.
  destruct (Hshort ltac:(lia)) as (Hbefore & Hthere & Hback).
  split; [|split].
  - apply (Hbefore 2%nat). lia.
  - change 3%nat with (Z.to_nat 3). rewrite Hthere. reflexivity.
  - change 6%nat with (Z.to_nat 3 + Z.to_nat 3)%nat. rewrite Hback.
    reflexivity.
Defined.

(** A cycle from 0 to 9 in steps of 3: from 8 to 1. *)
Lemma cyclic_by_example :
  snd (template_actions.cyclic_by_template_action.update
         example_actions.the_manager
         {| template_actions.cyclic_by_template_action._delta_property := 3;
            template_actions.cyclic_by_template_action._min_property := 0;
            template_actions.cyclic_by_template_action._after_max_property :=
              10;
            template_actions.cyclic_by_template_action._initial_property :=
              8 |} 8) = 1
  /\ 0 <= 1 < 10.
Proof.
  destruct (cyclic_by_stays_in_range example_actions.the_manager
              {| template_actions.cyclic_by_template_action._delta_property :=
                   3;
                 template_actions.cyclic_by_template_action._min_property :=
                   0;
                 template_actions.cyclic_by_template_action._after_max_property :=
                   10;
                 template_actions.cyclic_by_template_action._initial_property :=
                   8 |} 8) as [Hrange _].
  - reflexivity.
  - simpl. lia.
  - simpl. lia.
  - simpl. lia.
  - simpl. lia.
  - split; [reflexivity|exact Hrange].
Defined.

(** A duration of 3: two updates, a reset, one update. *)
Lemma reset_keeps_the_cyclic_counter_example :
  exists (plain : template_actions.duration_by_template_action.t)
         (cyclic : template_actions.cyclic_duration_by_template_action.t),
    template_actions.duration_by_template_action.make
      example_actions.the_manager 3 5 10 = Ok plain
    /\ template_actions.cyclic_duration_by_template_action.make
         example_actions.the_manager 3 5 0 100 10 = Ok cyclic
    /\ snd (template_actions.duration_by_template_action.update
              example_actions.the_manager
              (fst (template_actions.duration_by_template_action.reset
                      example_actions.the_manager
                      (fst (template_actions.repeat_update
                              (template_actions.duration_by_template_action.update
                                 example_actions.the_manager) 2 plain 10))
                      10))
              10) = 10
    /\ snd (template_actions.cyclic_duration_by_template_action.update
              example_actions.the_manager
              (fst (template_actions.cyclic_duration_by_template_action.reset
                      example_actions.the_manager
                      (fst (template_actions.repeat_update
                              (template_actions.cyclic_duration_by_template_action.update
                                 example_actions.the_manager) 2 cyclic 10))
                      10))
              10) = 15.
Proof.
  eexists. eexists. split; [reflexivity|]. split; [reflexivity|].
  match goal with
  | |- context [template_actions.repeat_update
                  (template_actions.duration_by_template_action.update _)
                  _ ?plain _] =>
      match goal with
      | |- context [template_actions.repeat_update
                      (template_actions.cyclic_duration_by_template_action.update _)
                      _ ?cyclic _] =>
          destruct (reset_keeps_the_cyclic_counter
                      example_actions.the_manager 3 5 0 100 10 plain cyclic
                      eq_refl eq_refl ltac:(lia))
            as (_ & _ & Hplain & Hcyclic)
      end
  end.
  split.
  - exact Hplain.
  - exact Hcyclic.
Defined.

(** ** The bomb at concrete inputs *)

(** With A held down for the 182 updates after the throw: the bomb is
    inactive again and the hero was not asked for another one. *)
Lemma bomb_runs_its_course_example :
  exists (started : @game_hero_bomb.t Z) (first_log : list game_hero_bomb.event)
         (next : @game_hero_bomb.t Z) (log : list game_hero_bomb.event),
    game_hero_bomb.update example_bomb.the_blending example_bomb.the_bomb
      example_bomb.the_throw = Ok (started, first_log)
    /\ game_hero_bomb.updates example_bomb.the_blending
         (replicate 182 example_bomb.held) started = Ok (next, log)
    /\ game_hero_bomb._status next = game_hero_bomb.INACTIVE
    /\ game_hero_bomb.bombs_asked log = 0%nat.
Proof.
  destruct (bomb_runs_its_course example_bomb.the_blending
              example_bomb.the_bomb example_bomb.the_throw
              (replicate 182 example_bomb.held))
    as (started & first_log & next & log & Estart & Eupdates & Hstatus & _
        & _ & Hasked).
  - reflexivity.
  - reflexivity.
  - reflexivity.
  - rewrite length_replicate. lia.
  - exists started, first_log, next, log.
    split; [exact Estart|]. split; [exact Eupdates|].
    split; [exact Hstatus|exact Hasked].
Defined.

(** The same throw: seven flame sounds. *)
Lemma bomb_flame_sounds_example :
  exists (started : @game_hero_bomb.t Z) (first_log : list game_hero_bomb.event)
         (closed : @game_hero_bomb.t Z) (log : list game_hero_bomb.event),
    game_hero_bomb.update example_bomb.the_blending example_bomb.the_bomb
      example_bomb.the_throw = Ok (started, first_log)
    /\ game_hero_bomb.updates example_bomb.the_blending
         (replicate 50 example_bomb.held ++ replicate 132 example_bomb.held)
         started = Ok (closed, log)
    /\ game_hero_bomb.flame_sounds log = 7%nat.
Proof.
  destruct (bomb_flame_sounds example_bomb.the_blending
              example_bomb.the_bomb example_bomb.the_throw
              (replicate 50 example_bomb.held)
              (replicate 132 example_bomb.held))
    as (started & first_log & open & closed & open_log & close_log & Estart
        & _ & _ & Eupdates & _ & _ & _ & _ & _ & Hsounds).
  - reflexivity.
  - reflexivity.
  - reflexivity.
  - apply length_replicate.
  - apply length_replicate.
  - exists started, first_log, closed, (open_log ++ close_log).
    split; [exact Estart|]. split; [exact Eupdates|exact Hsounds].
Defined.
